(** * CUDA-GDB core: state mirror, event processor and notification channel

    A shallow embedding of [cuda-state.c], [cuda-notifications.c],
    [cuda-events.c] and of the "info cuda" dispatcher of
    [cuda-commands.c], together with the properties the design
    document states about them.

    Conventions.
    - C globals become fields of an explicit world that every function
      threads through.
    - A function that can call gdb's [error] or trip a [gdb_assert]
      returns an [outcome]: [Done] with its result, or [Throw] with the
      exception that unwinds to the top level.
    - Fixed-width unsigned integers are [Z] reduced modulo their width
      where the C code can leave the range. *)

From stdpp Require Import base numbers option list strings gmap.

Local Open Scope Z_scope.

(** ** Machine integers *)

Definition u32 (x : Z) : Z := x `mod` 2 ^ 32.
Definition u64 (x : Z) : Z := x `mod` 2 ^ 64.
(** Conversion of a [uint32_t] to [int] (two's complement). *)
Definition s32 (x : Z) : Z := (x + 2 ^ 31) `mod` 2 ^ 32 - 2 ^ 31.
(** [~x] on a [uint32_t] and on a [uint64_t]. *)
Definition not32 (x : Z) : Z := u32 (Z.lnot x).
Definition not64 (x : Z) : Z := u64 (Z.lnot x).
(** [(mask >> i) & 1] as a truth value. *)
Definition bit (mask : Z) (i : nat) : bool := Z.testbit mask (Z.of_nat i).
(** [~0U] *)
Definition UINT32_MAX : Z := 2 ^ 32 - 1.

(** ** Exceptions and the state-and-exception monad *)

Inductive exn : Type :=
  | Error (msg : string)            (* error (_("...")) *)
  | Internal_error (expr : string). (* a failed gdb_assert (expr) *)

Inductive outcome (W A : Type) : Type :=
  | Done (a : A) (w : W)
  | Throw (e : exn) (w : W).
Arguments Done {W A} a w.
Arguments Throw {W A} e w.

Definition M (W A : Type) : Type := W -> outcome W A.

Definition ret {W A} (a : A) : M W A := fun w => Done a w.
Definition bind {W A B} (m : M W A) (k : A -> M W B) : M W B :=
  fun w => match m w with
           | Done a w' => k a w'
           | Throw e w' => Throw e w'
           end.
Definition throw {W A} (e : exn) : M W A := fun w => Throw e w.
Definition gets {W A} (f : W -> A) : M W A := fun w => Done (f w) w.
Definition modify {W} (f : W -> W) : M W unit := fun w => Done tt (f w).

Declare Scope mon_scope.
Delimit Scope mon_scope with mon.
Notation "x <- m ;; k" := (bind m (fun x => k))
  (at level 20, m at level 99, k at level 200, only parsing)
  : mon_scope.
Notation "m ;; k" := (bind m (fun _ => k))
  (at level 100, k at level 200, only parsing, right associativity)
  : mon_scope.
Local Open Scope mon_scope.

Definition gdb_assert {W} (expr : string) (b : bool) : M W unit :=
  if b then ret tt else throw (Internal_error expr).
Definition error {W A} (msg : string) : M W A := throw (Error msg).
Definition when {W} (b : bool) (m : M W unit) : M W unit :=
  if b then m else ret tt.

(** [for (i = 0; i < n; ++i) body (i)] with a bound fixed on entry. *)
Fixpoint for_each {W} (l : list nat) (body : nat -> M W unit) : M W unit :=
  match l with
  | [] => ret tt
  | i :: l' => body i ;; for_each l' body
  end.
Definition for_upto {W} (n : nat) (body : nat -> M W unit) : M W unit :=
  for_each (seq 0 n) body.

Definition world_of {W A} (o : outcome W A) : W :=
  match o with Done _ w => w | Throw _ w => w end.
Definition is_done {W A} (o : outcome W A) : bool :=
  match o with Done _ _ => true | Throw _ _ => false end.

(** * Notification channel ([cuda-notifications.c]) *)

Module Notification.

  (** The payload handed to the debug-API callback. *)
Record CUDBGEventCallbackData : Type := mkData {
    data_tid : Z;      (* uint32_t tid *)
    data_timeout : Z   (* uint32_t timeout *)
  }.
Definition zero_data : CUDBGEventCallbackData := mkData 0 0.

  (** [cuda_notification_info], mutex apart (the mutex is traced). *)
Record info_t : Type := mkInfo {
    initialized : bool;
    blocked : bool;
    pending_send : bool;
    aliased_event : bool;
    sent : bool;
    received : bool;
    tid : Z;
    pending_send_data : CUDBGEventCallbackData
  }.
Definition zero_info : info_t :=
    mkInfo false false false false false false 0 zero_data.

Inductive field : Type :=
    | F_initialized | F_blocked | F_pending_send | F_aliased_event
    | F_sent | F_received | F_tid | F_pending_send_data.

  (** What an observer of the process sees, in program order. *)
Inductive event : Type :=
    | EvLock                          (* pthread_mutex_lock returned *)
    | EvUnlock                        (* pthread_mutex_unlock *)
    | EvMutexInit                     (* pthread_mutex_init *)
    | EvMemset                        (* the whole record is zeroed *)
    | EvLoad (f : field)
    | EvStore (f : field)
    | EvKill (t : Z) (ok : bool).     (* a SIGTRAP was sent to thread t *)

Record world : Type := mkWorld {
    info : info_t;
    trace : list event    (* oldest first *)
  }.

  (** The host side a send depends on. *)
Record host : Type := mkHost {
    cuda_platform_supports_tid : bool;
    tkill : Z -> Z;           (* syscall (SYS_tkill, tid, SIGTRAP) *)
    threads : list Z          (* tids of gdb's thread list, in order *)
  }.

  (** The stop gdb woke up upon, as [cuda_notification_analyze] reads it. *)
Inductive target_waitkind : Type :=
    | TARGET_WAITKIND_EXITED | TARGET_WAITKIND_STOPPED
    | TARGET_WAITKIND_SIGNALLED | TARGET_WAITKIND_OTHER (k : Z).
Inductive target_signal : Type :=
    | TARGET_SIGNAL_TRAP | TARGET_SIGNAL_OTHER (s : Z).
Record stop : Type := mkStop {
    stop_tid : Z;               (* cuda_gdb_get_tid (ptid) *)
    ws_kind : target_waitkind;
    ws_sig : target_signal;
    trap_expected : bool        (* inferior_thread ()->trap_expected *)
  }.

Definition N (A : Type) : Type := M world A.

Definition emit (e : event) : N unit :=
    modify (fun w => mkWorld (info w) (trace w ++ [e])).
Definition load {A} (f : field) (proj : info_t -> A) : N A :=
    emit (EvLoad f) ;; gets (fun w => proj (info w)).
Definition store (f : field) (upd : info_t -> info_t) : N unit :=
    emit (EvStore f) ;; modify (fun w => mkWorld (upd (info w)) (trace w)).

Definition set_initialized (b : bool) (i : info_t) : info_t :=
    mkInfo b (blocked i) (pending_send i) (aliased_event i) (sent i)
           (received i) (tid i) (pending_send_data i).
Definition set_blocked (b : bool) (i : info_t) : info_t :=
    mkInfo (initialized i) b (pending_send i) (aliased_event i) (sent i)
           (received i) (tid i) (pending_send_data i).
Definition set_pending_send (b : bool) (i : info_t) : info_t :=
    mkInfo (initialized i) (blocked i) b (aliased_event i) (sent i)
           (received i) (tid i) (pending_send_data i).
Definition set_aliased_event (b : bool) (i : info_t) : info_t :=
    mkInfo (initialized i) (blocked i) (pending_send i) b (sent i)
           (received i) (tid i) (pending_send_data i).
Definition set_sent (b : bool) (i : info_t) : info_t :=
    mkInfo (initialized i) (blocked i) (pending_send i) (aliased_event i) b
           (received i) (tid i) (pending_send_data i).
Definition set_received (b : bool) (i : info_t) : info_t :=
    mkInfo (initialized i) (blocked i) (pending_send i) (aliased_event i)
           (sent i) b (tid i) (pending_send_data i).
Definition set_tid (t : Z) (i : info_t) : info_t :=
    mkInfo (initialized i) (blocked i) (pending_send i) (aliased_event i)
           (sent i) (received i) t (pending_send_data i).
Definition set_pending_send_data (d : CUDBGEventCallbackData) (i : info_t)
    : info_t :=
    mkInfo (initialized i) (blocked i) (pending_send i) (aliased_event i)
           (sent i) (received i) (tid i) d.

Definition cuda_notification_initialize : N unit :=
    emit EvMemset ;;
    modify (fun w => mkWorld zero_info (trace w)) ;;
    emit EvMutexInit ;;
    store F_initialized (set_initialized true).

Definition assert_initialized : N unit :=
    b <- load F_initialized initialized ;;
    gdb_assert "cuda_notification_info.initialized" b.

Definition cuda_notification_reset : N unit :=
    assert_initialized ;;
    store F_blocked (set_blocked false) ;;
    store F_pending_send (set_pending_send false) ;;
    store F_sent (set_sent false) ;;
    store F_received (set_received false) ;;
    store F_tid (set_tid 0).

Definition cuda_notification_acquire_lock : N unit :=
    assert_initialized ;; emit EvLock.

Definition cuda_notification_release_lock : N unit :=
    assert_initialized ;; emit EvUnlock.

  (** Returns what the system call returns: 0 on success. *)
Definition cuda_notification_notify_thread (h : host) (t : Z) : N Z :=
    let r := tkill h t in
    emit (EvKill t (r =? 0)) ;; ret r.

  (** [iterate_over_threads (cuda_notification_notify_first_valid_thread,
      NULL)]: the first thread of the list for which the callback returns
      non-zero, or NULL. *)
Fixpoint iterate_over_threads (h : host) (tps : list Z) : N (option Z) :=
    match tps with
    | [] => ret None
    | tp :: rest =>
        r <- cuda_notification_notify_thread h tp ;;
        if r =? 0 then ret (Some tp) else iterate_over_threads h rest
    end.

Definition cuda_notification_send (h : host) (data : CUDBGEventCallbackData)
    : N unit :=
    direct <-
      (if cuda_platform_supports_tid h && negb (data_tid data =? 0)
       then
         err <- cuda_notification_notify_thread h (s32 (data_tid data)) ;;
         if err =? 0
         then store F_tid (set_tid (data_tid data)) ;;
              store F_sent (set_sent true) ;;
              ret true
         else ret false
       else ret false) ;;
    if direct : bool then ret tt
    else
      tp <- iterate_over_threads h (threads h) ;;
      match tp with
      | Some t => store F_tid (set_tid (u32 t)) ;;
                  store F_sent (set_sent true)
      | None => ret tt
      end.

Definition cuda_notification_accept (h : host) : N unit :=
    cuda_notification_acquire_lock ;;
    store F_blocked (set_blocked false) ;;
    p <- load F_pending_send pending_send ;;
    when p
      (d <- load F_pending_send_data pending_send_data ;;
       cuda_notification_send h d ;;
       store F_pending_send (set_pending_send false) ;;
       store F_pending_send_data (set_pending_send_data zero_data)) ;;
    cuda_notification_release_lock.

Definition cuda_notification_block : N unit :=
    cuda_notification_acquire_lock ;;
    store F_blocked (set_blocked true) ;;
    cuda_notification_release_lock.

Definition cuda_notification_notify (h : host)
    (data : CUDBGEventCallbackData) : N unit :=
    cuda_notification_acquire_lock ;;
    (if negb (data_timeout data =? 0)
     then
       s <- load F_sent sent ;;
       r <- (if s : bool then b <- load F_received received ;; ret (negb b)
             else ret false) ;;
       when r (cuda_notification_send h data)
     else
       s <- load F_sent sent ;;
       if s : bool then store F_aliased_event (set_aliased_event true)
       else
         p <- load F_pending_send pending_send ;;
         if p : bool then ret tt
         else
           b <- load F_blocked blocked ;;
           if b : bool
           then store F_pending_send (set_pending_send true) ;;
                store F_pending_send_data (set_pending_send_data data)
           else cuda_notification_send h data) ;;
    cuda_notification_release_lock.

Definition cuda_notification_aliased_event : N bool :=
    cuda_notification_acquire_lock ;;
    a <- load F_aliased_event aliased_event ;;
    cuda_notification_release_lock ;;
    ret a.

Definition cuda_notification_reset_aliased_event : N unit :=
    cuda_notification_acquire_lock ;;
    store F_aliased_event (set_aliased_event false) ;;
    cuda_notification_release_lock.

Definition cuda_notification_pending : N bool :=
    cuda_notification_acquire_lock ;;
    s <- load F_sent sent ;;
    p <- (if s : bool then r <- load F_received received ;; ret (negb r)
          else ret false) ;;
    cuda_notification_release_lock ;;
    ret p.

Definition cuda_notification_received : N bool :=
    cuda_notification_acquire_lock ;;
    r <- load F_received received ;;
    cuda_notification_release_lock ;;
    ret r.

Definition is_stopped (k : target_waitkind) : bool :=
    match k with TARGET_WAITKIND_STOPPED => true | _ => false end.
Definition is_trap (s : target_signal) : bool :=
    match s with TARGET_SIGNAL_TRAP => true | _ => false end.

Definition cuda_notification_analyze (st : stop) : N unit :=
    cuda_notification_acquire_lock ;;
    s <- load F_sent sent ;;
    c <- (if s : bool
          then t <- load F_tid tid ;;
               ret ((t =? stop_tid st) && is_stopped (ws_kind st)
                    && is_trap (ws_sig st) && negb (trap_expected st))
          else ret false) ;;
    when c
      (load F_tid tid ;;
       store F_received (set_received true)) ;;
    cuda_notification_release_lock.

Definition cuda_notification_mark_consumed : N unit :=
    cuda_notification_acquire_lock ;;
    r <- load F_received received ;;
    when r
      (load F_tid tid ;;
       store F_sent (set_sent false) ;;
       store F_received (set_received false) ;;
       store F_tid (set_tid 0)) ;;
    cuda_notification_release_lock.

Definition cuda_notification_consume_pending : N unit :=
    store F_pending_send (set_pending_send false).

  (** The operations of the channel, as a client can call them. *)
Inductive op : Type :=
    | Initialize | Reset
    | Notify (h : host) (data : CUDBGEventCallbackData)
    | Block | Accept (h : host)
    | Analyze (st : stop)
    | Mark_consumed | Consume_pending
    | Aliased_event | Reset_aliased_event | Pending | Received.

Definition ignore {A} (m : N A) : N unit := m ;; ret tt.

Definition run (o : op) : N unit :=
    match o with
    | Initialize => cuda_notification_initialize
    | Reset => cuda_notification_reset
    | Notify h d => cuda_notification_notify h d
    | Block => cuda_notification_block
    | Accept h => cuda_notification_accept h
    | Analyze st => cuda_notification_analyze st
    | Mark_consumed => cuda_notification_mark_consumed
    | Consume_pending => cuda_notification_consume_pending
    | Aliased_event => ignore cuda_notification_aliased_event
    | Reset_aliased_event => cuda_notification_reset_aliased_event
    | Pending => ignore cuda_notification_pending
    | Received => ignore cuda_notification_received
    end.

  (** The record as the loader leaves it: static storage is zeroed. *)
Definition boot : world := mkWorld zero_info [].

  (** States the channel can be in: after any sequence of calls, whether
      they returned or unwound through a failed assertion. *)
Inductive reachable : world -> Prop :=
    | reach_boot : reachable boot
    | reach_step w o : reachable w -> reachable (world_of (run o w)).

  (** The two forbidden combinations of the header comment. *)
Definition legal (i : info_t) : Prop :=
    ~ (sent i = true /\ pending_send i = true) /\
    ~ (sent i = false /\ received i = true).

  (** Signals in a trace. *)
Definition kills (tr : list event) : list (Z * bool) :=
    omap (fun e => match e with EvKill t ok => Some (t, ok) | _ => None end) tr.
Definition delivered (tr : list event) : list Z :=
    omap (fun e => match e with EvKill t true => Some t | _ => None end) tr.

  (** Lock discipline of a trace: every access to a field of the record
      other than [initialized] happens while the mutex is held.  The
      boolean is the state of the mutex on entry. *)
Fixpoint guarded_from (held : bool) (tr : list event) : bool :=
    match tr with
    | [] => true
    | EvLock :: tr' => guarded_from true tr'
    | EvUnlock :: tr' => guarded_from false tr'
    | EvLoad F_initialized :: tr' => guarded_from held tr'
    | EvLoad _ :: tr' | EvStore _ :: tr' => held && guarded_from held tr'
    | _ :: tr' => guarded_from held tr'
    end.
Definition guarded (tr : list event) : bool := guarded_from false tr.

  (** The events a call adds when run in [w]. *)
Definition new_events {A} (m : N A) (w : world) : list event :=
    drop (length (trace w)) (trace (world_of (m w))).

End Notification.

(** * The process-wide state of the debugger core *)

(** ** Records of [cuda-state.c]

    One module per C struct, so that fields keep their C names. *)

Record CuDim3 : Type := mkDim3 { dim_x : Z; dim_y : Z; dim_z : Z }.
Definition zero_dim3 : CuDim3 := mkDim3 0 0 0.

Definition CACHED : bool := true.

Module Lane.
Record t : Type := mk {
    thread_idx_p : bool;
    pc_p : bool;
    exception_p : bool;
    virtual_pc_p : bool;
    timestamp_p : bool;
    thread_idx : CuDim3;
    pc : Z;                 (* uint64_t *)
    exception : Z;          (* CUDBGException_t *)
    virtual_pc : Z;         (* uint64_t *)
    timestamp : Z           (* cuda_clock_t *)
  }.
Definition zero : t :=
    mk false false false false false zero_dim3 0 0 0 0.
Definition set_pc (v : Z) (l : t) : t :=
    mk (thread_idx_p l) CACHED (exception_p l) (virtual_pc_p l)
       (timestamp_p l) (thread_idx l) v (exception l) (virtual_pc l)
       (timestamp l).
Definition set_virtual_pc (v : Z) (l : t) : t :=
    mk (thread_idx_p l) (pc_p l) (exception_p l) CACHED
       (timestamp_p l) (thread_idx l) (pc l) (exception l) v (timestamp l).
Definition set_exception (v : Z) (l : t) : t :=
    mk (thread_idx_p l) (pc_p l) true (virtual_pc_p l)
       (timestamp_p l) (thread_idx l) (pc l) v (virtual_pc l) (timestamp l).
Definition set_timestamp (v : Z) (l : t) : t :=
    mk (thread_idx_p l) (pc_p l) (exception_p l) (virtual_pc_p l)
       true (thread_idx l) (pc l) (exception l) (virtual_pc l) v.
  (** The five stores of [lane_invalidate]. *)
Definition invalidate (l : t) : t :=
    mk false false false false false
       (thread_idx l) (pc l) (exception l) (virtual_pc l) (timestamp l).
End Lane.

Module Warp.
Record t : Type := mk {
    valid_p : bool;
    broken_p : bool;
    block_idx_p : bool;
    kernel_p : bool;
    grid_id_p : bool;
    valid_lanes_mask_p : bool;
    active_lanes_mask_p : bool;
    timestamp_p : bool;
    valid : bool;
    broken : bool;
    block_idx : CuDim3;
    kernel : option nat;        (* kernel_t *)
    grid_id : Z;                (* uint64_t *)
    valid_lanes_mask : Z;       (* uint32_t *)
    active_lanes_mask : Z;      (* uint32_t *)
    timestamp : Z;
    ln : list Lane.t            (* lane_state_t ln[CUDBG_MAX_LANES] *)
  }.
Definition zero (lanes : nat) : t :=
    mk false false false false false false false false false false
       zero_dim3 None 0 0 0 0 (replicate lanes Lane.zero).
Definition set_ln (v : list Lane.t) (w : t) : t :=
    mk (valid_p w) (broken_p w) (block_idx_p w) (kernel_p w) (grid_id_p w)
       (valid_lanes_mask_p w) (active_lanes_mask_p w) (timestamp_p w)
       (valid w) (broken w) (block_idx w) (kernel w) (grid_id w)
       (valid_lanes_mask w) (active_lanes_mask w) (timestamp w) v.
Definition set_valid_lanes_mask (v : Z) (w : t) : t :=
    mk (valid_p w) (broken_p w) (block_idx_p w) (kernel_p w) (grid_id_p w)
       CACHED (active_lanes_mask_p w) (timestamp_p w)
       (valid w) (broken w) (block_idx w) (kernel w) (grid_id w)
       v (active_lanes_mask w) (timestamp w) (ln w).
Definition set_active_lanes_mask (v : Z) (w : t) : t :=
    mk (valid_p w) (broken_p w) (block_idx_p w) (kernel_p w) (grid_id_p w)
       (valid_lanes_mask_p w) CACHED (timestamp_p w)
       (valid w) (broken w) (block_idx w) (kernel w) (grid_id w)
       (valid_lanes_mask w) v (timestamp w) (ln w).
Definition set_timestamp (v : Z) (w : t) : t :=
    mk (valid_p w) (broken_p w) (block_idx_p w) (kernel_p w) (grid_id_p w)
       (valid_lanes_mask_p w) (active_lanes_mask_p w) true
       (valid w) (broken w) (block_idx w) (kernel w) (grid_id w)
       (valid_lanes_mask w) (active_lanes_mask w) v (ln w).
  (** The eight stores that end [warp_invalidate]. *)
Definition invalidate (w : t) : t :=
    mk false false false false false false false false
       (valid w) (broken w) (block_idx w) (kernel w) (grid_id w)
       (valid_lanes_mask w) (active_lanes_mask w) (timestamp w) (ln w).
End Warp.

Module Sm.
Record t : Type := mk {
    valid_warps_mask_p : bool;
    broken_warps_mask_p : bool;
    valid_warps_mask : Z;       (* uint64_t *)
    broken_warps_mask : Z;      (* uint64_t *)
    wp : list Warp.t            (* warp_state_t wp[CUDBG_MAX_WARPS] *)
  }.
Definition zero (warps lanes : nat) : t :=
    mk false false 0 0 (replicate warps (Warp.zero lanes)).
Definition set_wp (v : list Warp.t) (s : t) : t :=
    mk (valid_warps_mask_p s) (broken_warps_mask_p s) (valid_warps_mask s)
       (broken_warps_mask s) v.
Definition set_valid_warps_mask (v : Z) (s : t) : t :=
    mk CACHED (broken_warps_mask_p s) v (broken_warps_mask s) (wp s).
Definition set_broken_warps_mask (v : Z) (s : t) : t :=
    mk (valid_warps_mask_p s) CACHED (valid_warps_mask s) v (wp s).
  (** The two stores shared by [sm_invalidate] and [warp_invalidate]. *)
Definition invalidate_masks (s : t) : t :=
    mk false false (valid_warps_mask s) (broken_warps_mask s) (wp s).
End Sm.

(** ** Contexts ([cuda-context.h])

    A [context_t] is a pointer: an address in the heap of context
    objects, or NULL. *)

Definition context_t : Type := option nat.

(** A [contexts_t] points to the registry of one device; the registry is
    stored in that device's state, so the pointer is the device index. *)
Definition contexts_t : Type := nat.

Record context_st : Type := mkContext {
  context_id : Z;           (* uint64_t, the CUcontext handle *)
  context_dev_id : nat;
  context_modules : list Z  (* ids of the modules loaded in the context *)
}.

Record contexts_st : Type := mkContexts {
  ctx_list : list context_t;            (* all contexts on the device *)
  ctx_stacks : gmap Z (list context_t)  (* context stack of each host thread *)
}.

Module Dev.
Record t : Type := mk {
    valid_p : bool;
    num_sms_p : bool;
    num_warps_p : bool;
    num_lanes_p : bool;
    num_registers_p : bool;
    dev_type_p : bool;
    sm_type_p : bool;
    filter_exception_state_p : bool;
    valid : bool;
    suspended : bool;
    dev_type : string;
    sm_type : string;
    num_sms : nat;
    num_warps : nat;
    num_lanes : nat;
    num_registers : nat;
    sm : list Sm.t;                 (* sm_state_t sm[CUDBG_MAX_SMS] *)
    contexts : option contexts_st   (* contexts_t, NULL until initialised *)
  }.
Definition zero (sms warps lanes : nat) : t :=
    mk false false false false false false false false false false
       "" "" 0%nat 0%nat 0%nat 0%nat
       (replicate sms (Sm.zero warps lanes)) None.
Definition set_sm (v : list Sm.t) (d : t) : t :=
    mk (valid_p d) (num_sms_p d) (num_warps_p d) (num_lanes_p d)
       (num_registers_p d) (dev_type_p d) (sm_type_p d)
       (filter_exception_state_p d) (valid d) (suspended d) (dev_type d)
       (sm_type d) (num_sms d) (num_warps d) (num_lanes d) (num_registers d)
       v (contexts d).
Definition set_contexts (v : option contexts_st) (d : t) : t :=
    mk (valid_p d) (num_sms_p d) (num_warps_p d) (num_lanes_p d)
       (num_registers_p d) (dev_type_p d) (sm_type_p d)
       (filter_exception_state_p d) (valid d) (suspended d) (dev_type d)
       (sm_type d) (num_sms d) (num_warps d) (num_lanes d) (num_registers d)
       (sm d) v.
Definition set_valid_p (v : bool) (d : t) : t :=
    mk v (num_sms_p d) (num_warps_p d) (num_lanes_p d)
       (num_registers_p d) (dev_type_p d) (sm_type_p d)
       (filter_exception_state_p d) (valid d) (suspended d) (dev_type d)
       (sm_type d) (num_sms d) (num_warps d) (num_lanes d) (num_registers d)
       (sm d) (contexts d).
Definition set_valid (v : bool) (d : t) : t :=
    mk (valid_p d) (num_sms_p d) (num_warps_p d) (num_lanes_p d)
       (num_registers_p d) (dev_type_p d) (sm_type_p d)
       (filter_exception_state_p d) v (suspended d) (dev_type d)
       (sm_type d) (num_sms d) (num_warps d) (num_lanes d) (num_registers d)
       (sm d) (contexts d).
Definition set_filter_exception_state_p (v : bool) (d : t) : t :=
    mk (valid_p d) (num_sms_p d) (num_warps_p d) (num_lanes_p d)
       (num_registers_p d) (dev_type_p d) (sm_type_p d)
       v (valid d) (suspended d) (dev_type d)
       (sm_type d) (num_sms d) (num_warps d) (num_lanes d) (num_registers d)
       (sm d) (contexts d).
Definition set_suspended (v : bool) (d : t) : t :=
    mk (valid_p d) (num_sms_p d) (num_warps_p d) (num_lanes_p d)
       (num_registers_p d) (dev_type_p d) (sm_type_p d)
       (filter_exception_state_p d) (valid d) v (dev_type d)
       (sm_type d) (num_sms d) (num_warps d) (num_lanes d) (num_registers d)
       (sm d) (contexts d).
Definition set_num_sms (v : nat) (d : t) : t :=
    mk (valid_p d) (num_sms_p d) (num_warps_p d) (num_lanes_p d)
       (num_registers_p d) (dev_type_p d) (sm_type_p d)
       (filter_exception_state_p d) (valid d) (suspended d) (dev_type d)
       (sm_type d) v (num_warps d) (num_lanes d) (num_registers d)
       (sm d) (contexts d).
Definition set_num_sms_p (v : bool) (d : t) : t :=
    mk (valid_p d) v (num_warps_p d) (num_lanes_p d)
       (num_registers_p d) (dev_type_p d) (sm_type_p d)
       (filter_exception_state_p d) (valid d) (suspended d) (dev_type d)
       (sm_type d) (num_sms d) (num_warps d) (num_lanes d) (num_registers d)
       (sm d) (contexts d).
Definition set_num_warps (v : nat) (d : t) : t :=
    mk (valid_p d) (num_sms_p d) (num_warps_p d) (num_lanes_p d)
       (num_registers_p d) (dev_type_p d) (sm_type_p d)
       (filter_exception_state_p d) (valid d) (suspended d) (dev_type d)
       (sm_type d) (num_sms d) v (num_lanes d) (num_registers d)
       (sm d) (contexts d).
Definition set_num_warps_p (v : bool) (d : t) : t :=
    mk (valid_p d) (num_sms_p d) v (num_lanes_p d)
       (num_registers_p d) (dev_type_p d) (sm_type_p d)
       (filter_exception_state_p d) (valid d) (suspended d) (dev_type d)
       (sm_type d) (num_sms d) (num_warps d) (num_lanes d) (num_registers d)
       (sm d) (contexts d).
Definition set_num_lanes (v : nat) (d : t) : t :=
    mk (valid_p d) (num_sms_p d) (num_warps_p d) (num_lanes_p d)
       (num_registers_p d) (dev_type_p d) (sm_type_p d)
       (filter_exception_state_p d) (valid d) (suspended d) (dev_type d)
       (sm_type d) (num_sms d) (num_warps d) v (num_registers d)
       (sm d) (contexts d).
Definition set_num_lanes_p (v : bool) (d : t) : t :=
    mk (valid_p d) (num_sms_p d) (num_warps_p d) v
       (num_registers_p d) (dev_type_p d) (sm_type_p d)
       (filter_exception_state_p d) (valid d) (suspended d) (dev_type d)
       (sm_type d) (num_sms d) (num_warps d) (num_lanes d) (num_registers d)
       (sm d) (contexts d).
End Dev.

Module Sys.
Record t : Type := mk {
    num_devices_p : bool;
    num_devices : nat;
    dev : list Dev.t;               (* device_state_t dev[CUDBG_MAX_DEVICES] *)
    suspended_devices_mask : Z      (* uint32_t *)
  }.
Definition set_num_devices_p (v : bool) (s : t) : t :=
    mk v (num_devices s) (dev s) (suspended_devices_mask s).
Definition set_num_devices (v : nat) (s : t) : t :=
    mk (num_devices_p s) v (dev s) (suspended_devices_mask s).
Definition set_dev (v : list Dev.t) (s : t) : t :=
    mk (num_devices_p s) (num_devices s) v (suspended_devices_mask s).
Definition set_suspended_devices_mask (v : Z) (s : t) : t :=
    mk (num_devices_p s) (num_devices s) (dev s) v.
End Sys.

(** The array bounds of [cudadebugger.h]. *)
Record limits : Type := mkLimits {
  CUDBG_MAX_DEVICES : nat;
  CUDBG_MAX_SMS : nat;
  CUDBG_MAX_WARPS : nat;
  CUDBG_MAX_LANES : nat
}.

(** [memset (&cuda_system_info, 0, sizeof cuda_system_info)] *)
Definition zero_system (L : limits) : Sys.t :=
  Sys.mk false 0%nat
    (replicate (CUDBG_MAX_DEVICES L)
       (Dev.zero (CUDBG_MAX_SMS L) (CUDBG_MAX_WARPS L) (CUDBG_MAX_LANES L)))
    0.

(** ** The debug-API port

    The device behind the port has a state of its own, [HW]; reads are
    functions of it, and single-stepping, suspending and resuming move
    it.  What the port writes into a [uint32_t] or [uint64_t] is reduced
    to that width by the callers below. *)

Record debug_api (HW : Type) : Type := mkApi {
  api_get_num_devices : HW -> Z;
  api_get_num_sms : HW -> nat -> Z;
  api_get_num_warps : HW -> nat -> Z;
  api_get_num_lanes : HW -> nat -> Z;
  api_read_valid_warps : HW -> nat -> nat -> Z;
  api_read_broken_warps : HW -> nat -> nat -> Z;
  api_read_valid_lanes : HW -> nat -> nat -> nat -> Z;
  api_read_active_lanes : HW -> nat -> nat -> nat -> Z;
  api_read_pc : HW -> nat -> nat -> nat -> nat -> Z;
  api_read_virtual_pc : HW -> nat -> nat -> nat -> nat -> Z;
  api_read_lane_exception : HW -> nat -> nat -> nat -> nat -> Z;
  api_read_device_exception_state : HW -> nat -> Z;
  api_single_step_warp : HW -> nat -> nat -> nat -> HW * Z;
  api_suspend_device : HW -> nat -> HW;
  api_resume_device : HW -> nat -> HW
}.
Arguments api_get_num_devices {HW}.
Arguments api_get_num_sms {HW}.
Arguments api_get_num_warps {HW}.
Arguments api_get_num_lanes {HW}.
Arguments api_read_valid_warps {HW}.
Arguments api_read_broken_warps {HW}.
Arguments api_read_valid_lanes {HW}.
Arguments api_read_active_lanes {HW}.
Arguments api_read_pc {HW}.
Arguments api_read_virtual_pc {HW}.
Arguments api_read_lane_exception {HW}.
Arguments api_read_device_exception_state {HW}.
Arguments api_single_step_warp {HW}.
Arguments api_suspend_device {HW}.
Arguments api_resume_device {HW}.

(** Calls made through the port, in order. *)
Inductive api_call : Type :=
  | Api_get_num_devices
  | Api_get_num_sms (dev : nat)
  | Api_get_num_warps (dev : nat)
  | Api_get_num_lanes (dev : nat)
  | Api_read_valid_warps (dev sm : nat)
  | Api_read_broken_warps (dev sm : nat)
  | Api_read_valid_lanes (dev sm wp : nat)
  | Api_read_active_lanes (dev sm wp : nat)
  | Api_read_pc (dev sm wp ln : nat)
  | Api_read_virtual_pc (dev sm wp ln : nat)
  | Api_read_lane_exception (dev sm wp ln : nat)
  | Api_read_device_exception_state (dev : nat)
  | Api_single_step_warp (dev sm wp : nat)
  | Api_suspend_device (dev : nat)
  | Api_resume_device (dev : nat)
  | Api_get_attach_state
  | Api_set_attach_state.

(** ** The host debugger

    Calls into gdb and into the modules of the core that own the
    breakpoints, the kernels and the ELF images, in order. *)

Inductive cuda_attach_state_t : Type :=
  | CUDA_ATTACH_STATE_NOT_STARTED
  | CUDA_ATTACH_STATE_IN_PROGRESS
  | CUDA_ATTACH_STATE_APP_READY
  | CUDA_ATTACH_STATE_COMPLETE
  | CUDA_ATTACH_STATE_DETACHING
  | CUDA_ATTACH_STATE_DETACH_COMPLETE.

Inductive CUDBGKernelType : Type :=
  | CUDBG_KNL_TYPE_UNKNOWN | CUDBG_KNL_TYPE_SYSTEM | CUDBG_KNL_TYPE_APPLICATION.

Record kernel_launch : Type := mkLaunch {
  kl_dev_id : nat;
  kl_grid_id : Z;
  kl_virt_code_base : Z;
  kl_context_id : Z;
  kl_module_id : Z;
  kl_grid_dim : CuDim3;
  kl_block_dim : CuDim3;
  kl_type : CUDBGKernelType;
  kl_parent_grid_id : Z;
  kl_origin : Z
}.

Inductive host_call : Type :=
  | Warning (msg : string)
  | Printf_unfiltered (msg : string) (context_id : Z) (dev_id : nat)
  | Kernel_invalidate_all              (* kernel_invalidate on every kernel *)
  | Cuda_cleanup_auto_breakpoints (context_id : Z)
  | Cuda_unresolve_breakpoints (context_id : Z)
  | Cuda_resolve_breakpoints (module_id : Z)
  | Cuda_create_auto_breakpoint (pc context_id : Z)
  | Cuda_remove_breakpoints
  | Cuda_insert_breakpoints
  | Contexts_unstack_context (tid : Z)
  | Set_current_context (ctx : context_t)
  | Contexts_remove_context (ctx : context_t)
  | Context_delete (ctx : context_t)
  | Kernels_start_kernel (k : kernel_launch)
  | Kernels_terminate_kernel (dev_id : nat) (grid_id : Z)
  | Clear_current_source_symtab_and_line
  | Clear_displays
  | Kernel_load_elf_images (kernel_id : Z)
  | Switch_to_cuda_thread
  | Print_args_frame
  | Table_output (name : string).

Record options : Type := mkOptions {
  cuda_options_software_preemption : bool;
  cuda_options_show_context_events : bool;
  cuda_options_break_on_launch_application : bool;
  cuda_options_break_on_launch_system : bool
}.

(** ** Coordinates and focus *)

Record cuda_coords_t : Type := mkCoords {
  coords_valid : bool;
  coords_dev : Z; coords_sm : Z; coords_wp : Z; coords_ln : Z;
  coords_kernelId : Z; coords_gridId : Z;
  coords_blockIdx : CuDim3; coords_threadIdx : CuDim3
}.

(** ** The world *)

Record world (HW : Type) : Type := mkWorld {
  cuda_system_info : Sys.t;
  cuda_initialized : bool;
  hw : HW;
  api_calls : list api_call;          (* oldest first *)
  host_calls : list host_call;        (* oldest first *)
  opts : options;
  cuda_clock : Z;
  attach_state : cuda_attach_state_t;
  (* contexts *)
  heap : gmap nat context_st;         (* live context objects, by address *)
  next_address : nat;
  current_context : context_t;
  saved_contexts : list context_t;
  (* focus *)
  current_coords : cuda_coords_t;
  saved_focus : list cuda_coords_t
}.
Arguments mkWorld {HW}.
Arguments cuda_system_info {HW}.
Arguments cuda_initialized {HW}.
Arguments hw {HW}.
Arguments api_calls {HW}.
Arguments host_calls {HW}.
Arguments opts {HW}.
Arguments cuda_clock {HW}.
Arguments attach_state {HW}.
Arguments heap {HW}.
Arguments next_address {HW}.
Arguments current_context {HW}.
Arguments saved_contexts {HW}.
Arguments current_coords {HW}.
Arguments saved_focus {HW}.

Section WorldUpdates.
Context {HW : Type}.
Implicit Type w : world HW.

Definition set_system (s : Sys.t) w : world HW :=
    mkWorld s (cuda_initialized w) (hw w) (api_calls w) (host_calls w)
            (opts w) (cuda_clock w) (attach_state w) (heap w)
            (next_address w) (current_context w) (saved_contexts w)
            (current_coords w) (saved_focus w).
Definition set_hw (h : HW) w : world HW :=
    mkWorld (cuda_system_info w) (cuda_initialized w) h (api_calls w)
            (host_calls w) (opts w) (cuda_clock w) (attach_state w) (heap w)
            (next_address w) (current_context w) (saved_contexts w)
            (current_coords w) (saved_focus w).
Definition log_api (c : api_call) w : world HW :=
    mkWorld (cuda_system_info w) (cuda_initialized w) (hw w)
            (api_calls w ++ [c]) (host_calls w) (opts w) (cuda_clock w)
            (attach_state w) (heap w) (next_address w) (current_context w)
            (saved_contexts w) (current_coords w) (saved_focus w).
Definition log_host (c : host_call) w : world HW :=
    mkWorld (cuda_system_info w) (cuda_initialized w) (hw w)
            (api_calls w) (host_calls w ++ [c]) (opts w) (cuda_clock w)
            (attach_state w) (heap w) (next_address w) (current_context w)
            (saved_contexts w) (current_coords w) (saved_focus w).
Definition set_attach_state (a : cuda_attach_state_t) w : world HW :=
    mkWorld (cuda_system_info w) (cuda_initialized w) (hw w)
            (api_calls w) (host_calls w) (opts w) (cuda_clock w)
            a (heap w) (next_address w) (current_context w)
            (saved_contexts w) (current_coords w) (saved_focus w).
Definition set_heap (h : gmap nat context_st) (next : nat) w
    : world HW :=
    mkWorld (cuda_system_info w) (cuda_initialized w) (hw w)
            (api_calls w) (host_calls w) (opts w) (cuda_clock w)
            (attach_state w) h next (current_context w)
            (saved_contexts w) (current_coords w) (saved_focus w).
Definition set_context_focus (c : context_t) (saved : list context_t) w
    : world HW :=
    mkWorld (cuda_system_info w) (cuda_initialized w) (hw w)
            (api_calls w) (host_calls w) (opts w) (cuda_clock w)
            (attach_state w) (heap w) (next_address w) c saved
            (current_coords w) (saved_focus w).
Definition set_focus (c : cuda_coords_t) (saved : list cuda_coords_t) w
    : world HW :=
    mkWorld (cuda_system_info w) (cuda_initialized w) (hw w)
            (api_calls w) (host_calls w) (opts w) (cuda_clock w)
            (attach_state w) (heap w) (next_address w) (current_context w)
            (saved_contexts w) c saved.
End WorldUpdates.

(** * The state mirror ([cuda-state.c]) *)

Module State.
Section WithPort.
Context {HW : Type} (L : limits) (api : debug_api HW).
Local Open Scope nat_scope.

Local Abbreviation W := (world HW).

  (** *** Access to [cuda_system_info]

      An index outside an array is undefined behaviour in C; here it
      unwinds, so that no result depends on it. *)

Definition out_of_bounds {A} (what : string) : M W A :=
    throw (Internal_error what).

Definition read_dev (dev_id : nat) : M W Dev.t :=
    s <- gets cuda_system_info ;;
    match Sys.dev s !! dev_id with
    | Some d => ret d
    | None => out_of_bounds "cuda_system_info.dev[dev_id]"
    end.
Definition read_sm (dev_id sm_id : nat) : M W Sm.t :=
    d <- read_dev dev_id ;;
    match Dev.sm d !! sm_id with
    | Some s => ret s
    | None => out_of_bounds "dev->sm[sm_id]"
    end.
Definition read_warp (dev_id sm_id wp_id : nat) : M W Warp.t :=
    s <- read_sm dev_id sm_id ;;
    match Sm.wp s !! wp_id with
    | Some w => ret w
    | None => out_of_bounds "sm->wp[wp_id]"
    end.
Definition read_lane (dev_id sm_id wp_id ln_id : nat) : M W Lane.t :=
    w <- read_warp dev_id sm_id wp_id ;;
    match Warp.ln w !! ln_id with
    | Some l => ret l
    | None => out_of_bounds "wp->ln[ln_id]"
    end.

Definition update_dev (f : Dev.t -> Dev.t) (dev_id : nat) (s : Sys.t)
    : Sys.t :=
    Sys.set_dev (alter f dev_id (Sys.dev s)) s.
Definition update_sm (f : Sm.t -> Sm.t) (dev_id sm_id : nat) : Sys.t -> Sys.t :=
    update_dev (fun d => Dev.set_sm (alter f sm_id (Dev.sm d)) d) dev_id.
Definition update_warp (f : Warp.t -> Warp.t) (dev_id sm_id wp_id : nat)
    : Sys.t -> Sys.t :=
    update_sm (fun s => Sm.set_wp (alter f wp_id (Sm.wp s)) s) dev_id sm_id.
Definition update_lane (f : Lane.t -> Lane.t)
    (dev_id sm_id wp_id ln_id : nat) : Sys.t -> Sys.t :=
    update_warp (fun w => Warp.set_ln (alter f ln_id (Warp.ln w)) w)
                dev_id sm_id wp_id.

Definition modify_system (f : Sys.t -> Sys.t) : M W unit :=
    modify (fun w => set_system (f (cuda_system_info w)) w).
Definition modify_dev f (dev_id : nat) : M W unit :=
    modify_system (update_dev f dev_id).
Definition modify_sm f (dev_id sm_id : nat) : M W unit :=
    modify_system (update_sm f dev_id sm_id).
Definition modify_warp f (dev_id sm_id wp_id : nat) : M W unit :=
    modify_system (update_warp f dev_id sm_id wp_id).
Definition modify_lane f (dev_id sm_id wp_id ln_id : nat) : M W unit :=
    modify_system (update_lane f dev_id sm_id wp_id ln_id).

  (** *** The port, as the mirror calls it *)

Definition api_read {A} (c : api_call) (f : HW -> A) : M W A :=
    modify (log_api c) ;; gets (fun w => f (hw w)).
Definition count (z : Z) : nat := Z.to_nat (u32 z).

Definition cuda_api_get_num_devices : M W nat :=
    api_read Api_get_num_devices (fun h => count (api_get_num_devices api h)).
Definition cuda_api_get_num_sms (dev : nat) : M W nat :=
    api_read (Api_get_num_sms dev) (fun h => count (api_get_num_sms api h dev)).
Definition cuda_api_get_num_warps (dev : nat) : M W nat :=
    api_read (Api_get_num_warps dev)
             (fun h => count (api_get_num_warps api h dev)).
Definition cuda_api_get_num_lanes (dev : nat) : M W nat :=
    api_read (Api_get_num_lanes dev)
             (fun h => count (api_get_num_lanes api h dev)).
Definition cuda_api_read_valid_warps (dev sm : nat) : M W Z :=
    api_read (Api_read_valid_warps dev sm)
             (fun h => u64 (api_read_valid_warps api h dev sm)).
Definition cuda_api_read_broken_warps (dev sm : nat) : M W Z :=
    api_read (Api_read_broken_warps dev sm)
             (fun h => u64 (api_read_broken_warps api h dev sm)).
Definition cuda_api_read_valid_lanes (dev sm wp : nat) : M W Z :=
    api_read (Api_read_valid_lanes dev sm wp)
             (fun h => u32 (api_read_valid_lanes api h dev sm wp)).
Definition cuda_api_read_active_lanes (dev sm wp : nat) : M W Z :=
    api_read (Api_read_active_lanes dev sm wp)
             (fun h => u32 (api_read_active_lanes api h dev sm wp)).
Definition cuda_api_read_pc (dev sm wp ln : nat) : M W Z :=
    api_read (Api_read_pc dev sm wp ln)
             (fun h => u64 (api_read_pc api h dev sm wp ln)).
Definition cuda_api_read_virtual_pc (dev sm wp ln : nat) : M W Z :=
    api_read (Api_read_virtual_pc dev sm wp ln)
             (fun h => u64 (api_read_virtual_pc api h dev sm wp ln)).
Definition cuda_api_read_lane_exception (dev sm wp ln : nat) : M W Z :=
    api_read (Api_read_lane_exception dev sm wp ln)
             (fun h => u32 (api_read_lane_exception api h dev sm wp ln)).
Definition cuda_api_read_device_exception_state (dev : nat) : M W Z :=
    api_read (Api_read_device_exception_state dev)
             (fun h => u64 (api_read_device_exception_state api h dev)).
Definition cuda_api_single_step_warp (dev sm wp : nat) : M W Z :=
    modify (log_api (Api_single_step_warp dev sm wp)) ;;
    r <- gets (fun w => api_single_step_warp api (hw w) dev sm wp) ;;
    modify (set_hw (fst r)) ;;
    ret (u64 (snd r)).
Definition cuda_api_suspend_device (dev : nat) : M W unit :=
    modify (log_api (Api_suspend_device dev)) ;;
    modify (fun w => set_hw (api_suspend_device api (hw w) dev) w).
Definition cuda_api_resume_device (dev : nat) : M W unit :=
    modify (log_api (Api_resume_device dev)) ;;
    modify (fun w => set_hw (api_resume_device api (hw w) dev) w).

Definition warning (msg : string) : M W unit :=
    modify (log_host (Warning msg)).

  (** *** System *)

Definition cuda_system_get_num_devices : M W nat :=
    ini <- gets cuda_initialized ;;
    if negb ini then ret 0
    else
      s <- gets cuda_system_info ;;
      if Sys.num_devices_p s then ret (Sys.num_devices s)
      else
        n <- cuda_api_get_num_devices ;;
        modify_system (Sys.set_num_devices n) ;;
        gdb_assert "cuda_system_info.num_devices <= CUDBG_MAX_DEVICES"
                   (n <=? CUDBG_MAX_DEVICES L) ;;
        modify_system (Sys.set_num_devices_p CACHED) ;;
        ret n.

Definition cuda_system_get_suspended_devices_mask : M W Z :=
    s <- gets cuda_system_info ;; ret (Sys.suspended_devices_mask s).

  (** The four range assertions that open most functions. *)
Definition assert_dev (dev_id : nat) : M W unit :=
    n <- cuda_system_get_num_devices ;;
    gdb_assert "dev_id < cuda_system_get_num_devices ()" (dev_id <? n).

  (** *** Device *)

Definition device_get_num_sms (dev_id : nat) : M W nat :=
    assert_dev dev_id ;;
    d <- read_dev dev_id ;;
    if Dev.num_sms_p d then ret (Dev.num_sms d)
    else
      n <- cuda_api_get_num_sms dev_id ;;
      modify_dev (Dev.set_num_sms n) dev_id ;;
      gdb_assert "dev->num_sms <= CUDBG_MAX_SMS" (n <=? CUDBG_MAX_SMS L) ;;
      modify_dev (Dev.set_num_sms_p CACHED) dev_id ;;
      ret n.

Definition device_get_num_warps (dev_id : nat) : M W nat :=
    assert_dev dev_id ;;
    d <- read_dev dev_id ;;
    if Dev.num_warps_p d then ret (Dev.num_warps d)
    else
      n <- cuda_api_get_num_warps dev_id ;;
      modify_dev (Dev.set_num_warps n) dev_id ;;
      gdb_assert "dev->num_warps <= CUDBG_MAX_WARPS"
                 (n <=? CUDBG_MAX_WARPS L) ;;
      modify_dev (Dev.set_num_warps_p CACHED) dev_id ;;
      ret n.

Definition device_get_num_lanes (dev_id : nat) : M W nat :=
    assert_dev dev_id ;;
    d <- read_dev dev_id ;;
    if Dev.num_lanes_p d then ret (Dev.num_lanes d)
    else
      n <- cuda_api_get_num_lanes dev_id ;;
      modify_dev (Dev.set_num_lanes n) dev_id ;;
      gdb_assert "dev->num_lanes <= CUDBG_MAX_LANES"
                 (n <=? CUDBG_MAX_LANES L) ;;
      modify_dev (Dev.set_num_lanes_p CACHED) dev_id ;;
      ret n.

Definition assert_sm (dev_id sm_id : nat) : M W unit :=
    n <- device_get_num_sms dev_id ;;
    gdb_assert "sm_id < device_get_num_sms (dev_id)" (sm_id <? n).
Definition assert_wp (dev_id wp_id : nat) : M W unit :=
    n <- device_get_num_warps dev_id ;;
    gdb_assert "wp_id < device_get_num_warps (dev_id)" (wp_id <? n).
Definition assert_ln (dev_id ln_id : nat) : M W unit :=
    n <- device_get_num_lanes dev_id ;;
    gdb_assert "ln_id < device_get_num_lanes (dev_id)" (ln_id <? n).

  (** [kernel_invalidate] on every kernel of the registry, which lives
      in [cuda-kernel.c]. *)
Definition device_invalidate_kernels (dev_id : nat) : M W unit :=
    assert_dev dev_id ;;
    modify (log_host Kernel_invalidate_all).

  (** *** Lanes and warps: invalidation *)

Definition lane_invalidate (dev_id sm_id wp_id ln_id : nat) : M W unit :=
    assert_dev dev_id ;;
    assert_sm dev_id sm_id ;;
    assert_wp dev_id wp_id ;;
    assert_ln dev_id ln_id ;;
    modify_lane Lane.invalidate dev_id sm_id wp_id ln_id.

Definition warp_invalidate (dev_id sm_id wp_id : nat) : M W unit :=
    assert_dev dev_id ;;
    assert_sm dev_id sm_id ;;
    assert_wp dev_id wp_id ;;
    n <- device_get_num_lanes dev_id ;;
    for_upto n (fun ln_id => lane_invalidate dev_id sm_id wp_id ln_id) ;;
    modify_sm Sm.invalidate_masks dev_id sm_id ;;
    modify_warp Warp.invalidate dev_id sm_id wp_id.

Inductive recursion_t : Type := RECURSIVE | NON_RECURSIVE.

Definition sm_invalidate (dev_id sm_id : nat) (recursion : recursion_t)
    : M W unit :=
    assert_dev dev_id ;;
    assert_sm dev_id sm_id ;;
    match recursion with
    | RECURSIVE =>
        n <- device_get_num_warps dev_id ;;
        for_upto n (fun wp_id => warp_invalidate dev_id sm_id wp_id)
    | NON_RECURSIVE => ret tt
    end ;;
    modify_sm Sm.invalidate_masks dev_id sm_id.

Definition device_invalidate (dev_id : nat) : M W unit :=
    assert_dev dev_id ;;
    n <- device_get_num_sms dev_id ;;
    for_upto n (fun sm_id => sm_invalidate dev_id sm_id RECURSIVE) ;;
    device_invalidate_kernels dev_id ;;
    modify_dev (fun d => Dev.set_filter_exception_state_p false
                           (Dev.set_valid_p false d)) dev_id.

  (** *** Device: contexts, suspend and resume *)

Definition device_get_contexts (dev_id : nat) : M W contexts_t :=
    assert_dev dev_id ;;
    d <- read_dev dev_id ;;
    gdb_assert "dev->contexts" (bool_decide (is_Some (Dev.contexts d))) ;;
    ret dev_id.

Definition read_contexts (this : contexts_t) : M W contexts_st :=
    d <- read_dev this ;;
    match Dev.contexts d with
    | Some c => ret c
    | None => throw (Internal_error "this")
    end.

  (** Modelled from the spec: [contexts_is_any_context_present] of
      [cuda-context.c], which is not part of the sources at hand; the
      registry of a device is "an unordered list of contexts", and one
      is present when the list is not empty. *)
Definition contexts_is_any_context_present (this : contexts_t) : M W bool :=
    c <- read_contexts this ;;
    ret (match ctx_list c with [] => false | _ :: _ => true end).

Definition device_is_any_context_present (dev_id : nat) : M W bool :=
    assert_dev dev_id ;;
    contexts <- device_get_contexts dev_id ;;
    contexts_is_any_context_present contexts.

  (** [1 << dev_id] is an [int] shift; the mask is a [uint32_t]. *)
Definition device_resume (dev_id : nat) : M W unit :=
    assert_dev dev_id ;;
    device_invalidate dev_id ;;
    d <- read_dev dev_id ;;
    if negb (Dev.suspended d) then ret tt
    else
      cuda_api_resume_device dev_id ;;
      modify_dev (Dev.set_suspended false) dev_id ;;
      modify_system (fun s =>
        Sys.set_suspended_devices_mask
          (Z.land (Sys.suspended_devices_mask s)
                  (not32 (Z.shiftl 1 (Z.of_nat dev_id)))) s).

Definition device_suspend (dev_id : nat) : M W unit :=
    assert_dev dev_id ;;
    present <- device_is_any_context_present dev_id ;;
    if negb present then ret tt
    else
      cuda_api_suspend_device dev_id ;;
      modify_dev (Dev.set_suspended true) dev_id ;;
      modify_system (fun s =>
        Sys.set_suspended_devices_mask
          (Z.lor (Sys.suspended_devices_mask s)
                 (u32 (Z.shiftl 1 (Z.of_nat dev_id)))) s).

  (** *** SM *)

Definition sm_get_valid_warps_mask (dev_id sm_id : nat) : M W Z :=
    assert_dev dev_id ;;
    assert_sm dev_id sm_id ;;
    s <- read_sm dev_id sm_id ;;
    if Sm.valid_warps_mask_p s then ret (Sm.valid_warps_mask s)
    else
      m <- cuda_api_read_valid_warps dev_id sm_id ;;
      modify_sm (Sm.set_valid_warps_mask m) dev_id sm_id ;;
      ret m.

Definition sm_get_broken_warps_mask (dev_id sm_id : nat) : M W Z :=
    assert_dev dev_id ;;
    assert_sm dev_id sm_id ;;
    s <- read_sm dev_id sm_id ;;
    if Sm.broken_warps_mask_p s then ret (Sm.broken_warps_mask s)
    else
      m <- cuda_api_read_broken_warps dev_id sm_id ;;
      modify_sm (Sm.set_broken_warps_mask m) dev_id sm_id ;;
      ret m.

  (** The [uint64_t] mask converted to [bool]. *)
Definition sm_is_valid (dev_id sm_id : nat) : M W bool :=
    assert_dev dev_id ;;
    assert_sm dev_id sm_id ;;
    m <- sm_get_valid_warps_mask dev_id sm_id ;;
    ret (negb (m =? 0)%Z).

  (** *** Warps *)

Definition warp_single_step (dev_id sm_id wp_id : nat) : M W Z :=
    assert_dev dev_id ;;
    assert_sm dev_id sm_id ;;
    assert_wp dev_id wp_id ;;
    mask <- cuda_api_single_step_warp dev_id sm_id wp_id ;;
    o <- gets opts ;;
    (if cuda_options_software_preemption o
     then device_invalidate dev_id
     else
       when (negb (Z.land mask (not64 (Z.shiftl 1 (Z.of_nat wp_id))) =? 0)%Z)
         (warning
            "Warp(s) other than the current warp had to be single-stepped." ;;
          device_invalidate dev_id) ;;
       n <- device_get_num_warps dev_id ;;
       for_upto n (fun i =>
         when (negb (Z.land (Z.shiftl 1 (Z.of_nat i)) mask =? 0)%Z)
              (warp_invalidate dev_id sm_id i)) ;;
       sm_invalidate dev_id sm_id NON_RECURSIVE) ;;
    ret mask.

Definition warp_is_valid (dev_id sm_id wp_id : nat) : M W bool :=
    assert_dev dev_id ;;
    assert_sm dev_id sm_id ;;
    assert_wp dev_id wp_id ;;
    m <- sm_get_valid_warps_mask dev_id sm_id ;;
    ret (bit m wp_id).

Definition warp_is_broken (dev_id sm_id wp_id : nat) : M W bool :=
    assert_dev dev_id ;;
    assert_sm dev_id sm_id ;;
    assert_wp dev_id wp_id ;;
    m <- sm_get_broken_warps_mask dev_id sm_id ;;
    ret (bit m wp_id).

Definition warp_get_valid_lanes_mask (dev_id sm_id wp_id : nat) : M W Z :=
    assert_dev dev_id ;;
    assert_sm dev_id sm_id ;;
    assert_wp dev_id wp_id ;;
    w <- read_warp dev_id sm_id wp_id ;;
    if Warp.valid_lanes_mask_p w then ret (Warp.valid_lanes_mask w)
    else
      v <- warp_is_valid dev_id sm_id wp_id ;;
      m <- (if v : bool then cuda_api_read_valid_lanes dev_id sm_id wp_id
            else ret 0%Z) ;;
      modify_warp (Warp.set_valid_lanes_mask m) dev_id sm_id wp_id ;;
      w <- read_warp dev_id sm_id wp_id ;;
      when (negb (Warp.timestamp_p w))
        (c <- gets cuda_clock ;;
         modify_warp (Warp.set_timestamp c) dev_id sm_id wp_id) ;;
      ret m.

Definition warp_get_active_lanes_mask (dev_id sm_id wp_id : nat) : M W Z :=
    assert_dev dev_id ;;
    assert_sm dev_id sm_id ;;
    assert_wp dev_id wp_id ;;
    w <- read_warp dev_id sm_id wp_id ;;
    if Warp.active_lanes_mask_p w then ret (Warp.active_lanes_mask w)
    else
      m <- cuda_api_read_active_lanes dev_id sm_id wp_id ;;
      modify_warp (Warp.set_active_lanes_mask m) dev_id sm_id wp_id ;;
      ret m.

Definition warp_get_divergent_lanes_mask (dev_id sm_id wp_id : nat)
    : M W Z :=
    assert_dev dev_id ;;
    assert_sm dev_id sm_id ;;
    assert_wp dev_id wp_id ;;
    valid_lanes_mask <- warp_get_valid_lanes_mask dev_id sm_id wp_id ;;
    active_lanes_mask <- warp_get_active_lanes_mask dev_id sm_id wp_id ;;
    ret (Z.land valid_lanes_mask (not32 active_lanes_mask)).

  (** *** Lanes *)

Definition lane_is_valid (dev_id sm_id wp_id ln_id : nat) : M W bool :=
    assert_dev dev_id ;;
    assert_sm dev_id sm_id ;;
    assert_wp dev_id wp_id ;;
    assert_ln dev_id ln_id ;;
    m <- warp_get_valid_lanes_mask dev_id sm_id wp_id ;;
    l <- read_lane dev_id sm_id wp_id ln_id ;;
    when (negb (Lane.timestamp_p l))
      (c <- gets cuda_clock ;;
       modify_lane (Lane.set_timestamp c) dev_id sm_id wp_id ln_id) ;;
    ret (bit m ln_id).

Definition assert_lane_is_valid (dev_id sm_id wp_id ln_id : nat)
    : M W unit :=
    v <- lane_is_valid dev_id sm_id wp_id ln_id ;;
    gdb_assert "lane_is_valid (dev_id, sm_id, wp_id, ln_id)" v.

Definition lane_is_active (dev_id sm_id wp_id ln_id : nat) : M W bool :=
    assert_dev dev_id ;;
    assert_sm dev_id sm_id ;;
    assert_wp dev_id wp_id ;;
    assert_ln dev_id ln_id ;;
    assert_lane_is_valid dev_id sm_id wp_id ln_id ;;
    m <- warp_get_active_lanes_mask dev_id sm_id wp_id ;;
    ret (bit m ln_id).

Definition lane_is_divergent (dev_id sm_id wp_id ln_id : nat) : M W bool :=
    assert_dev dev_id ;;
    assert_sm dev_id sm_id ;;
    assert_wp dev_id wp_id ;;
    assert_ln dev_id ln_id ;;
    assert_lane_is_valid dev_id sm_id wp_id ln_id ;;
    m <- warp_get_divergent_lanes_mask dev_id sm_id wp_id ;;
    ret (bit m ln_id).

  (** [lane_is_valid (...) && lane_is_active (...)] *)
Definition lane_is_valid_and_active (dev_id sm_id wp_id ln_id : nat)
    : M W bool :=
    v <- lane_is_valid dev_id sm_id wp_id ln_id ;;
    if v : bool then lane_is_active dev_id sm_id wp_id ln_id else ret false.

Definition lane_get_virtual_pc (dev_id sm_id wp_id ln_id : nat) : M W Z :=
    assert_dev dev_id ;;
    assert_sm dev_id sm_id ;;
    assert_wp dev_id wp_id ;;
    assert_ln dev_id ln_id ;;
    assert_lane_is_valid dev_id sm_id wp_id ln_id ;;
    l <- read_lane dev_id sm_id wp_id ln_id ;;
    if Lane.virtual_pc_p l then ret (Lane.virtual_pc l)
    else
      virtual_pc <- cuda_api_read_virtual_pc dev_id sm_id wp_id ln_id ;;
      modify_lane (Lane.set_virtual_pc virtual_pc) dev_id sm_id wp_id ln_id ;;
      a <- lane_is_active dev_id sm_id wp_id ln_id ;;
      when a
        (n <- device_get_num_lanes dev_id ;;
         for_upto n (fun other_ln_id =>
           b <- lane_is_valid_and_active dev_id sm_id wp_id other_ln_id ;;
           when b (modify_lane (Lane.set_virtual_pc virtual_pc)
                               dev_id sm_id wp_id other_ln_id))) ;;
      l <- read_lane dev_id sm_id wp_id ln_id ;;
      ret (Lane.virtual_pc l).

Definition lane_get_pc (dev_id sm_id wp_id ln_id : nat) : M W Z :=
    assert_dev dev_id ;;
    assert_sm dev_id sm_id ;;
    assert_wp dev_id wp_id ;;
    assert_ln dev_id ln_id ;;
    assert_lane_is_valid dev_id sm_id wp_id ln_id ;;
    l <- read_lane dev_id sm_id wp_id ln_id ;;
    if Lane.pc_p l then ret (Lane.pc l)
    else
      pc <- cuda_api_read_pc dev_id sm_id wp_id ln_id ;;
      modify_lane (Lane.set_pc pc) dev_id sm_id wp_id ln_id ;;
      a <- lane_is_active dev_id sm_id wp_id ln_id ;;
      when a
        (n <- device_get_num_lanes dev_id ;;
         for_upto n (fun other_ln_id =>
           b <- lane_is_valid_and_active dev_id sm_id wp_id other_ln_id ;;
           when b (modify_lane (Lane.set_pc pc)
                               dev_id sm_id wp_id other_ln_id))) ;;
      l <- read_lane dev_id sm_id wp_id ln_id ;;
      ret (Lane.pc l).

  (** The first lane of the active mask, or the lane count. *)
Fixpoint lowest_set (mask : Z) (ids : list nat) (default : nat) : nat :=
    match ids with
    | [] => default
    | i :: rest => if bit mask i then i else lowest_set mask rest default
    end.

Definition warp_get_lowest_active_lane (dev_id sm_id wp_id : nat)
    : M W nat :=
    assert_dev dev_id ;;
    assert_sm dev_id sm_id ;;
    assert_wp dev_id wp_id ;;
    m <- warp_get_active_lanes_mask dev_id sm_id wp_id ;;
    n <- device_get_num_lanes dev_id ;;
    ret (lowest_set m (seq 0 n) n).

Definition warp_get_active_pc (dev_id sm_id wp_id : nat) : M W Z :=
    assert_dev dev_id ;;
    assert_sm dev_id sm_id ;;
    assert_wp dev_id wp_id ;;
    ln_id <- warp_get_lowest_active_lane dev_id sm_id wp_id ;;
    lane_get_pc dev_id sm_id wp_id ln_id.

Definition warp_get_active_virtual_pc (dev_id sm_id wp_id : nat) : M W Z :=
    assert_dev dev_id ;;
    assert_sm dev_id sm_id ;;
    assert_wp dev_id wp_id ;;
    ln_id <- warp_get_lowest_active_lane dev_id sm_id wp_id ;;
    lane_get_virtual_pc dev_id sm_id wp_id ln_id.

End WithPort.
End State.

(** * Contexts ([cuda-context.c])

    Only the header [cuda-context.h] is among the sources at hand; the
    functions are modelled from the design document (section 4.3). *)

Module Context.
Section WithPort.
Context {HW : Type} (L : limits) (api : debug_api HW).
Local Open Scope nat_scope.
Local Abbreviation W := (world HW).

Definition write_contexts (this : contexts_t) (c : contexts_st) : M W unit :=
    State.modify_dev (Dev.set_contexts (Some c)) this.

  (** Modelled from the spec: [contexts_new], absent from the sources; a
      fresh registry has no context and no stack. *)
Definition contexts_new : contexts_st := mkContexts [] ∅.

  (** Modelled from the spec: [context_new], absent from the sources; a
      context is "(context_id, dev_id, modules)" and is created without
      modules, at an address no live object has. *)
Definition context_new (context_id : Z) (dev_id : nat) : M W context_t :=
    a <- gets next_address ;;
    modify (fun w => set_heap (<[a := mkContext context_id dev_id []]> (heap w))
                              (S a) w) ;;
    ret (Some a).

  (** Modelled from the spec: [context_delete], absent from the sources;
      the object is released. *)
Definition context_delete (ctx : context_t) : M W unit :=
    modify (log_host (Context_delete ctx)) ;;
    match ctx with
    | Some a => modify (fun w => set_heap (delete a (heap w)) (next_address w) w)
    | None => ret tt
    end.

  (** Modelled from the spec: [context_get_id], absent from the sources;
      reading through NULL or a released pointer unwinds. *)
Definition context_get_id (ctx : context_t) : M W Z :=
    h <- gets heap ;;
    match ctx ≫= (fun a => h !! a) with
    | Some c => ret (context_id c)
    | None => throw (Internal_error "context")
    end.

  (** Modelled from the spec: [contexts_add_context], absent from the
      sources; "add_context, remove_context: O(n) list ops". *)
Definition contexts_add_context (this : contexts_t) (ctx : context_t)
    : M W unit :=
    c <- State.read_contexts this ;;
    write_contexts this (mkContexts (ctx :: ctx_list c) (ctx_stacks c)).

Fixpoint remove_first (ctx : context_t) (l : list context_t)
    : list context_t :=
    match l with
    | [] => []
    | x :: l' => if decide (x = ctx) then l' else x :: remove_first ctx l'
    end.

  (** Modelled from the spec: [contexts_remove_context], absent from the
      sources; "remove returns the removed node". *)
Definition contexts_remove_context (this : contexts_t) (ctx : context_t)
    : M W context_t :=
    modify (log_host (Contexts_remove_context ctx)) ;;
    c <- State.read_contexts this ;;
    if bool_decide (ctx ∈ ctx_list c)
    then write_contexts this
           (mkContexts (remove_first ctx (ctx_list c)) (ctx_stacks c)) ;;
         ret ctx
    else ret None.

Definition stack_of (c : contexts_st) (tid : Z) : list context_t :=
    default [] (ctx_stacks c !! tid).

  (** Modelled from the spec: [contexts_stack_context], absent from the
      sources; "push the tid's stack". *)
Definition contexts_stack_context (this : contexts_t) (ctx : context_t)
    (tid : Z) : M W unit :=
    c <- State.read_contexts this ;;
    write_contexts this
      (mkContexts (ctx_list c) (<[tid := ctx :: stack_of c tid]> (ctx_stacks c))).

  (** Modelled from the spec: [contexts_unstack_context], absent from
      the sources; "pop the tid's stack".  Popping an empty stack gives
      NULL. *)
Definition contexts_unstack_context (this : contexts_t) (tid : Z)
    : M W context_t :=
    modify (log_host (Contexts_unstack_context tid)) ;;
    c <- State.read_contexts this ;;
    match stack_of c tid with
    | [] => ret None
    | top :: rest =>
        write_contexts this
          (mkContexts (ctx_list c) (<[tid := rest]> (ctx_stacks c))) ;;
        ret top
    end.

  (** Modelled from the spec: [contexts_get_active_context], absent from
      the sources; "active_context(tid): stack top". *)
Definition contexts_get_active_context (this : contexts_t) (tid : Z)
    : M W context_t :=
    c <- State.read_contexts this ;;
    ret (match stack_of c tid with [] => None | top :: _ => top end).

Definition has_id (h : gmap nat context_st) (id : Z) (ctx : context_t)
    : bool :=
    match ctx ≫= (fun a => h !! a) with
    | Some c => (context_id c =? id)%Z
    | None => false
    end.

  (** Modelled from the spec: [contexts_find_context_by_id], absent from
      the sources; the first context of the list with that id, or NULL. *)
Definition contexts_find_context_by_id (this : contexts_t) (id : Z)
    : M W context_t :=
    c <- State.read_contexts this ;;
    h <- gets heap ;;
    ret (default None (List.find (has_id h id) (ctx_list c))).

  (** Modelled from the spec: [get_current_context] and
      [set_current_context], absent from the sources; the UI's "current
      context" pointer. *)
Definition get_current_context : M W context_t := gets current_context.
Definition set_current_context (ctx : context_t) : M W unit :=
    modify (log_host (Set_current_context ctx)) ;;
    modify (fun w => set_context_focus ctx (saved_contexts w) w).

  (** Modelled from the spec: [save_current_context] and
      [restore_current_context], absent from the sources; section 4.8
      gives the focus "a save/restore stack used during transient
      operations", and the current context follows the same discipline.
      Restoring with nothing saved is an internal error. *)
Definition save_current_context : M W unit :=
    modify (fun w => set_context_focus (current_context w)
                       (current_context w :: saved_contexts w) w).
Definition restore_current_context : M W unit :=
    s <- gets saved_contexts ;;
    match s with
    | [] => throw (Internal_error "saved context")
    | c :: rest => modify (set_context_focus c rest)
    end.

  (** [device_find_context_by_id] of [cuda-state.c]. *)
Definition device_find_context_by_id (dev_id : nat) (id : Z)
    : M W context_t :=
    State.assert_dev L api dev_id ;;
    contexts <- State.device_get_contexts L api dev_id ;;
    contexts_find_context_by_id contexts id.

  (** [cuda_system_initialize] and [device_initialize] of [cuda-state.c]. *)
Definition device_initialize (dev_id : nat) : M W unit :=
    State.assert_dev L api dev_id ;;
    State.modify_dev (Dev.set_contexts (Some contexts_new)) dev_id.

Definition cuda_system_initialize : M W unit :=
    ini <- gets cuda_initialized ;;
    gdb_assert "cuda_initialized" ini ;;
    State.modify_system (fun _ => zero_system L) ;;
    n <- State.cuda_system_get_num_devices L api ;;
    for_upto n device_initialize.

End WithPort.
End Context.

(** * The event processor ([cuda-events.c]) *)

Module Events.
Section WithPort.
Context {HW : Type} (L : limits) (api : debug_api HW).
Local Open Scope Z_scope.
Local Abbreviation W := (world HW).

Inductive CUDBGEvent : Type :=
    | CUDBG_EVENT_INVALID
    | CUDBG_EVENT_ELF_IMAGE_LOADED (dev : nat) (context module size : Z)
    | CUDBG_EVENT_KERNEL_READY (k : kernel_launch) (tid : Z)
    | CUDBG_EVENT_KERNEL_FINISHED (dev : nat) (gridId64 : Z)
    | CUDBG_EVENT_CTX_PUSH (dev : nat) (context tid : Z)
    | CUDBG_EVENT_CTX_POP (dev : nat) (context tid : Z)
    | CUDBG_EVENT_CTX_CREATE (dev : nat) (context tid : Z)
    | CUDBG_EVENT_CTX_DESTROY (dev : nat) (context tid : Z)
    | CUDBG_EVENT_INTERNAL_ERROR (errorType : Z)
    | CUDBG_EVENT_TIMEOUT
    | CUDBG_EVENT_ATTACH_COMPLETE
    | CUDBG_EVENT_DETACH_COMPLETE.

Inductive cuda_event_kind_t : Type := CUDA_EVENT_SYNC | CUDA_EVENT_ASYNC.

Definition invalid_thread_id : string :=
    "A CUDA event reported an invalid thread id.".

Definition host (c : host_call) : M W unit := modify (log_host c).

Definition cuda_api_get_attach_state : M W cuda_attach_state_t :=
    modify (log_api Api_get_attach_state) ;; gets attach_state.
Definition cuda_api_set_attach_state (a : cuda_attach_state_t) : M W unit :=
    modify (log_api Api_set_attach_state) ;; modify (set_attach_state a).

Definition not_started (a : cuda_attach_state_t) : bool :=
    match a with CUDA_ATTACH_STATE_NOT_STARTED => true | _ => false end.

Definition show_context_event (what : string) (context_id : Z)
    (dev_id : nat) : M W unit :=
    o <- gets opts ;;
    when (cuda_options_show_context_events o)
         (host (Printf_unfiltered what context_id dev_id)).

  (** The [__APPLE__] tail of the function is left out. *)
Definition cuda_event_create_context (dev_id : nat) (context_id tid : Z)
    : M W unit :=
    (if tid =? UINT32_MAX then error invalid_thread_id else ret tt) ;;
    contexts <- State.device_get_contexts L api dev_id ;;
    context <- Context.context_new context_id dev_id ;;
Context.contexts_add_context contexts context ;;
Context.contexts_stack_context contexts context tid ;;
    show_context_event "Context Create" context_id dev_id.

Definition cuda_event_destroy_context (dev_id : nat) (context_id tid : Z)
    : M W unit :=
    (if tid =? UINT32_MAX then error invalid_thread_id else ret tt) ;;
    contexts <- State.device_get_contexts L api dev_id ;;
    context <- Context.contexts_find_context_by_id contexts context_id ;;
    active <- Context.contexts_get_active_context contexts tid ;;
    context <- (if bool_decide (active = context)
                then Context.contexts_unstack_context contexts tid
                else ret context) ;;
    current <- Context.get_current_context ;;
    when (bool_decide (context = current))
         (Context.set_current_context None) ;;
    host (Cuda_cleanup_auto_breakpoints context_id) ;;
    host (Cuda_unresolve_breakpoints context_id) ;;
Context.contexts_remove_context contexts context ;;
Context.context_delete context ;;
    show_context_event "Context Destroy" context_id dev_id.

Definition cuda_event_push_context (dev_id : nat) (context_id tid : Z)
    : M W unit :=
    a <- cuda_api_get_attach_state ;;
    if negb (not_started a) then ret tt
    else
      (if tid =? UINT32_MAX then error invalid_thread_id else ret tt) ;;
      contexts <- State.device_get_contexts L api dev_id ;;
      context <- Context.contexts_find_context_by_id contexts context_id ;;
Context.contexts_stack_context contexts context tid ;;
      show_context_event "Context Push" context_id dev_id.

Definition cuda_event_pop_context (dev_id : nat) (context_id tid : Z)
    : M W unit :=
    a <- cuda_api_get_attach_state ;;
    if negb (not_started a) then ret tt
    else
      (if tid =? UINT32_MAX then error invalid_thread_id else ret tt) ;;
      contexts <- State.device_get_contexts L api dev_id ;;
      context <- Context.contexts_unstack_context contexts tid ;;
      id <- Context.context_get_id context ;;
      gdb_assert "context_get_id (context) == context_id" (id =? context_id) ;;
      show_context_event "Context Pop" context_id dev_id.

  (** [module_new] and [modules_add] belong to [cuda-modules.c]; the
      module list of the context records the new module's id. *)
Definition cuda_event_load_elf_image (dev_id : nat)
    (context_id module_id elf_image_size : Z) : M W unit :=
    context <- Context.device_find_context_by_id L api dev_id context_id ;;
    h <- gets heap ;;
    match context ≫= (fun a => (fun c => (a, c)) <$> h !! a) with
    | None => throw (Internal_error "context")
    | Some (a, mkContext id dev modules) =>
        modify (fun w =>
          set_heap (<[a := mkContext id dev (module_id :: modules)]> (heap w))
                   (next_address w) w) ;;
Context.set_current_context context ;;
        host (Cuda_resolve_breakpoints module_id)
    end.

Definition breaks_on_launch (o : options) (type : CUDBGKernelType) : bool :=
    match type with
    | CUDBG_KNL_TYPE_APPLICATION => cuda_options_break_on_launch_application o
    | CUDBG_KNL_TYPE_SYSTEM => cuda_options_break_on_launch_system o
    | CUDBG_KNL_TYPE_UNKNOWN => false
    end.

  (** The temporary switch of [inferior_ptid] to the launching thread is
      undone before the function returns and is left out. *)
Definition cuda_event_kernel_ready (k : kernel_launch) (tid : Z)
    : M W unit :=
    (if tid =? UINT32_MAX then error invalid_thread_id else ret tt) ;;
    host (Kernels_start_kernel k) ;;
    o <- gets opts ;;
    when (breaks_on_launch o (kl_type k))
         (host (Cuda_create_auto_breakpoint (kl_virt_code_base k)
                                            (kl_context_id k))).

Definition cuda_event_kernel_finished (dev_id : nat) (grid_id : Z)
    : M W unit :=
    host (Kernels_terminate_kernel dev_id grid_id) ;;
    host Clear_current_source_symtab_and_line ;;
    host Clear_displays.

Definition cuda_event_internal_error (errorType : Z) : M W unit :=
    error "Error: Internal error reported by CUDA debugger API (error=%u). The application cannot be further debugged.".

Definition cuda_event_timeout : M W unit := ret tt.

Definition cuda_event_post_process : M W unit :=
    host Cuda_remove_breakpoints ;;
    host Cuda_insert_breakpoints.

Definition cuda_process_event (event : CUDBGEvent) : M W unit :=
    match event with
    | CUDBG_EVENT_ELF_IMAGE_LOADED dev context module size =>
        cuda_event_load_elf_image dev context module size
    | CUDBG_EVENT_KERNEL_READY k tid => cuda_event_kernel_ready k tid
    | CUDBG_EVENT_KERNEL_FINISHED dev grid =>
        cuda_event_kernel_finished dev grid
    | CUDBG_EVENT_CTX_PUSH dev context tid =>
        cuda_event_push_context dev context tid
    | CUDBG_EVENT_CTX_POP dev context tid =>
        cuda_event_pop_context dev context tid
    | CUDBG_EVENT_CTX_CREATE dev context tid =>
        cuda_event_create_context dev context tid
    | CUDBG_EVENT_CTX_DESTROY dev context tid =>
        cuda_event_destroy_context dev context tid
    | CUDBG_EVENT_INTERNAL_ERROR errorType =>
        cuda_event_internal_error errorType
    | CUDBG_EVENT_TIMEOUT => cuda_event_timeout
    | CUDBG_EVENT_ATTACH_COMPLETE =>
        cuda_api_set_attach_state CUDA_ATTACH_STATE_APP_READY
    | CUDBG_EVENT_DETACH_COMPLETE =>
        cuda_api_set_attach_state CUDA_ATTACH_STATE_DETACH_COMPLETE
    | CUDBG_EVENT_INVALID => gdb_assert "0" false
    end.

  (** The queue is what [cuda_api_get_next_sync_event] (or its
      asynchronous twin) will hand out, in order; an exhausted queue
      hands out [CUDBG_EVENT_INVALID]. *)
Fixpoint drain (event : CUDBGEvent) (queue : list CUDBGEvent) : M W unit :=
    match event with
    | CUDBG_EVENT_INVALID => ret tt
    | _ =>
        cuda_process_event event ;;
        match queue with
        | [] => ret tt
        | next :: rest => drain next rest
        end
    end.

Definition cuda_process_events (event : CUDBGEvent)
    (queue : list CUDBGEvent) (kind : cuda_event_kind_t) : M W unit :=
    drain event queue ;;
    cuda_event_post_process.

  (** The thread id an event carries, if it carries one. *)
Definition event_tid (event : CUDBGEvent) : option Z :=
    match event with
    | CUDBG_EVENT_KERNEL_READY _ tid
    | CUDBG_EVENT_CTX_PUSH _ _ tid
    | CUDBG_EVENT_CTX_POP _ _ tid
    | CUDBG_EVENT_CTX_CREATE _ _ tid
    | CUDBG_EVENT_CTX_DESTROY _ _ tid => Some tid
    | _ => None
    end.

Definition is_push_or_pop (event : CUDBGEvent) : bool :=
    match event with
    | CUDBG_EVENT_CTX_PUSH _ _ _ | CUDBG_EVENT_CTX_POP _ _ _ => true
    | _ => false
    end.

End WithPort.
End Events.

(** * The "info cuda" dispatcher ([cuda-commands.c]) *)

Module Commands.
Section WithPort.
Context {HW : Type}.
Local Abbreviation W := (world HW).

  (** Modelled from the spec: [cuda_save_focus] and [cuda_restore_focus]
      of [cuda-tdep.c], absent from the sources; section 4.8: "one
      global current coordinate (possibly invalid), plus a save/restore
      stack used during transient operations".  Restoring with nothing
      saved is an internal error. *)
Definition cuda_save_focus : M W unit :=
    modify (fun w => set_focus (current_coords w)
                       (current_coords w :: saved_focus w) w).
Definition cuda_restore_focus : M W unit :=
    s <- gets saved_focus ;;
    match s with
    | [] => throw (Internal_error "saved focus")
    | c :: rest => modify (set_focus c rest)
    end.

  (** Modelled from the spec: [switch_to_cuda_thread] of [cuda-tdep.c],
      absent from the sources; it makes the given coordinate the current
      focus. *)
Definition switch_to_cuda_thread (coords : cuda_coords_t) : M W unit :=
    modify (log_host Switch_to_cuda_thread) ;;
    modify (fun w => set_focus coords (saved_focus w) w).

  (** gdb's cleanup chain: [make_cleanup (f, arg)] registers [f], which
      runs at [do_cleanups] or, if the body throws first, while the
      exception unwinds. *)
Definition with_cleanup (cleanup body : M W unit) : M W unit :=
    fun w =>
      match body w with
      | Done _ w' => cleanup w'
      | Throw e w' =>
          match cleanup w' with
          | Done _ w'' => Throw e w''
          | Throw e' w'' => Throw e' w''
          end
      end.

Definition cleanup_info_cuda_command : M W unit :=
Context.restore_current_context ;;
    cuda_restore_focus.

Definition run_info_cuda_command (command : string -> M W unit)
    (arg : string) : M W unit :=
Context.save_current_context ;;
    cuda_save_focus ;;
    with_cleanup cleanup_info_cuda_command (command arg).

  (** [info_cuda_kernels_print_frame_args]: [candidate] is the
      CK_EXACT_LOGICAL slot that [cuda_coords_find_valid] fills for
      [requested]. *)
Definition info_cuda_kernels_print_frame_args (kernel_id : Z)
    (requested candidate : cuda_coords_t) (equal : bool) : M W unit :=
    if negb equal then ret tt
    else
      modify (log_host (Kernel_load_elf_images kernel_id)) ;;
      switch_to_cuda_thread candidate ;;
      modify (log_host Print_args_frame).

  (** The seven sub-commands, whose bodies build and print tables. *)
Record info_commands : Type := mkInfoCommands {
    info_cuda_devices_command : string -> M W unit;
    info_cuda_sms_command : string -> M W unit;
    info_cuda_warps_command : string -> M W unit;
    info_cuda_lanes_command : string -> M W unit;
    info_cuda_kernels_command : string -> M W unit;
    info_cuda_blocks_command : string -> M W unit;
    info_cuda_threads_command : string -> M W unit
  }.

Definition table (cmds : info_commands)
    : list (string * (string -> M W unit)) :=
    [("devices", info_cuda_devices_command cmds);
     ("sms", info_cuda_sms_command cmds);
     ("warps", info_cuda_warps_command cmds);
     ("lanes", info_cuda_lanes_command cmds);
     ("kernels", info_cuda_kernels_command cmds);
     ("blocks", info_cuda_blocks_command cmds);
     ("threads", info_cuda_threads_command cmds)].

  (** [!strncmp (arg, name, sizeof (name) - 1)] *)
Fixpoint strip_prefix (name arg : string) : option string :=
    match name, arg with
    | EmptyString, _ => Some arg
    | String a name', String b arg' =>
        if Ascii.eqb a b then strip_prefix name' arg' else None
    | String _ _, EmptyString => None
    end.

Fixpoint map_arg_to_command (t : list (string * (string -> M W unit)))
    (arg : string) : option ((string -> M W unit) * string) :=
    match t with
    | [] => None
    | (name, cmd) :: rest =>
        match strip_prefix name arg with
        | Some argument => Some (cmd, argument)
        | None => map_arg_to_command rest arg
        end
    end.

Definition info_cuda_command (cmds : info_commands) (arg : option string)
    : M W unit :=
    match arg with
    | None => error "Missing option."
    | Some a =>
        match map_arg_to_command (table cmds) a with
        | None => error "Unrecognized option: '%s'."
        | Some (command, argument) => run_info_cuda_command command argument
        end
    end.

End WithPort.
End Commands.

(** * Specification vocabulary *)

(** ** Notification channel *)

Module NotificationSpec.
Import Notification.

  (** The channel after a sequence of calls, starting from the zeroed
      record. *)
Definition after (ops : list op) : world :=
    fold_left (fun w o => world_of (run o w)) ops boot.

  (** The thread [iterate_over_threads] stops at. *)
Definition first_valid_thread (h : host) (tps : list Z) : option Z :=
    List.find (fun t => tkill h t =? 0) tps.

  (** The signals [iterate_over_threads] tries. *)
Fixpoint iterate_events (h : host) (tps : list Z) : list event :=
    match tps with
    | [] => []
    | tp :: rest =>
        EvKill tp (tkill h tp =? 0)
          :: (if tkill h tp =? 0 then [] else iterate_events h rest)
    end.

Definition direct_send (h : host) (d : CUDBGEventCallbackData) : bool :=
    cuda_platform_supports_tid h && negb (data_tid d =? 0).

  (** Where a send ends up: the thread signalled and the tid recorded,
      or nothing when no delivery succeeds. *)
Definition send_target (h : host) (d : CUDBGEventCallbackData)
    : option (Z * Z) :=
    if direct_send h d && (tkill h (s32 (data_tid d)) =? 0)
    then Some (s32 (data_tid d), data_tid d)
    else match first_valid_thread h (threads h) with
         | Some t => Some (t, u32 t)
         | None => None
         end.

Definition send_events (h : host) (d : CUDBGEventCallbackData)
    : list event :=
    (if direct_send h d
     then [EvKill (s32 (data_tid d)) (tkill h (s32 (data_tid d)) =? 0)]
     else [])
    ++ (if direct_send h d && (tkill h (s32 (data_tid d)) =? 0) then []
        else iterate_events h (threads h))
    ++ match send_target h d with
       | Some _ => [EvStore F_tid; EvStore F_sent]
       | None => []
       end.

Definition after_send (tgt : option (Z * Z)) (i : info_t) : info_t :=
    match tgt with
    | Some (_, t) => set_sent true (set_tid t i)
    | None => i
    end.

Definition lock_free (tr : list event) : bool :=
    forallb (fun e => match e with EvLock | EvUnlock => false | _ => true end)
            tr.

  (** The operations whose body sits between [acquire_lock] and
      [release_lock]. *)
Definition takes_lock (o : op) : bool :=
    match o with
    | Initialize | Reset | Consume_pending => false
    | _ => true
    end.

  (** The blocked-then-accept scenario as the design document words it,
      at one input: the payload is buffered without a signal, and the
      accept that follows sets [sent]. *)
Definition blocked_then_accept_as_stated
    (h1 h2 : host) (p : CUDBGEventCallbackData) (w : world) : Prop :=
    let w1 := world_of (cuda_notification_block w) in
    let w2 := world_of (cuda_notification_notify h1 p w1) in
    let w3 := world_of (cuda_notification_accept h2 w2) in
    kills (new_events (cuda_notification_notify h1 p) w1) = [] /\
    pending_send (info w2) = true /\
    pending_send_data (info w2) = p /\
    blocked (info w3) = false /\
    sent (info w3) = true /\
    pending_send (info w3) = false.

  (** Sample hosts and payloads. *)
Definition host_ok : host := mkHost true (fun _ => 0) [100; 101].
Definition host_dead : host := mkHost true (fun _ => -1) [100; 101].
Definition payload_100 : CUDBGEventCallbackData := mkData 100 0.
Definition payload_timeout : CUDBGEventCallbackData := mkData 100 1.
Definition fresh : world := world_of (cuda_notification_initialize boot).

End NotificationSpec.
(** * Vocabulary for the properties of the state mirror *)

Section MirrorVocabulary.
Local Open Scope nat_scope.


(** Pure views of the mirror *)
Definition dev_at (s : Sys.t) (d : nat) : option Dev.t := Sys.dev s !! d.
Definition sm_at (s : Sys.t) (d i : nat) : option Sm.t :=
  dev_at s d ≫= fun D => Dev.sm D !! i.
Definition warp_at (s : Sys.t) (d i j : nat) : option Warp.t :=
  sm_at s d i ≫= fun S => Sm.wp S !! j.
Definition lane_at (s : Sys.t) (d i j k : nat) : option Lane.t :=
  warp_at s d i j ≫= fun W => Warp.ln W !! k.

Definition sys_head (s : Sys.t) : Sys.t := Sys.set_dev [] s.
Definition dev_head (D : Dev.t) : Dev.t := Dev.set_sm [] D.
Definition sm_head (S : Sm.t) : Sm.t := Sm.set_wp [] S.

(** Index-wise relation of two arrays. *)
Definition list_rel {A} (R : nat -> A -> A -> Prop) (l l' : list A) : Prop :=
  forall i, option_Forall2 (R i) (l !! i) (l' !! i).

Record rels : Type := mkRels {
  RY : Sys.t -> Sys.t -> Prop;
  RD : nat -> Dev.t -> Dev.t -> Prop;
  RS : nat -> nat -> Sm.t -> Sm.t -> Prop;
  RW : nat -> nat -> nat -> Warp.t -> Warp.t -> Prop
}.

Definition sm_rel (r : rels) (d i : nat) (S S' : Sm.t) : Prop :=
  RS r d i (sm_head S) (sm_head S') /\ list_rel (RW r d i) (Sm.wp S) (Sm.wp S').
Definition dev_rel (r : rels) (d : nat) (D D' : Dev.t) : Prop :=
  RD r d (dev_head D) (dev_head D') /\ list_rel (sm_rel r d) (Dev.sm D) (Dev.sm D').
Definition sys_rel (r : rels) (s s' : Sys.t) : Prop :=
  RY r (sys_head s) (sys_head s') /\ list_rel (dev_rel r) (Sys.dev s) (Sys.dev s').

Record preorder (r : rels) : Prop := mkPre {
  RY_refl x : RY r x x;
  RD_refl d x : RD r d x x;
  RS_refl d i x : RS r d i x x;
  RW_refl d i j x : RW r d i j x x;
  RY_trans x y z : RY r x y -> RY r y z -> RY r x z;
  RD_trans d x y z : RD r d x y -> RD r d y z -> RD r d x z;
  RS_trans d i x y z : RS r d i x y -> RS r d i y z -> RS r d i x z;
  RW_trans d i j x y z : RW r d i j x y -> RW r d i j y z -> RW r d i j x z
}.

Definition sub (r r' : rels) : Prop :=
  (forall x y, RY r x y -> RY r' x y) /\
  (forall d x y, RD r d x y -> RD r' d x y) /\
  (forall d i x y, RS r d i x y -> RS r' d i x y) /\
  (forall d i j x y, RW r d i j x y -> RW r' d i j x y).

(** A cache slot that may be filled but is never changed once full. *)
Definition latch {A} (b b' : bool) (v v' : A) : Prop :=
  b = true -> b' = true /\ v' = v.
(** A present-flag that may be cleared but never set. *)
Definition cleared (b b' : bool) : Prop := b' = true -> b = true.

Definition lane_values (l : Lane.t) :=
  (Lane.thread_idx l, Lane.pc l, Lane.exception l, Lane.virtual_pc l,
   Lane.timestamp l).
Definition lane_clear (l l' : Lane.t) : Prop :=
  lane_values l' = lane_values l /\
  cleared (Lane.thread_idx_p l) (Lane.thread_idx_p l') /\
  cleared (Lane.pc_p l) (Lane.pc_p l') /\
  cleared (Lane.exception_p l) (Lane.exception_p l') /\
  cleared (Lane.virtual_pc_p l) (Lane.virtual_pc_p l') /\
  cleared (Lane.timestamp_p l) (Lane.timestamp_p l').

Definition warp_values (w : Warp.t) :=
  (Warp.valid w, Warp.broken w, Warp.block_idx w, Warp.kernel w,
   Warp.grid_id w, Warp.valid_lanes_mask w, Warp.active_lanes_mask w,
   Warp.timestamp w).
Definition warp_clear (w w' : Warp.t) : Prop :=
  warp_values w' = warp_values w /\
  cleared (Warp.valid_p w) (Warp.valid_p w') /\
  cleared (Warp.broken_p w) (Warp.broken_p w') /\
  cleared (Warp.block_idx_p w) (Warp.block_idx_p w') /\
  cleared (Warp.kernel_p w) (Warp.kernel_p w') /\
  cleared (Warp.grid_id_p w) (Warp.grid_id_p w') /\
  cleared (Warp.valid_lanes_mask_p w) (Warp.valid_lanes_mask_p w') /\
  cleared (Warp.active_lanes_mask_p w) (Warp.active_lanes_mask_p w') /\
  cleared (Warp.timestamp_p w) (Warp.timestamp_p w') /\
  list_rel (fun _ => lane_clear) (Warp.ln w) (Warp.ln w').

Definition sm_clear (s s' : Sm.t) : Prop :=
  Sm.valid_warps_mask s' = Sm.valid_warps_mask s /\
  Sm.broken_warps_mask s' = Sm.broken_warps_mask s /\
  cleared (Sm.valid_warps_mask_p s) (Sm.valid_warps_mask_p s') /\
  cleared (Sm.broken_warps_mask_p s) (Sm.broken_warps_mask_p s') /\
  Sm.wp s' = Sm.wp s.

Definition dev_counts_latch (d d' : Dev.t) : Prop :=
  latch (Dev.num_sms_p d) (Dev.num_sms_p d') (Dev.num_sms d) (Dev.num_sms d') /\
  latch (Dev.num_warps_p d) (Dev.num_warps_p d') (Dev.num_warps d) (Dev.num_warps d') /\
  latch (Dev.num_lanes_p d) (Dev.num_lanes_p d') (Dev.num_lanes d) (Dev.num_lanes d').

Definition dev_rest (d : Dev.t) :=
  (Dev.num_registers_p d, Dev.dev_type_p d, Dev.sm_type_p d, Dev.valid d,
   Dev.suspended d, Dev.dev_type d, Dev.sm_type d, Dev.num_registers d,
   Dev.contexts d).

Definition dev_evolve (allowed : Prop) (d d' : Dev.t) : Prop :=
  dev_counts_latch d d' /\
  dev_rest d' = dev_rest d /\
  cleared (Dev.valid_p d) (Dev.valid_p d') /\
  cleared (Dev.filter_exception_state_p d) (Dev.filter_exception_state_p d') /\
  (~ allowed ->
   Dev.valid_p d' = Dev.valid_p d /\
   Dev.filter_exception_state_p d' = Dev.filter_exception_state_p d).

Definition sys_latch (s s' : Sys.t) : Prop :=
  latch (Sys.num_devices_p s) (Sys.num_devices_p s')
        (Sys.num_devices s) (Sys.num_devices s').

(** Invalidation within a footprint; descriptors may latch anywhere. *)
Definition r_inv (FD : nat -> Prop) (FS : nat -> nat -> Prop)
  (FW : nat -> nat -> nat -> Prop) : rels :=
  mkRels
    (fun s s' => sys_latch s s' /\
                 Sys.suspended_devices_mask s' = Sys.suspended_devices_mask s)
    (fun d => dev_evolve (FD d))
    (fun d i S S' => (FS d i /\ sm_clear S S') \/ S' = S)
    (fun d i j W W' => (FW d i j /\ warp_clear W W') \/ W' = W).

Definition nowhere1 : nat -> Prop := fun _ => False.
Definition nowhere2 : nat -> nat -> Prop := fun _ _ => False.
Definition nowhere3 : nat -> nat -> nat -> Prop := fun _ _ _ => False.
(** Only descriptors latch. *)
Definition r_counts : rels := r_inv nowhere1 nowhere2 nowhere3.

Definition pc_data (l : Lane.t) :=
  (Lane.pc_p l, Lane.pc l, Lane.virtual_pc_p l, Lane.virtual_pc l).
Definition warp_ext (w w' : Warp.t) : Prop :=
  latch (Warp.valid_lanes_mask_p w) (Warp.valid_lanes_mask_p w')
        (Warp.valid_lanes_mask w) (Warp.valid_lanes_mask w') /\
  latch (Warp.active_lanes_mask_p w) (Warp.active_lanes_mask_p w')
        (Warp.active_lanes_mask w) (Warp.active_lanes_mask w') /\
  list_rel (fun _ l l' => pc_data l' = pc_data l) (Warp.ln w) (Warp.ln w').

(** The two warp masks of an SM may be fetched, never changed. *)
Definition sm_latch (s s' : Sm.t) : Prop :=
  latch (Sm.valid_warps_mask_p s) (Sm.valid_warps_mask_p s')
        (Sm.valid_warps_mask s) (Sm.valid_warps_mask s') /\
  latch (Sm.broken_warps_mask_p s) (Sm.broken_warps_mask_p s')
        (Sm.broken_warps_mask s) (Sm.broken_warps_mask s').

(** Caches fill; the pc slots stay as they are. *)
Definition r_ext : rels :=
  mkRels sys_latch (fun _ => dev_counts_latch) (fun _ _ => sm_latch)
         (fun _ _ _ => warp_ext).

(** Descriptors latch; nothing is said of the rest. *)
Definition r_latch : rels :=
  mkRels sys_latch (fun _ => dev_counts_latch) (fun _ _ _ _ => True)
         (fun _ _ _ _ _ => True).

(** Cache slots that hold nothing. *)
Definition lane_off (s : Sys.t) (d i j k : nat) : Prop :=
  forall l, lane_at s d i j k = Some l -> Lane.invalidate l = l.
Definition warp_off (s : Sys.t) (d i j : nat) : Prop :=
  forall W, warp_at s d i j = Some W -> Warp.invalidate W = W.
Definition sm_off (s : Sys.t) (d i : nat) : Prop :=
  forall S, sm_at s d i = Some S -> Sm.invalidate_masks S = S.
Definition dev_off (s : Sys.t) (d : nat) : Prop :=
  forall D, dev_at s d = Some D ->
    Dev.valid_p D = false /\ Dev.filter_exception_state_p D = false.

Definition only_sm (d i : nat) : nat -> nat -> Prop :=
  fun d' i' => d' = d /\ i' = i.
Definition only_warp (d i j : nat) : nat -> nat -> nat -> Prop :=
  fun d' i' j' => d' = d /\ i' = i /\ j' = j.
Definition sm_warps (d i : nat) : nat -> nat -> nat -> Prop :=
  fun d' i' _ => d' = d /\ i' = i.
Definition only_dev (d : nat) : nat -> Prop := fun d' => d' = d.
Definition dev_sms (d : nat) : nat -> nat -> Prop := fun d' _ => d' = d.
Definition dev_warps (d : nat) : nat -> nat -> nat -> Prop :=
  fun d' _ _ => d' = d.

(** Everything cached under a device, within its counts, is absent. *)
Definition subtree_invalid (s : Sys.t) (d ns nw nl : nat) : Prop :=
  forall i, i < ns ->
    sm_off s d i /\
    forall j, j < nw ->
      warp_off s d i j /\
      forall k, k < nl -> lane_off s d i j k.

(** The warps of SM [(d, i)] whose bit is set in [mask]. *)
Definition warps_in (mask : Z) (d i : nat) : nat -> nat -> nat -> Prop :=
  fun d' i' j' => d' = d /\ i' = i /\ bit mask j' = true.
(** [mask & ~(1ULL << wp_id)] is non-zero. *)
Definition others_stepped (mask : Z) (j : nat) : bool :=
  negb (Z.land mask (not64 (Z.shiftl 1 (Z.of_nat j))) =? 0)%Z.
Definition other_warps_warning : string :=
  "Warp(s) other than the current warp had to be single-stepped.".

(** Descriptors and SM masks fill; warps stay as they are. *)
Definition r_smfill : rels :=
  mkRels sys_latch (fun _ => dev_counts_latch) (fun _ _ => sm_latch)
         (fun _ _ _ X X' => X' = X).

(** [a & ~v == 0] on 32-bit masks. *)
Definition mask_subset (a v : Z) : Prop := Z.land a (not32 v) = 0%Z.

(** The two program-counter slots of a lane. *)
Inductive pc_slot : Type := Pc | VirtualPc.

Definition slot_p (s : pc_slot) (l : Lane.t) : bool :=
  match s with Pc => Lane.pc_p l | VirtualPc => Lane.virtual_pc_p l end.
Definition slot_val (s : pc_slot) (l : Lane.t) : Z :=
  match s with Pc => Lane.pc l | VirtualPc => Lane.virtual_pc l end.
Definition slot_set (s : pc_slot) (v : Z) (l : Lane.t) : Lane.t :=
  match s with Pc => Lane.set_pc v l | VirtualPc => Lane.set_virtual_pc v l end.
Definition other_slot (s : pc_slot) : pc_slot :=
  match s with Pc => VirtualPc | VirtualPc => Pc end.
Definition slot_data (s : pc_slot) (l : Lane.t) : bool * Z :=
  (slot_p s l, slot_val s l).

(** Lane [k] is valid and active by the cached masks of its warp. *)
Definition lane_on (X : Warp.t) (k : nat) : bool :=
  bit (Warp.valid_lanes_mask X) k && bit (Warp.active_lanes_mask X) k.

(** Descriptors and masks fill; slot [s] of every lane stays as it is. *)
Definition warp_keep (s : pc_slot) (X X' : Warp.t) : Prop :=
  latch (Warp.valid_lanes_mask_p X) (Warp.valid_lanes_mask_p X')
        (Warp.valid_lanes_mask X) (Warp.valid_lanes_mask X') /\
  latch (Warp.active_lanes_mask_p X) (Warp.active_lanes_mask_p X')
        (Warp.active_lanes_mask X) (Warp.active_lanes_mask X') /\
  list_rel (fun _ l l' => slot_data s l' = slot_data s l)
           (Warp.ln X) (Warp.ln X').
Definition r_keep (s : pc_slot) : rels :=
  mkRels sys_latch (fun _ => dev_counts_latch) (fun _ _ _ _ => True)
         (fun _ _ _ => warp_keep s).

(** As [r_ext], with nothing said of the SM masks, of the device flags
    or of the suspended-devices mask. *)
Definition r_loose : rels :=
  mkRels sys_latch (fun _ => dev_counts_latch) (fun _ _ _ _ => True)
         (fun _ _ _ => warp_ext).

Definition dev_counts (D : Dev.t) :=
  (Dev.num_sms_p D, Dev.num_sms D, Dev.num_warps_p D, Dev.num_warps D,
   Dev.num_lanes_p D, Dev.num_lanes D).

(** A lane whose slot [s] is either as it was, or, where [P] allows,
    holds [pc]. *)
Definition lane_set_rel (s : pc_slot) (P : Prop) (pc : Z) (l l' : Lane.t)
  : Prop :=
  slot_data (other_slot s) l' = slot_data (other_slot s) l /\
  (slot_data s l' = slot_data s l \/ (P /\ slot_data s l' = (true, pc))).
Definition warp_set_rel (s : pc_slot) (P : nat -> Prop) (pc : Z)
    (X X' : Warp.t) : Prop :=
  latch (Warp.valid_lanes_mask_p X) (Warp.valid_lanes_mask_p X')
        (Warp.valid_lanes_mask X) (Warp.valid_lanes_mask X') /\
  latch (Warp.active_lanes_mask_p X) (Warp.active_lanes_mask_p X')
        (Warp.active_lanes_mask X) (Warp.active_lanes_mask X') /\
  list_rel (fun q => lane_set_rel s (P q) pc) (Warp.ln X) (Warp.ln X').
(** Propagation of [pc] within warp [(d, i, j)]. *)
Definition r_set (s : pc_slot) (P : nat -> Prop) (pc : Z) (d i j : nat)
  : rels :=
  mkRels sys_latch (fun _ => dev_counts_latch) (fun _ _ _ _ => True)
         (fun d' i' j' =>
            warp_set_rel s (fun q => (d' = d /\ i' = i /\ j' = j) /\ P q) pc).

(** The operations of [cuda-state.c] that fetch, fill or drop the
    cached counts, the cached masks and the pc slots, with the two that
    stop and start a device.  The other functions of the file and the
    handlers of [cuda-events.c] write other fields of the mirror, or
    are sequences of these operations: [env_step] stands for what they
    write. *)
Inductive mirror_op : Type :=
  | Op_system_initialize
  | Op_device_get_num_sms (d : nat)
  | Op_device_get_num_warps (d : nat)
  | Op_device_get_num_lanes (d : nat)
  | Op_device_invalidate (d : nat)
  | Op_device_suspend (d : nat)
  | Op_device_resume (d : nat)
  | Op_sm_get_valid_warps_mask (d i : nat)
  | Op_warp_single_step (d i j : nat)
  | Op_warp_is_valid (d i j : nat)
  | Op_warp_get_valid_lanes_mask (d i j : nat)
  | Op_warp_get_active_lanes_mask (d i j : nat)
  | Op_warp_get_divergent_lanes_mask (d i j : nat)
  | Op_lane_is_valid (d i j k : nat)
  | Op_lane_is_active (d i j k : nat)
  | Op_lane_is_divergent (d i j k : nat)
  | Op_lane_get_pc (d i j k : nat)
  | Op_lane_get_virtual_pc (d i j k : nat).

Section OverWorlds.
Context {HW : Type} (L : limits) (api : debug_api HW).
Local Abbreviation W := (world HW).
Implicit Type w : W.


Definition rest_of w :=
  (cuda_initialized w, opts w, cuda_clock w, attach_state w, heap w,
   next_address w, current_context w, saved_contexts w, current_coords w,
   saved_focus w).

Definition step_rel (r : rels) w w' : Prop :=
  sys_rel r (cuda_system_info w) (cuda_system_info w') /\
  rest_of w' = rest_of w.

(** Partial correctness: what holds of a call that returned. *)
Definition spec {A} (m : M W A) (Q : W -> A -> W -> Prop) : Prop :=
  forall w a w', m w = Done a w' -> Q w a w'.
Definition may (r : rels) {A} (m : M W A) : Prop :=
  spec m (fun w _ w' => step_rel r w w').

Definition dev_ok w (d : nat) : Prop :=
  cuda_initialized w = true /\
  Sys.num_devices_p (cuda_system_info w) = true /\
  d < Sys.num_devices (cuda_system_info w).
Definition sms_known w (d n : nat) : Prop :=
  exists D, dev_at (cuda_system_info w) d = Some D /\
            Dev.num_sms_p D = true /\ Dev.num_sms D = n.
Definition warps_known w (d n : nat) : Prop :=
  exists D, dev_at (cuda_system_info w) d = Some D /\
            Dev.num_warps_p D = true /\ Dev.num_warps D = n.
Definition lanes_known w (d n : nat) : Prop :=
  exists D, dev_at (cuda_system_info w) d = Some D /\
            Dev.num_lanes_p D = true /\ Dev.num_lanes D = n.

(** A call through the port leaves the mirror alone. *)
Definition off_mirror {A} (m : M W A) : Prop :=
  spec m (fun w _ w' =>
    cuda_system_info w' = cuda_system_info w /\ rest_of w' = rest_of w).

Definition sm_ok w (d i : nat) : Prop :=
  dev_ok w d /\ exists n, sms_known w d n /\ i < n.
Definition wp_ok w (d j : nat) : Prop :=
  dev_ok w d /\ exists n, warps_known w d n /\ j < n.
Definition ln_ok w (d k : nat) : Prop :=
  dev_ok w d /\ exists n, lanes_known w d n /\ k < n.

Definition warp_done w (d i j : nat) : Prop :=
  warp_off (cuda_system_info w) d i j /\
  exists n, lanes_known w d n /\
            forall k, k < n -> lane_off (cuda_system_info w) d i j k.
Definition sm_done w (d i : nat) : Prop :=
  sm_off (cuda_system_info w) d i /\
  exists n, warps_known w d n /\ forall j, j < n -> warp_done w d i j.
Definition dev_done w (d : nat) : Prop :=
  dev_off (cuda_system_info w) d /\
  exists n, sms_known w d n /\ forall i, i < n -> sm_done w d i.

(** The logs and the device behind the port are as they were. *)
Definition quiet w w' : Prop :=
  api_calls w' = api_calls w /\ hw w' = hw w /\ host_calls w' = host_calls w.

Definition goes_quietly (m : M W unit) w : Prop :=
  exists w', m w = Done tt w' /\ quiet w w'.

(** The facts that make every range assertion of an invalidation
    pass. *)
Definition descriptors w (d ns nw nl : nat) : Prop :=
  dev_ok w d /\ sms_known w d ns /\ warps_known w d nw /\ lanes_known w d nl.

Definition resume_mask (mask : Z) (d : nat) : Z :=
  Z.land mask (not32 (Z.shiftl 1 (Z.of_nat d))).

(** The world right after the port's single-step call. *)
Definition stepped w (d i j : nat) : W :=
  set_hw (fst (api_single_step_warp api (hw w) d i j))
         (log_api (Api_single_step_warp d i j) w).
Definition step_mask w (d i j : nat) : Z :=
  u64 (snd (api_single_step_warp api (hw w) d i j)).

Definition whole_device w (d ns nw nl : nat) : Prop :=
  dev_off (cuda_system_info w) d /\
  subtree_invalid (cuda_system_info w) d ns nw nl.

Definition step_tail (d i : nat) (mask : Z) : M W unit :=
  n <- State.device_get_num_warps L api d ;;
  for_upto n (fun i' =>
    when (negb (Z.land (Z.shiftl 1 (Z.of_nat i')) mask =? 0)%Z)
         (State.warp_invalidate L api d i i')) ;;
  State.sm_invalidate L api d i State.NON_RECURSIVE.

Definition valid_mask_is w (d i j : nat) (v : Z) : Prop :=
  exists X, warp_at (cuda_system_info w) d i j = Some X /\
            Warp.valid_lanes_mask_p X = true /\ Warp.valid_lanes_mask X = v.
Definition active_mask_is w (d i j : nat) (v : Z) : Prop :=
  exists X, warp_at (cuda_system_info w) d i j = Some X /\
            Warp.active_lanes_mask_p X = true /\ Warp.active_lanes_mask X = v.

Definition sm_valid_mask_is w (d i : nat) (v : Z) : Prop :=
  exists Sx, sm_at (cuda_system_info w) d i = Some Sx /\
             Sm.valid_warps_mask_p Sx = true /\ Sm.valid_warps_mask Sx = v.

(** What the port says of a warp's lanes in a hardware state. *)
Definition port_valid_lanes (h : HW) (d i j : nat) : Z :=
  u32 (api_read_valid_lanes api h d i j).
Definition port_active_lanes (h : HW) (d i j : nat) : Z :=
  u32 (api_read_active_lanes api h d i j).
(** What it says of the warps of an SM. *)
Definition port_valid_warps (h : HW) (d i : nat) : Z :=
  u64 (api_read_valid_warps api h d i).

(** The three answers of the port that the lane masks of warp
    [(d, i, j)] are made of. *)
Definition warp_reads (h : HW) (d i j : nat) : bool * Z * Z :=
  (bit (port_valid_warps h d i) j, port_valid_lanes h d i j,
   port_active_lanes h d i j).
(** The port reports the same masks in two hardware states. *)
Definition same_masks (h h' : HW) : Prop :=
  forall d i, port_valid_warps h' d i = port_valid_warps h d i /\
              forall j, warp_reads h' d i j = warp_reads h d i j.

(** A count may be fetched, within its limit, and is never changed once
    cached. *)
Definition bounded_latch (limit : nat) (p p' : bool) (n n' : nat) : Prop :=
  (p = true -> p' = true /\ n' = n) /\
  (p' = true -> p = true \/ n' <= limit).
Definition dev_bounds (D D' : Dev.t) : Prop :=
  bounded_latch (CUDBG_MAX_SMS L) (Dev.num_sms_p D) (Dev.num_sms_p D')
                (Dev.num_sms D) (Dev.num_sms D') /\
  bounded_latch (CUDBG_MAX_WARPS L) (Dev.num_warps_p D) (Dev.num_warps_p D')
                (Dev.num_warps D) (Dev.num_warps D') /\
  bounded_latch (CUDBG_MAX_LANES L) (Dev.num_lanes_p D) (Dev.num_lanes_p D')
                (Dev.num_lanes D) (Dev.num_lanes D').

Definition sm_mask (S : Sm.t) : bool * Z :=
  (Sm.valid_warps_mask_p S, Sm.valid_warps_mask S).
Definition lane_masks (X : Warp.t) : bool * Z * bool * Z :=
  (Warp.valid_lanes_mask_p X, Warp.valid_lanes_mask X,
   Warp.active_lanes_mask_p X, Warp.active_lanes_mask X).

(** What the functions other than the operations of [mirror_op] do to
    the mirror: they fetch a count, within its limit, and write any
    field but the counts, the valid-warps mask of an SM, the two lane
    masks of a warp and the two pc slots of a lane.  The registry of
    contexts of a device, its [suspended] and [valid] flags, the
    suspended-devices mask, the broken-warps masks, the grid and block
    of a warp, the exception, thread index and timestamp of a lane are
    all free. *)
Definition r_env : rels :=
  mkRels
    (fun s s' => bounded_latch (CUDBG_MAX_DEVICES L)
                   (Sys.num_devices_p s) (Sys.num_devices_p s')
                   (Sys.num_devices s) (Sys.num_devices s'))
    (fun _ => dev_bounds)
    (fun _ _ S S' => sm_mask S' = sm_mask S)
    (fun _ _ _ X X' =>
       lane_masks X' = lane_masks X /\
       list_rel (fun _ l l' => pc_data l' = pc_data l) (Warp.ln X) (Warp.ln X')).

(** A cached mask may be dropped, never filled or changed. *)
Definition fades {A} (p p' : bool) (v v' : A) : Prop :=
  p' = true -> p = true /\ v' = v.
(** Counts latch; the three masks fade. *)
Definition r_fade : rels :=
  mkRels sys_latch (fun _ => dev_counts_latch)
    (fun _ _ S S' => fades (Sm.valid_warps_mask_p S) (Sm.valid_warps_mask_p S')
                           (Sm.valid_warps_mask S) (Sm.valid_warps_mask S'))
    (fun _ _ _ X X' =>
       fades (Warp.valid_lanes_mask_p X) (Warp.valid_lanes_mask_p X')
             (Warp.valid_lanes_mask X) (Warp.valid_lanes_mask X') /\
       fades (Warp.active_lanes_mask_p X) (Warp.active_lanes_mask_p X')
             (Warp.active_lanes_mask X) (Warp.active_lanes_mask X')).

(** A step that changes the mirror within [r], whatever it does
    outside the mirror, and after which the port reports the masks it
    reported before. *)
Definition drift (r : rels) w w' : Prop :=
  sys_rel r (cuda_system_info w) (cuda_system_info w') /\
  same_masks (hw w) (hw w').
Definition moves (r : rels) {A} (m : M W A) : Prop :=
  spec m (fun w _ w' => drift r w w').
(** A step of the debugger between two operations of [mirror_op]. *)
Definition env_step : W -> W -> Prop := drift r_env.

(** A present pc slot lies below the lane count, beside both cached
    masks; and the slots of the active lanes of a warp are present
    together, with one value. *)
Definition coherent (s : pc_slot) w : Prop :=
  forall d i j X k l,
    warp_at (cuda_system_info w) d i j = Some X ->
    Warp.ln X !! k = Some l -> slot_p s l = true ->
    (exists n, lanes_known w d n /\ k < n) /\
    Warp.valid_lanes_mask_p X = true /\
    Warp.active_lanes_mask_p X = true /\
    (lane_on X k = true ->
     forall n k' l', lanes_known w d n -> k' < n ->
       Warp.ln X !! k' = Some l' -> lane_on X k' = true ->
       slot_p s l' = true /\ slot_val s l' = slot_val s l).

Definition keeps (I : W -> Prop) {A} (m : M W A) : Prop :=
  forall w a w', I w -> m w = Done a w' -> I w'.

(** What propagation must have achieved in warp [(d, i, j)] for the
    invariant to hold again. *)
Definition propagated (s : pc_slot) (P : nat -> Prop) (pc : Z)
    (n : nat) (X : Warp.t) : Prop :=
  Warp.valid_lanes_mask_p X = true /\
  Warp.active_lanes_mask_p X = true /\
  (forall q l, P q -> Warp.ln X !! q = Some l -> lane_on X q = true ->
     slot_data s l = (true, pc)) /\
  ((forall q, q < n -> P q) \/ (forall q, P q -> lane_on X q = false)).

Definition fetch_slot (s : pc_slot) (d i j k : nat) : M W Z :=
  match s with
  | Pc => State.cuda_api_read_pc api d i j k
  | VirtualPc => State.cuda_api_read_virtual_pc api d i j k
  end.

(** What [lane_get_pc] and [lane_get_virtual_pc] do once the lane is
    known to be valid. *)
Definition lane_get_body (s : pc_slot) (d i j k : nat) : M W Z :=
  l <- State.read_lane d i j k ;;
  if slot_p s l then ret (slot_val s l)
  else
    pc <- fetch_slot s d i j k ;;
    State.modify_lane (slot_set s pc) d i j k ;;
    a <- State.lane_is_active L api d i j k ;;
    when a
      (n <- State.device_get_num_lanes L api d ;;
       for_upto n (fun other_ln_id =>
         b <- State.lane_is_valid_and_active L api d i j other_ln_id ;;
         when b (State.modify_lane (slot_set s pc) d i j other_ln_id))) ;;
    l <- State.read_lane d i j k ;;
    ret (slot_val s l).

Definition lane_get (s : pc_slot) (d i j k : nat) : M W Z :=
  State.assert_dev L api d ;;
  State.assert_sm L api d i ;;
  State.assert_wp L api d j ;;
  State.assert_ln L api d k ;;
  State.assert_lane_is_valid L api d i j k ;;
  lane_get_body s d i j k.

(** Lane [(d, i, j, k)] is in range and valid by the cached mask, and
    its slot [s] holds [pc]. *)
Definition slot_holds (s : pc_slot) w (d i j k : nat) (pc : Z) : Prop :=
  sm_ok w d i /\ wp_ok w d j /\ ln_ok w d k /\
  (exists v, valid_mask_is w d i j v /\ bit v k = true) /\
  exists l, lane_at (cuda_system_info w) d i j k = Some l /\
            slot_data s l = (true, pc).

(** The world after [lane_is_valid] on a lane whose warp has its
    valid mask cached: at most a timestamp is written. *)
Definition stamped w (d i j k : nat) (l : Lane.t) : W :=
  if Lane.timestamp_p l then w
  else set_system (State.update_lane (Lane.set_timestamp (cuda_clock w))
                     d i j k (cuda_system_info w)) w.

Definition void {A} (m : M W A) : M W unit := bind m (fun _ => ret tt).

Definition run_op (o : mirror_op) : M W unit :=
  match o with
  | Op_system_initialize => Context.cuda_system_initialize L api
  | Op_device_get_num_sms d => void (State.device_get_num_sms L api d)
  | Op_device_get_num_warps d => void (State.device_get_num_warps L api d)
  | Op_device_get_num_lanes d => void (State.device_get_num_lanes L api d)
  | Op_device_invalidate d => State.device_invalidate L api d
  | Op_device_suspend d => State.device_suspend L api d
  | Op_device_resume d => State.device_resume L api d
  | Op_sm_get_valid_warps_mask d i =>
      void (State.sm_get_valid_warps_mask L api d i)
  | Op_warp_single_step d i j => void (State.warp_single_step L api d i j)
  | Op_warp_is_valid d i j => void (State.warp_is_valid L api d i j)
  | Op_warp_get_valid_lanes_mask d i j =>
      void (State.warp_get_valid_lanes_mask L api d i j)
  | Op_warp_get_active_lanes_mask d i j =>
      void (State.warp_get_active_lanes_mask L api d i j)
  | Op_warp_get_divergent_lanes_mask d i j =>
      void (State.warp_get_divergent_lanes_mask L api d i j)
  | Op_lane_is_valid d i j k => void (State.lane_is_valid L api d i j k)
  | Op_lane_is_active d i j k => void (State.lane_is_active L api d i j k)
  | Op_lane_is_divergent d i j k =>
      void (State.lane_is_divergent L api d i j k)
  | Op_lane_get_pc d i j k => void (State.lane_get_pc L api d i j k)
  | Op_lane_get_virtual_pc d i j k =>
      void (State.lane_get_virtual_pc L api d i j k)
  end.

(** The worlds a session can be in.  The mirror starts zeroed, and is
    zeroed again by [cuda_system_finalize]; an operation of [mirror_op]
    that returns moves it; and between two operations the rest of the
    debugger acts: it changes what lies outside the mirror at will (the
    options, the clock, the context objects, the focus, the logs), and
    the mirror within [r_env].  The device is stopped meanwhile: the
    masks the port reports change in its calls to resume, suspend and
    single-step only, which the operations make. *)
Inductive reachable : W -> Prop :=
  | reach_boot w :
      cuda_system_info w = zero_system L -> reachable w
  | reach_call w o u w' :
      reachable w -> run_op o w = Done u w' -> reachable w'
  | reach_env w w' :
      reachable w -> env_step w w' -> reachable w'.

(** A computation that leads from reachable worlds to reachable
    worlds. *)
Definition closed {A} (m : M W A) : Prop :=
  forall w a w', reachable w -> m w = Done a w' -> reachable w'.

Definition pc_getter (s : pc_slot) : nat -> nat -> nat -> nat -> M W Z :=
  match s with
  | Pc => State.lane_get_pc L api
  | VirtualPc => State.lane_get_virtual_pc L api
  end.

Definition both_coherent w : Prop := coherent Pc w /\ coherent VirtualPc w.

End OverWorlds.
End MirrorVocabulary.

(** * What the claims about the mirror say *)

Section MirrorOutcomes.
Local Open Scope nat_scope.
Context {HW : Type} (L : limits) (api : debug_api HW).
Local Abbreviation W := (world HW).
Implicit Type w : W.

(** [device_resume (d)] on a device whose record is [D]: the call
    returns; everything cached under the device is dropped; the port is
    asked to resume, and the suspended bit cleared, exactly when the
    mirror had the device as suspended. *)
Definition resume_outcome w (d ns nw nl : nat) (D : Dev.t) : Prop :=
  exists w' D',
    State.device_resume L api d w = Done tt w' /\
    dev_at (cuda_system_info w') d = Some D' /\
    subtree_invalid (cuda_system_info w') d ns nw nl /\
    Dev.valid_p D' = false /\
    Dev.filter_exception_state_p D' = false /\
    host_calls w' = host_calls w ++ [Kernel_invalidate_all] /\
    if Dev.suspended D
    then api_calls w' = api_calls w ++ [Api_resume_device d] /\
         hw w' = api_resume_device api (hw w) d /\
         Dev.suspended D' = false /\
         Sys.suspended_devices_mask (cuda_system_info w')
         = resume_mask (Sys.suspended_devices_mask (cuda_system_info w)) d /\
         Z.testbit (Sys.suspended_devices_mask (cuda_system_info w'))
                   (Z.of_nat d) = false
    else api_calls w' = api_calls w /\
         hw w' = hw w /\
         Dev.suspended D' = false /\
         Sys.suspended_devices_mask (cuda_system_info w')
         = Sys.suspended_devices_mask (cuda_system_info w).

(** [device_resume] as the design document words it: the port's resume
    is among the calls made. *)
Definition device_resume_as_stated w (d ns nw nl : nat) : Prop :=
  exists w',
    State.device_resume L api d w = Done tt w' /\
    whole_device w' d ns nw nl /\
    In (Api_resume_device d) (api_calls w') /\
    Z.testbit (Sys.suspended_devices_mask (cuda_system_info w'))
              (Z.of_nat d) = false.

(** [warp_single_step (d, i, j)]: the call returns the mask the port
    gave, after one call to the port; what is invalidated depends on
    the option and on the mask.  In the last case the footprint is the
    SM's two masks and the warps of the mask, which can only be warp
    [j]; [step_rel] says that all else is as it was. *)
Definition single_step_outcome w (d i j ns nw nl : nat) : Prop :=
  let mask := step_mask api w d i j in
  exists w',
    State.warp_single_step L api d i j w = Done mask w' /\
    api_calls w' = api_calls w ++ [Api_single_step_warp d i j] /\
    hw w' = hw (stepped api w d i j) /\
    if cuda_options_software_preemption (opts w) then
      host_calls w' = host_calls w ++ [Kernel_invalidate_all] /\
      whole_device w' d ns nw nl /\
      step_rel (r_inv (only_dev d) (dev_sms d) (dev_warps d)) w w'
    else if others_stepped mask j then
      host_calls w'
      = host_calls w ++ [Warning other_warps_warning; Kernel_invalidate_all] /\
      whole_device w' d ns nw nl /\
      step_rel (r_inv (only_dev d) (dev_sms d) (dev_warps d)) w w'
    else
      host_calls w' = host_calls w /\
      step_rel (r_inv nowhere1 (only_sm d i) (warps_in mask d i)) w w' /\
      (forall j', bit mask j' = true -> j' = j) /\
      sm_off (cuda_system_info w') d i /\
      (bit mask j = true ->
       warp_off (cuda_system_info w') d i j /\
       forall k, k < nl -> lane_off (cuda_system_info w') d i j k).

(** The port never reports an active lane that is not valid. *)
Definition port_nested : Prop :=
  forall h d i j,
    mask_subset (port_active_lanes api h d i j) (port_valid_lanes api h d i j).

(** The SMs and the warps that a single-step of warp [(d, i, j)] leaves
    as they were, when the port reports [m] as the mask of the warps it
    has stepped: those of the other devices; and, unless the mask names
    a warp other than [j], the other SMs of the device and the warps of
    SM [(d, i)] that the mask does not name. *)
Definition beside_sm (m : Z) (d i j d' i' : nat) : Prop :=
  d' <> d \/ (others_stepped m j = false /\ i' <> i).
Definition beside_warp (m : Z) (d i j d' i' j' : nat) : Prop :=
  d' <> d \/ (others_stepped m j = false /\ (i' <> i \/ bit m j' = false)).

(** The port's single-step changes the masks of the warps it reports,
    or, when it reports a warp other than the one it was asked to step,
    of the device; it changes no other. *)
Definition step_frame : Prop :=
  forall h d i j d' i',
    let h' := fst (api_single_step_warp api h d i j) in
    let m := u64 (snd (api_single_step_warp api h d i j)) in
    (beside_sm m d i j d' i' ->
     port_valid_warps api h' d' i' = port_valid_warps api h d' i') /\
    (forall j', beside_warp m d i j d' i' j' ->
       warp_reads api h' d' i' j' = warp_reads api h d' i' j').
(** A device is read while it is stopped: the state that the port's
    resume leaves is the one in which the device stops next, and
    suspending it changes no mask. *)
Definition suspend_frame : Prop :=
  forall h d, same_masks api h (api_suspend_device api h d).
(** Resuming a device changes no mask of another device. *)
Definition resume_frame : Prop :=
  forall h d d' i', d' <> d ->
    port_valid_warps api (api_resume_device api h d) d' i'
    = port_valid_warps api h d' i' /\
    forall j', warp_reads api (api_resume_device api h d) d' i' j'
               = warp_reads api h d' i' j'.

(** What the mirror expects of the port about the masks. *)
Definition port_contract : Prop :=
  port_nested /\ step_frame /\ suspend_frame /\ resume_frame.

Definition sm_within w (d i : nat) : Prop :=
  exists n, sms_known w d n /\ i < n.
Definition warp_within w (d i j : nat) : Prop :=
  sm_within w d i /\ exists n, warps_known w d n /\ j < n.

(** Every cached mask was fetched within the counts of its device; and
    the cached masks of the SMs in [Gs] and of the warps in [Gw] are
    what the port reports in the current hardware state: the valid
    mask of a warp that the port does not report as valid is zero. *)
Definition current_in (Gs : nat -> nat -> Prop)
    (Gw : nat -> nat -> nat -> Prop) w : Prop :=
  (forall d i Sx,
     sm_at (cuda_system_info w) d i = Some Sx ->
     Sm.valid_warps_mask_p Sx = true ->
     sm_within w d i /\
     (Gs d i -> Sm.valid_warps_mask Sx = port_valid_warps api (hw w) d i)) /\
  (forall d i j X,
     warp_at (cuda_system_info w) d i j = Some X ->
     (Warp.valid_lanes_mask_p X = true ->
      warp_within w d i j /\
      (Gw d i j ->
       Warp.valid_lanes_mask X
       = if bit (port_valid_warps api (hw w) d i) j
         then port_valid_lanes api (hw w) d i j else 0%Z)) /\
     (Warp.active_lanes_mask_p X = true ->
      warp_within w d i j /\
      (Gw d i j ->
       Warp.active_lanes_mask X = port_active_lanes api (hw w) d i j))).
Definition masks_current : W -> Prop :=
  current_in (fun _ _ => True) (fun _ _ _ => True).

(** A cached mask is as it was, or is what the port reports in world
    [w'], within the counts of [w']. *)
Definition r_fill (w' : W) : rels :=
  mkRels sys_latch (fun _ => dev_counts_latch)
    (fun d i S S' =>
       Sm.valid_warps_mask_p S' = true ->
       (Sm.valid_warps_mask_p S = true /\
        Sm.valid_warps_mask S' = Sm.valid_warps_mask S) \/
       (sm_within w' d i /\
        Sm.valid_warps_mask S' = port_valid_warps api (hw w') d i))
    (fun d i j X X' =>
       (Warp.valid_lanes_mask_p X' = true ->
        (Warp.valid_lanes_mask_p X = true /\
         Warp.valid_lanes_mask X' = Warp.valid_lanes_mask X) \/
        (warp_within w' d i j /\
         Warp.valid_lanes_mask X'
         = if bit (port_valid_warps api (hw w') d i) j
           then port_valid_lanes api (hw w') d i j else 0%Z)) /\
       (Warp.active_lanes_mask_p X' = true ->
        (Warp.active_lanes_mask_p X = true /\
         Warp.active_lanes_mask X' = Warp.active_lanes_mask X) \/
        (warp_within w' d i j /\
         Warp.active_lanes_mask X' = port_active_lanes api (hw w') d i j))).

(** The invariant as the design document words it: in a valid warp, the
    cached active mask lies within the cached valid mask. *)
Definition lanes_nested_as_stated w : Prop :=
  forall d i j X w1,
    State.warp_is_valid L api d i j w = Done true w1 ->
    warp_at (cuda_system_info w) d i j = Some X ->
    Warp.valid_lanes_mask_p X = true ->
    Warp.active_lanes_mask_p X = true ->
    mask_subset (Warp.active_lanes_mask X) (Warp.valid_lanes_mask X).

(** [warp_get_divergent_lanes_mask (d, i, j)]: the call returns
    [valid & ~active] of the two masks it leaves cached, bit by bit;
    and if the warp is valid, the active mask lies within the valid
    one. *)
Definition divergent_outcome w (d i j : nat) : Prop :=
  exists v m w',
    State.warp_get_divergent_lanes_mask L api d i j w
    = Done (Z.land v (not32 m)) w' /\
    valid_mask_is w' d i j v /\ active_mask_is w' d i j m /\
    (forall k, k < 32 ->
       bit (Z.land v (not32 m)) k = bit v k && negb (bit m k)) /\
    (forall w1, State.warp_is_valid L api d i j w' = Done true w1 ->
       mask_subset m v).

(** After a read of slot [s] on lane [k] that returned [pc]: both masks
    of the warp are cached and lane [k] is valid; and if lane [k] is
    active, every valid and active lane [k'] of the warp, among the [n]
    lanes of the device, has its slot present and holding [pc], and a
    read of it returns [pc] without a call to the port. *)
Definition pc_shared (s : pc_slot) w' (d i j k : nat) (pc : Z) : Prop :=
  exists X n,
    warp_at (cuda_system_info w') d i j = Some X /\
    lanes_known w' d n /\ k < n /\
    Warp.valid_lanes_mask_p X = true /\
    Warp.active_lanes_mask_p X = true /\
    bit (Warp.valid_lanes_mask X) k = true /\
    (bit (Warp.active_lanes_mask X) k = true ->
     forall k', k' < n -> lane_on X k' = true ->
       exists l', Warp.ln X !! k' = Some l' /\
         slot_p s l' = true /\ slot_val s l' = pc /\
         exists w'', pc_getter L api s d i j k' w' = Done pc w'' /\
                     api_calls w'' = api_calls w' /\ hw w'' = hw w').

End MirrorOutcomes.

(** * Vocabulary for the properties of the event handlers and of the commands *)

Section EventsVocabulary.
Context {HW : Type} (L : limits) (api : debug_api HW).
Import Events.
Local Abbreviation W := (world HW).

(** The handler gave up with the invalid-thread-id error. *)
Definition fatal_outcome (o : outcome W unit) : Prop :=
  exists w', o = Throw (Error invalid_thread_id) w'.

(** The claim as the design document words it: an event whose thread id
    is [~0U] is fatal, whatever the attach state. *)
Definition invalid_tid_fatal_as_stated (event : CUDBGEvent) (w : W) : Prop :=
  event_tid event = Some UINT32_MAX ->
  fatal_outcome (cuda_process_event L api event w).

(** The device is in range and its registry exists. *)
Definition registry_at (w : W) (dev_id : nat) (D : Dev.t) (reg : contexts_st) : Prop :=
  cuda_initialized w = true /\
  Sys.num_devices_p (cuda_system_info w) = true /\
  (dev_id < Sys.num_devices (cuda_system_info w))%nat /\
  Sys.dev (cuda_system_info w) !! dev_id = Some D /\
  Dev.contexts D = Some reg.

Definition top_of (reg : contexts_st) (tid : Z) : context_t :=
  match Context.stack_of reg tid with [] => None | top :: _ => top end.

Definition registry_after_destroy (reg : contexts_st) (tid : Z) (ctx : context_t) : contexts_st :=
  mkContexts
    (Context.remove_first ctx (ctx_list reg))
    (if bool_decide (top_of reg tid = ctx)
     then <[tid := tail (Context.stack_of reg tid)]> (ctx_stacks reg)
     else ctx_stacks reg).

Definition destroy_calls (w : W) (reg : contexts_st) (dev_id : nat) (context_id tid : Z)
  (ctx : context_t) : list host_call :=
  (if bool_decide (top_of reg tid = ctx) then [Contexts_unstack_context tid] else [])
  ++ (if bool_decide (ctx = current_context w) then [Set_current_context None] else [])
  ++ [Cuda_cleanup_auto_breakpoints context_id;
      Cuda_unresolve_breakpoints context_id;
      Contexts_remove_context ctx;
      Context_delete ctx]
  ++ (if cuda_options_show_context_events (opts w)
      then [Printf_unfiltered "Context Destroy" context_id dev_id] else []).

(** What [cuda_event_destroy_context] does once the context has been
    taken off the stack and the current-context pointer dealt with. *)
Definition destroy_tail (dev_id : nat) (context_id : Z) (context : context_t)
  : M W unit :=
  host (Cuda_cleanup_auto_breakpoints context_id) ;;
  host (Cuda_unresolve_breakpoints context_id) ;;
Context.contexts_remove_context dev_id context ;;
Context.context_delete context ;;
  show_context_event "Context Destroy" context_id dev_id.

End EventsVocabulary.

Section CommandsVocabulary.
Context {HW : Type}.
Import Commands.
Local Abbreviation W := (world HW).

Definition keeps_saved (command : string -> M W unit) : Prop :=
  forall arg w,
    saved_focus (world_of (command arg w)) = saved_focus w /\
    saved_contexts (world_of (command arg w)) = saved_contexts w.

Definition all_keep_saved (cmds : info_commands) : Prop :=
  keeps_saved (info_cuda_devices_command cmds) /\
  keeps_saved (info_cuda_sms_command cmds) /\
  keeps_saved (info_cuda_warps_command cmds) /\
  keeps_saved (info_cuda_lanes_command cmds) /\
  keeps_saved (info_cuda_kernels_command cmds) /\
  keeps_saved (info_cuda_blocks_command cmds) /\
  keeps_saved (info_cuda_threads_command cmds).

Definition same_focus (w w' : W) : Prop :=
  current_coords w' = current_coords w /\
  current_context w' = current_context w /\
  saved_focus w' = saved_focus w /\
  saved_contexts w' = saved_contexts w.

End CommandsVocabulary.

(** * Sample port, worlds and commands *)

Definition L0 : limits := mkLimits 1 1 2 3.

(** One device with one SM of two warps of three lanes.  The hardware
    state counts the resumes and single-steps; lanes 0 and 1 of every
    warp are valid and active at first, all three afterwards. *)
Definition api0 : debug_api nat :=
  mkApi nat
    (fun _ => 1) (fun _ _ => 1) (fun _ _ => 2) (fun _ _ => 3)
    (fun _ _ _ => 3) (fun _ _ _ => 0)
    (fun h _ _ _ => if (h =? 0)%nat then 3 else 7)
    (fun h _ _ _ => if (h =? 0)%nat then 3 else 7)
    (fun _ _ _ _ _ => 4096) (fun _ _ _ _ _ => 64)
    (fun _ _ _ _ _ => 0) (fun _ _ => 0)
    (fun h _ _ j => (S h, Z.shiftl 1 (Z.of_nat j)))
    (fun h _ => h) (fun h _ => S h).

Definition opts0 : options := mkOptions false false false false.
Definition coords0 : cuda_coords_t :=
  mkCoords false 0 0 0 0 0 0 zero_dim3 zero_dim3.
Definition coords1 : cuda_coords_t :=
  mkCoords true 0 0 1 2 1 1 zero_dim3 zero_dim3.

(** A zeroed mirror in an initialised debugger. *)
Definition w_boot : world nat :=
  mkWorld (zero_system L0) true 0%nat [] [] opts0 0
          CUDA_ATTACH_STATE_NOT_STARTED ∅ 0%nat None [] coords0 [].
(** The counts of device 0 are cached, and nothing else. *)
Definition w_counted : world nat :=
  world_of (State.warp_invalidate L0 api0 0 0 0 w_boot).
(** An attach is in progress. *)
Definition w_attaching : world nat :=
  set_attach_state CUDA_ATTACH_STATE_IN_PROGRESS w_boot.
(** Thread 7 has created context 5 on device 0. *)
Definition w_session : world nat :=
  world_of (Events.cuda_process_event L0 api0
              (Events.CUDBG_EVENT_CTX_CREATE 0 5 7)
              (world_of (Context.cuda_system_initialize L0 api0 w_boot))).
(** The same, with device 0 suspended and its counts cached. *)
Definition w_suspended : world nat :=
  world_of (State.device_suspend L0 api0 0
              (world_of (State.warp_invalidate L0 api0 0 0 0 w_session))).
(** With the port [api0], whose single-step of a warp changes the lanes
    of every warp: the valid mask of warp 0 is read; warp 1 is
    single-stepped; the active mask of warp 0 is read. *)
Definition w_valid_read : world nat :=
  world_of (run_op L0 api0 (Op_warp_get_valid_lanes_mask 0 0 0) w_boot).
Definition w_stepped : world nat :=
  world_of (run_op L0 api0 (Op_warp_single_step 0 0 1) w_valid_read).
Definition w_stale : world nat :=
  world_of (run_op L0 api0 (Op_warp_get_active_lanes_mask 0 0 0) w_stepped).

(** A port that keeps to its frame.  The hardware state lists the warps
    that were single-stepped since their device was resumed.  Lanes 0
    and 1 of a warp are valid and lane 0 is active; once the warp has
    been stepped, its three lanes are valid and lanes 0 and 1 active.
    A step of one of the two warps of an SM is reported by the bit of
    that warp, and changes no other warp. *)
Definition steps : Type := list (nat * nat * nat).
Definition stepped_in (h : steps) (d i j : nat) : bool :=
  bool_decide ((d, i, j) ∈ h).
Definition api_steps : debug_api steps :=
  mkApi steps
    (fun _ => 1) (fun _ _ => 1) (fun _ _ => 2) (fun _ _ => 3)
    (fun _ _ _ => 3) (fun _ _ _ => 0)
    (fun h d i j => if stepped_in h d i j then 7 else 3)
    (fun h d i j => if stepped_in h d i j then 3 else 1)
    (fun _ _ _ _ _ => 4096) (fun _ _ _ _ _ => 64)
    (fun _ _ _ _ _ => 0) (fun _ _ => 0)
    (fun h d i j => if (j <? 2)%nat
                    then ((d, i, j) :: h, Z.shiftl 1 (Z.of_nat j))
                    else (h, 0))
    (fun h _ => h)
    (fun h d => filter (fun x => x.1.1 <> d) h).

(** With that port: the valid mask of warp 0 is read; warp 1 is
    single-stepped; the active mask of warp 0 is read. *)
Definition v_boot : world steps :=
  mkWorld (zero_system L0) true [] [] [] opts0 0
          CUDA_ATTACH_STATE_NOT_STARTED ∅ 0%nat None [] coords0 [].
Definition v_valid_read : world steps :=
  world_of (run_op L0 api_steps (Op_warp_get_valid_lanes_mask 0 0 0) v_boot).
Definition v_stepped : world steps :=
  world_of (run_op L0 api_steps (Op_warp_single_step 0 0 1) v_valid_read).
Definition v_both_read : world steps :=
  world_of (run_op L0 api_steps (Op_warp_get_active_lanes_mask 0 0 0)
              v_stepped).
Definition warp0_of {HW} (w : world HW) : Warp.t :=
  default (Warp.zero 0) (warp_at (cuda_system_info w) 0 0 0).

Definition dev_of (w : world nat) : Dev.t :=
  default (Dev.zero 0 0 0) (dev_at (cuda_system_info w) 0).
Definition warp_of (w : world nat) : Warp.t :=
  default (Warp.zero 0) (warp_at (cuda_system_info w) 0 0 0).
Definition registry_of (w : world nat) : contexts_st :=
  default (mkContexts [] ∅) (Dev.contexts (dev_of w)).

(** Sub-commands that print nothing, but for "kernels", which switches
    focus to print the arguments of a kernel and does not switch back. *)
Definition sample_commands : Commands.info_commands (HW := nat) :=
  Commands.mkInfoCommands
    (fun _ => ret tt) (fun _ => ret tt) (fun _ => ret tt) (fun _ => ret tt)
    (fun _ => Commands.info_cuda_kernels_print_frame_args 1 coords1 coords1 true)
    (fun _ => ret tt) (fun _ => ret tt).

(** * Shape of the mirror *)

Section Shape.
Local Open Scope nat_scope.
Context (L : limits).

(** The lane count of a device may be fetched, within the limit, and is
    never changed once cached. *)
Definition lanes_latch (D D' : Dev.t) : Prop :=
  (Dev.num_lanes_p D = true ->
   Dev.num_lanes_p D' = true /\ Dev.num_lanes D' = Dev.num_lanes D) /\
  (Dev.num_lanes_p D' = true ->
   Dev.num_lanes_p D = true \/ Dev.num_lanes D' <= CUDBG_MAX_LANES L).

(** Arrays keep their length; lane counts latch within the limit. *)
Definition r_shape : rels :=
  mkRels (fun _ _ => True) (fun _ => lanes_latch) (fun _ _ _ _ => True)
         (fun _ _ _ X X' => length (Warp.ln X') = length (Warp.ln X)).

(** The lane array of every warp has [CUDBG_MAX_LANES] slots, and a
    cached lane count is within that limit. *)
Definition well_formed {HW} (w : world HW) : Prop :=
  (forall d i j X, warp_at (cuda_system_info w) d i j = Some X ->
     length (Warp.ln X) = CUDBG_MAX_LANES L) /\
  (forall d D, dev_at (cuda_system_info w) d = Some D ->
     Dev.num_lanes_p D = true -> Dev.num_lanes D <= CUDBG_MAX_LANES L).

End Shape.

(** * Facts

    ** The monad *)


Section MonadFacts.
Context {W : Type}.
Implicit Type w : W.

Lemma bind_ret {A B} (a : A) (k : A -> M W B) w : bind (ret a) k w = k a w.
Proof. reflexivity. Qed.
Lemma bind_gets {A B} (f : W -> A) (k : A -> M W B) w :
    bind (gets f) k w = k (f w) w.
Proof. reflexivity. Qed.
Lemma bind_modify {B} (f : W -> W) (k : unit -> M W B) w :
    bind (modify f) k w = k tt (f w).
Proof. reflexivity. Qed.
Lemma bind_throw {A B} (e : exn) (k : A -> M W B) w :
    bind (throw e) k w = Throw e w.
Proof. reflexivity. Qed.
Lemma bind_assoc {A B C} (m : M W A) (k1 : A -> M W B) (k2 : B -> M W C) w :
    bind (bind m k1) k2 w = bind m (fun a => bind (k1 a) k2) w.
Proof. unfold bind. by destruct (m w). Qed.
Lemma bind_done {A B} (m : M W A) (k : A -> M W B) w a w' :
    m w = Done a w' -> bind m k w = k a w'.
Proof. unfold bind. by intros ->. Qed.
Lemma bind_thrown {A B} (m : M W A) (k : A -> M W B) w e w' :
    m w = Throw e w' -> bind m k w = Throw e w'.
Proof. unfold bind. by intros ->. Qed.
Lemma bind_assert_true {B} (s : string) (k : unit -> M W B) w :
    bind (gdb_assert s true) k w = k tt w.
Proof. reflexivity. Qed.
Lemma bind_when_false {B} (m : M W unit) (k : unit -> M W B) w :
    bind (when false m) k w = k tt w.
Proof. reflexivity. Qed.
Lemma bind_when_true {B} (m : M W unit) (k : unit -> M W B) w :
    bind (when true m) k w = bind m k w.
Proof. reflexivity. Qed.
Lemma bind_inv {A B} (m : M W A) (k : A -> M W B) w b w'' :
    bind m k w = Done b w'' ->
    exists a w', m w = Done a w' /\ k a w' = Done b w''.
Proof. unfold bind. destruct (m w) as [a w'|]; [eauto | discriminate]. Qed.
End MonadFacts.

Ltac mstep :=
  first [ rewrite bind_assoc | rewrite bind_ret | rewrite bind_gets
        | rewrite bind_modify | rewrite bind_throw
        | rewrite bind_assert_true | rewrite bind_when_false
        | rewrite bind_when_true ].
Ltac msimpl := repeat mstep.

Ltac mstep_in H :=
  first [ rewrite bind_assoc in H | rewrite bind_ret in H
        | rewrite bind_gets in H
        | rewrite bind_modify in H | rewrite bind_throw in H
        | rewrite bind_assert_true in H | rewrite bind_when_false in H
        | rewrite bind_when_true in H ].
Ltac msimpl_in H := repeat mstep_in H.
Ltac peel H a w H1 :=
  let H' := fresh in
  destruct (bind_inv _ _ _ _ _ H) as (a & w & H1 & H'); clear H; rename H' into H.


(** * Properties *)

(** ** Notification channel *)

Module NotificationFacts.
Import Notification NotificationSpec.

Ltac trace_eq :=
  cbn; rewrite <- ?app_assoc; cbn; rewrite ?app_nil_r; reflexivity.

Lemma iterate_over_threads_spec h tps w :
  iterate_over_threads h tps w
  = Done (first_valid_thread h tps)
         (mkWorld (info w) (trace w ++ iterate_events h tps)).
Proof.
  revert w. induction tps as [|tp rest IH]; intros w.
  - cbn. rewrite app_nil_r. by destruct w.
  - cbn [iterate_over_threads first_valid_thread List.find iterate_events].
    unfold cuda_notification_notify_thread, bind, emit, modify, ret. cbn.
    destruct (tkill h tp =? 0) eqn:E; [done|].
    rewrite IH. cbn. by rewrite <- app_assoc.
Qed.

Lemma cuda_notification_send_spec h d w :
  cuda_notification_send h d w
  = Done tt (mkWorld (after_send (send_target h d) (info w))
                     (trace w ++ send_events h d)).
Proof.
  unfold cuda_notification_send, send_target, send_events, send_target.
  fold (direct_send h d).
  destruct (direct_send h d) eqn:Ed; cbn [andb].
  - unfold cuda_notification_notify_thread, bind, emit, store, modify, ret. cbn.
    destruct (tkill h (s32 (data_tid d)) =? 0) eqn:Ek.
    + trace_eq.
    + rewrite iterate_over_threads_spec. cbn.
      destruct (first_valid_thread h (threads h)) as [t|]; trace_eq.
  - unfold bind, ret. rewrite iterate_over_threads_spec. cbn.
    destruct (first_valid_thread h (threads h)) as [t|]; cbn.
    + unfold store, bind, emit, modify. trace_eq.
    + trace_eq.
Qed.

Lemma after_send_fields tgt i :
  initialized (after_send tgt i) = initialized i /\
  blocked (after_send tgt i) = blocked i /\
  pending_send (after_send tgt i) = pending_send i /\
  aliased_event (after_send tgt i) = aliased_event i /\
  received (after_send tgt i) = received i /\
  pending_send_data (after_send tgt i) = pending_send_data i /\
  sent (after_send tgt i) = bool_decide (is_Some tgt) || sent i.
Proof. destruct tgt as [[k t]|]; cbn; repeat split. Qed.

Ltac run_ops :=
  unfold run, cuda_notification_initialize, cuda_notification_reset,
    cuda_notification_notify, cuda_notification_block,
    cuda_notification_accept, cuda_notification_analyze,
    cuda_notification_mark_consumed, cuda_notification_consume_pending,
    cuda_notification_aliased_event, cuda_notification_reset_aliased_event,
    cuda_notification_pending, cuda_notification_received, ignore,
    cuda_notification_acquire_lock, cuda_notification_release_lock,
    assert_initialized, load, store, emit, when, gdb_assert, throw,
    bind, modify, gets, ret;
  cbn;
  rewrite ?cuda_notification_send_spec; cbn.

Lemma run_legal o w : legal (info w) -> legal (info (world_of (run o w))).
Proof.
  destruct w as [[ini blk pnd ali snt rcv t psd] tr].
  unfold legal. cbn. intros [H1 H2].
  destruct o; run_ops;
    repeat match goal with
    | |- context [cuda_notification_send ?h ?d ?w] =>
        rewrite (cuda_notification_send_spec h d w); cbn
    | |- context [send_target ?h ?d] =>
        destruct (send_target h d) as [[? ?]|]; cbn
    | |- context [if ?b then _ else _] => destruct b eqn:?; cbn
    end;
    try (split; intros [? ?]; congruence).
  all: try (split; intros [? ?]; first [congruence | tauto]).
  all: try (split; intros [? ?]; subst; simpl in *; first [congruence | tauto]).
Qed.

(** C1. Whatever calls were made on the channel since the record was
    zeroed (initialize, reset, notify, block, accept, analyze,
    mark_consumed, consume_pending and the queries, returning or
    unwinding through a failed assertion), the record never has [sent]
    together with [pending_send], nor [received] without [sent]. *)
Theorem notification_legal_state (ops : list op) : legal (info (after ops)).
Proof.
  unfold after.
  assert (Hboot : legal (info boot)) by (split; intros [? ?]; discriminate).
  revert Hboot. generalize boot. 
  induction ops as [|o ops IH]; intros w Hw; cbn [fold_left]; [exact Hw|].
  apply IH, run_legal, Hw.
Qed.

Lemma guarded_from_app held tr1 tr2 :
  lock_free tr1 = true ->
  guarded_from held (tr1 ++ tr2) = guarded_from held tr1 && guarded_from held tr2.
Proof.
  induction tr1 as [|e tr1 IH]; cbn; [done|].
  intros [He Htr]%andb_prop. specialize (IH Htr).
  destruct e as [| | | |f|f|]; try discriminate; cbn; try destruct f;
    rewrite IH; by destruct held, (guarded_from _ tr1).
Qed.

Lemma iterate_events_quiet h tps :
  lock_free (iterate_events h tps) = true /\
  guarded_from true (iterate_events h tps) = true.
Proof.
  induction tps as [|tp rest [IH1 IH2]]; cbn; [done|].
  destruct (tkill h tp =? 0); done.
Qed.

Lemma send_events_quiet h d :
  lock_free (send_events h d) = true /\
  guarded_from true (send_events h d) = true.
Proof.
  destruct (iterate_events_quiet h (threads h)) as [Hq Hg].
  unfold send_events. 
  assert (Hlast : forall o : option (Z * Z), 
     lock_free (match o with Some _ => [EvStore F_tid; EvStore F_sent] | None => [] end) = true /\
     guarded_from true (match o with Some _ => [EvStore F_tid; EvStore F_sent] | None => [] end) = true)
    by (by intros [?|]).
  destruct (Hlast (send_target h d)) as [Hl1 Hl2].
  split.
  - unfold lock_free in *. rewrite !forallb_app.
    destruct (direct_send h d), (tkill h (s32 (data_tid d)) =? 0); cbn;
      rewrite ?Hq, ?Hl1; done.
  - destruct (direct_send h d), (tkill h (s32 (data_tid d)) =? 0); cbn;
      rewrite ?guarded_from_app, ?Hg, ?Hl2 by done; done.
Qed.

Lemma delivered_iterate_events h tps :
  delivered (iterate_events h tps)
  = match first_valid_thread h tps with Some t => [t] | None => [] end.
Proof.
  induction tps as [|tp rest IH]; cbn; [done|].
  destruct (tkill h tp =? 0); cbn; done.
Qed.

Lemma delivered_app tr1 tr2 : delivered (tr1 ++ tr2) = delivered tr1 ++ delivered tr2.
Proof. unfold delivered. apply omap_app. Qed.

Lemma delivered_send_events h d :
  delivered (send_events h d)
  = match send_target h d with Some (k, _) => [k] | None => [] end.
Proof.
  unfold send_events, send_target. rewrite !delivered_app.
  destruct (direct_send h d); cbn [andb].
  - destruct (tkill h (s32 (data_tid d)) =? 0); cbn; [done|].
    rewrite delivered_iterate_events.
    destruct (first_valid_thread h (threads h)); done.
  - cbn. rewrite delivered_iterate_events.
    destruct (first_valid_thread h (threads h)); done.
Qed.

Lemma new_events_app {A} (m : N A) w tr :
  trace (world_of (m w)) = trace w ++ tr -> new_events m w = tr.
Proof. unfold new_events. intros ->. apply drop_app_length. Qed.


Ltac trace_form :=
  cbn; rewrite <- ?app_assoc; cbn.

Lemma locked_operations_trace o w :
  takes_lock o = true ->
  exists tr, trace (world_of (run o w)) = trace w ++ tr /\ guarded tr = true.
Proof.
  destruct w as [[ini blk pnd ali snt rcv t psd] tr].
  destruct o; try discriminate; intros _; run_ops;
    repeat match goal with
    | |- context [cuda_notification_send ?h ?d ?w] =>
        rewrite (cuda_notification_send_spec h d w); cbn
    | |- context [if ?b then _ else _] => destruct b eqn:?; cbn
    end.
  all: repeat match goal with
    | H : context [after_send (send_target ?h ?d) ?i] |- _ =>
        destruct (after_send_fields (send_target h d) i) as (?&?&?&?&?&?&?);
        congruence
    end.
  all: eexists; (split; [trace_form; reflexivity|]).
  all: unfold guarded; cbn;
       rewrite ?guarded_from_app by apply send_events_quiet;
       rewrite ?(proj2 (send_events_quiet _ _)); reflexivity.
Qed.

Lemma locked_operations_guarded o w :
  takes_lock o = true -> guarded (new_events (run o) w) = true.
Proof.
  intros H. destruct (locked_operations_trace o w H) as (tr & Htr & Hg).
  by rewrite (new_events_app _ _ _ Htr).
Qed.

(** C9. [cuda_notification_consume_pending] writes [pending_send] and
    neither takes nor releases the mutex: its trace is the single store,
    which the lock discipline rejects.  Every operation that does take
    the lock passes ([locked_operations_guarded]). *)
Theorem consume_pending_without_lock w :
  new_events cuda_notification_consume_pending w = [EvStore F_pending_send]
  /\ guarded (new_events cuda_notification_consume_pending w) = false
  /\ pending_send (info (world_of (cuda_notification_consume_pending w))) = false.
Proof.
  assert (H : new_events cuda_notification_consume_pending w = [EvStore F_pending_send]).
  { apply new_events_app. reflexivity. }
  rewrite H. done.
Qed.

Lemma initialized_after_send tgt i :
  initialized (after_send tgt i) = initialized i.
Proof. by destruct tgt as [[? ?]|]. Qed.

Lemma cuda_notification_block_spec w :
  initialized (info w) = true ->
  cuda_notification_block w
  = Done tt (mkWorld (set_blocked true (info w))
                     (trace w ++ [EvLoad F_initialized; EvLock; EvStore F_blocked;
                                  EvLoad F_initialized; EvUnlock])).
Proof.
  destruct w as [[ini blk pnd ali snt rcv t psd] tr]. cbn. intros ->.
  run_ops. trace_eq.
Qed.

Lemma cuda_notification_notify_blocked h p w :
  initialized (info w) = true ->
  data_timeout p = 0 ->
  sent (info w) = false ->
  pending_send (info w) = false ->
  blocked (info w) = true ->
  cuda_notification_notify h p w
  = Done tt (mkWorld (set_pending_send_data p (set_pending_send true (info w)))
                     (trace w ++ [EvLoad F_initialized; EvLock; EvLoad F_sent;
                                  EvLoad F_pending_send; EvLoad F_blocked;
                                  EvStore F_pending_send;
                                  EvStore F_pending_send_data;
                                  EvLoad F_initialized; EvUnlock])).
Proof.
  destruct w as [[ini blk pnd ali snt rcv t psd] tr]. cbn.
  intros -> Hp -> -> ->. unfold cuda_notification_notify. rewrite Hp.
  run_ops. trace_eq.
Qed.

Lemma cuda_notification_accept_pending h w :
  initialized (info w) = true ->
  pending_send (info w) = true ->
  cuda_notification_accept h w
  = Done tt
      (mkWorld
         (set_pending_send_data zero_data
            (set_pending_send false
               (after_send (send_target h (pending_send_data (info w)))
                  (set_blocked false (info w)))))
         (trace w ++ [EvLoad F_initialized; EvLock; EvStore F_blocked;
                      EvLoad F_pending_send; EvLoad F_pending_send_data]
                  ++ send_events h (pending_send_data (info w))
                  ++ [EvStore F_pending_send; EvStore F_pending_send_data;
                      EvLoad F_initialized; EvUnlock])).
Proof.
  destruct w as [[ini blk pnd ali snt rcv t psd] tr]. cbn.
  intros -> ->. run_ops. rewrite initialized_after_send. trace_eq.
Qed.

(** C7, amended.  With the channel initialised and nothing sent or
    pending, [block ()] followed by [notify (p)] for a payload whose
    timeout flag is clear issues no signal, buffers [p] and sets
    [pending_send]; the next [accept ()] clears [blocked], runs one send
    of the buffered payload, zeroes the buffer and clears [pending_send].
    At most one signal is delivered, and [sent] is set exactly when one
    was. *)
Theorem blocked_then_accept (h1 h2 : host) (p : CUDBGEventCallbackData) (w : world) :
  initialized (info w) = true ->
  sent (info w) = false ->
  pending_send (info w) = false ->
  data_timeout p = 0 ->
  exists w1 w2 w3,
    cuda_notification_block w = Done tt w1 /\
    cuda_notification_notify h1 p w1 = Done tt w2 /\
    cuda_notification_accept h2 w2 = Done tt w3 /\
    (* block (); notify (p): the payload is buffered and no signal goes out *)
    kills (new_events (cuda_notification_notify h1 p) w1) = [] /\
    info w2 = set_pending_send_data p
                (set_pending_send true (set_blocked true (info w))) /\
    (* accept (): one send of the buffered payload, under the lock *)
    new_events (cuda_notification_accept h2) w2
      = [EvLoad F_initialized; EvLock; EvStore F_blocked;
         EvLoad F_pending_send; EvLoad F_pending_send_data]
        ++ send_events h2 p
        ++ [EvStore F_pending_send; EvStore F_pending_send_data;
            EvLoad F_initialized; EvUnlock] /\
    delivered (new_events (cuda_notification_accept h2) w2)
      = match send_target h2 p with Some (k, _) => [k] | None => [] end /\
    info w3 = set_pending_send_data zero_data
                (set_pending_send false
                   (after_send (send_target h2 p) (set_blocked false (info w2)))) /\
    blocked (info w3) = false /\
    pending_send (info w3) = false /\
    sent (info w3) = bool_decide (is_Some (send_target h2 p)).
Proof.
  intros Hi Hs Hp Ht.
  pose proof (cuda_notification_block_spec w Hi) as Hb.
  set (w1 := mkWorld _ _) in Hb.
  assert (Hn := cuda_notification_notify_blocked h1 p w1 Hi Ht Hs Hp eq_refl).
  set (w2 := mkWorld _ _) in Hn.
  assert (Ha := cuda_notification_accept_pending h2 w2 Hi eq_refl).
  set (w3 := mkWorld _ _) in Ha.
  exists w1, w2, w3.
  assert (En : new_events (cuda_notification_notify h1 p) w1
               = [EvLoad F_initialized; EvLock; EvLoad F_sent;
                  EvLoad F_pending_send; EvLoad F_blocked;
                  EvStore F_pending_send; EvStore F_pending_send_data;
                  EvLoad F_initialized; EvUnlock]).
  { apply new_events_app. by rewrite Hn. }
  assert (Ea : new_events (cuda_notification_accept h2) w2
               = [EvLoad F_initialized; EvLock; EvStore F_blocked;
                  EvLoad F_pending_send; EvLoad F_pending_send_data]
                 ++ send_events h2 p
                 ++ [EvStore F_pending_send; EvStore F_pending_send_data;
                     EvLoad F_initialized; EvUnlock]).
  { apply new_events_app. rewrite Ha. cbn. by rewrite <- app_assoc. }
  rewrite En, Ea.
  split; [exact Hb|]. split; [exact Hn|]. split; [exact Ha|].
  clear Hb Hn Ha En Ea.
  split; [reflexivity|]. split; [reflexivity|]. split; [reflexivity|].
  split.
  { rewrite !delivered_app, delivered_send_events. cbn. by rewrite app_nil_r. }
  split; [reflexivity|].
  subst w3 w2 w1. cbn.
  destruct (send_target h2 p) as [[k t']|]; cbn; repeat split; done.
Qed.

Lemma blocked_then_accept_witness :
  exists w1 w2 w3,
    cuda_notification_block fresh = Done tt w1 /\
    cuda_notification_notify host_ok payload_100 w1 = Done tt w2 /\
    cuda_notification_accept host_ok w2 = Done tt w3 /\
    kills (new_events (cuda_notification_notify host_ok payload_100) w1) = [] /\
    info w2 = set_pending_send_data payload_100
                (set_pending_send true (set_blocked true (info fresh))) /\
    new_events (cuda_notification_accept host_ok) w2
      = [EvLoad F_initialized; EvLock; EvStore F_blocked;
         EvLoad F_pending_send; EvLoad F_pending_send_data]
        ++ send_events host_ok payload_100
        ++ [EvStore F_pending_send; EvStore F_pending_send_data;
            EvLoad F_initialized; EvUnlock] /\
    delivered (new_events (cuda_notification_accept host_ok) w2)
      = match send_target host_ok payload_100 with
        | Some (k, _) => [k]
        | None => []
        end /\
    info w3 = set_pending_send_data zero_data
                (set_pending_send false
                   (after_send (send_target host_ok payload_100)
                               (set_blocked false (info w2)))) /\
    blocked (info w3) = false /\
    pending_send (info w3) = false /\
    sent (info w3) = bool_decide (is_Some (send_target host_ok payload_100)).
Proof.
  apply (blocked_then_accept host_ok host_ok payload_100 fresh); reflexivity.
Defined.

(** C7 as the document words it fails in two ways: when no thread takes
    the signal, the accept leaves [sent] clear (and the buffered payload
    is dropped); and a payload with the timeout flag is never buffered. *)
Lemma blocked_then_accept_counterexample :
  sent (info fresh) = false /\ pending_send (info fresh) = false /\
  ~ blocked_then_accept_as_stated host_ok host_dead payload_100 fresh /\
  ~ blocked_then_accept_as_stated host_ok host_ok payload_timeout fresh.
Proof.
  split; [reflexivity|]. split; [reflexivity|].
  split; intros (_ & H1 & _ & _ & H2 & _); vm_compute in H1, H2; discriminate.
Qed.

End NotificationFacts.
(** ** Relations between two states of the mirror *)

Section RelationsFacts.
Local Open Scope nat_scope.

Section ListRel.
Context {A : Type}.
Implicit Types (R : nat -> A -> A -> Prop) (l : list A).

Lemma list_rel_refl R l : (forall i x, R i x x) -> list_rel R l l.
Proof. intros H i. destruct (l !! i); constructor; auto. Qed.

Lemma list_rel_trans R l1 l2 l3 :
    (forall i x y z, R i x y -> R i y z -> R i x z) ->
    list_rel R l1 l2 -> list_rel R l2 l3 -> list_rel R l1 l3.
Proof.
    intros H H12 H23 i. specialize (H12 i). specialize (H23 i).
    destruct H12; inversion H23; subst; constructor; eauto.
Qed.

Lemma list_rel_mono R R' l l' :
    (forall i x y, R i x y -> R' i x y) -> list_rel R l l' -> list_rel R' l l'.
Proof. intros H Hl i. destruct (Hl i); constructor; auto. Qed.

Lemma list_rel_is_Some R l l' i :
    list_rel R l l' -> is_Some (l !! i) <-> is_Some (l' !! i).
Proof. intros H. destruct (H i); split; intros [? ?]; eauto; done. Qed.

Lemma list_rel_length R l l' : list_rel R l l' -> length l = length l'.
Proof.
    intros H. apply Nat.le_antisymm.
    - destruct (decide (length l <= length l')) as [|Hn]; [done|].
      assert (Hlt : length l' < length l) by lia.
      apply lookup_lt_is_Some_2, (list_rel_is_Some _ _ _ _ H),
        lookup_lt_is_Some_1 in Hlt. lia.
    - destruct (decide (length l' <= length l)) as [|Hn]; [done|].
      assert (Hlt : length l < length l') by lia.
      apply lookup_lt_is_Some_2, (list_rel_is_Some _ _ _ _ H),
        lookup_lt_is_Some_1 in Hlt. lia.
Qed.

Lemma list_rel_alter R l i f :
    (forall j x, R j x x) ->
    (forall x, l !! i = Some x -> R i x (f x)) ->
    list_rel R l (alter f i l).
Proof.
    intros Hr Hf j. destruct (decide (i = j)) as [<-|Hne].
    - rewrite list_lookup_alter_eq. destruct (l !! i) eqn:E; constructor; auto.
    - rewrite list_lookup_alter_ne by done. destruct (l !! j); constructor; auto.
Qed.

Lemma list_rel_lookup_r R l l' i y :
    list_rel R l l' -> l' !! i = Some y -> exists x, l !! i = Some x /\ R i x y.
Proof. intros H Hy. specialize (H i). rewrite Hy in H. inversion H; eauto. Qed.

Lemma list_rel_lookup_l R l l' i x :
    list_rel R l l' -> l !! i = Some x -> exists y, l' !! i = Some y /\ R i x y.
Proof. intros H Hx. specialize (H i). rewrite Hx in H. inversion H; eauto. Qed.
End ListRel.

Section SysRel.
Implicit Type r : rels.

Lemma sys_rel_refl r s : preorder r -> sys_rel r s s.
Proof.
    intros [].
    split; [done|]. apply list_rel_refl. intros d D.
    split; [done|]. apply list_rel_refl. intros i S.
    split; [done|]. apply list_rel_refl. auto.
Qed.

Lemma sys_rel_trans r s1 s2 s3 :
    preorder r -> sys_rel r s1 s2 -> sys_rel r s2 s3 -> sys_rel r s1 s3.
Proof.
    intros [] [Hy1 Hd1] [Hy2 Hd2]. split; [eauto|].
    eapply list_rel_trans; [|exact Hd1|exact Hd2].
    intros d D1 D2 D3 [Ha1 Hs1] [Ha2 Hs2]. split; [eauto|].
    eapply list_rel_trans; [|exact Hs1|exact Hs2].
    intros i S1 S2 S3 [Hb1 Hw1] [Hb2 Hw2]. split; [eauto|].
    eapply list_rel_trans; [|exact Hw1|exact Hw2]. eauto.
Qed.

Lemma sys_rel_mono r r' s s' : sub r r' -> sys_rel r s s' -> sys_rel r' s s'.
Proof.
    intros (Hy & Hd & Hs & Hw) [H1 H2]. split; [auto|].
    eapply list_rel_mono; [|exact H2]. intros d D D' [H3 H4]. split; [auto|].
    eapply list_rel_mono; [|exact H4]. intros i S S' [H5 H6]. split; [auto|].
    eapply list_rel_mono; [|exact H6]. auto.
Qed.

  (** Updates *)
Lemma sys_rel_update_dev r s d f :
    preorder r ->
    (forall D, dev_at s d = Some D ->
       RD r d (dev_head D) (dev_head (f D)) /\ Dev.sm (f D) = Dev.sm D) ->
    RY r (sys_head s) (sys_head s) ->
    sys_rel r s (State.update_dev f d s).
Proof.
    intros Hp Hf _. pose proof Hp as [].
    split; [destruct s; apply RY_refl0|].
    cbn. apply list_rel_alter.
    - intros j D. split; [done|]. apply list_rel_refl. intros i S.
      split; [done|]. apply list_rel_refl. auto.
    - intros D HD. destruct (Hf D HD) as [H1 H2]. split; [done|].
      rewrite H2. apply list_rel_refl. intros i S.
      split; [done|]. apply list_rel_refl. auto.
Qed.

Lemma sys_rel_update_sm r s d i f :
    preorder r ->
    (forall S, sm_at s d i = Some S ->
       RS r d i (sm_head S) (sm_head (f S)) /\ Sm.wp (f S) = Sm.wp S) ->
    sys_rel r s (State.update_sm f d i s).
Proof.
    intros Hp Hf. pose proof Hp as [].
    split; [destruct s; apply RY_refl0|].
    cbn. apply list_rel_alter.
    - intros j D. split; [done|]. apply list_rel_refl. intros i' S.
      split; [done|]. apply list_rel_refl. auto.
    - intros D HD. split; [destruct D; apply RD_refl0|].
      cbn. apply list_rel_alter.
      + intros i' S. split; [done|]. apply list_rel_refl. auto.
      + intros S HS. destruct (Hf S) as [H1 H2].
        { unfold sm_at, dev_at. by rewrite HD. }
        split; [done|]. rewrite H2. apply list_rel_refl. auto.
Qed.

Lemma sys_rel_update_warp r s d i j f :
    preorder r ->
    (forall W, warp_at s d i j = Some W -> RW r d i j W (f W)) ->
    sys_rel r s (State.update_warp f d i j s).
Proof.
    intros Hp Hf. pose proof Hp as [].
    split; [destruct s; apply RY_refl0|].
    cbn. apply list_rel_alter.
    - intros j' D. split; [done|]. apply list_rel_refl. intros i' S.
      split; [done|]. apply list_rel_refl. auto.
    - intros D HD. split; [destruct D; apply RD_refl0|].
      cbn. apply list_rel_alter.
      + intros i' S. split; [done|]. apply list_rel_refl. auto.
      + intros S HS. split; [destruct S; apply RS_refl0|].
        cbn. apply list_rel_alter; [auto|].
        intros W HW. apply Hf. unfold warp_at, sm_at, dev_at.
        rewrite HD. cbn. rewrite HS. done.
Qed.

Lemma sys_rel_head r s f :
    preorder r ->
    Sys.dev (f s) = Sys.dev s ->
    RY r (sys_head s) (sys_head (f s)) ->
    sys_rel r s (f s).
Proof.
    intros Hp Hd Hy. pose proof Hp as []. split; [done|]. rewrite Hd.
    apply list_rel_refl. intros d D.
    split; [done|]. apply list_rel_refl. intros i S.
    split; [done|]. apply list_rel_refl. auto.
Qed.

  (** Reading a relation off *)
Lemma sys_rel_dev_r r s s' d D' :
    sys_rel r s s' -> dev_at s' d = Some D' ->
    exists D, dev_at s d = Some D /\ dev_rel r d D D'.
Proof. intros [_ H]. apply list_rel_lookup_r, H. Qed.
Lemma sys_rel_dev_l r s s' d D :
    sys_rel r s s' -> dev_at s d = Some D ->
    exists D', dev_at s' d = Some D' /\ dev_rel r d D D'.
Proof. intros [_ H]. apply list_rel_lookup_l, H. Qed.

Lemma sys_rel_sm_r r s s' d i S' :
    sys_rel r s s' -> sm_at s' d i = Some S' ->
    exists S, sm_at s d i = Some S /\ sm_rel r d i S S'.
Proof.
    intros H HS. unfold sm_at in *.
    destruct (dev_at s' d) as [D'|] eqn:HD'; [|done]. cbn in HS.
    destruct (sys_rel_dev_r _ _ _ _ _ H HD') as (D & -> & _ & Hsm). cbn.
    eapply list_rel_lookup_r; eauto.
Qed.
Lemma sys_rel_sm_l r s s' d i S :
    sys_rel r s s' -> sm_at s d i = Some S ->
    exists S', sm_at s' d i = Some S' /\ sm_rel r d i S S'.
Proof.
    intros H HS. unfold sm_at in *.
    destruct (dev_at s d) as [D|] eqn:HD; [|done]. cbn in HS.
    destruct (sys_rel_dev_l _ _ _ _ _ H HD) as (D' & -> & _ & Hsm). cbn.
    eapply list_rel_lookup_l; eauto.
Qed.

Lemma sys_rel_warp_r r s s' d i j W' :
    sys_rel r s s' -> warp_at s' d i j = Some W' ->
    exists W, warp_at s d i j = Some W /\ RW r d i j W W'.
Proof.
    intros H HW. unfold warp_at in *.
    destruct (sm_at s' d i) as [S'|] eqn:HS'; [|done]. cbn in HW.
    destruct (sys_rel_sm_r _ _ _ _ _ _ H HS') as (S & -> & _ & Hwp). cbn.
    eapply list_rel_lookup_r; eauto.
Qed.
Lemma sys_rel_warp_l r s s' d i j W :
    sys_rel r s s' -> warp_at s d i j = Some W ->
    exists W', warp_at s' d i j = Some W' /\ RW r d i j W W'.
Proof.
    intros H HW. unfold warp_at in *.
    destruct (sm_at s d i) as [S|] eqn:HS; [|done]. cbn in HW.
    destruct (sys_rel_sm_l _ _ _ _ _ _ H HS) as (S' & -> & _ & Hwp). cbn.
    eapply list_rel_lookup_l; eauto.
Qed.
End SysRel.

End RelationsFacts.

(** ** Slots that fill and flags that clear *)

Section LatchesFacts.
Local Open Scope nat_scope.

Lemma latch_refl {A} b (v : A) : latch b b v v.
Proof. intros H. by split. Qed.
Lemma latch_trans {A} b1 b2 b3 (v1 v2 v3 : A) :
  latch b1 b2 v1 v2 -> latch b2 b3 v2 v3 -> latch b1 b3 v1 v3.
Proof.
  intros H1 H2 Hb. destruct (H1 Hb) as [Hb2 E]. destruct (H2 Hb2) as [Hb3 E'].
  split; congruence.
Qed.
Lemma cleared_refl b : cleared b b.
Proof. by intros ?. Qed.
Lemma cleared_trans b1 b2 b3 : cleared b1 b2 -> cleared b2 b3 -> cleared b1 b3.
Proof. unfold cleared. auto. Qed.
#[local] Hint Resolve latch_refl cleared_refl : core.
#[local] Hint Resolve latch_trans cleared_trans : core.

Lemma lane_clear_refl l : lane_clear l l.
Proof. repeat split; auto. Qed.
Lemma lane_clear_trans l1 l2 l3 :
  lane_clear l1 l2 -> lane_clear l2 l3 -> lane_clear l1 l3.
Proof.
  intros (?&?&?&?&?&?) (?&?&?&?&?&?).
  split; [congruence|].
  repeat (split; [eapply cleared_trans; eassumption|]).
  eapply cleared_trans; eassumption.
Qed.
Lemma warp_clear_refl w : warp_clear w w.
Proof.
  repeat split; auto. apply list_rel_refl. intros; apply lane_clear_refl.
Qed.
Lemma warp_clear_trans w1 w2 w3 :
  warp_clear w1 w2 -> warp_clear w2 w3 -> warp_clear w1 w3.
Proof.
  intros (?&?&?&?&?&?&?&?&?&?) (?&?&?&?&?&?&?&?&?&?).
  split; [congruence|].
  repeat (split; [eapply cleared_trans; eassumption|]).
  eapply list_rel_trans; eauto. intros; eapply lane_clear_trans; eauto.
Qed.
Lemma sm_clear_trans s1 s2 s3 :
  sm_clear s1 s2 -> sm_clear s2 s3 -> sm_clear s1 s3.
Proof.
  intros (?&?&?&?&?) (?&?&?&?&?).
  split; [congruence|]. split; [congruence|].
  split; [eapply cleared_trans; eassumption|].
  split; [eapply cleared_trans; eassumption|congruence].
Qed.
Lemma dev_counts_latch_refl d : dev_counts_latch d d.
Proof. repeat split; auto. Qed.
Lemma dev_counts_latch_trans d1 d2 d3 :
  dev_counts_latch d1 d2 -> dev_counts_latch d2 d3 -> dev_counts_latch d1 d3.
Proof.
  intros (?&?&?) (?&?&?).
  split; [|split]; eapply latch_trans; eassumption.
Qed.
Lemma dev_evolve_refl P d : dev_evolve P d d.
Proof. split; [apply dev_counts_latch_refl|]. repeat split; auto. Qed.
Lemma dev_evolve_trans P d1 d2 d3 :
  dev_evolve P d1 d2 -> dev_evolve P d2 d3 -> dev_evolve P d1 d3.
Proof.
  intros (?&?&?&?&Hn1) (?&?&?&?&Hn2).
  split; [eapply dev_counts_latch_trans; eauto|].
  split; [congruence|].
  split; [eapply cleared_trans; eassumption|].
  split; [eapply cleared_trans; eassumption|].
  intros Hn. destruct (Hn1 Hn), (Hn2 Hn). split; congruence.
Qed.

Lemma r_inv_preorder FD FS FW : preorder (r_inv FD FS FW).
Proof.
  split; cbn.
  - intros s. split; [apply latch_refl|done].
  - intros. apply dev_evolve_refl.
  - by right.
  - by right.
  - intros x y z [? ?] [? ?].
    split; [eapply latch_trans; eassumption|congruence].
  - intros. eapply dev_evolve_trans; eauto.
  - intros d i x y z [[HF H1]| ->] [[HF' H2]| ->]; eauto.
    left. split; [done|]. eapply sm_clear_trans; eauto.
  - intros d i j x y z [[HF H1]| ->] [[HF' H2]| ->]; eauto.
    left. split; [done|]. eapply warp_clear_trans; eauto.
Qed.

Lemma warp_ext_refl w : warp_ext w w.
Proof. repeat split; auto. by apply list_rel_refl. Qed.
Lemma warp_ext_trans w1 w2 w3 :
  warp_ext w1 w2 -> warp_ext w2 w3 -> warp_ext w1 w3.
Proof.
  intros (?&?&?) (?&?&?).
  split; [eapply latch_trans; eassumption|].
  split; [eapply latch_trans; eassumption|].
  eapply list_rel_trans; eauto. cbn. congruence.
Qed.

Lemma sm_latch_refl s : sm_latch s s.
Proof. split; apply latch_refl. Qed.
Lemma sm_latch_trans s1 s2 s3 :
  sm_latch s1 s2 -> sm_latch s2 s3 -> sm_latch s1 s3.
Proof. intros [? ?] [? ?]. split; eapply latch_trans; eassumption. Qed.

Lemma r_ext_preorder : preorder r_ext.
Proof.
  split; cbn; auto.
  - intros. apply latch_refl.
  - intros. apply dev_counts_latch_refl.
  - intros. apply sm_latch_refl.
  - intros. apply warp_ext_refl.
  - intros. eapply latch_trans; eassumption.
  - intros. eapply dev_counts_latch_trans; eauto.
  - intros. eapply sm_latch_trans; eauto.
  - intros. eapply warp_ext_trans; eauto.
Qed.

Lemma r_inv_sub (FD FD' : nat -> Prop) (FS FS' : nat -> nat -> Prop)
    (FW FW' : nat -> nat -> nat -> Prop) :
  (forall d, FD d -> FD' d) -> (forall d i, FS d i -> FS' d i) ->
  (forall d i j, FW d i j -> FW' d i j) ->
  sub (r_inv FD FS FW) (r_inv FD' FS' FW').
Proof.
  intros HD HS HW. split; [|split; [|split]]; cbn.
  - auto.
  - intros d x y (?&?&?&?&Hn).
    split; [done|]. split; [done|]. split; [done|]. split; [done|].
    intros Hn'. apply Hn. auto.
  - intros d i x y [[? ?]| ->]; auto.
  - intros d i j x y [[? ?]| ->]; auto.
Qed.

Lemma r_counts_sub_ext : sub r_counts r_ext.
Proof.
  split; [|split; [|split]]; cbn.
  - by intros x y [? _].
  - by intros d x y (?&_).
  - intros d i x y [[[] _]| ->]. apply sm_latch_refl.
  - intros d i j x y [[[] _]| ->]. apply warp_ext_refl.
Qed.

End LatchesFacts.

(** ** Partial-correctness judgements *)

Section JudgementsFacts.
Local Open Scope nat_scope.

Section Hoare.
Context {HW : Type} (L : limits) (api : debug_api HW).
Local Abbreviation W := (world HW).
Implicit Type w : W.

Lemma step_rel_refl r w : preorder r -> step_rel r w w.
Proof. intros. split; [by apply sys_rel_refl|done]. Qed.
Lemma step_rel_trans r w1 w2 w3 :
    preorder r -> step_rel r w1 w2 -> step_rel r w2 w3 -> step_rel r w1 w3.
Proof.
    intros Hp [H1 E1] [H2 E2]. split; [eapply sys_rel_trans; eauto|congruence].
Qed.
Lemma step_rel_mono r r' w w' : sub r r' -> step_rel r w w' -> step_rel r' w w'.
Proof. intros Hs [H E]. split; [eapply sys_rel_mono; eauto|done]. Qed.

Lemma spec_bind {A B} (m : M W A) (k : A -> M W B) Q1 Q2 :
    spec m Q1 -> (forall a, spec (k a) (Q2 a)) ->
    spec (bind m k) (fun w b w'' => exists a w', Q1 w a w' /\ Q2 a w' b w'').
Proof.
    intros H1 H2 w b w'' Hb. destruct (bind_inv _ _ _ _ _ Hb) as (a & w' & Hm & Hk).
    exists a, w'. split; [eapply H1|eapply H2]; eauto.
Qed.
Lemma spec_weaken {A} (m : M W A) (Q Q' : W -> A -> W -> Prop) :
    spec m Q -> (forall w a w', Q w a w' -> Q' w a w') -> spec m Q'.
Proof. intros H HQ w a w' Hm. eauto. Qed.

Section May.
Context (r : rels) (Hr : preorder r).

Lemma may_ret {A} (a : A) : may (HW := HW) r (ret a).
Proof. intros w a' w' [= _ <-]. by apply step_rel_refl. Qed.
Lemma may_throw {A} e : may (HW := HW) r (throw (A := A) e).
Proof. intros w a w' [=]. Qed.
Lemma may_gets {A} (f : W -> A) : may (HW := HW) r (gets f).
Proof. intros w a' w' [= _ <-]. by apply step_rel_refl. Qed.
Lemma may_gdb_assert s b : may (HW := HW) r (gdb_assert s b).
Proof. destruct b; [apply may_ret|apply may_throw]. Qed.
Lemma may_bind {A B} (m : M W A) (k : A -> M W B) :
      may (HW := HW) r m -> (forall a, may (HW := HW) r (k a)) -> may (HW := HW) r (bind m k).
Proof.
      intros H1 H2 w b w'' Hb.
      destruct (bind_inv _ _ _ _ _ Hb) as (a & w' & Hm & Hk).
      eapply step_rel_trans; [done|eapply H1|eapply H2]; eauto.
Qed.
Lemma may_when b (m : M W unit) : may (HW := HW) r m -> may (HW := HW) r (when b m).
Proof. destruct b; [done|intros; apply may_ret]. Qed.
Lemma may_for_each l (body : nat -> M W unit) :
      (forall i, may (HW := HW) r (body i)) -> may (HW := HW) r (for_each l body).
Proof.
      intros H. induction l as [|i l IH]; cbn; [apply may_ret|].
      apply may_bind; auto.
Qed.
Lemma may_for_upto n (body : nat -> M W unit) :
      (forall i, may (HW := HW) r (body i)) -> may (HW := HW) r (for_upto n body).
Proof. apply may_for_each. Qed.
Lemma may_modify (f : W -> W) :
      (forall w, step_rel r w (f w)) -> may (HW := HW) r (modify f).
Proof. intros H w a w' [= _ <-]. apply H. Qed.
Lemma may_log_api c : may (HW := HW) r (modify (log_api (HW := HW) c)).
Proof.
      apply may_modify. intros w. split; [by apply sys_rel_refl|done].
Qed.
Lemma may_log_host c : may (HW := HW) r (modify (log_host (HW := HW) c)).
Proof.
      apply may_modify. intros w. split; [by apply sys_rel_refl|done].
Qed.
Lemma may_set_hw (f : W -> HW) : may (HW := HW) r (modify (fun w => set_hw (f w) w)).
Proof.
      apply may_modify. intros w. split; [by apply sys_rel_refl|done].
Qed.
Lemma may_api_read {A} c (f : HW -> A) : may (HW := HW) r (State.api_read c f).
Proof. apply may_bind; [apply may_log_api|intros; apply may_gets]. Qed.

Lemma may_read_dev d : may (HW := HW) r (State.read_dev d).
Proof.
      unfold State.read_dev. apply may_bind; [apply may_gets|].
      intros s. destruct (_ !! _); [apply may_ret|apply may_throw].
Qed.
Lemma may_read_sm d i : may (HW := HW) r (State.read_sm d i).
Proof.
      unfold State.read_sm. apply may_bind; [apply may_read_dev|].
      intros s. destruct (_ !! _); [apply may_ret|apply may_throw].
Qed.
Lemma may_read_warp d i j : may (HW := HW) r (State.read_warp d i j).
Proof.
      unfold State.read_warp. apply may_bind; [apply may_read_sm|].
      intros s. destruct (_ !! _); [apply may_ret|apply may_throw].
Qed.
Lemma may_read_lane d i j k : may (HW := HW) r (State.read_lane d i j k).
Proof.
      unfold State.read_lane. apply may_bind; [apply may_read_warp|].
      intros s. destruct (_ !! _); [apply may_ret|apply may_throw].
Qed.
End May.

Lemma may_mono r r' {A} (m : M W A) : sub r r' -> may (HW := HW) r m -> may r' m.
Proof. intros Hs H w a w' Hm. eapply step_rel_mono; eauto. Qed.

  (** Reads leave the world as it is. *)
Lemma read_dev_inv d w D w' :
    State.read_dev d w = Done D w' ->
    w' = w /\ dev_at (cuda_system_info w) d = Some D.
Proof.
    unfold State.read_dev. rewrite bind_gets. unfold dev_at.
    destruct (_ !! _); [|done]. by intros [= -> ->].
Qed.
Lemma read_sm_inv d i w S w' :
    State.read_sm d i w = Done S w' ->
    w' = w /\ sm_at (cuda_system_info w) d i = Some S.
Proof.
    unfold State.read_sm. intros H.
    destruct (bind_inv _ _ _ _ _ H) as (D & w1 & H1 & H2).
    apply read_dev_inv in H1 as [-> HD]. unfold sm_at. rewrite HD. cbn.
    destruct (_ !! _); [|done]. by injection H2 as -> ->.
Qed.
Lemma read_warp_inv d i j w X w' :
    State.read_warp d i j w = Done X w' ->
    w' = w /\ warp_at (cuda_system_info w) d i j = Some X.
Proof.
    unfold State.read_warp. intros H.
    destruct (bind_inv _ _ _ _ _ H) as (D & w1 & H1 & H2).
    apply read_sm_inv in H1 as [-> HD]. unfold warp_at. rewrite HD. cbn.
    destruct (_ !! _); [|done]. by injection H2 as -> ->.
Qed.
Lemma read_lane_inv d i j k w X w' :
    State.read_lane d i j k w = Done X w' ->
    w' = w /\ lane_at (cuda_system_info w) d i j k = Some X.
Proof.
    unfold State.read_lane. intros H.
    destruct (bind_inv _ _ _ _ _ H) as (D & w1 & H1 & H2).
    apply read_warp_inv in H1 as [-> HD]. unfold lane_at. rewrite HD. cbn.
    destruct (_ !! _); [|done]. by injection H2 as -> ->.
Qed.
End Hoare.

End JudgementsFacts.

(** ** Descriptors of the system and of a device *)

Section CountsFacts.
Local Open Scope nat_scope.

Lemma r_latch_preorder : preorder r_latch.
Proof.
  split; cbn; auto.
  - intros. apply latch_refl.
  - intros. apply dev_counts_latch_refl.
  - intros. eapply latch_trans; eassumption.
  - intros. eapply dev_counts_latch_trans; eauto.
Qed.
Lemma r_inv_sub_latch FD FS FW : sub (r_inv FD FS FW) r_latch.
Proof.
  split; [|split; [|split]]; cbn; auto.
  - by intros x y [? _].
  - by intros d x y (?&_).
Qed.
Lemma r_ext_sub_latch : sub r_ext r_latch.
Proof. split; [|split; [|split]]; cbn; auto. Qed.

Section Counts.
Context {HW : Type} (L : limits) (api : debug_api HW).
Local Abbreviation W := (world HW).
Implicit Type w : W.

Lemma dev_ok_stable w w' d :
    step_rel r_latch w w' -> dev_ok w d -> dev_ok w' d.
Proof.
    intros [[Hy _] E] (Hi & Hp & Hlt). cbn in Hy.
    assert (Ei : cuda_initialized w' = cuda_initialized w)
      by (by injection E).
    unfold dev_ok. rewrite Ei.
    destruct (cuda_system_info w), (cuda_system_info w').
    unfold sys_latch, latch in Hy. cbn in *.
    destruct (Hy Hp) as [-> ->]. done.
Qed.

Lemma dev_head_latch w w' d D :
    step_rel r_latch w w' -> dev_at (cuda_system_info w) d = Some D ->
    exists D', dev_at (cuda_system_info w') d = Some D' /\ dev_counts_latch D D'.
Proof.
    intros [H _] HD. destruct (sys_rel_dev_l _ _ _ _ _ H HD) as (D' & HD' & Hh & _).
    exists D'. split; [done|]. by destruct D, D'.
Qed.

Lemma sms_known_stable w w' d n :
    step_rel r_latch w w' -> sms_known w d n -> sms_known w' d n.
Proof.
    intros H (D & HD & Hp & Hn).
    destruct (dev_head_latch _ _ _ _ H HD) as (D' & HD' & Hl & _).
    destruct (Hl Hp) as [? ?]. exists D'. split; [done|]. split; congruence.
Qed.
Lemma warps_known_stable w w' d n :
    step_rel r_latch w w' -> warps_known w d n -> warps_known w' d n.
Proof.
    intros H (D & HD & Hp & Hn).
    destruct (dev_head_latch _ _ _ _ H HD) as (D' & HD' & _ & Hl & _).
    destruct (Hl Hp) as [? ?]. exists D'. split; [done|]. split; congruence.
Qed.
Lemma lanes_known_stable w w' d n :
    step_rel r_latch w w' -> lanes_known w d n -> lanes_known w' d n.
Proof.
    intros H (D & HD & Hp & Hn).
    destruct (dev_head_latch _ _ _ _ H HD) as (D' & HD' & _ & _ & Hl).
    destruct (Hl Hp) as [? ?]. exists D'. split; [done|]. split; congruence.
Qed.

Lemma sms_known_fun w d n n' : sms_known w d n -> sms_known w d n' -> n = n'.
Proof. intros (D & H1 & _ & <-) (D' & H2 & _ & <-). congruence. Qed.
Lemma warps_known_fun w d n n' :
    warps_known w d n -> warps_known w d n' -> n = n'.
Proof. intros (D & H1 & _ & <-) (D' & H2 & _ & <-). congruence. Qed.
Lemma lanes_known_fun w d n n' :
    lanes_known w d n -> lanes_known w d n' -> n = n'.
Proof. intros (D & H1 & _ & <-) (D' & H2 & _ & <-). congruence. Qed.

Lemma cuda_system_get_num_devices_spec :
    spec (State.cuda_system_get_num_devices L api) (fun w n w' =>
      step_rel r_counts w w' /\
      ((cuda_initialized w = false /\ n = 0) \/
       (cuda_initialized w' = true /\
        Sys.num_devices_p (cuda_system_info w') = true /\
        Sys.num_devices (cuda_system_info w') = n))).
Proof.
    intros w n w' H. unfold State.cuda_system_get_num_devices in H.
    rewrite bind_gets in H.
    destruct (cuda_initialized w) eqn:Ei; cbn [negb] in H.
    2:{ injection H as <- <-. split; [apply step_rel_refl, r_inv_preorder|auto]. }
    rewrite bind_gets in H.
    destruct (Sys.num_devices_p (cuda_system_info w)) eqn:Ep.
    { injection H as <- <-. split; [apply step_rel_refl, r_inv_preorder|auto]. }
    unfold State.cuda_api_get_num_devices, State.api_read, State.modify_system in H.
    msimpl_in H. cbn in H.
    destruct (_ <=? _) in H; cbn in H; [|done]. msimpl_in H.
    injection H as <- <-. split; [|right; done].
    split; [|done]. cbn.
    destruct (cuda_system_info w) as [p n devs mask]. cbn in *. subst p.
    split; cbn.
    - split; [|done]. intros [=].
    - apply list_rel_refl. intros d D. split; [apply dev_evolve_refl|].
      apply list_rel_refl. intros i S. split; [by right|].
      apply list_rel_refl. by right.
Qed.

Lemma dev_at_update_dev_eq s d f D :
    dev_at s d = Some D -> dev_at (State.update_dev f d s) d = Some (f D).
Proof. unfold dev_at. cbn. intros H. by rewrite list_lookup_alter_eq, H. Qed.
Lemma dev_at_update_dev_ne s d d' f :
    d <> d' -> dev_at (State.update_dev f d s) d' = dev_at s d'.
Proof. unfold dev_at. cbn. intros H. by rewrite list_lookup_alter_ne. Qed.

Lemma assert_dev_spec d :
    spec (State.assert_dev L api d) (fun w _ w' =>
      step_rel r_counts w w' /\ dev_ok w' d).
Proof.
    intros w [] w' H. unfold State.assert_dev in H.
    destruct (bind_inv _ _ _ _ _ H) as (n & w1 & H1 & H2).
    apply cuda_system_get_num_devices_spec in H1 as [Hs Hn].
    destruct (d <? n) eqn:Hlt; [|done]. injection H2 as <-.
    split; [done|]. apply Nat.ltb_lt in Hlt.
    destruct Hn as [[_ ->]|(?&?&?)]; [lia|]. unfold dev_ok. subst n. done.
Qed.
Lemma off_mirror_api_read {A} c (f : HW -> A) : off_mirror (State.api_read c f).
Proof. intros w a w' H. by injection H as <- <-. Qed.
Lemma off_mirror_may r {A} (m : M W A) : preorder r -> off_mirror m -> may r m.
Proof.
    intros Hr H w a w' Hm. destruct (H _ _ _ Hm) as [E1 E2].
    split; [rewrite E1; by apply sys_rel_refl|done].
Qed.

Lemma step_rel_update_dev r w d f :
    preorder r ->
    (forall D, dev_at (cuda_system_info w) d = Some D ->
       RD r d (dev_head D) (dev_head (f D)) /\ Dev.sm (f D) = Dev.sm D) ->
    step_rel r w (set_system (State.update_dev f d (cuda_system_info w)) w).
Proof.
    intros Hr Hf. split; [|done]. cbn. apply sys_rel_update_dev; auto.
    apply (RY_refl _ Hr).
Qed.

  (** A descriptor getter: assert the device, then serve the cache or
      fetch, store, check and latch. *)
Lemma count_getter_spec (d : nat) (flag : Dev.t -> bool) (val : Dev.t -> nat)
      (set_val : nat -> Dev.t -> Dev.t) (set_flag : bool -> Dev.t -> Dev.t)
      (fetch : M W nat) (limit : nat) (what : string)
      (known : W -> nat -> nat -> Prop) :
    (forall D n, flag D = false ->
       dev_evolve False (dev_head D) (dev_head (set_flag CACHED (set_val n D))) /\
       Dev.sm (set_flag CACHED (set_val n D)) = Dev.sm D /\
       flag (set_flag CACHED (set_val n D)) = true /\
       val (set_flag CACHED (set_val n D)) = n) ->
    off_mirror fetch ->
    (forall w n, known w d n <->
       exists D, dev_at (cuda_system_info w) d = Some D /\
                 flag D = true /\ val D = n) ->
    spec (State.assert_dev L api d ;;
          D <- State.read_dev d ;;
          if flag D then ret (val D)
          else
            n <- fetch ;;
            State.modify_dev (set_val n) d ;;
            gdb_assert what (n <=? limit) ;;
            State.modify_dev (set_flag CACHED) d ;;
            ret n)
         (fun w n w' => step_rel r_counts w w' /\ dev_ok w' d /\ known w' d n).
Proof.
    intros Hset Hfetch Hknown w n w' H.
    destruct (bind_inv _ _ _ _ _ H) as ([] & w1 & H1 & H2). clear H.
    apply assert_dev_spec in H1 as [Hs1 Hok].
    destruct (bind_inv _ _ _ _ _ H2) as (D & w2 & H3 & H4). clear H2.
    apply read_dev_inv in H3 as [-> HD].
    destruct (flag D) eqn:Ef.
    { injection H4 as <- <-. split; [done|]. split; [done|].
      apply Hknown. eauto. }
    destruct (bind_inv _ _ _ _ _ H4) as (m & w3 & H5 & H6). clear H4.
    destruct (Hfetch _ _ _ H5) as [E3 R3].
    unfold State.modify_dev, State.modify_system in H6. msimpl_in H6.
    destruct (m <=? limit); [|done]. msimpl_in H6. injection H6 as <- <-.
    cbn [cuda_system_info set_system].
    rewrite E3 in *.
    destruct (Hset D m Ef) as (He & Hsm & Hf & Hv).
    assert (Hupd : State.update_dev (set_flag CACHED) d
                     (State.update_dev (set_val m) d (cuda_system_info w1))
                   = State.update_dev (fun D => set_flag CACHED (set_val m D)) d
                       (cuda_system_info w1)).
    { destruct (cuda_system_info w1). unfold State.update_dev, Sys.set_dev. cbn.
      f_equal. rewrite list_alter_alter_eq. reflexivity. }
    split; [|split].
    - eapply step_rel_trans; [apply r_inv_preorder|exact Hs1|].
      split; [|exact R3]. cbn [cuda_system_info set_system].
      rewrite Hupd. apply sys_rel_update_dev.
      + apply r_inv_preorder.
      + intros D0 HD0. assert (D0 = D) by congruence. subst D0. done.
      + split; [apply latch_refl|done].
    - destruct Hok as (Hi & Hp & Hlt). unfold dev_ok.
      cbn. assert (cuda_initialized w3 = cuda_initialized w1) by (by injection R3).
      split; [congruence|]. done.
    - apply Hknown. cbn [cuda_system_info set_system]. rewrite Hupd.
      eexists. split; [by apply dev_at_update_dev_eq|]. done.
Qed.
End Counts.

End CountsFacts.

(** ** The range assertions *)

Section RangesFacts.
Local Open Scope nat_scope.

Section Getters.
Context {HW : Type} (L : limits) (api : debug_api HW).
Local Abbreviation W := (world HW).
Implicit Type w : W.

Lemma device_get_num_sms_spec d :
    spec (State.device_get_num_sms L api d) (fun w n w' =>
      step_rel r_counts w w' /\ dev_ok w' d /\ sms_known w' d n).
Proof.
    apply (count_getter_spec L api d Dev.num_sms_p Dev.num_sms
             Dev.set_num_sms Dev.set_num_sms_p).
    - intros D n Hf. repeat split; cbn; auto; try (intros [=]); try done;
        destruct D; cbn in *; subst; try done; intros [=].
    - apply off_mirror_api_read.
    - done.
Qed.
Lemma device_get_num_warps_spec d :
    spec (State.device_get_num_warps L api d) (fun w n w' =>
      step_rel r_counts w w' /\ dev_ok w' d /\ warps_known w' d n).
Proof.
    apply (count_getter_spec L api d Dev.num_warps_p Dev.num_warps
             Dev.set_num_warps Dev.set_num_warps_p).
    - intros D n Hf. repeat split; cbn; auto; try (intros [=]); try done;
        destruct D; cbn in *; subst; try done; intros [=].
    - apply off_mirror_api_read.
    - done.
Qed.
Lemma device_get_num_lanes_spec d :
    spec (State.device_get_num_lanes L api d) (fun w n w' =>
      step_rel r_counts w w' /\ dev_ok w' d /\ lanes_known w' d n).
Proof.
    apply (count_getter_spec L api d Dev.num_lanes_p Dev.num_lanes
             Dev.set_num_lanes Dev.set_num_lanes_p).
    - intros D n Hf. repeat split; cbn; auto; try (intros [=]); try done;
        destruct D; cbn in *; subst; try done; intros [=].
    - apply off_mirror_api_read.
    - done.
Qed.

Lemma sm_ok_stable w w' d i : step_rel r_latch w w' -> sm_ok w d i -> sm_ok w' d i.
Proof.
    intros H [H1 (n & H2 & H3)].
    split; [eapply dev_ok_stable; eauto|]. exists n.
    split; [eapply sms_known_stable; eauto|done].
Qed.
Lemma wp_ok_stable w w' d i : step_rel r_latch w w' -> wp_ok w d i -> wp_ok w' d i.
Proof.
    intros H [H1 (n & H2 & H3)].
    split; [eapply dev_ok_stable; eauto|]. exists n.
    split; [eapply warps_known_stable; eauto|done].
Qed.
Lemma ln_ok_stable w w' d i : step_rel r_latch w w' -> ln_ok w d i -> ln_ok w' d i.
Proof.
    intros H [H1 (n & H2 & H3)].
    split; [eapply dev_ok_stable; eauto|]. exists n.
    split; [eapply lanes_known_stable; eauto|done].
Qed.

Lemma assert_sm_spec d i :
    spec (State.assert_sm L api d i) (fun w _ w' =>
      step_rel r_counts w w' /\ sm_ok w' d i).
Proof.
    intros w [] w' H. unfold State.assert_sm in H.
    destruct (bind_inv _ _ _ _ _ H) as (n & w1 & H1 & H2).
    apply device_get_num_sms_spec in H1 as (Hs & Hok & Hn).
    destruct (i <? n) eqn:Hlt; [|done]. injection H2 as <-.
    apply Nat.ltb_lt in Hlt. split; [done|]. split; [done|]. eauto.
Qed.
Lemma assert_wp_spec d i :
    spec (State.assert_wp L api d i) (fun w _ w' =>
      step_rel r_counts w w' /\ wp_ok w' d i).
Proof.
    intros w [] w' H. unfold State.assert_wp in H.
    destruct (bind_inv _ _ _ _ _ H) as (n & w1 & H1 & H2).
    apply device_get_num_warps_spec in H1 as (Hs & Hok & Hn).
    destruct (i <? n) eqn:Hlt; [|done]. injection H2 as <-.
    apply Nat.ltb_lt in Hlt. split; [done|]. split; [done|]. eauto.
Qed.
Lemma assert_ln_spec d i :
    spec (State.assert_ln L api d i) (fun w _ w' =>
      step_rel r_counts w w' /\ ln_ok w' d i).
Proof.
    intros w [] w' H. unfold State.assert_ln in H.
    destruct (bind_inv _ _ _ _ _ H) as (n & w1 & H1 & H2).
    apply device_get_num_lanes_spec in H1 as (Hs & Hok & Hn).
    destruct (i <? n) eqn:Hlt; [|done]. injection H2 as <-.
    apply Nat.ltb_lt in Hlt. split; [done|]. split; [done|]. eauto.
Qed.

  (** [may] forms, for composition. *)
Lemma may_assert_dev d : may r_counts (State.assert_dev L api d).
Proof. intros w a w' H. by apply assert_dev_spec in H as [? _]. Qed.
Lemma may_assert_sm d i : may r_counts (State.assert_sm L api d i).
Proof. intros w a w' H. by apply assert_sm_spec in H as [? _]. Qed.
Lemma may_assert_wp d i : may r_counts (State.assert_wp L api d i).
Proof. intros w a w' H. by apply assert_wp_spec in H as [? _]. Qed.
Lemma may_assert_ln d i : may r_counts (State.assert_ln L api d i).
Proof. intros w a w' H. by apply assert_ln_spec in H as [? _]. Qed.
Lemma may_device_get_num_sms d : may r_counts (State.device_get_num_sms L api d).
Proof. intros w a w' H. by apply device_get_num_sms_spec in H as [? _]. Qed.
Lemma may_device_get_num_warps d :
    may r_counts (State.device_get_num_warps L api d).
Proof. intros w a w' H. by apply device_get_num_warps_spec in H as [? _]. Qed.
Lemma may_device_get_num_lanes d :
    may r_counts (State.device_get_num_lanes L api d).
Proof. intros w a w' H. by apply device_get_num_lanes_spec in H as [? _]. Qed.
End Getters.

End RangesFacts.

(** ** Slots that hold nothing *)

Section AbsentFacts.
Local Open Scope nat_scope.

Lemma lane_invalidate_fix l :
  Lane.invalidate l = l <->
  Lane.thread_idx_p l = false /\ Lane.pc_p l = false /\
  Lane.exception_p l = false /\ Lane.virtual_pc_p l = false /\
  Lane.timestamp_p l = false.
Proof.
  destruct l; cbn. split.
  - intros [= -> -> -> -> ->]. done.
  - intros (-> & -> & -> & -> & ->). done.
Qed.
Lemma warp_invalidate_fix W :
  Warp.invalidate W = W <->
  Warp.valid_p W = false /\ Warp.broken_p W = false /\
  Warp.block_idx_p W = false /\ Warp.kernel_p W = false /\
  Warp.grid_id_p W = false /\ Warp.valid_lanes_mask_p W = false /\
  Warp.active_lanes_mask_p W = false /\ Warp.timestamp_p W = false.
Proof.
  destruct W; cbn. split.
  - intros [= -> -> -> -> -> -> -> ->]. done.
  - intros (-> & -> & -> & -> & -> & -> & -> & ->). done.
Qed.
Lemma sm_invalidate_fix S :
  Sm.invalidate_masks S = S <->
  Sm.valid_warps_mask_p S = false /\ Sm.broken_warps_mask_p S = false.
Proof.
  destruct S; cbn. split.
  - intros [= -> ->]. done.
  - intros (-> & ->). done.
Qed.

Lemma cleared_false b b' : cleared b b' -> b = false -> b' = false.
Proof. intros H ->. destruct b'; [discriminate (H eq_refl)|done]. Qed.

Lemma lane_clear_off l l' :
  lane_clear l l' -> Lane.invalidate l = l -> Lane.invalidate l' = l'.
Proof.
  intros (_ & H1 & H2 & H3 & H4 & H5) H.
  apply lane_invalidate_fix in H as (?&?&?&?&?).
  apply lane_invalidate_fix.
  repeat split; eapply cleared_false; eassumption.
Qed.
Lemma warp_clear_off W W' :
  warp_clear W W' -> Warp.invalidate W = W -> Warp.invalidate W' = W'.
Proof.
  intros (_ & H1 & H2 & H3 & H4 & H5 & H6 & H7 & H8 & _) H.
  apply warp_invalidate_fix in H as (?&?&?&?&?&?&?&?).
  apply warp_invalidate_fix.
  repeat split; eapply cleared_false; eassumption.
Qed.

Section Stable.
Context (FD : nat -> Prop) (FS : nat -> nat -> Prop)
          (FW : nat -> nat -> nat -> Prop).
Context (s s' : Sys.t) (Hs : sys_rel (r_inv FD FS FW) s s').

Lemma lane_off_stable d i j k : lane_off s d i j k -> lane_off s' d i j k.
Proof.
    intros H l' Hl'. unfold lane_at in Hl'.
    destruct (warp_at s' d i j) as [W'|] eqn:HW'; [|done]. cbn in Hl'.
    destruct (sys_rel_warp_r _ _ _ _ _ _ _ Hs HW') as (W & HW & HR).
    cbn in HR. destruct HR as [[_ Hc]| ->].
    - destruct Hc as (_&_&_&_&_&_&_&_&_&Hl).
      destruct (list_rel_lookup_r _ _ _ _ _ Hl Hl') as (l & Hl0 & Hlc).
      eapply lane_clear_off; [exact Hlc|]. apply H.
      unfold lane_at. rewrite HW. exact Hl0.
    - apply H. unfold lane_at. rewrite HW. exact Hl'.
Qed.
Lemma warp_off_stable d i j : warp_off s d i j -> warp_off s' d i j.
Proof.
    intros H W' HW'.
    destruct (sys_rel_warp_r _ _ _ _ _ _ _ Hs HW') as (W & HW & HR).
    cbn in HR. destruct HR as [[_ Hc]| ->]; [|auto].
    eapply warp_clear_off; eauto.
Qed.
Lemma sm_off_stable d i : sm_off s d i -> sm_off s' d i.
Proof.
    intros H S' HS'.
    destruct (sys_rel_sm_r _ _ _ _ _ _ Hs HS') as (S & HS & HR & _).
    specialize (H S HS). apply sm_invalidate_fix in H as [H1 H2].
    apply sm_invalidate_fix. cbn in HR.
    destruct HR as [[_ (_&_&Hc1&Hc2&_)]|E].
    - destruct S, S'; cbn in *. split; eapply cleared_false; eassumption.
    - destruct S, S'; cbn in *. injection E as -> -> _ _. done.
Qed.
Lemma dev_off_stable d : dev_off s d -> dev_off s' d.
Proof.
    intros H D' HD'.
    destruct (sys_rel_dev_r _ _ _ _ _ Hs HD') as (D & HD & HR & _).
    destruct (H D HD) as [H1 H2]. cbn in HR.
    destruct HR as (_ & _ & Hc1 & Hc2 & _).
    destruct D, D'; cbn in *. split; eapply cleared_false; eassumption.
Qed.
End Stable.

Section Loop.
Context {W : Type}.
  (** A loop whose iterations each establish a fact that later steps
      keep. *)
Lemma for_each_spec (R : W -> W -> Prop) (P : nat -> W -> Prop)
      (body : nat -> M W unit) (l : list nat) :
    (forall w, R w w) ->
    (forall w1 w2 w3, R w1 w2 -> R w2 w3 -> R w1 w3) ->
    (forall i w w', R w w' -> P i w -> P i w') ->
    (forall i w u w', body i w = Done u w' -> R w w' /\ P i w') ->
    forall w u w', for_each l body w = Done u w' ->
      R w w' /\ forall i, i ∈ l -> P i w'.
Proof.
    intros Hrefl Htrans Hstable Hbody.
    induction l as [|i l IH]; intros w u w' H; cbn in H.
    - injection H as _ <-. split; [auto|]. intros i Hi. by apply elem_of_nil in Hi.
    - destruct (bind_inv _ _ _ _ _ H) as ([] & w1 & H1 & H2).
      destruct (Hbody _ _ _ _ H1) as [HR1 HP1].
      destruct (IH _ _ _ H2) as [HR2 HP2].
      split; [eauto|]. intros i' Hi. apply elem_of_cons in Hi as [->|Hi]; eauto.
Qed.
End Loop.

End AbsentFacts.

(** ** Lookups after an update *)

Section UpdatesFacts.
Local Open Scope nat_scope.

(** Lookups after updates *)
Section Lookups.
Implicit Type s : Sys.t.

Lemma sm_at_update_sm_eq s d i f :
    sm_at (State.update_sm f d i s) d i = f <$> sm_at s d i.
Proof.
    unfold sm_at, dev_at, State.update_sm, State.update_dev. cbn.
    rewrite list_lookup_alter_eq. destruct (Sys.dev s !! d) as [D|]; [|done].
    cbn. by rewrite list_lookup_alter_eq.
Qed.
Lemma warp_at_update_sm s d i f d' i' j' :
    (forall S, Sm.wp (f S) = Sm.wp S) ->
    warp_at (State.update_sm f d i s) d' i' j' = warp_at s d' i' j'.
Proof.
    intros Hf. unfold warp_at, sm_at, dev_at, State.update_sm, State.update_dev.
    cbn. destruct (decide (d = d')) as [<-|Hd].
    - rewrite list_lookup_alter_eq. destruct (Sys.dev s !! d) as [D|]; [|done].
      cbn. destruct (decide (i = i')) as [<-|Hi].
      + rewrite list_lookup_alter_eq. destruct (Dev.sm D !! i) as [S|]; [|done].
        cbn. by rewrite Hf.
      + by rewrite list_lookup_alter_ne.
    - by rewrite list_lookup_alter_ne.
Qed.
Lemma warp_at_update_dev s d f d' i' j' :
    (forall D, Dev.sm (f D) = Dev.sm D) ->
    warp_at (State.update_dev f d s) d' i' j' = warp_at s d' i' j'.
Proof.
    intros Hf. unfold warp_at, sm_at, dev_at, State.update_dev.
    cbn. destruct (decide (d = d')) as [<-|Hd].
    - rewrite list_lookup_alter_eq. destruct (Sys.dev s !! d) as [D|]; [|done].
      cbn. by rewrite Hf.
    - by rewrite list_lookup_alter_ne.
Qed.
Lemma sm_at_update_dev s d f d' i' :
    (forall D, Dev.sm (f D) = Dev.sm D) ->
    sm_at (State.update_dev f d s) d' i' = sm_at s d' i'.
Proof.
    intros Hf. unfold sm_at, dev_at, State.update_dev.
    cbn. destruct (decide (d = d')) as [<-|Hd].
    - rewrite list_lookup_alter_eq. destruct (Sys.dev s !! d) as [D|]; [|done].
      cbn. by rewrite Hf.
    - by rewrite list_lookup_alter_ne.
Qed.
Lemma warp_at_update_warp_eq s d i j f :
    warp_at (State.update_warp f d i j s) d i j = f <$> warp_at s d i j.
Proof.
    unfold warp_at, State.update_warp. rewrite sm_at_update_sm_eq.
    destruct (sm_at s d i) as [S|]; [|done]. cbn.
    by rewrite list_lookup_alter_eq.
Qed.
Lemma lane_at_update_lane_eq s d i j k f :
    lane_at (State.update_lane f d i j k s) d i j k = f <$> lane_at s d i j k.
Proof.
    unfold lane_at, State.update_lane. rewrite warp_at_update_warp_eq.
    destruct (warp_at s d i j) as [X|]; [|done]. cbn.
    by rewrite list_lookup_alter_eq.
Qed.
Lemma lane_at_update_lane_ne s d i j k k' f :
    k <> k' ->
    lane_at (State.update_lane f d i j k s) d i j k' = lane_at s d i j k'.
Proof.
    intros Hk. unfold lane_at, State.update_lane. rewrite warp_at_update_warp_eq.
    destruct (warp_at s d i j) as [X|]; [|done]. cbn.
    by rewrite list_lookup_alter_ne.
Qed.
Lemma lane_at_update_sm s d i f d' i' j' k' :
    (forall S, Sm.wp (f S) = Sm.wp S) ->
    lane_at (State.update_sm f d i s) d' i' j' k' = lane_at s d' i' j' k'.
Proof. intros. unfold lane_at. by rewrite warp_at_update_sm. Qed.
Lemma lane_at_update_warp_head s d i j f k :
    (forall X, Warp.ln (f X) = Warp.ln X) ->
    lane_at (State.update_warp f d i j s) d i j k = lane_at s d i j k.
Proof.
    intros Hf. unfold lane_at. rewrite warp_at_update_warp_eq.
    destruct (warp_at s d i j) as [X|]; [|done]. cbn. by rewrite Hf.
Qed.
Lemma dev_at_update_sm s d i f d' :
    dev_head <$> dev_at (State.update_sm f d i s) d'
    = dev_head <$> dev_at s d'.
Proof.
    unfold dev_at, State.update_sm, State.update_dev. cbn.
    destruct (decide (d = d')) as [<-|Hd].
    - rewrite list_lookup_alter_eq. destruct (Sys.dev s !! d) as [D|]; [|done].
      cbn. by destruct D.
    - by rewrite list_lookup_alter_ne.
Qed.
End Lookups.

Section StepUpdate.
Context {HW : Type}.
Local Abbreviation W := (world HW).
Implicit Type w : W.

Lemma step_rel_update_sm r w d i f :
    preorder r ->
    (forall S, sm_at (cuda_system_info w) d i = Some S ->
       RS r d i (sm_head S) (sm_head (f S)) /\ Sm.wp (f S) = Sm.wp S) ->
    step_rel r w (set_system (State.update_sm f d i (cuda_system_info w)) w).
Proof. intros. split; [|done]. by apply sys_rel_update_sm. Qed.
Lemma step_rel_update_warp r w d i j f :
    preorder r ->
    (forall X, warp_at (cuda_system_info w) d i j = Some X ->
       RW r d i j X (f X)) ->
    step_rel r w (set_system (State.update_warp f d i j (cuda_system_info w)) w).
Proof. intros. split; [|done]. by apply sys_rel_update_warp. Qed.

Lemma may_modify_sm r d i f :
    preorder r ->
    (forall S, RS r d i (sm_head S) (sm_head (f S)) /\ Sm.wp (f S) = Sm.wp S) ->
    may r (State.modify_sm (HW := HW) f d i).
Proof.
    intros Hr Hf w a w' [= _ <-]. apply step_rel_update_sm; auto.
Qed.
Lemma may_modify_warp r d i j f :
    preorder r -> (forall X, RW r d i j X (f X)) ->
    may r (State.modify_warp (HW := HW) f d i j).
Proof.
    intros Hr Hf w a w' [= _ <-]. apply step_rel_update_warp; auto.
Qed.
Lemma may_modify_lane r d i j k f :
    preorder r ->
    (forall X, RW r d i j X (Warp.set_ln (alter f k (Warp.ln X)) X)) ->
    may r (State.modify_lane (HW := HW) f d i j k).
Proof. intros Hr Hf. by apply may_modify_warp. Qed.
End StepUpdate.

End UpdatesFacts.

(** ** What the invalidations achieve *)

Section InvalidationFacts.
Local Open Scope nat_scope.

Lemma sm_at_update_warp_head s d i j f d' i' :
  sm_head <$> sm_at (State.update_warp f d i j s) d' i'
  = sm_head <$> sm_at s d' i'.
Proof.
  unfold State.update_warp.
  destruct (decide (d = d' /\ i = i')) as [[<- <-]|Hne].
  - rewrite sm_at_update_sm_eq. destruct (sm_at s d i) as [S|]; [|done].
    cbn. by destruct S.
  - unfold sm_at, dev_at, State.update_sm, State.update_dev. cbn.
    destruct (decide (d = d')) as [<-|Hd].
    + rewrite list_lookup_alter_eq. destruct (Sys.dev s !! d) as [D|]; [|done].
      cbn. rewrite list_lookup_alter_ne by (intros <-; apply Hne; done). done.
    + by rewrite list_lookup_alter_ne.
Qed.

Section Invalidate.
Context {HW : Type} (L : limits) (api : debug_api HW).
Local Abbreviation W := (world HW).
Implicit Type w : W.

Lemma inv_latch FD FS FW w w' :
    step_rel (r_inv FD FS FW) w w' -> step_rel r_latch w w'.
Proof. apply step_rel_mono, r_inv_sub_latch. Qed.

Lemma warp_done_stable FD FS FW w w' d i j :
    step_rel (r_inv FD FS FW) w w' -> warp_done w d i j -> warp_done w' d i j.
Proof.
    intros H [H1 (n & H2 & H3)]. pose proof H as [Hs _]. split.
    - eapply warp_off_stable; eauto.
    - exists n. split; [eapply lanes_known_stable; eauto using inv_latch|].
      intros k Hk. eapply lane_off_stable; eauto.
Qed.
Lemma sm_done_stable FD FS FW w w' d i :
    step_rel (r_inv FD FS FW) w w' -> sm_done w d i -> sm_done w' d i.
Proof.
    intros H [H1 (n & H2 & H3)]. pose proof H as [Hs _]. split.
    - eapply sm_off_stable; eauto.
    - exists n. split; [eapply warps_known_stable; eauto using inv_latch|].
      intros k Hk. eapply warp_done_stable; eauto.
Qed.

Lemma counts_sub_inv FD FS FW : sub r_counts (r_inv FD FS FW).
Proof. apply r_inv_sub; intros; done. Qed.
Lemma may_counts_inv FD FS FW {A} (m : M W A) :
    may r_counts m -> may (r_inv FD FS FW) m.
Proof. apply may_mono, counts_sub_inv. Qed.

Lemma warp_clear_set_ln X k :
    warp_clear X (Warp.set_ln (alter Lane.invalidate k (Warp.ln X)) X).
Proof.
    destruct X; cbn. repeat split; auto using cleared_refl.
    cbn. apply list_rel_alter.
    - intros. apply lane_clear_refl.
    - intros l _. destruct l; repeat split; cbn; intros [=].
Qed.

Lemma lane_invalidate_spec d i j k :
    spec (State.lane_invalidate L api d i j k) (fun w _ w' =>
      step_rel (r_inv nowhere1 nowhere2 (only_warp d i j)) w w' /\
      lane_off (cuda_system_info w') d i j k).
Proof.
    set (r := r_inv nowhere1 nowhere2 (only_warp d i j)).
    assert (Hr : preorder r) by apply r_inv_preorder.
    intros w [] w' H. unfold State.lane_invalidate in H.
    destruct (bind_inv _ _ _ _ _ H) as ([] & w1 & H1 & H2'). clear H.
    destruct (bind_inv _ _ _ _ _ H2') as ([] & w2 & H2 & H3'). clear H2'.
    destruct (bind_inv _ _ _ _ _ H3') as ([] & w3 & H3 & H4'). clear H3'.
    destruct (bind_inv _ _ _ _ _ H4') as ([] & w4 & H4 & H5). clear H4'.
    apply (may_counts_inv nowhere1 nowhere2 (only_warp d i j)
             _ (may_assert_dev L api d)) in H1.
    apply (may_counts_inv nowhere1 nowhere2 (only_warp d i j)
             _ (may_assert_sm L api d i)) in H2.
    apply (may_counts_inv nowhere1 nowhere2 (only_warp d i j)
             _ (may_assert_wp L api d j)) in H3.
    apply (may_counts_inv nowhere1 nowhere2 (only_warp d i j)
             _ (may_assert_ln L api d k)) in H4.
    injection H5 as <-. split.
    - eapply step_rel_trans; [done|exact H1|].
      eapply step_rel_trans; [done|exact H2|].
      eapply step_rel_trans; [done|exact H3|].
      eapply step_rel_trans; [done|exact H4|].
      apply step_rel_update_warp; [done|]. intros X _. left.
      split; [done|]. apply warp_clear_set_ln.
    - intros l. cbn [cuda_system_info set_system].
      rewrite lane_at_update_lane_eq.
      destruct (lane_at _ d i j k) as [l0|]; [|done]. cbn. intros [= <-].
      by destruct l0.
Qed.

Lemma spec_seq r {A B} (m : M W A) (k : A -> M W B) (Q : B -> W -> Prop) :
    preorder r -> may r m ->
    (forall a, spec (k a) (fun w b w' => step_rel r w w' /\ Q b w')) ->
    spec (bind m k) (fun w b w' => step_rel r w w' /\ Q b w').
Proof.
    intros Hr Hm Hk w b w' H.
    destruct (bind_inv _ _ _ _ _ H) as (a & w1 & H1 & H2).
    destruct (Hk _ _ _ _ H2) as [H3 H4].
    split; [|done]. eapply step_rel_trans; eauto.
Qed.

Lemma sm_clear_masks S : sm_clear (sm_head S) (sm_head (Sm.invalidate_masks S)).
Proof. destruct S; cbn. repeat split; intros [=]. Qed.
Lemma warp_clear_invalidate X : warp_clear X (Warp.invalidate X).
Proof.
    destruct X; cbn. repeat split; try (intros [=]).
    cbn. apply list_rel_refl. intros. apply lane_clear_refl.
Qed.

Lemma warp_invalidate_spec d i j :
    spec (State.warp_invalidate L api d i j) (fun w _ w' =>
      step_rel (r_inv nowhere1 (only_sm d i) (only_warp d i j)) w w' /\
      (sm_off (cuda_system_info w') d i /\ warp_done w' d i j /\
       sm_ok w' d i /\ wp_ok w' d j)).
Proof.
    set (r := r_inv nowhere1 (only_sm d i) (only_warp d i j)).
    assert (Hr : preorder r) by apply r_inv_preorder.
    unfold State.warp_invalidate.
    apply spec_seq; [done|apply may_counts_inv, may_assert_dev|]. intros _.
    intros w [] w' H.
    destruct (bind_inv _ _ _ _ _ H) as ([] & w1 & H1 & H2'). clear H.
    destruct (bind_inv _ _ _ _ _ H2') as ([] & w2 & H2 & H3'). clear H2'.
    destruct (bind_inv _ _ _ _ _ H3') as (n & w3 & H3 & H4'). clear H3'.
    destruct (bind_inv _ _ _ _ _ H4') as ([] & w4 & H4 & H5). clear H4'.
    apply assert_sm_spec in H1 as [R1 Hsm].
    apply assert_wp_spec in H2 as [R2 Hwp].
    apply device_get_num_lanes_spec in H3 as (R3 & _ & Hn).
    apply (for_each_spec
             (step_rel (r_inv nowhere1 nowhere2 (only_warp d i j)))
             (fun k w => lane_off (cuda_system_info w) d i j k)) in H4.
    2:{ intros. apply step_rel_refl, r_inv_preorder. }
    2:{ intros. eapply step_rel_trans; eauto using r_inv_preorder. }
    2:{ intros k wa wb [Hab _] Hk. eapply lane_off_stable; eauto. }
    2:{ intros k wa u wb Hb. eapply lane_invalidate_spec; eauto. }
    destruct H4 as [R4 Hlanes].
    unfold State.modify_sm, State.modify_warp, State.modify_system in H5.
    msimpl_in H5. injection H5 as <-.
    set (w5 := set_system _ w4).
    set (w6 := set_system _ w5).
    assert (R5 : step_rel r w4 w5).
    { apply step_rel_update_sm; [done|]. intros S _. split; [|by destruct S].
      left. split; [done|]. apply sm_clear_masks. }
    assert (R6 : step_rel r w5 w6).
    { apply (step_rel_update_warp r w5); [done|]. intros X _. left.
      split; [done|]. apply warp_clear_invalidate. }
    assert (R03 : step_rel r w w3).
    { eapply step_rel_trans; [done|eapply step_rel_mono; [|exact R1]|].
      { apply counts_sub_inv. }
      eapply step_rel_trans; [done|eapply step_rel_mono; [|exact R2]|].
      { apply counts_sub_inv. }
      eapply step_rel_mono; [|exact R3]. apply counts_sub_inv. }
    assert (R34 : step_rel r w3 w4).
    { eapply step_rel_mono; [|exact R4]. apply r_inv_sub; intros; done. }
    assert (R46 : step_rel r w4 w6) by (eapply step_rel_trans; eauto).
    assert (R36 : step_rel r w3 w6) by (eapply step_rel_trans; eauto).
    split; [eapply step_rel_trans; eauto|].
    split; [|split; [|split]].
    - intros S. subst w6 w5. cbn [cuda_system_info set_system].
      intros HS.
      assert (HS' := sm_at_update_warp_head
                (State.update_sm Sm.invalidate_masks d i (cuda_system_info w4))
                d i j Warp.invalidate d i).
      rewrite HS in HS'. rewrite sm_at_update_sm_eq in HS'.
      destruct (sm_at (cuda_system_info w4) d i) as [S0|]; [|done].
      apply sm_invalidate_fix. destruct S, S0. cbn in HS'. cbn.
      injection HS' as -> -> _ _. done.
    - split.
      + intros X. subst w6. cbn [cuda_system_info set_system].
        rewrite warp_at_update_warp_eq.
        destruct (warp_at _ d i j) as [X0|]; [|done]. cbn. intros [= <-].
        by destruct X0.
      + exists n. split.
        * eapply lanes_known_stable; [|exact Hn]. eapply inv_latch; eauto.
        * intros k Hk. destruct R46 as [R46 _].
          eapply lane_off_stable; [exact R46|]. apply Hlanes.
          apply elem_of_seq. lia.
    - eapply sm_ok_stable; [|exact Hsm].
      eapply inv_latch. eapply step_rel_trans; [done| |exact R36].
      eapply step_rel_trans; [done|eapply step_rel_mono; [|exact R2]|].
      { apply counts_sub_inv. }
      eapply step_rel_mono; [|exact R3]. apply counts_sub_inv.
    - eapply wp_ok_stable; [|exact Hwp].
      eapply inv_latch. eapply step_rel_trans; [done| |exact R36].
      eapply step_rel_mono; [|exact R3]. apply counts_sub_inv.
Qed.

Lemma sm_invalidate_non_recursive_spec d i :
    spec (State.sm_invalidate L api d i State.NON_RECURSIVE) (fun w _ w' =>
      step_rel (r_inv nowhere1 (only_sm d i) nowhere3) w w' /\
      sm_off (cuda_system_info w') d i).
Proof.
    set (r := r_inv nowhere1 (only_sm d i) nowhere3).
    assert (Hr : preorder r) by apply r_inv_preorder.
    unfold State.sm_invalidate.
    apply spec_seq; [done|apply may_counts_inv, may_assert_dev|]. intros _.
    apply spec_seq; [done|apply may_counts_inv, may_assert_sm|]. intros _.
    intros w [] w' H. rewrite bind_ret in H.
    unfold State.modify_sm, State.modify_system in H. injection H as <-. split.
    - apply step_rel_update_sm; [done|]. intros S _. split; [|by destruct S].
      left. split; [done|]. apply sm_clear_masks.
    - intros S. cbn [cuda_system_info set_system]. rewrite sm_at_update_sm_eq.
      destruct (sm_at _ d i) as [S0|]; [|done]. cbn. intros [= <-].
      by destruct S0.
Qed.

Lemma sm_invalidate_recursive_spec d i :
    spec (State.sm_invalidate L api d i State.RECURSIVE) (fun w _ w' =>
      step_rel (r_inv nowhere1 (only_sm d i) (sm_warps d i)) w w' /\
      (sm_done w' d i /\ sm_ok w' d i)).
Proof.
    set (r := r_inv nowhere1 (only_sm d i) (sm_warps d i)).
    assert (Hr : preorder r) by apply r_inv_preorder.
    unfold State.sm_invalidate.
    apply spec_seq; [done|apply may_counts_inv, may_assert_dev|]. intros _.
    intros w [] w' H.
    destruct (bind_inv _ _ _ _ _ H) as ([] & w1 & H1 & H2'). clear H.
    destruct (bind_inv _ _ _ _ _ H2') as ([] & w3 & H3' & H5). clear H2'.
    destruct (bind_inv _ _ _ _ _ H3') as (n & w2 & H2 & H3). clear H3'.
    apply assert_sm_spec in H1 as [R1 Hsm].
    apply device_get_num_warps_spec in H2 as (R2 & _ & Hn).
    apply (for_each_spec (step_rel r) (fun j w => warp_done w d i j)) in H3.
    2:{ intros. by apply step_rel_refl. }
    2:{ intros. eapply step_rel_trans; eauto. }
    2:{ intros k wa wb Hab Hk. eapply warp_done_stable; eauto. }
    2:{ intros k wa u wb Hb.
        apply warp_invalidate_spec in Hb as (Hb1 & _ & Hb2 & _).
        split; [|done]. eapply step_rel_mono; [|exact Hb1].
        apply r_inv_sub; [done|done|]. intros d' i' j' (-> & -> & _). done. }
    destruct H3 as [R3 Hwarps].
    unfold State.modify_sm, State.modify_system in H5. injection H5 as <-.
    set (w4 := set_system _ w3).
    assert (R4 : step_rel r w3 w4).
    { apply step_rel_update_sm; [done|]. intros S _. split; [|by destruct S].
      left. split; [done|]. apply sm_clear_masks. }
    assert (R12 : step_rel r w1 w2).
    { eapply step_rel_mono; [|exact R2]. apply counts_sub_inv. }
    assert (R24 : step_rel r w2 w4) by (eapply step_rel_trans; eauto).
    assert (R14 : step_rel r w1 w4) by (eapply step_rel_trans; eauto).
    split.
    { eapply step_rel_trans; [done|eapply step_rel_mono; [|exact R1]|done].
      apply counts_sub_inv. }
    split; [split|].
    - intros S. subst w4. cbn [cuda_system_info set_system].
      rewrite sm_at_update_sm_eq.
      destruct (sm_at _ d i) as [S0|]; [|done]. cbn. intros [= <-].
      by destruct S0.
    - exists n. split.
      + eapply warps_known_stable; [|exact Hn]. eapply inv_latch; eauto.
      + intros j Hj. eapply warp_done_stable; [exact R4|]. apply Hwarps.
        apply elem_of_seq. lia.
    - eapply sm_ok_stable; [|exact Hsm]. eapply inv_latch; eauto.
Qed.

Lemma may_device_invalidate_kernels r d :
    preorder r -> sub r_counts r ->
    may r (State.device_invalidate_kernels L api d).
Proof.
    intros Hr Hs. unfold State.device_invalidate_kernels.
    apply may_bind; [done|eapply may_mono, may_assert_dev; done|].
    intros _. by apply may_log_host.
Qed.

Lemma dev_evolve_flags D :
    dev_evolve True (dev_head D)
      (dev_head (Dev.set_filter_exception_state_p false (Dev.set_valid_p false D))).
Proof.
    destruct D. unfold dev_evolve, dev_counts_latch, dev_rest, dev_head. cbn.
    split; [repeat split; done|].
    split; [done|]. split; [intros [=]|]. split; [intros [=]|].
    intros Hn; exfalso; by apply Hn.
Qed.

Lemma device_invalidate_spec d :
    spec (State.device_invalidate L api d) (fun w _ w' =>
      step_rel (r_inv (only_dev d) (dev_sms d) (dev_warps d)) w w' /\
      (dev_done w' d /\ dev_ok w' d)).
Proof.
    set (r := r_inv (only_dev d) (dev_sms d) (dev_warps d)).
    assert (Hr : preorder r) by apply r_inv_preorder.
    unfold State.device_invalidate.
    intros w [] w' H.
    destruct (bind_inv _ _ _ _ _ H) as ([] & w1 & H1 & H2'). clear H.
    destruct (bind_inv _ _ _ _ _ H2') as (n & w2 & H2 & H3'). clear H2'.
    destruct (bind_inv _ _ _ _ _ H3') as ([] & w3 & H3 & H4'). clear H3'.
    destruct (bind_inv _ _ _ _ _ H4') as ([] & w4 & H4 & H5). clear H4'.
    apply assert_dev_spec in H1 as [R1 Hdev].
    apply device_get_num_sms_spec in H2 as (R2 & _ & Hn).
    apply (for_each_spec (step_rel r) (fun i w => sm_done w d i)) in H3.
    2:{ intros. by apply step_rel_refl. }
    2:{ intros. eapply step_rel_trans; eauto. }
    2:{ intros k wa wb Hab Hk. eapply sm_done_stable; eauto. }
    2:{ intros k wa u wb Hb.
        apply sm_invalidate_recursive_spec in Hb as (Hb1 & Hb2 & _).
        split; [|done]. eapply step_rel_mono; [|exact Hb1].
        apply r_inv_sub; [done| |].
        - intros d' i' (-> & _). done.
        - intros d' i' j' (-> & _). done. }
    destruct H3 as [R3 Hsms].
    apply (may_device_invalidate_kernels r d Hr (counts_sub_inv _ _ _)) in H4.
    unfold State.modify_dev, State.modify_system in H5. injection H5 as <-.
    set (w5 := set_system _ w4).
    assert (R5 : step_rel r w4 w5).
    { apply step_rel_update_dev; [done|]. intros D _. split; [|by destruct D].
      pose proof (dev_evolve_flags D) as (?&?&?&?&?).
      split; [done|]. split; [done|]. split; [done|]. split; [done|].
      intros Hn'. exfalso. by apply Hn'. }
    assert (R01 : step_rel r w w1).
    { eapply step_rel_mono; [|exact R1]. apply counts_sub_inv. }
    assert (R12 : step_rel r w1 w2).
    { eapply step_rel_mono; [|exact R2]. apply counts_sub_inv. }
    assert (R35 : step_rel r w3 w5) by (eapply step_rel_trans; eauto).
    assert (R25 : step_rel r w2 w5) by (eapply step_rel_trans; eauto).
    assert (R15 : step_rel r w1 w5) by (eapply step_rel_trans; eauto).
    split; [eapply step_rel_trans; eauto|]. split; [split|].
    - intros D. subst w5. cbn [cuda_system_info set_system]. intros HD.
      destruct (dev_at (cuda_system_info w4) d) as [D0|] eqn:HD0.
      + rewrite (dev_at_update_dev_eq _ _ _ _ HD0) in HD. injection HD as <-.
        by destruct D0.
      + unfold dev_at, State.update_dev in HD, HD0. cbn in HD.
        rewrite list_lookup_alter_eq, HD0 in HD. done.
    - exists n. split.
      + eapply sms_known_stable; [|exact Hn]. eapply inv_latch; eauto.
      + intros i Hi. eapply sm_done_stable; [exact R35|]. apply Hsms.
        apply elem_of_seq. lia.
    - eapply dev_ok_stable; [|exact Hdev]. eapply inv_latch; eauto.
Qed.
End Invalidate.

End InvalidationFacts.

(** ** The invalidations return *)

Section TotalityFacts.
Local Open Scope nat_scope.

Section Silent.
Context {HW : Type} (L : limits) (api : debug_api HW).
Local Abbreviation W := (world HW).
Implicit Type w : W.

  (** With its descriptor latched, a getter returns without touching
      anything. *)
Lemma cuda_system_get_num_devices_silent w d :
    dev_ok w d ->
    State.cuda_system_get_num_devices L api w
    = Done (Sys.num_devices (cuda_system_info w)) w.
Proof.
    intros (Hi & Hp & _). unfold State.cuda_system_get_num_devices.
    rewrite bind_gets, Hi. cbn [negb]. rewrite bind_gets, Hp. done.
Qed.
Lemma assert_dev_silent w d :
    dev_ok w d -> State.assert_dev L api d w = Done tt w.
Proof.
    intros H. unfold State.assert_dev.
    rewrite (bind_done _ _ _ _ _ (cuda_system_get_num_devices_silent _ _ H)).
    destruct H as (_ & _ & Hlt). apply Nat.ltb_lt in Hlt. by rewrite Hlt.
Qed.
Lemma read_dev_silent w d D :
    dev_at (cuda_system_info w) d = Some D -> State.read_dev d w = Done D w.
Proof.
    unfold dev_at. intros H. unfold State.read_dev. rewrite bind_gets.
    by rewrite H.
Qed.

Lemma device_get_num_sms_silent w d n :
    dev_ok w d -> sms_known w d n ->
    State.device_get_num_sms L api d w = Done n w.
Proof.
    intros Hd (D & HD & Hp & Hn). unfold State.device_get_num_sms.
    rewrite (bind_done _ _ _ _ _ (assert_dev_silent _ _ Hd)).
    rewrite (bind_done _ _ _ _ _ (read_dev_silent _ _ _ HD)).
    rewrite Hp, Hn. done.
Qed.
Lemma device_get_num_warps_silent w d n :
    dev_ok w d -> warps_known w d n ->
    State.device_get_num_warps L api d w = Done n w.
Proof.
    intros Hd (D & HD & Hp & Hn). unfold State.device_get_num_warps.
    rewrite (bind_done _ _ _ _ _ (assert_dev_silent _ _ Hd)).
    rewrite (bind_done _ _ _ _ _ (read_dev_silent _ _ _ HD)).
    rewrite Hp, Hn. done.
Qed.
Lemma device_get_num_lanes_silent w d n :
    dev_ok w d -> lanes_known w d n ->
    State.device_get_num_lanes L api d w = Done n w.
Proof.
    intros Hd (D & HD & Hp & Hn). unfold State.device_get_num_lanes.
    rewrite (bind_done _ _ _ _ _ (assert_dev_silent _ _ Hd)).
    rewrite (bind_done _ _ _ _ _ (read_dev_silent _ _ _ HD)).
    rewrite Hp, Hn. done.
Qed.
Lemma assert_sm_silent w d i :
    sm_ok w d i -> State.assert_sm L api d i w = Done tt w.
Proof.
    intros (Hd & n & Hn & Hlt). unfold State.assert_sm.
    rewrite (bind_done _ _ _ _ _ (device_get_num_sms_silent _ _ _ Hd Hn)).
    apply Nat.ltb_lt in Hlt. by rewrite Hlt.
Qed.
Lemma assert_wp_silent w d i :
    wp_ok w d i -> State.assert_wp L api d i w = Done tt w.
Proof.
    intros (Hd & n & Hn & Hlt). unfold State.assert_wp.
    rewrite (bind_done _ _ _ _ _ (device_get_num_warps_silent _ _ _ Hd Hn)).
    apply Nat.ltb_lt in Hlt. by rewrite Hlt.
Qed.
Lemma assert_ln_silent w d i :
    ln_ok w d i -> State.assert_ln L api d i w = Done tt w.
Proof.
    intros (Hd & n & Hn & Hlt). unfold State.assert_ln.
    rewrite (bind_done _ _ _ _ _ (device_get_num_lanes_silent _ _ _ Hd Hn)).
    apply Nat.ltb_lt in Hlt. by rewrite Hlt.
Qed.
Lemma quiet_refl w : quiet w w.
Proof. done. Qed.
Lemma quiet_trans w1 w2 w3 : quiet w1 w2 -> quiet w2 w3 -> quiet w1 w3.
Proof. intros (?&?&?) (?&?&?). repeat split; congruence. Qed.

Lemma for_each_total (Q : W -> Prop) (P : W -> W -> Prop)
      (body : nat -> M W unit) l :
    (forall w, P w w) ->
    (forall w1 w2 w3, P w1 w2 -> P w2 w3 -> P w1 w3) ->
    (forall i w, i ∈ l -> Q w ->
       exists w', body i w = Done tt w' /\ P w w' /\ Q w') ->
    forall w, Q w ->
      exists w', for_each l body w = Done tt w' /\ P w w' /\ Q w'.
Proof.
    intros Hrefl Htrans.
    induction l as [|i l IH]; intros Hbody w HQ; cbn.
    - exists w. done.
    - destruct (Hbody i w) as (w1 & H1 & HP1 & HQ1); [left|done|].
      rewrite (bind_done _ _ _ _ _ H1).
      destruct (IH (fun j wa Hj => Hbody j wa ltac:(by right)) w1 HQ1)
        as (w' & H2 & HP2 & HQ').
      exists w'. eauto.
Qed.

Lemma lane_invalidate_total w d i j k :
    sm_ok w d i -> wp_ok w d j -> ln_ok w d k ->
    goes_quietly (State.lane_invalidate L api d i j k) w.
Proof.
    intros Hs Hw Hl. unfold goes_quietly, State.lane_invalidate.
    rewrite (bind_done _ _ _ _ _ (assert_dev_silent _ _ (proj1 Hs))).
    rewrite (bind_done _ _ _ _ _ (assert_sm_silent _ _ _ Hs)).
    rewrite (bind_done _ _ _ _ _ (assert_wp_silent _ _ _ Hw)).
    rewrite (bind_done _ _ _ _ _ (assert_ln_silent _ _ _ Hl)).
    eexists. split; [reflexivity|done].
Qed.

Lemma descriptors_stable w w' d ns nw nl :
    step_rel r_latch w w' -> descriptors w d ns nw nl ->
    descriptors w' d ns nw nl.
Proof.
    intros H (H1 & H2 & H3 & H4).
    split; [eapply dev_ok_stable; eauto|].
    split; [eapply sms_known_stable; eauto|].
    split; [eapply warps_known_stable; eauto|eapply lanes_known_stable; eauto].
Qed.

Lemma warp_invalidate_total w d i j ns nw nl :
    descriptors w d ns nw nl -> i < ns -> j < nw ->
    goes_quietly (State.warp_invalidate L api d i j) w.
Proof.
    intros Hd Hi Hj. pose proof Hd as (Hdev & Hns & Hnw & Hnl).
    unfold goes_quietly, State.warp_invalidate.
    rewrite (bind_done _ _ _ _ _ (assert_dev_silent _ _ Hdev)).
    rewrite (bind_done _ _ _ _ _ (assert_sm_silent w d i ltac:(split; eauto))).
    rewrite (bind_done _ _ _ _ _ (assert_wp_silent w d j ltac:(split; eauto))).
    rewrite (bind_done _ _ _ _ _ (device_get_num_lanes_silent _ _ _ Hdev Hnl)).
    destruct (for_each_total (fun w => descriptors w d ns nw nl) quiet
                (fun k => State.lane_invalidate L api d i j k) (seq 0 nl)
                quiet_refl quiet_trans) with (w := w)
      as (w1 & H1 & Hq1 & Hd1).
    - intros k wa Hk Ha. apply elem_of_seq in Hk.
      pose proof Ha as (Ha1 & Ha2 & Ha3 & Ha4).
      destruct (lane_invalidate_total wa d i j k) as (wb & Hb & Hq).
      { split; eauto. } { split; eauto. }
      { split; [done|]. exists nl. split; [done|lia]. }
      exists wb. split; [done|]. split; [done|].
      eapply descriptors_stable; [|exact Ha].
      apply lane_invalidate_spec in Hb as [Hb _]. eapply inv_latch; eauto.
    - done.
    - unfold for_upto. rewrite (bind_done _ _ _ _ _ H1).
      unfold State.modify_sm, State.modify_warp, State.modify_system.
      msimpl. eexists. split; [reflexivity|]. exact Hq1.
Qed.

Lemma sm_invalidate_non_recursive_total w d i :
    sm_ok w d i ->
    goes_quietly (State.sm_invalidate L api d i State.NON_RECURSIVE) w.
Proof.
    intros Hs. unfold goes_quietly, State.sm_invalidate.
    rewrite (bind_done _ _ _ _ _ (assert_dev_silent _ _ (proj1 Hs))).
    rewrite (bind_done _ _ _ _ _ (assert_sm_silent _ _ _ Hs)).
    rewrite bind_ret. eexists. split; [reflexivity|done].
Qed.

Lemma sm_invalidate_recursive_total w d i ns nw nl :
    descriptors w d ns nw nl -> i < ns ->
    goes_quietly (State.sm_invalidate L api d i State.RECURSIVE) w.
Proof.
    intros Hd Hi. pose proof Hd as (Hdev & Hns & Hnw & Hnl).
    unfold goes_quietly, State.sm_invalidate.
    rewrite (bind_done _ _ _ _ _ (assert_dev_silent _ _ Hdev)).
    rewrite (bind_done _ _ _ _ _ (assert_sm_silent w d i ltac:(split; eauto))).
    rewrite bind_assoc.
    rewrite (bind_done _ _ _ _ _ (device_get_num_warps_silent _ _ _ Hdev Hnw)).
    destruct (for_each_total (fun w => descriptors w d ns nw nl) quiet
                (fun j => State.warp_invalidate L api d i j) (seq 0 nw)
                quiet_refl quiet_trans) with (w := w)
      as (w1 & H1 & Hq1 & Hd1).
    - intros j wa Hj Ha. apply elem_of_seq in Hj.
      destruct (warp_invalidate_total wa d i j ns nw nl) as (wb & Hb & Hq);
        [done|done|lia|].
      exists wb. split; [done|]. split; [done|].
      eapply descriptors_stable; [|exact Ha].
      apply warp_invalidate_spec in Hb as [Hb _]. eapply inv_latch; eauto.
    - done.
    - unfold for_upto. rewrite (bind_done _ _ _ _ _ H1).
      eexists. split; [reflexivity|]. exact Hq1.
Qed.

Lemma device_invalidate_total w d ns nw nl :
    descriptors w d ns nw nl ->
    exists w', State.device_invalidate L api d w = Done tt w' /\
               api_calls w' = api_calls w /\ hw w' = hw w /\
               host_calls w' = host_calls w ++ [Kernel_invalidate_all].
Proof.
    intros Hd. pose proof Hd as (Hdev & Hns & Hnw & Hnl).
    unfold State.device_invalidate.
    rewrite (bind_done _ _ _ _ _ (assert_dev_silent _ _ Hdev)).
    rewrite (bind_done _ _ _ _ _ (device_get_num_sms_silent _ _ _ Hdev Hns)).
    destruct (for_each_total (fun w => descriptors w d ns nw nl) quiet
                (fun i => State.sm_invalidate L api d i State.RECURSIVE)
                (seq 0 ns) quiet_refl quiet_trans) with (w := w)
      as (w1 & H1 & Hq1 & Hd1).
    - intros i wa Hi Ha. apply elem_of_seq in Hi.
      destruct (sm_invalidate_recursive_total wa d i ns nw nl)
        as (wb & Hb & Hq); [done|lia|].
      exists wb. split; [done|]. split; [done|].
      eapply descriptors_stable; [|exact Ha].
      apply sm_invalidate_recursive_spec in Hb as [Hb _].
      eapply inv_latch; eauto.
    - done.
    - unfold for_upto. rewrite (bind_done _ _ _ _ _ H1).
      unfold State.device_invalidate_kernels.
      rewrite bind_assoc.
      rewrite (bind_done _ _ _ _ _ (assert_dev_silent _ _ (proj1 Hd1))).
      unfold State.modify_dev, State.modify_system. msimpl.
      eexists. split; [reflexivity|]. destruct Hq1 as (E1 & E2 & E3).
      cbn. by rewrite E1, E2, E3.
Qed.
End Silent.

End TotalityFacts.

(** ** [device_resume] *)

Section DeviceResumeFacts.
Local Open Scope nat_scope.

Section Resume.
Context {HW : Type} (L : limits) (api : debug_api HW).
Local Abbreviation W := (world HW).
Implicit Type w : W.

Lemma dev_done_subtree w d ns nw nl :
    descriptors w d ns nw nl -> dev_done w d ->
    subtree_invalid (cuda_system_info w) d ns nw nl.
Proof.
    intros (_ & Hns & Hnw & Hnl) (_ & ns' & Hns' & Hsm) i Hi.
    rewrite (sms_known_fun _ _ _ _ Hns Hns') in Hi.
    destruct (Hsm i Hi) as (Hoff & nw' & Hnw' & Hwp). split; [done|].
    intros j Hj. rewrite (warps_known_fun _ _ _ _ Hnw Hnw') in Hj.
    destruct (Hwp j Hj) as (Hwoff & nl' & Hnl' & Hln). split; [done|].
    intros k Hk. rewrite (lanes_known_fun _ _ _ _ Hnl Hnl') in Hk. auto.
Qed.

  (** Updates of a device's own fields do not reach below it. *)
Lemma lane_at_update_dev s d f d' i' j' k' :
    (forall D, Dev.sm (f D) = Dev.sm D) ->
    lane_at (State.update_dev f d s) d' i' j' k' = lane_at s d' i' j' k'.
Proof. intros. unfold lane_at. by rewrite warp_at_update_dev. Qed.

Lemma subtree_invalid_update_dev s d f ns nw nl :
    (forall D, Dev.sm (f D) = Dev.sm D) ->
    subtree_invalid s d ns nw nl ->
    subtree_invalid (State.update_dev f d s) d ns nw nl.
Proof.
    intros Hf H i Hi. destruct (H i Hi) as [H1 H2]. split.
    - intros S. rewrite sm_at_update_dev by done. apply H1.
    - intros j Hj. destruct (H2 j Hj) as [H3 H4]. split.
      + intros X. rewrite warp_at_update_dev by done. apply H3.
      + intros k Hk l. rewrite lane_at_update_dev by done. by apply H4.
Qed.

Lemma testbit_resume_mask mask d :
    Z.testbit (Z.land mask (not32 (Z.shiftl 1 (Z.of_nat d)))) (Z.of_nat d)
    = false.
Proof.
    rewrite Z.land_spec. unfold not32, u32.
    destruct (decide (Z.of_nat d < 32)%Z) as [Hlt|Hge].
    - rewrite Z.mod_pow2_bits_low by lia.
      rewrite Z.lnot_spec by lia. rewrite Z.shiftl_1_l.
      rewrite Z.pow2_bits_true by lia. cbn. apply andb_false_r.
    - rewrite Z.mod_pow2_bits_high by lia. apply andb_false_r.
Qed.

End Resume.

End DeviceResumeFacts.

(** ** The end of [warp_single_step] *)

Section StepTailFacts.
Local Open Scope nat_scope.

Lemma land_shiftl_test m i :
  (Z.land (Z.shiftl 1 (Z.of_nat i)) m =? 0)%Z = negb (bit m i).
Proof.
  unfold bit. rewrite Z.shiftl_1_l.
  destruct (Z.testbit m (Z.of_nat i)) eqn:E; cbn.
  - apply Z.eqb_neq. intros H.
    assert (Z.testbit (Z.land (2 ^ Z.of_nat i) m) (Z.of_nat i) = true) as H'.
    { rewrite Z.land_spec, Z.pow2_bits_true by lia. by rewrite E. }
    rewrite H in H'. by rewrite Z.bits_0 in H'.
  - apply Z.eqb_eq. apply Z.bits_inj'. intros n Hn.
    rewrite Z.land_spec, Z.bits_0.
    destruct (decide (n = Z.of_nat i)) as [->|Hne].
    + rewrite E. apply andb_false_r.
    + rewrite Z.pow2_bits_false by lia. done.
Qed.

Lemma others_stepped_false m j j' :
  others_stepped (u64 m) j = false -> bit (u64 m) j' = true -> j' = j.
Proof.
  unfold others_stepped, bit, not64, u64. intros H Hb.
  apply negb_false_iff, Z.eqb_eq in H.
  destruct (decide (j' = j)) as [|Hne]; [done|exfalso].
  assert (Z.of_nat j' < 64)%Z as Hlt.
  { destruct (decide (Z.of_nat j' < 64)%Z); [done|].
    rewrite Z.mod_pow2_bits_high in Hb by lia. done. }
  assert (Z.testbit (Z.land (m `mod` 2 ^ 64)
            (Z.lnot (Z.shiftl 1 (Z.of_nat j)) `mod` 2 ^ 64)) (Z.of_nat j')
          = true) as H'.
  { rewrite Z.land_spec, Hb. cbn.
    rewrite Z.mod_pow2_bits_low by lia. rewrite Z.lnot_spec by lia.
    rewrite Z.shiftl_1_l, Z.pow2_bits_false by lia. done. }
  rewrite H in H'. by rewrite Z.bits_0 in H'.
Qed.

Section Step.
Context {HW : Type} (L : limits) (api : debug_api HW).
Local Abbreviation W := (world HW).
Implicit Type w : W.

Lemma descriptors_same w w' d ns nw nl :
    cuda_system_info w' = cuda_system_info w ->
    cuda_initialized w' = cuda_initialized w ->
    descriptors w d ns nw nl -> descriptors w' d ns nw nl.
Proof.
    unfold descriptors, dev_ok, sms_known, warps_known, lanes_known.
    by intros -> ->.
Qed.

Lemma step_rel_same r w w1 w' :
    cuda_system_info w1 = cuda_system_info w -> rest_of w1 = rest_of w ->
    step_rel r w1 w' -> step_rel r w w'.
Proof. unfold step_rel. by intros -> ->. Qed.

Lemma dev_done_stable FD FS FW w w' d :
    step_rel (r_inv FD FS FW) w w' -> dev_done w d -> dev_done w' d.
Proof.
    intros H [H1 (n & H2 & H3)]. pose proof H as [Hs _]. split.
    - eapply dev_off_stable; eauto.
    - exists n. split; [eapply sms_known_stable; eauto using inv_latch|].
      intros k Hk. eapply sm_done_stable; eauto.
Qed.

Lemma step_tail_spec w d i mask ns nw nl :
    descriptors w d ns nw nl -> i < ns ->
    exists w', step_tail L api d i mask w = Done tt w' /\ quiet w w' /\
      step_rel (r_inv nowhere1 (only_sm d i) (warps_in mask d i)) w w' /\
      sm_off (cuda_system_info w') d i /\
      forall j, j < nw -> bit mask j = true -> warp_done w' d i j.
Proof.
    intros Hd Hi. pose proof Hd as (Hdev & Hns & Hnw & Hnl).
    set (r := r_inv nowhere1 (only_sm d i) (warps_in mask d i)).
    assert (Hr : preorder r) by apply r_inv_preorder.
    set (body := fun i' => when (negb (Z.land (Z.shiftl 1 (Z.of_nat i')) mask =? 0)%Z)
           (State.warp_invalidate L api d i i')).
    unfold step_tail.
    rewrite (bind_done _ _ _ _ _ (device_get_num_warps_silent _ _ _ _ _ Hdev Hnw)).
    fold body.
    destruct (for_each_total (fun w => descriptors w d ns nw nl) quiet
                body (seq 0 nw) quiet_refl quiet_trans) with (w := w)
      as (w1 & H1 & Hq1 & Hd1).
    { intros j wa Hj Ha. apply elem_of_seq in Hj. unfold body.
      rewrite land_shiftl_test, negb_involutive.
      destruct (bit mask j); cbn.
      - destruct (warp_invalidate_total L api wa d i j ns nw nl)
          as (wb & Hb & Hq); [done|done|lia|].
        exists wb. split; [done|]. split; [done|].
        eapply descriptors_stable; [|exact Ha].
        apply warp_invalidate_spec in Hb as [Hb _]. eapply inv_latch; eauto.
      - exists wa. done. }
    { done. }
    unfold for_upto. rewrite (bind_done _ _ _ _ _ H1).
    apply (for_each_spec (step_rel r)
             (fun j w => bit mask j = true -> warp_done w d i j)) in H1
      as [R1 P1].
    2:{ intros. by apply step_rel_refl. }
    2:{ intros ???. by apply step_rel_trans. }
    2:{ intros j wa wb HR HP Hb. eapply warp_done_stable; eauto. }
    2:{ intros j wa u wb. unfold body.
        rewrite land_shiftl_test, negb_involutive.
        destruct (bit mask j) eqn:Eb; cbn.
        - intros Hb. apply warp_invalidate_spec in Hb as (Hb & _ & Hdone & _).
          split; [|done]. eapply step_rel_mono; [|exact Hb].
          apply r_inv_sub; [done|done|]. intros d' i' j' (-> & -> & ->). done.
        - intros [= _ <-]. split; [by apply step_rel_refl|done]. }
    assert (Hsm : sm_ok w1 d i).
    { destruct Hd1 as (? & ? & _). split; eauto. }
    destruct (sm_invalidate_non_recursive_total L api w1 d i Hsm)
      as (w2 & H2 & Hq2).
    exists w2. split; [done|]. split; [eapply quiet_trans; eauto|].
    apply sm_invalidate_non_recursive_spec in H2 as [R2 Hoff].
    assert (R2' : step_rel r w1 w2).
    { eapply step_rel_mono; [|exact R2]. apply r_inv_sub; done. }
    split; [eapply step_rel_trans; eauto|]. split; [done|].
    intros j Hj Hb. eapply warp_done_stable; [exact R2|]. apply P1; [|done].
    apply elem_of_seq. lia.
Qed.
End Step.

End StepTailFacts.

(** ** [warp_single_step] *)

Section WarpSingleStepFacts.
Local Open Scope nat_scope.

Section SingleStep.
Context {HW : Type} (L : limits) (api : debug_api HW).
Local Abbreviation W := (world HW).
Implicit Type w : W.

Lemma device_invalidate_whole w d ns nw nl :
    descriptors w d ns nw nl ->
    exists w', State.device_invalidate L api d w = Done tt w' /\
      api_calls w' = api_calls w /\ hw w' = hw w /\
      host_calls w' = host_calls w ++ [Kernel_invalidate_all] /\
      step_rel (r_inv (only_dev d) (dev_sms d) (dev_warps d)) w w' /\
      dev_done w' d /\ descriptors w' d ns nw nl.
Proof.
    intros Hd.
    destruct (device_invalidate_total L api w d ns nw nl Hd)
      as (w1 & H1 & Ea & Eh & Ec).
    exists w1. repeat (split; [done|]).
    apply device_invalidate_spec in H1 as (R1 & Hdone & _).
    split; [done|]. split; [done|].
    eapply descriptors_stable; [|exact Hd]. eapply inv_latch; eauto.
Qed.

Lemma tail_within_device d i mask :
    sub (r_inv nowhere1 (only_sm d i) (warps_in mask d i))
        (r_inv (only_dev d) (dev_sms d) (dev_warps d)).
Proof.
    apply r_inv_sub; [done| |].
    - by intros d' i' [-> _].
    - by intros d' i' j' (-> & _).
Qed.

Lemma cuda_api_single_step_warp_run w d i j :
    State.cuda_api_single_step_warp api d i j w
    = Done (step_mask api w d i j) (stepped api w d i j).
Proof. reflexivity. Qed.

End SingleStep.

End WarpSingleStepFacts.

(** ** The cached lane masks *)

Section MasksFacts.
Local Open Scope nat_scope.

Section Masks.
Context {HW : Type} (L : limits) (api : debug_api HW).
Local Abbreviation W := (world HW).
Implicit Type w : W.

Lemma valid_mask_is_stable w w' d i j v :
    step_rel r_ext w w' -> valid_mask_is w d i j v -> valid_mask_is w' d i j v.
Proof.
    intros [Hs _] (X & HX & Hp & Hv).
    destruct (sys_rel_warp_l _ _ _ _ _ _ _ Hs HX) as (X' & HX' & Hl & _).
    destruct (Hl Hp) as [? ?]. exists X'. split; [done|]. split; congruence.
Qed.
Lemma active_mask_is_stable w w' d i j v :
    step_rel r_ext w w' -> active_mask_is w d i j v -> active_mask_is w' d i j v.
Proof.
    intros [Hs _] (X & HX & Hp & Hv).
    destruct (sys_rel_warp_l _ _ _ _ _ _ _ Hs HX) as (X' & HX' & _ & Hl & _).
    destruct (Hl Hp) as [? ?]. exists X'. split; [done|]. split; congruence.
Qed.
Lemma valid_mask_is_fun w d i j v v' :
    valid_mask_is w d i j v -> valid_mask_is w d i j v' -> v = v'.
Proof. intros (X & HX & _ & <-) (X' & HX' & _ & <-). congruence. Qed.
Lemma active_mask_is_fun w d i j v v' :
    active_mask_is w d i j v -> active_mask_is w d i j v' -> v = v'.
Proof. intros (X & HX & _ & <-) (X' & HX' & _ & <-). congruence. Qed.

#[local] Hint Resolve r_ext_preorder : core.

Lemma ext_assert_dev d : may r_ext (State.assert_dev L api d).
Proof. eapply may_mono; [apply r_counts_sub_ext|apply may_assert_dev]. Qed.
Lemma ext_assert_sm d i : may r_ext (State.assert_sm L api d i).
Proof. eapply may_mono; [apply r_counts_sub_ext|apply may_assert_sm]. Qed.
Lemma ext_assert_wp d j : may r_ext (State.assert_wp L api d j).
Proof. eapply may_mono; [apply r_counts_sub_ext|apply may_assert_wp]. Qed.
Lemma ext_assert_ln d k : may r_ext (State.assert_ln L api d k).
Proof. eapply may_mono; [apply r_counts_sub_ext|apply may_assert_ln]. Qed.
Lemma ext_device_get_num_lanes d :
    may r_ext (State.device_get_num_lanes L api d).
Proof.
    eapply may_mono; [apply r_counts_sub_ext|apply may_device_get_num_lanes].
Qed.


Lemma warp_ext_set_timestamp c X : warp_ext X (Warp.set_timestamp c X).
Proof.
    destruct X. split; [|split]; cbn; [apply latch_refl..|].
    apply list_rel_refl. done.
Qed.

Lemma warp_ext_lane_timestamp c k X :
    warp_ext X (Warp.set_ln (alter (Lane.set_timestamp c) k (Warp.ln X)) X).
Proof.
    destruct X as [? ? ? ? ? ? ? ? ? ? ? ? ? ? ? ? ln]. split; [|split]; cbn.
    - apply latch_refl.
    - apply latch_refl.
    - intros n. destruct (decide (n = k)) as [->|Hne].
      + rewrite list_lookup_alter_eq. destruct (ln !! k) as [l|]; cbn;
          constructor. by destruct l.
      + rewrite list_lookup_alter_ne by done. destruct (ln !! n); by constructor.
Qed.
End Masks.

End MasksFacts.

(** ** The accessors of the lane masks *)

Section MaskGettersFacts.
Local Open Scope nat_scope.

Lemma r_smfill_preorder : preorder r_smfill.
Proof.
  split; cbn; auto.
  - intros. apply latch_refl.
  - intros. apply dev_counts_latch_refl.
  - intros. apply sm_latch_refl.
  - intros. eapply latch_trans; eassumption.
  - intros. eapply dev_counts_latch_trans; eauto.
  - intros. eapply sm_latch_trans; eauto.
  - intros. congruence.
Qed.
Lemma r_counts_sub_smfill : sub r_counts r_smfill.
Proof.
  split; [|split; [|split]]; cbn.
  - by intros x y [? _].
  - by intros d x y (?&_).
  - intros d i x y [[[] _]| ->]. apply sm_latch_refl.
  - by intros d i j x y [[[] _]| ->].
Qed.
Lemma r_smfill_sub_ext : sub r_smfill r_ext.
Proof.
  split; [|split; [|split]]; cbn; auto.
  intros d i j x y ->. apply (RW_refl _ r_ext_preorder 0 0 0).
Qed.

Section Getters.
Context {HW : Type} (L : limits) (api : debug_api HW).
Local Abbreviation W := (world HW).
Implicit Type w : W.

#[local] Hint Resolve r_ext_preorder : core.
#[local] Hint Resolve r_smfill_preorder : core.

Lemma ext_latch w w' : step_rel r_ext w w' -> step_rel r_latch w w'.
Proof. apply step_rel_mono, r_ext_sub_latch. Qed.

Lemma smfill_sm_get_valid_warps_mask d i :
    may r_smfill (State.sm_get_valid_warps_mask L api d i).
Proof.
    unfold State.sm_get_valid_warps_mask.
    apply may_bind; [done| |]; [eapply may_mono;
      [apply r_counts_sub_smfill|apply may_assert_dev]|]. intros _.
    apply may_bind; [done| |]; [eapply may_mono;
      [apply r_counts_sub_smfill|apply may_assert_sm]|]. intros _.
    intros w a w' H. peel H Sx w1 H1. apply read_sm_inv in H1 as [-> HS].
    destruct (Sm.valid_warps_mask_p Sx) eqn:Hp.
    { injection H as _ <-. by apply step_rel_refl. }
    peel H m w2 H2. unfold State.cuda_api_read_valid_warps, State.api_read in H2.
    msimpl_in H2. injection H2 as <- <-.
    unfold State.modify_sm, State.modify_system in H.
    rewrite bind_modify in H. injection H as _ <-.
    set (w3 := log_api _ w).
    change (cuda_system_info w) with (cuda_system_info w3).
    apply (step_rel_trans r_smfill w w3); [done|by split; [apply sys_rel_refl|]|].
    apply step_rel_update_sm; [done|]. intros S0 HS0.
    assert (S0 = Sx) as -> by (cbn in HS0; congruence).
    split; [|by destruct Sx]. destruct Sx; cbn in *; subst.
    split; [intros [=]|apply latch_refl].
Qed.

Lemma smfill_warp_is_valid d i j :
    may r_smfill (State.warp_is_valid L api d i j).
Proof.
    unfold State.warp_is_valid.
    apply may_bind; [done| |]; [eapply may_mono;
      [apply r_counts_sub_smfill|apply may_assert_dev]|]. intros _.
    apply may_bind; [done| |]; [eapply may_mono;
      [apply r_counts_sub_smfill|apply may_assert_sm]|]. intros _.
    apply may_bind; [done| |]; [eapply may_mono;
      [apply r_counts_sub_smfill|apply may_assert_wp]|]. intros _.
    apply may_bind; [done|apply smfill_sm_get_valid_warps_mask|].
    intros; by apply may_ret.
Qed.

  (** The range checks that open every warp-level accessor. *)
Lemma spec_preamble3 d i j {B} (k : M W B) (Q : B -> W -> Prop) :
    (forall w b w', sm_ok w d i -> wp_ok w d j -> k w = Done b w' ->
       step_rel r_ext w w' /\ Q b w') ->
    spec (State.assert_dev L api d ;; State.assert_sm L api d i ;;
          State.assert_wp L api d j ;; k)
         (fun w b w' => step_rel r_ext w w' /\ Q b w').
Proof.
    intros Hk w b w' H.
    peel H u1 w1 H1. peel H u2 w2 H2. peel H u3 w3 H3.
    apply ext_assert_dev in H1.
    apply assert_sm_spec in H2 as [R2 Hsm].
    apply assert_wp_spec in H3 as [R3 Hwp].
    assert (R2' : step_rel r_ext w1 w2)
      by (eapply step_rel_mono; [apply r_counts_sub_ext|done]).
    assert (R3' : step_rel r_ext w2 w3)
      by (eapply step_rel_mono; [apply r_counts_sub_ext|done]).
    destruct (Hk w3 b w') as [R4 HQ]; [|done|done|].
    { eapply sm_ok_stable; [apply ext_latch; exact R3'|done]. }
    split; [|done].
    eapply step_rel_trans; [done|exact H1|].
    eapply step_rel_trans; [done|exact R2'|].
    eapply step_rel_trans; [done|exact R3'|done].
Qed.

Lemma spec_preamble4 d i j k' {B} (k : M W B) (Q : B -> W -> Prop) :
    (forall w b w', sm_ok w d i -> wp_ok w d j -> ln_ok w d k' ->
       k w = Done b w' -> step_rel r_ext w w' /\ Q b w') ->
    spec (State.assert_dev L api d ;; State.assert_sm L api d i ;;
          State.assert_wp L api d j ;; State.assert_ln L api d k' ;; k)
         (fun w b w' => step_rel r_ext w w' /\ Q b w').
Proof.
    intros Hk. apply spec_preamble3. intros w b w' Hsm Hwp H.
    peel H u1 w1 H1. apply assert_ln_spec in H1 as [R1 Hln].
    assert (R1' : step_rel r_ext w w1)
      by (eapply step_rel_mono; [apply r_counts_sub_ext|done]).
    destruct (Hk w1 b w') as [R2 HQ]; [| |done|done|].
    { eapply sm_ok_stable; [apply ext_latch; exact R1'|done]. }
    { eapply wp_ok_stable; [apply ext_latch; exact R1'|done]. }
    split; [|done]. eapply step_rel_trans; eauto.
Qed.

Lemma warp_ext_set_valid m X :
    Warp.valid_lanes_mask_p X = false ->
    warp_ext X (Warp.set_valid_lanes_mask m X).
Proof.
    intros Hf. destruct X. cbn in Hf. subst. split; [|split]; cbn.
    - intros [=]. - apply latch_refl. - by apply list_rel_refl.
Qed.
Lemma warp_ext_set_active m X :
    Warp.active_lanes_mask_p X = false ->
    warp_ext X (Warp.set_active_lanes_mask m X).
Proof.
    intros Hf. destruct X. cbn in Hf. subst. split; [|split]; cbn.
    - apply latch_refl. - intros [=]. - by apply list_rel_refl.
Qed.

Lemma warp_get_valid_lanes_mask_spec d i j :
    spec (State.warp_get_valid_lanes_mask L api d i j) (fun w a w' =>
      step_rel r_ext w w' /\
      (valid_mask_is w' d i j a /\ sm_ok w' d i /\ wp_ok w' d j)).
Proof.
    unfold State.warp_get_valid_lanes_mask. apply spec_preamble3.
    intros w a w' Hsm Hwp H.
    peel H X w1 H1. apply read_warp_inv in H1 as [-> HX].
    destruct (Warp.valid_lanes_mask_p X) eqn:Hp.
    { injection H as <- <-. split; [by apply step_rel_refl|].
      split; [|done]. by exists X. }
    peel H v w2 H2. apply smfill_warp_is_valid in H2.
    peel H m w3 H3.
    assert (R3 : step_rel r_smfill w2 w3).
    { destruct v.
      { unfold State.cuda_api_read_valid_lanes in H3. revert H3.
        by apply (may_api_read r_smfill). }
      injection H3 as _ <-. by apply step_rel_refl. }
    assert (R13 : step_rel r_smfill w w3) by (eapply step_rel_trans; eauto).
    pose proof R13 as [Hs13 _].
    destruct (sys_rel_warp_l _ _ _ _ _ _ _ Hs13 HX) as (X3 & HX3 & E3).
    cbn in E3. subst X3.
    unfold State.modify_warp at 1, State.modify_system in H.
    rewrite bind_modify in H. set (w4 := set_system _ w3) in H.
    assert (R4 : step_rel r_ext w3 w4).
    { apply step_rel_update_warp; [done|]. intros X0 HX0.
      assert (X0 = X) as -> by congruence. by apply warp_ext_set_valid. }
    assert (HX4 : valid_mask_is w4 d i j m).
    { exists (Warp.set_valid_lanes_mask m X). subst w4.
      cbn [cuda_system_info set_system]. rewrite warp_at_update_warp_eq, HX3.
      split; [done|]. by destruct X. }
    peel H X4 w5 H5. apply read_warp_inv in H5 as [-> _].
    peel H u w6 H6. injection H as <- <-.
    assert (R5 : step_rel r_ext w4 w6).
    { revert H6. apply may_when; [done|].
      apply may_bind; [done|by apply may_gets|]. intros c.
      apply may_modify_warp; [done|]. intros. apply warp_ext_set_timestamp. }
    assert (R : step_rel r_ext w w6).
    { eapply step_rel_trans; [done| |].
      - eapply step_rel_mono; [apply r_smfill_sub_ext|exact R13].
      - eapply step_rel_trans; eauto. }
    split; [exact R|]. split; [by apply (valid_mask_is_stable w4 w6)|].
    split.
    - apply (sm_ok_stable w w6); [|done]. apply ext_latch. exact R.
    - apply (wp_ok_stable w w6); [|done]. apply ext_latch. exact R.
Qed.

Lemma warp_get_active_lanes_mask_spec d i j :
    spec (State.warp_get_active_lanes_mask L api d i j) (fun w a w' =>
      step_rel r_ext w w' /\
      (active_mask_is w' d i j a /\ sm_ok w' d i /\ wp_ok w' d j)).
Proof.
    unfold State.warp_get_active_lanes_mask. apply spec_preamble3.
    intros w a w' Hsm Hwp H.
    peel H X w1 H1. apply read_warp_inv in H1 as [-> HX].
    destruct (Warp.active_lanes_mask_p X) eqn:Hp.
    { injection H as <- <-. split; [by apply step_rel_refl|].
      split; [|done]. by exists X. }
    peel H m w3 H3. unfold State.cuda_api_read_active_lanes, State.api_read in H3.
    msimpl_in H3. injection H3 as <- <-.
    unfold State.modify_warp, State.modify_system in H.
    rewrite bind_modify in H. injection H as <- <-.
    set (w3 := log_api _ w). set (w4 := set_system _ w3).
    assert (R3 : step_rel r_ext w w3) by (split; [by apply sys_rel_refl|done]).
    assert (R4 : step_rel r_ext w3 w4).
    { subst w4.
      change (cuda_system_info w) with (cuda_system_info w3).
      apply step_rel_update_warp; [done|]. intros X0 HX0.
      assert (X0 = X) as -> by (cbn in HX0; congruence).
      by apply warp_ext_set_active. }
    assert (R : step_rel r_ext w w4)
      by (apply (step_rel_trans r_ext w w3 w4); done).
    split; [done|]. split.
    - eexists. subst w4 w3. cbn [cuda_system_info set_system log_api].
      rewrite warp_at_update_warp_eq, HX. split; [done|]. by destruct X.
    - split; [eapply sm_ok_stable; [apply ext_latch; exact R|done]
          |eapply wp_ok_stable; [apply ext_latch; exact R|done]].
Qed.
End Getters.

End MaskGettersFacts.

(** ** Validity and activity of a lane *)

Section LaneGettersFacts.
Local Open Scope nat_scope.

Section LaneGetters.
Context {HW : Type} (L : limits) (api : debug_api HW).
Local Abbreviation W := (world HW).
Implicit Type w : W.

#[local] Hint Resolve r_ext_preorder : core.

Lemma lane_is_valid_spec d i j k :
    spec (State.lane_is_valid L api d i j k) (fun w a w' =>
      step_rel r_ext w w' /\
      exists v, valid_mask_is w' d i j v /\ a = bit v k /\
                sm_ok w' d i /\ wp_ok w' d j /\ ln_ok w' d k).
Proof.
    unfold State.lane_is_valid. apply spec_preamble4.
    intros w a w' Hsm Hwp Hln H.
    peel H m w1 H1. apply warp_get_valid_lanes_mask_spec in H1
      as (R1 & Hm & Hsm1 & Hwp1).
    peel H l w2 H2. apply read_lane_inv in H2 as [-> Hl].
    peel H u w3 H3. injection H as <- <-.
    assert (R3 : step_rel r_ext w1 w3).
    { revert H3. apply may_when; [done|].
      apply may_bind; [done|by apply may_gets|]. intros c.
      apply may_modify_lane; [done|]. intros. apply warp_ext_lane_timestamp. }
    assert (R : step_rel r_ext w w3)
      by (apply (step_rel_trans r_ext w w1 w3); done).
    split; [done|]. exists m.
    split; [by apply (valid_mask_is_stable w1 w3)|]. split; [done|].
    split; [apply (sm_ok_stable w1 w3); [by apply ext_latch|done]|].
    split; [apply (wp_ok_stable w1 w3); [by apply ext_latch|done]|].
    apply (ln_ok_stable w w3); [by apply ext_latch|done].
Qed.

Lemma lane_is_active_spec d i j k :
    spec (State.lane_is_active L api d i j k) (fun w a w' =>
      step_rel r_ext w w' /\
      exists v m, valid_mask_is w' d i j v /\ active_mask_is w' d i j m /\
                  bit v k = true /\ a = bit m k /\
                  sm_ok w' d i /\ wp_ok w' d j /\ ln_ok w' d k).
Proof.
    unfold State.lane_is_active. apply spec_preamble4.
    intros w a w' Hsm Hwp Hln H.
    unfold State.assert_lane_is_valid in H. rewrite bind_assoc in H.
    peel H b w1 H1. apply lane_is_valid_spec in H1
      as (R1 & v & Hv & -> & Hsm1 & Hwp1 & Hln1).
    destruct (bit v k) eqn:Hb; [|done]. rewrite bind_assert_true in H.
    peel H m w2 H2. apply warp_get_active_lanes_mask_spec in H2
      as (R2 & Hm & Hsm2 & Hwp2).
    injection H as <- <-.
    split; [by apply (step_rel_trans r_ext w w1 w2)|]. exists v, m.
    split; [by apply (valid_mask_is_stable w1 w2)|].
    do 5 (split; [done|]).
    apply (ln_ok_stable w1 w2); [by apply ext_latch|done].
Qed.

Lemma lane_is_valid_and_active_spec d i j k :
    spec (State.lane_is_valid_and_active L api d i j k) (fun w a w' =>
      step_rel r_ext w w' /\
      exists v, valid_mask_is w' d i j v /\
        if bit v k
        then exists m, active_mask_is w' d i j m /\ a = bit m k
        else a = false).
Proof.
    unfold State.lane_is_valid_and_active. intros w a w' H.
    peel H b w1 H1. apply lane_is_valid_spec in H1
      as (R1 & v & Hv & -> & _).
    destruct (bit v k) eqn:Hb.
    - apply lane_is_active_spec in H
        as (R2 & v' & m & Hv' & Hm & _ & -> & _).
      split; [by apply (step_rel_trans r_ext w w1 w')|].
      assert (v' = v) as ->.
      { eapply valid_mask_is_fun; [exact Hv'|].
        by apply (valid_mask_is_stable w1 w'). }
      exists v. split; [done|]. rewrite Hb. by exists m.
    - injection H as <- <-. split; [done|]. exists v. split; [done|].
      by rewrite Hb.
Qed.
End LaneGetters.

End LaneGettersFacts.

(** ** Validity of a warp *)

Section WarpValidityFacts.
Local Open Scope nat_scope.

Lemma bit_not32 m k : bit (not32 m) k = (k <? 32) && negb (bit m k).
Proof.
  unfold bit, not32, u32. destruct (k <? 32) eqn:Hk; cbn.
  - apply Nat.ltb_lt in Hk. rewrite Z.mod_pow2_bits_low by lia.
    apply Z.lnot_spec. lia.
  - apply Nat.ltb_ge in Hk. apply Z.mod_pow2_bits_high. lia.
Qed.
Lemma bit_land a b k : bit (Z.land a b) k = bit a k && bit b k.
Proof. apply Z.land_spec. Qed.

Lemma mask_subset_bits a v k :
  mask_subset a v -> k < 32 -> bit a k = true -> bit v k = true.
Proof.
  intros H Hk Ha. assert (bit (Z.land a (not32 v)) k = false) as Hb.
  { rewrite H. apply Z.bits_0. }
  rewrite bit_land, bit_not32, Ha in Hb. apply Nat.ltb_lt in Hk.
  rewrite Hk in Hb. cbn in Hb. by apply negb_false_iff in Hb.
Qed.

Section Divergent.
Context {HW : Type} (L : limits) (api : debug_api HW).
Local Abbreviation W := (world HW).
Implicit Type w : W.

#[local] Hint Resolve r_ext_preorder : core.
#[local] Hint Resolve r_smfill_preorder : core.

Lemma sm_valid_mask_is_stable w w' d i v :
    step_rel r_ext w w' -> sm_valid_mask_is w d i v ->
    sm_valid_mask_is w' d i v.
Proof.
    intros [Hs _] (Sx & HS & Hp & Hv).
    destruct (sys_rel_sm_l _ _ _ _ _ _ Hs HS) as (S' & HS' & [Hl _] & _).
    destruct Sx, S'. cbn in *. destruct (Hl Hp) as [? ?].
    eexists. split; [exact HS'|]. cbn. split; congruence.
Qed.

Lemma read_sm_silent w d i Sx :
    sm_at (cuda_system_info w) d i = Some Sx ->
    State.read_sm d i w = Done Sx w.
Proof.
    unfold sm_at. intros H. destruct (dev_at _ d) as [D|] eqn:HD; [|done].
    unfold State.read_sm. rewrite (bind_done _ _ _ _ _ (read_dev_silent _ _ _ HD)).
    cbn in H. by rewrite H.
Qed.
Lemma read_warp_silent w d i j X :
    warp_at (cuda_system_info w) d i j = Some X ->
    State.read_warp d i j w = Done X w.
Proof.
    unfold warp_at. intros H. destruct (sm_at _ d i) as [Sx|] eqn:HS; [|done].
    unfold State.read_warp. rewrite (bind_done _ _ _ _ _ (read_sm_silent _ _ _ _ HS)).
    cbn in H. by rewrite H.
Qed.
Lemma read_lane_silent w d i j k l :
    lane_at (cuda_system_info w) d i j k = Some l ->
    State.read_lane d i j k w = Done l w.
Proof.
    unfold lane_at. intros H. destruct (warp_at _ d i j) as [X|] eqn:HX; [|done].
    unfold State.read_lane.
    rewrite (bind_done _ _ _ _ _ (read_warp_silent _ _ _ _ _ HX)).
    cbn in H. by rewrite H.
Qed.

Lemma sm_get_valid_warps_mask_total w d i Sx :
    sm_ok w d i -> sm_at (cuda_system_info w) d i = Some Sx ->
    exists a w', State.sm_get_valid_warps_mask L api d i w = Done a w' /\
                 hw w' = hw w /\ sm_valid_mask_is w' d i a.
Proof.
    intros Hsm HS. unfold State.sm_get_valid_warps_mask.
    rewrite (bind_done _ _ _ _ _ (assert_dev_silent L api _ _ (proj1 Hsm))).
    rewrite (bind_done _ _ _ _ _ (assert_sm_silent L api _ _ _ Hsm)).
    rewrite (bind_done _ _ _ _ _ (read_sm_silent _ _ _ _ HS)).
    destruct (Sm.valid_warps_mask_p Sx) eqn:Hp.
    - eexists _, _. split; [reflexivity|]. split; [done|]. by exists Sx.
    - unfold State.cuda_api_read_valid_warps, State.api_read, State.modify_sm,
        State.modify_system. msimpl.
      eexists _, _. split; [reflexivity|]. split; [done|].
      unfold sm_valid_mask_is. cbn [cuda_system_info set_system log_api].
      exists (Sm.set_valid_warps_mask
                (u64 (api_read_valid_warps api (hw w) d i)) Sx).
      rewrite sm_at_update_sm_eq, HS. split; [done|]. by destruct Sx.
Qed.

Lemma warp_is_valid_total w d i j Sx :
    sm_ok w d i -> wp_ok w d j -> sm_at (cuda_system_info w) d i = Some Sx ->
    exists vw w', State.warp_is_valid L api d i j w = Done (bit vw j) w' /\
                  hw w' = hw w /\ sm_valid_mask_is w' d i vw.
Proof.
    intros Hsm Hwp HS. unfold State.warp_is_valid.
    rewrite (bind_done _ _ _ _ _ (assert_dev_silent L api _ _ (proj1 Hsm))).
    rewrite (bind_done _ _ _ _ _ (assert_sm_silent L api _ _ _ Hsm)).
    rewrite (bind_done _ _ _ _ _ (assert_wp_silent L api _ _ _ Hwp)).
    destruct (sm_get_valid_warps_mask_total w d i Sx Hsm HS)
      as (a & w' & H & Hh & Hv).
    rewrite (bind_done _ _ _ _ _ H). by exists a, w'.
Qed.

Lemma sm_valid_mask_is_update_warp w w0 d i v f d' i' j' :
    sm_valid_mask_is w0 d i v ->
    cuda_system_info w = State.update_warp f d' i' j' (cuda_system_info w0) ->
    sm_valid_mask_is w d i v.
Proof.
    intros (Sx & HS & Hp & Hv) E0. unfold sm_valid_mask_is. rewrite E0.
    pose proof (sm_at_update_warp_head (cuda_system_info w0) d' i' j' f d i) as E.
    rewrite HS in E. destruct (sm_at (State.update_warp _ _ _ _ _) d i) as [S'|];
      [|done].
    exists S'. split; [done|]. destruct Sx, S'. cbn in *. by injection E as -> -> -> ->.
Qed.
End Divergent.

End WarpValidityFacts.

(** ** [warp_get_divergent_lanes_mask] *)

Section DivergentLanesFacts.
Local Open Scope nat_scope.

Section DivergentTotal.
Context {HW : Type} (L : limits) (api : debug_api HW).
Local Abbreviation W := (world HW).
Implicit Type w : W.

#[local] Hint Resolve r_ext_preorder : core.
#[local] Hint Resolve r_smfill_preorder : core.

Lemma warp_get_valid_lanes_mask_total w d i j X :
    sm_ok w d i -> wp_ok w d j ->
    warp_at (cuda_system_info w) d i j = Some X ->
    exists v w' X',
      State.warp_get_valid_lanes_mask L api d i j w = Done v w' /\
      hw w' = hw w /\
      warp_at (cuda_system_info w') d i j = Some X' /\
      Warp.active_lanes_mask_p X' = Warp.active_lanes_mask_p X /\
      Warp.active_lanes_mask X' = Warp.active_lanes_mask X /\
      (Warp.valid_lanes_mask_p X = false ->
       exists vw, sm_valid_mask_is w' d i vw /\
         v = if bit vw j then port_valid_lanes api (hw w) d i j else 0%Z).
Proof.
    intros Hsm Hwp HX. unfold State.warp_get_valid_lanes_mask.
    rewrite (bind_done _ _ _ _ _ (assert_dev_silent L api _ _ (proj1 Hsm))).
    rewrite (bind_done _ _ _ _ _ (assert_sm_silent L api _ _ _ Hsm)).
    rewrite (bind_done _ _ _ _ _ (assert_wp_silent L api _ _ _ Hwp)).
    rewrite (bind_done _ _ _ _ _ (read_warp_silent _ _ _ _ _ HX)).
    destruct (Warp.valid_lanes_mask_p X) eqn:Hp.
    { exists (Warp.valid_lanes_mask X), w, X. done. }
    assert (exists Sx, sm_at (cuda_system_info w) d i = Some Sx) as [Sx HS].
    { unfold warp_at in HX. destruct (sm_at _ d i); [eauto|done]. }
    destruct (warp_is_valid_total L api w d i j Sx Hsm Hwp HS)
      as (vw & w2 & H2 & Hh2 & Hvw).
    rewrite (bind_done _ _ _ _ _ H2).
    apply smfill_warp_is_valid in H2 as [R2 _].
    destruct (sys_rel_warp_l _ _ _ _ _ _ _ R2 HX) as (X2 & HX2 & E2).
    cbn in E2. subst X2.
    set (m := if bit vw j then port_valid_lanes api (hw w) d i j else 0%Z).
    assert (exists w3,
      (if bit vw j then State.cuda_api_read_valid_lanes api d i j
       else ret 0%Z) w2 = Done m w3 /\
      cuda_system_info w3 = cuda_system_info w2 /\ hw w3 = hw w2)
      as (w3 & H3 & Es3 & Eh3).
    { subst m. destruct (bit vw j).
      - exists (log_api (Api_read_valid_lanes d i j) w2).
        unfold State.cuda_api_read_valid_lanes, State.api_read.
        msimpl. split; [|done]. unfold port_valid_lanes, gets. cbn [hw log_api].
        rewrite Hh2. reflexivity.
      - by exists w2. }
    rewrite (bind_done _ _ _ _ _ H3).
    unfold State.modify_warp at 1, State.modify_system.
    rewrite bind_modify. set (w4 := set_system _ w3).
    assert (HX4 : warp_at (cuda_system_info w4) d i j
                  = Some (Warp.set_valid_lanes_mask m X)).
    { subst w4. cbn [cuda_system_info set_system].
      by rewrite warp_at_update_warp_eq, Es3, HX2. }
    assert (Hvw4 : sm_valid_mask_is w4 d i vw).
    { eapply (sm_valid_mask_is_update_warp w4 w2); [done|].
      subst w4. cbn [cuda_system_info set_system]. by rewrite Es3. }
    rewrite (bind_done _ _ _ _ _ (read_warp_silent _ _ _ _ _ HX4)).
    destruct X as [? ? ? ? ? ? ? tp ? ? ? ? ? ? ? ? ?]. cbn [Warp.timestamp_p
      Warp.set_valid_lanes_mask]. cbn in Hp.
    destruct tp; cbn [negb].
    - rewrite bind_when_false.
      eexists m, w4, _. split; [reflexivity|].
      split; [subst w4; cbn [hw set_system]; congruence|].
      split; [exact HX4|]. split; [done|]. split; [done|]. intros _. by exists vw.
    - rewrite bind_when_true. unfold State.modify_warp, State.modify_system.
      msimpl. eexists m, _, _. split; [reflexivity|].
      cbn [cuda_system_info set_system hw].
      split; [subst w4; cbn; congruence|].
      split; [by rewrite warp_at_update_warp_eq, HX4|].
      split; [done|]. split; [done|]. intros _. exists vw. split; [|done].
      eapply (sm_valid_mask_is_update_warp _ w4); [done|reflexivity].
Qed.

Lemma warp_get_active_lanes_mask_total w d i j X :
    sm_ok w d i -> wp_ok w d j ->
    warp_at (cuda_system_info w) d i j = Some X ->
    exists m w',
      State.warp_get_active_lanes_mask L api d i j w = Done m w' /\
      hw w' = hw w /\
      (Warp.active_lanes_mask_p X = false -> m = port_active_lanes api (hw w) d i j).
Proof.
    intros Hsm Hwp HX. unfold State.warp_get_active_lanes_mask.
    rewrite (bind_done _ _ _ _ _ (assert_dev_silent L api _ _ (proj1 Hsm))).
    rewrite (bind_done _ _ _ _ _ (assert_sm_silent L api _ _ _ Hsm)).
    rewrite (bind_done _ _ _ _ _ (assert_wp_silent L api _ _ _ Hwp)).
    rewrite (bind_done _ _ _ _ _ (read_warp_silent _ _ _ _ _ HX)).
    destruct (Warp.active_lanes_mask_p X) eqn:Hp.
    { exists (Warp.active_lanes_mask X), w. done. }
    unfold State.cuda_api_read_active_lanes, State.api_read,
      State.modify_warp, State.modify_system. msimpl.
    eexists _, _. split; [reflexivity|]. done.
Qed.

  (** On a warp in range, [warp_get_divergent_lanes_mask] returns
      [valid_lanes_mask & ~active_lanes_mask] of the two masks it
      leaves cached. *)
Lemma warp_get_divergent_lanes_mask_total w d i j X :
    sm_ok w d i -> wp_ok w d j ->
    warp_at (cuda_system_info w) d i j = Some X ->
    exists v m w',
      State.warp_get_divergent_lanes_mask L api d i j w
      = Done (Z.land v (not32 m)) w' /\
      valid_mask_is w' d i j v /\ active_mask_is w' d i j m /\
      (forall k, k < 32 ->
         bit (Z.land v (not32 m)) k = bit v k && negb (bit m k)).
Proof.
    intros Hsm Hwp HX. unfold State.warp_get_divergent_lanes_mask.
    rewrite (bind_done _ _ _ _ _ (assert_dev_silent L api _ _ (proj1 Hsm))).
    rewrite (bind_done _ _ _ _ _ (assert_sm_silent L api _ _ _ Hsm)).
    rewrite (bind_done _ _ _ _ _ (assert_wp_silent L api _ _ _ Hwp)).
    destruct (warp_get_valid_lanes_mask_total w d i j X Hsm Hwp HX)
      as (v & w1 & X1 & H1 & Hh1 & HX1 & Ep & Ea & Hfresh).
    rewrite (bind_done _ _ _ _ _ H1).
    apply warp_get_valid_lanes_mask_spec in H1 as (R1 & Hv1 & Hsm1 & Hwp1).
    destruct (warp_get_active_lanes_mask_total w1 d i j X1 Hsm1 Hwp1 HX1)
      as (m & w2 & H2 & Hh2 & Hfresh2).
    rewrite (bind_done _ _ _ _ _ H2).
    apply warp_get_active_lanes_mask_spec in H2 as (R2 & Hm2 & _).
    exists v, m, w2. split; [reflexivity|].
    split; [by apply (valid_mask_is_stable w1 w2)|]. split; [done|].
    intros k Hk. rewrite bit_land, bit_not32.
    apply Nat.ltb_lt in Hk. by rewrite Hk.
Qed.
End DivergentTotal.

End DivergentLanesFacts.

(** ** Coherence of the pc slots *)

Section CoherenceFacts.
Local Open Scope nat_scope.

Lemma pc_data_slot s l l' : pc_data l' = pc_data l -> slot_data s l' = slot_data s l.
Proof.
  unfold pc_data, slot_data. intros [= E1 E2 E3 E4].
  destruct s; cbn; congruence.
Qed.

Lemma r_keep_sub_latch s : sub (r_keep s) r_latch.
Proof. split; [|split; [|split]]; cbn; auto. Qed.
Lemma r_ext_sub_keep s : sub r_ext (r_keep s).
Proof.
  split; [|split; [|split]]; cbn; auto.
  intros _ _ _ X X' (Hv & Ha & Hl). split; [done|]. split; [done|].
  intros q. specialize (Hl q). destruct Hl; constructor. by apply pc_data_slot.
Qed.

Section Coherent.
Context {HW : Type} (L : limits) (api : debug_api HW).
Local Abbreviation W := (world HW).
Implicit Type w : W.

Lemma keeps_ret (I : W -> Prop) {A} (a : A) : keeps I (ret a).
Proof. by intros w a' w' Hw [= _ <-]. Qed.
Lemma keeps_bind (I : W -> Prop) {A B} (m : M W A) (k : A -> M W B) :
    keeps I m -> (forall a, keeps I (k a)) -> keeps I (bind m k).
Proof.
    intros Hm Hk w b w' Hw H. peel H a w1 H1. eapply Hk; [|exact H].
    eapply Hm; eauto.
Qed.
Lemma keeps_when (I : W -> Prop) b (m : M W unit) : keeps I m -> keeps I (when b m).
Proof. destruct b; [done|]. intros _. apply keeps_ret. Qed.
Lemma keeps_for_each (I : W -> Prop) l (body : nat -> M W unit) :
    (forall i, keeps I (body i)) -> keeps I (for_each l body).
Proof.
    intros H. induction l as [|i l IH]; cbn; [apply keeps_ret|].
    apply keeps_bind; auto.
Qed.

Lemma coherent_keep s w w' :
    step_rel (r_keep s) w w' -> coherent s w -> coherent s w'.
Proof.
    intros R Hc d i j X' k l' HX' Hl' Hp. pose proof R as [Hs _].
    destruct (sys_rel_warp_r _ _ _ _ _ _ _ Hs HX') as (X & HX & Hv & Ha & Hln).
    cbn in Hv, Ha. destruct (list_rel_lookup_r _ _ _ _ _ Hln Hl') as (l & Hl & Es).
    unfold slot_data in Es. injection Es as Ep Ev. rewrite Ep in Hp.
    destruct (Hc d i j X k l HX Hl Hp) as ((n & Hn & Hk) & Hvp & Hap & Hall).
    destruct (Hv Hvp) as [Hvp' Ev']. destruct (Ha Hap) as [Hap' Ea'].
    assert (Hlatch : step_rel r_latch w w').
    { eapply step_rel_mono; [apply r_keep_sub_latch|done]. }
    split; [exists n; split; [by apply (lanes_known_stable w w')|done]|].
    split; [done|]. split; [done|].
    unfold lane_on. rewrite Ev', Ea'. intros Hon n' k' l2' Hn' Hk' Hl2' Hon'.
    destruct (list_rel_lookup_r _ _ _ _ _ Hln Hl2') as (l2 & Hl2 & Es2).
    unfold slot_data in Es2. injection Es2 as Ep2 Ev2. rewrite Ep2, Ev2, Ev.
    assert (n' = n) as ->.
    { eapply lanes_known_fun; [exact Hn'|by apply (lanes_known_stable w w')]. }
    eapply Hall; eauto.
Qed.

Lemma coherent_ext s w w' :
    step_rel r_ext w w' -> coherent s w -> coherent s w'.
Proof.
    intros R. apply coherent_keep. eapply step_rel_mono; [apply r_ext_sub_keep|done].
Qed.

Lemma keeps_ext s {A} (m : M W A) : may r_ext m -> keeps (coherent s) m.
Proof. intros Hm w a w' Hw H. eapply coherent_ext; eauto. Qed.

Lemma lane_clear_slot s l l' :
    lane_clear l l' -> slot_p s l' = true -> slot_p s l = true.
Proof. intros (_ & _ & Hpc & _ & Hvpc & _). destruct s; cbn; auto. Qed.

Lemma keeps_warp_invalidate s d i j :
    keeps (coherent s) (State.warp_invalidate L api d i j).
Proof.
    intros w [] w' Hc H. apply warp_invalidate_spec in H as (R & _ & Hdone & _).
    intros d0 i0 j0 X' k l' HX' Hl' Hp. pose proof R as [Hs _].
    assert (Hlatch : step_rel r_latch w w') by (eapply inv_latch; eauto).
    destruct (sys_rel_warp_r _ _ _ _ _ _ _ Hs HX') as (X & HX & HR).
    destruct HR as [[(-> & -> & ->) Hclr]| ->].
    - exfalso. destruct Hclr as (_ & _ & _ & _ & _ & _ & _ & _ & _ & Hln).
      destruct (list_rel_lookup_r _ _ _ _ _ Hln Hl') as (l & Hl & El).
      pose proof (lane_clear_slot s _ _ El Hp) as Hp0.
      destruct (Hc d i j X k l HX Hl Hp0) as ((n & Hn & Hk) & _).
      destruct Hdone as (_ & n' & Hn' & Hoff).
      assert (n' = n) as ->.
      { eapply lanes_known_fun; [exact Hn'|by apply (lanes_known_stable w w')]. }
      specialize (Hoff k Hk l'). unfold lane_at in Hoff. rewrite HX' in Hoff.
      specialize (Hoff Hl'). apply lane_invalidate_fix in Hoff
        as (_ & Hpc & _ & Hvpc & _).
      destruct s; cbn in Hp; congruence.
    - destruct (Hc d0 i0 j0 X k l' HX Hl' Hp) as ((n & Hn & Hk) & Hvp & Hap & Hall).
      split; [exists n; split; [by apply (lanes_known_stable w w')|done]|].
      split; [done|]. split; [done|]. intros Hon n' k' l2 Hn' Hk' Hl2 Hon'.
      assert (n' = n) as ->.
      { eapply lanes_known_fun; [exact Hn'|by apply (lanes_known_stable w w')]. }
      eapply Hall; eauto.
Qed.
End Coherent.

End CoherenceFacts.

(** ** Operations that keep the pc slots coherent *)

Section KeepingFacts.
Local Open Scope nat_scope.

Lemma r_loose_preorder : preorder r_loose.
Proof.
  split; cbn; auto.
  - intros. apply latch_refl.
  - intros. apply dev_counts_latch_refl.
  - intros. apply warp_ext_refl.
  - intros. eapply latch_trans; eassumption.
  - intros. eapply dev_counts_latch_trans; eauto.
  - intros. eapply warp_ext_trans; eauto.
Qed.
Lemma r_ext_sub_loose : sub r_ext r_loose.
Proof. split; [|split; [|split]]; cbn; auto. Qed.
Lemma r_loose_sub_latch : sub r_loose r_latch.
Proof. split; [|split; [|split]]; cbn; auto. Qed.
Lemma r_counts_sub_loose : sub r_counts r_loose.
Proof.
  split; [|split; [|split]]; cbn.
  - by intros x y [? _].
  - by intros d x y (?&_).
  - done.
  - intros d i j x y [[[] _]| ->]. apply warp_ext_refl.
Qed.
Lemma dev_counts_latch_eq D D' :
  dev_counts D' = dev_counts D -> dev_counts_latch D D'.
Proof.
  unfold dev_counts, dev_counts_latch, latch.
  intros [= -> -> -> -> -> ->]. done.
Qed.

Section Keeps.
Context {HW : Type} (L : limits) (api : debug_api HW).
Local Abbreviation W := (world HW).
Implicit Type w : W.

#[local] Hint Resolve r_loose_preorder : core.

Lemma coherent_loose s w w' :
    step_rel r_loose w w' -> coherent s w -> coherent s w'.
Proof.
    intros R. apply coherent_keep. eapply step_rel_mono; [|exact R].
    split; [|split; [|split]]; cbn; auto.
    intros _ _ _ X X' (Hv & Ha & Hl). split; [done|]. split; [done|].
    intros q. specialize (Hl q). destruct Hl; constructor. by apply pc_data_slot.
Qed.

Lemma keeps_loose s {A} (m : M W A) : may r_loose m -> keeps (coherent s) m.
Proof. intros Hm w a w' Hw H. eapply coherent_loose; eauto. Qed.
Lemma keeps_counts s {A} (m : M W A) : may r_counts m -> keeps (coherent s) m.
Proof.
    intros Hm. apply keeps_loose. eapply may_mono; [apply r_counts_sub_loose|done].
Qed.
Lemma keeps_coherent_ext s {A} (m : M W A) :
    may r_ext m -> keeps (coherent s) m.
Proof.
    intros Hm. apply keeps_loose. eapply may_mono; [apply r_ext_sub_loose|done].
Qed.

Lemma may_modify_dev r d f :
    preorder r ->
    (forall D, RD r d (dev_head D) (dev_head (f D)) /\ Dev.sm (f D) = Dev.sm D) ->
    may r (State.modify_dev (HW := HW) f d).
Proof. intros Hr Hf w a w' [= _ <-]. apply step_rel_update_dev; auto. Qed.

Lemma may_modify_mask r (f : Sys.t -> Z) :
    preorder r ->
    (forall s, RY r (sys_head s)
                 (sys_head (Sys.set_suspended_devices_mask (f s) s))) ->
    may r (State.modify_system (HW := HW)
             (fun s => Sys.set_suspended_devices_mask (f s) s)).
Proof.
    intros Hr Hf w a w' [= _ <-]. split; [|done]. cbn.
    apply (sys_rel_head r (cuda_system_info w)
             (fun s => Sys.set_suspended_devices_mask (f s) s)); auto.
Qed.

Lemma loose_modify_sm d i f :
    (forall Sx, Sm.wp (f Sx) = Sm.wp Sx) ->
    may r_loose (State.modify_sm (HW := HW) f d i).
Proof. intros Hf. apply may_modify_sm; [done|]. intros Sx. by split. Qed.

Lemma keeps_sm_invalidate s d i rec :
    keeps (coherent s) (State.sm_invalidate L api d i rec).
Proof.
    unfold State.sm_invalidate.
    apply keeps_bind; [apply keeps_counts, may_assert_dev|]. intros _.
    apply keeps_bind; [apply keeps_counts, may_assert_sm|]. intros _.
    apply keeps_bind.
    - destruct rec; [|apply keeps_ret].
      apply keeps_bind; [apply keeps_counts, may_device_get_num_warps|].
      intros n. apply keeps_for_each. intros j. apply keeps_warp_invalidate.
    - intros _. apply keeps_loose, loose_modify_sm. by intros [].
Qed.

Lemma keeps_device_invalidate s d :
    keeps (coherent s) (State.device_invalidate L api d).
Proof.
    unfold State.device_invalidate.
    apply keeps_bind; [apply keeps_counts, may_assert_dev|]. intros _.
    apply keeps_bind; [apply keeps_counts, may_device_get_num_sms|]. intros n.
    apply keeps_bind; [apply keeps_for_each; intros; apply keeps_sm_invalidate|].
    intros _. apply keeps_bind.
    { apply keeps_counts, may_device_invalidate_kernels;
        [apply r_inv_preorder|by apply r_inv_sub]. }
    intros _. apply keeps_loose, may_modify_dev; [done|].
    intros D. split; [|by destruct D]. apply dev_counts_latch_eq. by destruct D.
Qed.

Lemma keeps_device_resume s d :
    keeps (coherent s) (State.device_resume L api d).
Proof.
    unfold State.device_resume.
    apply keeps_bind; [apply keeps_counts, may_assert_dev|]. intros _.
    apply keeps_bind; [apply keeps_device_invalidate|]. intros _.
    apply keeps_bind; [by apply keeps_loose, may_read_dev|]. intros D.
    destruct (negb _); [apply keeps_ret|].
    apply keeps_bind.
    { apply keeps_loose. unfold State.cuda_api_resume_device.
      apply may_bind; [done|by apply may_log_api|]. intros _.
      by apply may_set_hw. }
    intros _. apply keeps_bind.
    { apply keeps_loose, may_modify_dev; [done|].
      intros D0. split; [|by destruct D0]. apply dev_counts_latch_eq.
      by destruct D0. }
    intros _. apply keeps_loose.
    apply (may_modify_mask r_loose
             (fun s => Z.land (Sys.suspended_devices_mask s)
                         (not32 (Z.shiftl 1 (Z.of_nat d))))); [done|].
    intros []. cbn. apply latch_refl.
Qed.

Lemma loose_device_is_any_context_present d :
    may r_loose (State.device_is_any_context_present L api d).
Proof.
    unfold State.device_is_any_context_present.
    apply may_bind; [done| |].
    { eapply may_mono; [apply r_counts_sub_loose|apply may_assert_dev]. }
    intros _. apply may_bind; [done| |].
    { unfold State.device_get_contexts. apply may_bind; [done| |].
      { eapply may_mono; [apply r_counts_sub_loose|apply may_assert_dev]. }
      intros _. apply may_bind; [done|by apply may_read_dev|]. intros D.
      apply may_bind; [done|by apply may_gdb_assert|]. intros _.
      by apply may_ret. }
    intros c. unfold State.contexts_is_any_context_present, State.read_contexts.
    apply may_bind; [done| |intros; by apply may_ret].
    apply may_bind; [done|by apply may_read_dev|]. intros D.
    destruct (Dev.contexts D); [by apply may_ret|by apply may_throw].
Qed.

Lemma keeps_device_suspend s d :
    keeps (coherent s) (State.device_suspend L api d).
Proof.
    unfold State.device_suspend.
    apply keeps_bind; [apply keeps_counts, may_assert_dev|]. intros _.
    apply keeps_bind;
      [apply keeps_loose, loose_device_is_any_context_present|]. intros b.
    destruct (negb _); [apply keeps_ret|].
    apply keeps_bind.
    { apply keeps_loose. unfold State.cuda_api_suspend_device.
      apply may_bind; [done|by apply may_log_api|]. intros _.
      by apply may_set_hw. }
    intros _. apply keeps_bind.
    { apply keeps_loose, may_modify_dev; [done|].
      intros D0. split; [|by destruct D0]. apply dev_counts_latch_eq.
      by destruct D0. }
    intros _. apply keeps_loose.
    apply (may_modify_mask r_loose
             (fun s => Z.lor (Sys.suspended_devices_mask s)
                         (u32 (Z.shiftl 1 (Z.of_nat d))))); [done|].
    intros []. cbn. apply latch_refl.
Qed.

Lemma keeps_warp_single_step s d i j :
    keeps (coherent s) (State.warp_single_step L api d i j).
Proof.
    unfold State.warp_single_step.
    apply keeps_bind; [apply keeps_counts, may_assert_dev|]. intros _.
    apply keeps_bind; [apply keeps_counts, may_assert_sm|]. intros _.
    apply keeps_bind; [apply keeps_counts, may_assert_wp|]. intros _.
    apply keeps_bind.
    { apply keeps_loose. unfold State.cuda_api_single_step_warp.
      apply may_bind; [done|by apply may_log_api|]. intros _.
      apply may_bind; [done|by apply may_gets|]. intros r.
      apply may_bind; [done| |intros; by apply may_ret].
      apply may_modify. intros w. split; [by apply sys_rel_refl|done]. }
    intros mask. apply keeps_bind; [by apply keeps_loose, may_gets|]. intros o.
    apply keeps_bind; [|intros; apply keeps_ret].
    destruct (cuda_options_software_preemption o);
      [apply keeps_device_invalidate|].
    apply keeps_bind.
    { apply keeps_when. apply keeps_bind; [|intros; apply keeps_device_invalidate].
      by apply keeps_loose, may_log_host. }
    intros _. apply keeps_bind;
      [apply keeps_counts, may_device_get_num_warps|]. intros n.
    apply keeps_bind; [|intros; apply keeps_sm_invalidate].
    apply keeps_for_each. intros j'. apply keeps_when, keeps_warp_invalidate.
Qed.
End Keeps.

End KeepingFacts.

(** ** Propagation of a pc within a warp *)

Section PropagationFacts.
Local Open Scope nat_scope.

Lemma lane_set_rel_refl s P pc l : lane_set_rel s P pc l l.
Proof. split; [done|by left]. Qed.
Lemma lane_set_rel_trans s P pc l1 l2 l3 :
  lane_set_rel s P pc l1 l2 -> lane_set_rel s P pc l2 l3 ->
  lane_set_rel s P pc l1 l3.
Proof.
  intros [E1 H1] [E2 H2]. split; [congruence|].
  destruct H2 as [H2|[HP H2]]; [|right; done].
  destruct H1 as [H1|[HP H1]]; [left; congruence|right]. split; [done|congruence].
Qed.
Lemma lane_set_rel_mono s (P P' : Prop) pc l l' :
  (P -> P') -> lane_set_rel s P pc l l' -> lane_set_rel s P' pc l l'.
Proof. intros HP [E [H|[H1 H2]]]; split; auto. Qed.

Lemma other_slot_data s l l' :
  pc_data l' = pc_data l ->
  slot_data (other_slot s) l' = slot_data (other_slot s) l /\
  slot_data s l' = slot_data s l.
Proof. intros H. split; by apply pc_data_slot. Qed.

Lemma warp_ext_set_rel s P pc X X' : warp_ext X X' -> warp_set_rel s P pc X X'.
Proof.
  intros (Hv & Ha & Hl). split; [done|]. split; [done|]. intros q.
  specialize (Hl q). destruct Hl as [l l' E|]; constructor.
  destruct (other_slot_data s _ _ E). split; [done|by left].
Qed.

Lemma r_set_preorder s P pc d i j : preorder (r_set s P pc d i j).
Proof.
  split; cbn; auto.
  - intros. apply latch_refl.
  - intros. apply dev_counts_latch_refl.
  - intros. split; [apply latch_refl|]. split; [apply latch_refl|].
    apply list_rel_refl. intros. apply lane_set_rel_refl.
  - intros. eapply latch_trans; eassumption.
  - intros. eapply dev_counts_latch_trans; eauto.
  - intros d' i' j' x y z (?&?&?) (?&?&?).
    split; [eapply latch_trans; eassumption|].
    split; [eapply latch_trans; eassumption|].
    eapply list_rel_trans; [|eassumption|eassumption].
    intros q a b c. apply lane_set_rel_trans.
Qed.
Lemma r_loose_sub_set s P pc d i j : sub r_loose (r_set s P pc d i j).
Proof.
  split; [|split; [|split]]; cbn; auto.
  intros. by apply warp_ext_set_rel.
Qed.
Lemma r_set_sub_latch s P pc d i j : sub (r_set s P pc d i j) r_latch.
Proof. split; [|split; [|split]]; cbn; auto. Qed.
Lemma r_set_mono s (P P' : nat -> Prop) pc d i j :
  (forall q, P q -> P' q) -> sub (r_set s P pc d i j) (r_set s P' pc d i j).
Proof.
  intros HP. split; [|split; [|split]]; cbn; auto.
  intros d' i' j' x y (?&?&Hl). split; [done|]. split; [done|].
  intros q. specialize (Hl q). destruct Hl as [l l' E|]; constructor.
  eapply lane_set_rel_mono; [|exact E]. intros [? ?]. auto.
Qed.

Lemma other_slot_other s : other_slot (other_slot s) = s.
Proof. by destruct s. Qed.
Lemma r_set_sub_keep s P pc d i j : sub (r_set s P pc d i j) (r_keep (other_slot s)).
Proof.
  split; [|split; [|split]]; cbn; auto.
  intros d' i' j' X X' (Hv & Ha & Hl). split; [done|]. split; [done|].
  intros q. specialize (Hl q). destruct Hl as [l l' [E _]|]; constructor. done.
Qed.

Lemma slot_data_set s v l : slot_data s (slot_set s v l) = (true, v).
Proof. by destruct s, l. Qed.
Lemma slot_data_set_other s v l :
  slot_data (other_slot s) (slot_set s v l) = slot_data (other_slot s) l.
Proof. by destruct s, l. Qed.

Section Loop.
Context {W : Type}.
  (** A loop under an invariant, whose iterations each establish a fact
      that later steps keep. *)
Lemma for_each_inv (Q : W -> Prop) (R : W -> W -> Prop)
      (P : nat -> W -> Prop) (body : nat -> M W unit) (l : list nat) :
    (forall w, R w w) ->
    (forall w1 w2 w3, R w1 w2 -> R w2 w3 -> R w1 w3) ->
    (forall i w w', R w w' -> P i w -> P i w') ->
    (forall w w', R w w' -> Q w -> Q w') ->
    (forall i w u w', i ∈ l -> Q w -> body i w = Done u w' ->
       R w w' /\ P i w') ->
    forall w u w', Q w -> for_each l body w = Done u w' ->
      R w w' /\ Q w' /\ forall i, i ∈ l -> P i w'.
Proof.
    intros Hrefl Htrans Hstable HQ.
    induction l as [|i l IH]; intros Hbody w u w' Hw H; cbn in H.
    - injection H as _ <-. split; [auto|]. split; [done|].
      intros i Hi. by apply elem_of_nil in Hi.
    - destruct (bind_inv _ _ _ _ _ H) as ([] & w1 & H1 & H2).
      destruct (Hbody i w tt w1) as [HR1 HP1]; [left|done|done|].
      destruct (IH (fun j wa ua wb Hj => Hbody j wa ua wb ltac:(by right))
                   w1 u w') as (HR2 & HQ2 & HP2); [eauto|done|].
      split; [eauto|]. split; [done|].
      intros i' Hi. apply elem_of_cons in Hi as [->|Hi]; eauto.
Qed.
End Loop.

Section SetFacts.
Context {HW : Type}.
Local Abbreviation W := (world HW).
Implicit Type w : W.

Lemma set_latch s P pc d i j w w' :
    step_rel (r_set s P pc d i j) w w' -> step_rel r_latch w w'.
Proof. apply step_rel_mono, r_set_sub_latch. Qed.

Lemma valid_mask_is_set_stable s P pc d i j w w' d' i' j' v :
    step_rel (r_set s P pc d i j) w w' ->
    valid_mask_is w d' i' j' v -> valid_mask_is w' d' i' j' v.
Proof.
    intros [Hs _] (X & HX & Hp & Hv).
    destruct (sys_rel_warp_l _ _ _ _ _ _ _ Hs HX) as (X' & HX' & Hl & _).
    destruct (Hl Hp) as [? ?]. exists X'. split; [done|]. split; congruence.
Qed.
Lemma active_mask_is_set_stable s P pc d i j w w' d' i' j' v :
    step_rel (r_set s P pc d i j) w w' ->
    active_mask_is w d' i' j' v -> active_mask_is w' d' i' j' v.
Proof.
    intros [Hs _] (X & HX & Hp & Hv).
    destruct (sys_rel_warp_l _ _ _ _ _ _ _ Hs HX) as (X' & HX' & _ & Hl & _).
    destruct (Hl Hp) as [? ?]. exists X'. split; [done|]. split; congruence.
Qed.

  (** A slot that holds [pc] keeps it through propagation. *)
Lemma slot_set_stable s P pc d i j w w' k l' :
    step_rel (r_set s P pc d i j) w w' ->
    (forall l, lane_at (cuda_system_info w) d i j k = Some l ->
               slot_data s l = (true, pc)) ->
    lane_at (cuda_system_info w') d i j k = Some l' ->
    slot_data s l' = (true, pc).
Proof.
    intros [Hs _] Hl Hl'. unfold lane_at in *.
    destruct (warp_at (cuda_system_info w') d i j) as [X'|] eqn:HX'; [|done].
    destruct (sys_rel_warp_r _ _ _ _ _ _ _ Hs HX') as (X & HX & _ & _ & Hln).
    rewrite HX in Hl. cbn in *.
    destruct (list_rel_lookup_r _ _ _ _ _ Hln Hl') as (l & Hlk & _ & [E|[_ E]]).
    - rewrite E. by apply Hl.
    - done.
Qed.

Lemma step_rel_set_lane s (P : nat -> Prop) pc d i j k w :
    P k ->
    step_rel (r_set s P pc d i j) w
      (set_system (State.update_lane (slot_set s pc) d i j k
                     (cuda_system_info w)) w).
Proof.
    intros HP. apply step_rel_update_warp; [apply r_set_preorder|].
    intros X _. cbn. destruct X as [? ? ? ? ? ? ? ? ? ? ? ? ? ? ? ? ln]. cbn.
    split; [apply latch_refl|]. split; [apply latch_refl|]. cbn.
    intros q. destruct (decide (q = k)) as [->|Hne].
    - rewrite list_lookup_alter_eq. destruct (ln !! k) as [l|]; cbn; constructor.
      split; [apply slot_data_set_other|]. right. split; [done|].
      apply slot_data_set.
    - rewrite list_lookup_alter_ne by done.
      destruct (ln !! q); constructor. apply lane_set_rel_refl.
Qed.
End SetFacts.

End PropagationFacts.

(** ** Coherence after propagation *)

Section AfterPropagationFacts.
Local Open Scope nat_scope.

Section AfterSet.
Context {HW : Type}.
Local Abbreviation W := (world HW).
Implicit Type w : W.

Lemma coherent_after_set s P pc d i j n w w' :
    coherent s w ->
    step_rel (r_set s P pc d i j) w w' ->
    lanes_known w d n -> (forall q, P q -> q < n) ->
    (forall X, warp_at (cuda_system_info w') d i j = Some X ->
               propagated s P pc n X) ->
    coherent s w'.
Proof.
    intros Hc R Hn HPn Hprop d' i' j' X' k l' HX' Hl' Hp.
    pose proof R as [Hs _].
    assert (Hlatch : step_rel r_latch w w') by (eapply set_latch; eauto).
    assert (Hn' : lanes_known w' d n) by (by apply (lanes_known_stable w w')).
    destruct (sys_rel_warp_r _ _ _ _ _ _ _ Hs HX') as (X & HX & Hv & Ha & Hln).
    cbn in Hv, Ha, Hln.
    destruct (list_rel_lookup_r _ _ _ _ _ Hln Hl') as (l & Hl & Eo & Ek).
    (* lanes that were not written are as before *)
    assert (Hold : forall q lq lq',
      Warp.ln X !! q = Some lq -> Warp.ln X' !! q = Some lq' ->
      slot_data s lq' = slot_data s lq -> slot_p s lq' = true ->
      (exists n0, lanes_known w' d' n0 /\ q < n0) /\
      Warp.valid_lanes_mask_p X' = true /\
      Warp.active_lanes_mask_p X' = true /\
      Warp.valid_lanes_mask X' = Warp.valid_lanes_mask X /\
      Warp.active_lanes_mask X' = Warp.active_lanes_mask X /\
      (lane_on X q = true ->
       forall n0 k' l0, lanes_known w d' n0 -> k' < n0 ->
         Warp.ln X !! k' = Some l0 -> lane_on X k' = true ->
         slot_p s l0 = true /\ slot_val s l0 = slot_val s lq)).
    { intros q lq lq' Hq Hq' E Hpq. unfold slot_data in E.
      injection E as Ep Ev. rewrite Ep in Hpq.
      destruct (Hc d' i' j' X q lq HX Hq Hpq)
        as ((n0 & Hn0 & Hlt) & Hvp & Hap & Hall).
      destruct (Hv Hvp) as [? ?]. destruct (Ha Hap) as [? ?].
      split; [exists n0; split; [by apply (lanes_known_stable w w')|done]|].
      do 4 (split; [done|]). done. }
    destruct (decide (d' = d /\ i' = i /\ j' = j)) as [(-> & -> & ->)|Hne].
    - (* the warp that was written *)
      destruct (Hprop X' HX') as (Hvp & Hap & Hset & Hdich).
      assert (Hk : k < n).
      { destruct Ek as [E|[[_ HP] _]]; [|by apply HPn].
        destruct (Hold k l l' Hl Hl' E Hp) as ((n0 & Hn0 & Hlt) & _).
        by rewrite (lanes_known_fun _ _ _ _ Hn' Hn0). }
      split; [by exists n|]. split; [done|]. split; [done|].
      intros Hon n0 k' l2' Hn0 Hk' Hl2' Hon'.
      rewrite (lanes_known_fun _ _ _ _ Hn0 Hn') in Hk'.
      destruct Hdich as [Hall|Hnone].
      + pose proof (Hset k l' (Hall k Hk) Hl' Hon) as E1.
        pose proof (Hset k' l2' (Hall k' Hk') Hl2' Hon') as E2.
        unfold slot_data in E1, E2. injection E1 as _ ->.
        by injection E2 as -> ->.
      + destruct Ek as [E|[[_ HP] _]];
          [|by rewrite (Hnone k HP) in Hon].
        destruct (list_rel_lookup_r _ _ _ _ _ Hln Hl2')
          as (l2 & Hl2 & _ & [E2|[[_ HP] _]]);
          [|by rewrite (Hnone k' HP) in Hon'].
        destruct (Hold k l l' Hl Hl' E Hp)
          as (_ & _ & _ & Ev & Ea & Hall).
        unfold lane_on in Hon, Hon', Hall. rewrite Ev, Ea in Hon, Hon'.
        destruct (Hall Hon n k' l2 Hn Hk' Hl2 Hon') as [Hp2 Hv2].
        unfold slot_data in E, E2. injection E as _ Ev1.
        injection E2 as Ep2 Ev2. split; congruence.
    - (* any other warp *)
      destruct Ek as [E|[[Heq _] _]]; [|done].
      destruct (Hold k l l' Hl Hl' E Hp)
        as (Hk & Hvp & Hap & Ev & Ea & Hall).
      split; [done|]. split; [done|]. split; [done|].
      unfold lane_on. rewrite Ev, Ea. intros Hon n0 k' l2' Hn0 Hk' Hl2' Hon'.
      destruct (list_rel_lookup_r _ _ _ _ _ Hln Hl2')
        as (l2 & Hl2 & _ & [E2|[[Heq _] _]]); [|done].
      destruct Hk as (n1 & Hn1 & _).
      rewrite (lanes_known_fun _ _ _ _ Hn0 Hn1) in Hk'.
      assert (exists n2, lanes_known w d' n2 /\ k' < n2) as (n2 & Hn2 & Hk2).
      { unfold slot_data in E. injection E as Ep _. rewrite Ep in Hp.
        destruct (Hc d' i' j' X k l HX Hl Hp) as ((n2 & Hn2 & _) & _).
        exists n2. split; [done|].
        by rewrite (lanes_known_fun _ _ _ _
                      (lanes_known_stable w w' _ _ Hlatch Hn2) Hn1). }
      destruct (Hall Hon n2 k' l2 Hn2 Hk2 Hl2 Hon') as [Hp2 Hv2].
      unfold slot_data in E, E2. injection E as _ Ev1.
      injection E2 as Ep2 Ev2. split; congruence.
Qed.
End AfterSet.

End AfterPropagationFacts.

(** ** The loop of [lane_get_pc] *)

Section PropagationLoopFacts.
Local Open Scope nat_scope.

Section LaneGet.
Context {HW : Type} (L : limits) (api : debug_api HW).
Local Abbreviation W := (world HW).
Implicit Type w : W.

Lemma lane_get_pc_unfold d i j k :
    State.lane_get_pc L api d i j k = lane_get L api Pc d i j k.
Proof. reflexivity. Qed.
Lemma lane_get_virtual_pc_unfold d i j k :
    State.lane_get_virtual_pc L api d i j k = lane_get L api VirtualPc d i j k.
Proof. reflexivity. Qed.

Lemma fetch_slot_inv s d i j k w pc w' :
    fetch_slot api s d i j k w = Done pc w' ->
    cuda_system_info w' = cuda_system_info w /\ rest_of w' = rest_of w.
Proof.
    intros H. destruct s; unfold fetch_slot, State.cuda_api_read_pc,
      State.cuda_api_read_virtual_pc, State.api_read in H; msimpl_in H;
      injection H as _ <-; done.
Qed.

Lemma ext_to_set s P pc d i j w w' :
    step_rel r_ext w w' -> step_rel (r_set s P pc d i j) w w'.
Proof.
    intros H. eapply step_rel_mono; [apply r_loose_sub_set|].
    eapply step_rel_mono; [apply r_ext_sub_loose|done].
Qed.

  (** The propagation loop. *)
Lemma propagate_spec s pc d i j n v m w u w' :
    valid_mask_is w d i j v -> active_mask_is w d i j m ->
    for_upto n (fun q =>
      b <- State.lane_is_valid_and_active L api d i j q ;;
      when b (State.modify_lane (slot_set s pc) d i j q)) w = Done u w' ->
    step_rel (r_set s (fun q => q < n) pc d i j) w w' /\
    forall q l, q < n -> bit v q && bit m q = true ->
      lane_at (cuda_system_info w') d i j q = Some l ->
      slot_data s l = (true, pc).
Proof.
    intros Hv Hm H. set (r := r_set s (fun q => q < n) pc d i j).
    assert (Hr : preorder r) by apply r_set_preorder.
    apply (for_each_inv
             (fun w => valid_mask_is w d i j v /\ active_mask_is w d i j m)
             (step_rel r)
             (fun q w => bit v q && bit m q = true ->
                forall l, lane_at (cuda_system_info w) d i j q = Some l ->
                          slot_data s l = (true, pc))) in H.
    - destruct H as (R & _ & HP). split; [done|]. intros q l Hq Hb Hl.
      eapply HP; eauto. apply elem_of_seq. lia.
    - intros. by apply step_rel_refl.
    - intros ???. by apply step_rel_trans.
    - intros q wa wb R HP Hb l Hl.
      eapply (slot_set_stable s _ pc d i j wa wb); eauto.
    - intros wa wb R [? ?]. split;
        [eapply valid_mask_is_set_stable|eapply active_mask_is_set_stable]; eauto.
    - intros q wa ua wb Hq [Hva Hma] Hb. apply elem_of_seq in Hq.
      peel Hb b w1 H1. apply lane_is_valid_and_active_spec in H1
        as (R1 & v' & Hv' & Hif).
      assert (v' = v) as ->.
      { eapply valid_mask_is_fun; [exact Hv'|].
        by apply (valid_mask_is_stable wa w1). }
      assert (R1' : step_rel r wa w1) by (by apply ext_to_set).
      destruct b.
      + cbn in Hb. injection Hb as _ <-. split.
        * eapply step_rel_trans; [done|exact R1'|].
          apply step_rel_set_lane. lia.
        * intros _ l. cbn [cuda_system_info set_system].
          rewrite lane_at_update_lane_eq.
          destruct (lane_at _ d i j q) as [l0|]; [|done]. cbn.
          intros [= <-]. apply slot_data_set.
      + cbn in Hb. injection Hb as _ <-. split; [done|].
        intros Hon. exfalso. apply andb_true_iff in Hon as [Hbv Hbm].
        rewrite Hbv in Hif. destruct Hif as (m' & Hm' & Eb).
        assert (m' = m) as ->.
        { eapply active_mask_is_fun; [exact Hm'|].
          by apply (active_mask_is_stable wa w1). }
        congruence.
    - done.
Qed.
End LaneGet.

End PropagationLoopFacts.

(** ** A pc read, once the lane is known to be valid *)

Section GetterBodyFacts.
Local Open Scope nat_scope.

Section LaneGetBody.
Context {HW : Type} (L : limits) (api : debug_api HW).
Local Abbreviation W := (world HW).
Implicit Type w : W.

Lemma step_rel_alike r w w' :
    preorder r ->
    cuda_system_info w' = cuda_system_info w -> rest_of w' = rest_of w ->
    step_rel r w w'.
Proof. intros Hr Es Er. split; [rewrite Es; by apply sys_rel_refl|done]. Qed.

Lemma lane_on_masks w d i j v m X q :
    valid_mask_is w d i j v -> active_mask_is w d i j m ->
    warp_at (cuda_system_info w) d i j = Some X ->
    Warp.valid_lanes_mask_p X = true /\ Warp.active_lanes_mask_p X = true /\
    lane_on X q = bit v q && bit m q.
Proof.
    intros (X1 & H1 & Hp1 & <-) (X2 & H2 & Hp2 & <-) HX.
    assert (X1 = X) as -> by congruence. assert (X2 = X) as -> by congruence.
    done.
Qed.

Lemma lane_get_body_spec s d i j k n w pc w' :
    coherent s w -> lanes_known w d n -> k < n ->
    lane_get_body L api s d i j k w = Done pc w' ->
    coherent s w' /\
    (exists pc0, step_rel (r_set s (fun q => q < n) pc0 d i j) w w') /\
    exists l', lane_at (cuda_system_info w') d i j k = Some l' /\
               slot_data s l' = (true, pc).
Proof.
    intros Hc Hn Hk H. unfold lane_get_body in H.
    peel H l w1 H1. apply read_lane_inv in H1 as [-> Hl].
    destruct (slot_p s l) eqn:Hp.
    { injection H as <- <-. split; [done|].
      split; [exists 0%Z; apply step_rel_refl, r_set_preorder|]. exists l.
      split; [done|]. unfold slot_data. by rewrite Hp. }
    peel H pc0 w2 H2. apply fetch_slot_inv in H2 as [Es2 Er2].
    unfold State.modify_lane at 1, State.modify_system in H.
    rewrite bind_modify in H. set (w3 := set_system _ w2) in H.
    set (Pk := fun q : nat => q = k).
    assert (R12 : step_rel (r_set s Pk pc0 d i j) w w2).
    { apply step_rel_alike; [apply r_set_preorder|done|done]. }
    assert (R23 : step_rel (r_set s Pk pc0 d i j) w2 w3).
    { by apply step_rel_set_lane. }
    assert (Hl3 : forall l3, lane_at (cuda_system_info w3) d i j k = Some l3 ->
                             slot_data s l3 = (true, pc0)).
    { intros l3. subst w3. cbn [cuda_system_info set_system].
      rewrite lane_at_update_lane_eq, Es2, Hl. cbn. intros [= <-].
      apply slot_data_set. }
    peel H a w4 H4. apply lane_is_active_spec in H4
      as (R34 & v & m & Hv4 & Hm4 & Hbv & -> & _).
    assert (R14 : step_rel (r_set s Pk pc0 d i j) w w4).
    { eapply step_rel_trans; [apply r_set_preorder|exact R12|].
      eapply step_rel_trans; [apply r_set_preorder|exact R23|].
      by apply ext_to_set. }
    assert (Hl4 : forall l4, lane_at (cuda_system_info w4) d i j k = Some l4 ->
                             slot_data s l4 = (true, pc0)).
    { intros l4. apply (slot_set_stable s Pk pc0 d i j w3 w4); [|done].
      by apply ext_to_set. }
    peel H u w5 H5. peel H l5 w6 H6. apply read_lane_inv in H6 as [-> Hl5].
    injection H as <- <-.
    destruct (bit m k) eqn:Hbm.
    - (* the lane read is active: its pc goes to every active lane *)
      cbn in H5. peel H5 n' w4' H4'.
      apply device_get_num_lanes_spec in H4' as (R4 & _ & Hn4).
      assert (R4' : step_rel r_ext w4 w4').
      { eapply step_rel_mono; [apply r_counts_sub_ext|done]. }
      set (Pn := fun q : nat => q < n).
      assert (R14' : step_rel (r_set s Pn pc0 d i j) w w4').
      { eapply step_rel_trans; [apply r_set_preorder| |by apply ext_to_set].
        eapply step_rel_mono; [|exact R14]. apply r_set_mono.
        intros q ->. done. }
      assert (n' = n) as ->.
      { eapply lanes_known_fun; [exact Hn4|].
        apply (lanes_known_stable w w4'); [|done]. eapply set_latch; eauto. }
      apply (propagate_spec L api s pc0 d i j n v m) in H5 as [R5 Hall].
      2:{ by apply (valid_mask_is_stable w4 w4'). }
      2:{ by apply (active_mask_is_stable w4 w4'). }
      assert (R15 : step_rel (r_set s Pn pc0 d i j) w w5).
      { eapply step_rel_trans; [apply r_set_preorder|exact R14'|exact R5]. }
      assert (Hv5 : valid_mask_is w5 d i j v).
      { apply (valid_mask_is_set_stable s Pn pc0 d i j w4' w5); [done|].
        by apply (valid_mask_is_stable w4 w4'). }
      assert (Hm5 : active_mask_is w5 d i j m).
      { apply (active_mask_is_set_stable s Pn pc0 d i j w4' w5); [done|].
        by apply (active_mask_is_stable w4 w4'). }
      split; [|split].
      + apply (coherent_after_set s Pn pc0 d i j n w w5); [done..|].
        intros X5 HX5.
        destruct (lane_on_masks w5 d i j v m X5 0 Hv5 Hm5 HX5) as (Hvp & Hap & _).
        split; [done|]. split; [done|]. split; [|by left].
        intros q lq Hq Hlq Hon.
        destruct (lane_on_masks w5 d i j v m X5 q Hv5 Hm5 HX5) as (_ & _ & Eon).
        apply (Hall q lq Hq); [by rewrite <- Eon|].
        unfold lane_at. by rewrite HX5.
      + by exists pc0.
      + exists l5. split; [done|].
        assert (slot_data s l5 = (true, pc0)) as E.
        { apply (slot_set_stable s Pn pc0 d i j w4 w5 k l5); [|done|done].
          eapply step_rel_trans; [apply r_set_preorder| |exact R5].
          by apply ext_to_set. }
        rewrite E. unfold slot_data in E. by injection E as _ ->.
    - (* a divergent lane: only its own slot is written *)
      cbn in H5. injection H5 as _ <-.
      split; [|split].
      + apply (coherent_after_set s Pk pc0 d i j n w w4); [done..| |].
        { by intros q ->. }
        intros X4 HX4.
        destruct (lane_on_masks w4 d i j v m X4 k Hv4 Hm4 HX4) as (Hvp & Hap & Eon).
        rewrite Hbm, andb_false_r in Eon.
        split; [done|]. split; [done|]. split.
        * intros q lq -> _ Hon. congruence.
        * right. by intros q ->.
      + exists pc0. eapply step_rel_mono; [|exact R14]. apply r_set_mono.
        by intros q ->.
      + exists l5. split; [done|]. pose proof (Hl4 l5 Hl5) as E.
        rewrite E. unfold slot_data in E. by injection E as _ ->.
Qed.
End LaneGetBody.

End GetterBodyFacts.

(** ** A pc read *)

Section GetterSpecFacts.
Local Open Scope nat_scope.

Section LaneGetSpec.
Context {HW : Type} (L : limits) (api : debug_api HW).
Local Abbreviation W := (world HW).
Implicit Type w : W.

Lemma lane_get_spec s d i j k w pc w' :
    coherent s w -> coherent (other_slot s) w ->
    lane_get L api s d i j k w = Done pc w' ->
    coherent s w' /\ coherent (other_slot s) w' /\ slot_holds s w' d i j k pc.
Proof.
    intros Hc Hco H. unfold lane_get in H.
    peel H u1 w1 H1. peel H u2 w2 H2. peel H u3 w3 H3. peel H u4 w4 H4.
    unfold State.assert_lane_is_valid in H. rewrite bind_assoc in H.
    peel H b w5 H5.
    pose proof (may_assert_dev L api d _ _ _ H1) as R1.
    pose proof (may_assert_sm L api d i _ _ _ H2) as R2.
    pose proof (may_assert_wp L api d j _ _ _ H3) as R3.
    apply assert_ln_spec in H4 as [R4 _].
    apply lane_is_valid_spec in H5 as (R5 & v & Hv & -> & Hsm & Hwp & Hln).
    destruct (bit v k) eqn:Hb; [|done]. rewrite bind_assert_true in H.
    assert (R15 : step_rel r_ext w w5).
    { pose proof r_ext_preorder.
      eapply step_rel_trans; [done|eapply step_rel_mono;
        [apply r_counts_sub_ext|exact R1]|].
      eapply step_rel_trans; [done|eapply step_rel_mono;
        [apply r_counts_sub_ext|exact R2]|].
      eapply step_rel_trans; [done|eapply step_rel_mono;
        [apply r_counts_sub_ext|exact R3]|].
      eapply step_rel_trans; [done|eapply step_rel_mono;
        [apply r_counts_sub_ext|exact R4]|done]. }
    pose proof Hln as (Hdev & n & Hn & Hk).
    destruct (lane_get_body_spec L api s d i j k n w5 pc w')
      as (Hc' & (pc0 & R) & l' & Hl' & El'); [|done|done|done|].
    { by apply (coherent_ext s w w5). }
    assert (Hlatch : step_rel r_latch w5 w') by (eapply set_latch; eauto).
    split; [done|]. split.
    { apply (coherent_keep (other_slot s) w5 w').
      - eapply step_rel_mono; [|exact R]. apply r_set_sub_keep.
      - by apply (coherent_ext (other_slot s) w w5). }
    split; [by apply (sm_ok_stable w5 w')|].
    split; [by apply (wp_ok_stable w5 w')|].
    split; [by apply (ln_ok_stable w5 w')|].
    split; [|by exists l'].
    exists v. split; [|done].
    by apply (valid_mask_is_set_stable s (fun q => q < n) pc0 d i j w5 w').
Qed.

Lemma lane_is_valid_hit d i j k w v l :
    sm_ok w d i -> wp_ok w d j -> ln_ok w d k ->
    valid_mask_is w d i j v ->
    lane_at (cuda_system_info w) d i j k = Some l ->
    State.lane_is_valid L api d i j k w = Done (bit v k) (stamped w d i j k l).
Proof.
    intros Hsm Hwp Hln (X & HX & Hvp & Ev) Hl. pose proof Hsm as [Hdev _].
    assert (Hmask : State.warp_get_valid_lanes_mask L api d i j w = Done v w).
    { unfold State.warp_get_valid_lanes_mask.
      rewrite (bind_done _ _ _ _ _ (assert_dev_silent L api _ _ Hdev)).
      rewrite (bind_done _ _ _ _ _ (assert_sm_silent L api _ _ _ Hsm)).
      rewrite (bind_done _ _ _ _ _ (assert_wp_silent L api _ _ _ Hwp)).
      rewrite (bind_done _ _ _ _ _ (read_warp_silent _ _ _ _ _ HX)).
      by rewrite Hvp, Ev. }
    unfold State.lane_is_valid.
    rewrite (bind_done _ _ _ _ _ (assert_dev_silent L api _ _ Hdev)).
    rewrite (bind_done _ _ _ _ _ (assert_sm_silent L api _ _ _ Hsm)).
    rewrite (bind_done _ _ _ _ _ (assert_wp_silent L api _ _ _ Hwp)).
    rewrite (bind_done _ _ _ _ _ (assert_ln_silent L api _ _ _ Hln)).
    rewrite (bind_done _ _ _ _ _ Hmask).
    rewrite (bind_done _ _ _ _ _ (read_lane_silent _ _ _ _ _ _ Hl)).
    unfold stamped. destruct (Lane.timestamp_p l); cbn [negb].
    - by rewrite bind_when_false.
    - rewrite bind_when_true. unfold State.modify_lane, State.modify_system.
      by msimpl.
Qed.

  (** A read of a lane whose slot is present: no call to the port, the
      cached value, and at most a timestamp written. *)
Lemma lane_get_hit s d i j k w pc :
    slot_holds s w d i j k pc ->
    exists w', lane_get L api s d i j k w = Done pc w' /\
               api_calls w' = api_calls w /\ hw w' = hw w /\
               host_calls w' = host_calls w.
Proof.
    intros (Hsm & Hwp & Hln & (v & Hv & Hb) & l & Hl & El).
    pose proof Hsm as [Hdev _]. unfold slot_data in El. injection El as Hp Hval.
    unfold lane_get.
    rewrite (bind_done _ _ _ _ _ (assert_dev_silent L api _ _ Hdev)).
    rewrite (bind_done _ _ _ _ _ (assert_sm_silent L api _ _ _ Hsm)).
    rewrite (bind_done _ _ _ _ _ (assert_wp_silent L api _ _ _ Hwp)).
    rewrite (bind_done _ _ _ _ _ (assert_ln_silent L api _ _ _ Hln)).
    unfold State.assert_lane_is_valid. rewrite bind_assoc.
    rewrite (bind_done _ _ _ _ _
               (lane_is_valid_hit d i j k w v l Hsm Hwp Hln Hv Hl)).
    rewrite Hb, bind_assert_true. unfold lane_get_body.
    set (w1 := stamped w d i j k l).
    assert (exists l1, lane_at (cuda_system_info w1) d i j k = Some l1 /\
                       slot_p s l1 = true /\ slot_val s l1 = pc)
      as (l1 & Hl1 & Hp1 & Hv1).
    { subst w1. unfold stamped. destruct (Lane.timestamp_p l).
      - by exists l.
      - exists (Lane.set_timestamp (cuda_clock w) l).
        cbn [cuda_system_info set_system].
        rewrite lane_at_update_lane_eq, Hl. split; [done|].
        rewrite <- Hp, <- Hval. by destruct s, l. }
    rewrite (bind_done _ _ _ _ _ (read_lane_silent _ _ _ _ _ _ Hl1)).
    rewrite Hp1, Hv1. exists w1. split; [done|].
    subst w1. unfold stamped. by destruct (Lane.timestamp_p l).
Qed.

  (** In a coherent mirror, a present slot of an active lane is shared by
      every active lane of the warp. *)
Lemma coherent_shared s w d i j k pc X n k' l' :
    coherent s w -> slot_holds s w d i j k pc ->
    warp_at (cuda_system_info w) d i j = Some X ->
    lane_on X k = true ->
    lanes_known w d n -> k' < n -> Warp.ln X !! k' = Some l' ->
    lane_on X k' = true ->
    slot_holds s w d i j k' pc.
Proof.
    intros Hc (Hsm & Hwp & Hln & (v & Hv & Hb) & l & Hl & El) HX Hon Hn Hk' Hl' Hon'.
    unfold lane_at in Hl. rewrite HX in Hl. cbn in Hl.
    unfold slot_data in El. injection El as Hp Hval.
    destruct (Hc d i j X k l HX Hl Hp) as (_ & Hvp & Hap & Hall).
    destruct (Hall Hon n k' l' Hn Hk' Hl' Hon') as [Hp' Hv'].
    split; [done|]. split; [done|].
    split; [split; [apply Hln|by exists n]|].
    split.
    - exists (Warp.valid_lanes_mask X). split; [by exists X|].
      unfold lane_on in Hon'. by apply andb_true_iff in Hon' as [? _].
    - exists l'. split; [unfold lane_at; by rewrite HX|].
      unfold slot_data. rewrite Hp', Hv', Hval. done.
Qed.
End LaneGetSpec.

End GetterSpecFacts.

(** ** Steps that leave the masks of the port as they are *)

Create HintDb env.
Create HintDb fade.

Section DriftFacts.
Local Open Scope nat_scope.
Context {HW : Type} (api : debug_api HW).
Local Abbreviation W := (world HW).
Implicit Type w : W.

Lemma same_masks_refl h : same_masks api h h.
Proof. by intros d i. Qed.
Lemma same_masks_trans h1 h2 h3 :
  same_masks api h1 h2 -> same_masks api h2 h3 -> same_masks api h1 h3.
Proof.
  intros H1 H2 d i. destruct (H1 d i) as [E1 F1], (H2 d i) as [E2 F2].
  split; [congruence|]. intros j. rewrite F2. apply F1.
Qed.

Lemma drift_refl r w : preorder r -> drift api r w w.
Proof. intros. split; [by apply sys_rel_refl|apply same_masks_refl]. Qed.
Lemma drift_trans r w1 w2 w3 :
  preorder r -> drift api r w1 w2 -> drift api r w2 w3 -> drift api r w1 w3.
Proof.
  intros Hp [H1 E1] [H2 E2].
  split; [eapply sys_rel_trans; eauto|eapply same_masks_trans; eauto].
Qed.
Lemma drift_mono r r' w w' : sub r r' -> drift api r w w' -> drift api r' w w'.
Proof. intros Hs [H E]. split; [eapply sys_rel_mono; eauto|done]. Qed.
Lemma drift_off r w w' :
  preorder r -> cuda_system_info w' = cuda_system_info w -> hw w' = hw w ->
  drift api r w w'.
Proof.
  intros Hp Es Eh. unfold drift. rewrite Es, Eh.
  split; [by apply sys_rel_refl|apply same_masks_refl].
Qed.
Lemma drift_of_step r w w' :
  step_rel r w w' -> hw w' = hw w -> drift api r w w'.
Proof. intros [Hs _] Eh. split; [done|]. rewrite Eh. apply same_masks_refl. Qed.

Lemma moves_mono r r' {A} (m : M W A) :
  sub r r' -> moves api r m -> moves api r' m.
Proof. intros Hs H w a w' Hm. eapply drift_mono; eauto. Qed.

Section Moves.
Context (r : rels) (Hr : preorder r).

Lemma moves_ret {A} (a : A) : moves api (HW := HW) r (ret a).
Proof. intros w a' w' [= _ <-]. by apply drift_refl. Qed.
Lemma moves_throw {A} e : moves api (HW := HW) r (throw (A := A) e).
Proof. intros w a w' [=]. Qed.
Lemma moves_error {A} e : moves api (HW := HW) r (error (A := A) e).
Proof. intros w a w' [=]. Qed.
Lemma moves_gets {A} (f : W -> A) : moves api (HW := HW) r (gets f).
Proof. intros w a' w' [= _ <-]. by apply drift_refl. Qed.
Lemma moves_gdb_assert s b : moves api (HW := HW) r (gdb_assert s b).
Proof. destruct b; [apply moves_ret|apply moves_throw]. Qed.
Lemma moves_bind {A B} (m : M W A) (k : A -> M W B) :
    moves api r m -> (forall a, moves api r (k a)) -> moves api r (bind m k).
Proof.
    intros H1 H2 w b w'' Hb.
    destruct (bind_inv _ _ _ _ _ Hb) as (a & w' & Hm & Hk).
    eapply drift_trans; [done|eapply H1|eapply H2]; eauto.
Qed.
Lemma moves_when b (m : M W unit) : moves api r m -> moves api r (when b m).
Proof. destruct b; [done|intros; apply moves_ret]. Qed.
Lemma moves_for_each l (body : nat -> M W unit) :
    (forall i, moves api r (body i)) -> moves api r (for_each l body).
Proof.
    intros H. induction l as [|i l IH]; cbn; [apply moves_ret|].
    apply moves_bind; auto.
Qed.
Lemma moves_for_upto n (body : nat -> M W unit) :
    (forall i, moves api r (body i)) -> moves api r (for_upto n body).
Proof. apply moves_for_each. Qed.
Lemma moves_modify (f : W -> W) :
    (forall w, drift api r w (f w)) -> moves api r (modify f).
Proof. intros H w a w' [= _ <-]. apply H. Qed.
  (** A write outside the mirror and the device. *)
Lemma moves_off (f : W -> W) :
    (forall w, cuda_system_info (f w) = cuda_system_info w /\
               hw (f w) = hw w) ->
    moves api r (modify f).
Proof.
    intros H. apply moves_modify. intros w. destruct (H w).
    by apply drift_off.
Qed.
Lemma moves_log_api c : moves api r (modify (log_api (HW := HW) c)).
Proof. by apply moves_off. Qed.
Lemma moves_log_host c : moves api r (modify (log_host (HW := HW) c)).
Proof. by apply moves_off. Qed.
Lemma moves_api_read {A} c (f : HW -> A) : moves api r (State.api_read c f).
Proof. apply moves_bind; [apply moves_log_api|intros; apply moves_gets]. Qed.

Lemma moves_read_dev d : moves api r (State.read_dev (HW := HW) d).
Proof.
    unfold State.read_dev. apply moves_bind; [apply moves_gets|].
    intros s. destruct (_ !! _); [apply moves_ret|apply moves_throw].
Qed.
Lemma moves_read_sm d i : moves api r (State.read_sm (HW := HW) d i).
Proof.
    unfold State.read_sm. apply moves_bind; [apply moves_read_dev|].
    intros s. destruct (_ !! _); [apply moves_ret|apply moves_throw].
Qed.
Lemma moves_read_warp d i j : moves api r (State.read_warp (HW := HW) d i j).
Proof.
    unfold State.read_warp. apply moves_bind; [apply moves_read_sm|].
    intros s. destruct (_ !! _); [apply moves_ret|apply moves_throw].
Qed.
Lemma moves_read_lane d i j k :
    moves api r (State.read_lane (HW := HW) d i j k).
Proof.
    unfold State.read_lane. apply moves_bind; [apply moves_read_warp|].
    intros s. destruct (_ !! _); [apply moves_ret|apply moves_throw].
Qed.
Lemma moves_read_contexts d :
    moves api r (State.read_contexts (HW := HW) d).
Proof.
    unfold State.read_contexts. apply moves_bind; [apply moves_read_dev|].
    intros D. destruct (Dev.contexts D); [apply moves_ret|apply moves_throw].
Qed.

  (** Writes to the mirror. *)
Lemma moves_modify_system f :
    (forall s, Sys.dev (f s) = Sys.dev s /\
               RY r (sys_head s) (sys_head (f s))) ->
    moves api r (State.modify_system (HW := HW) f).
Proof.
    intros Hf w a w' [= _ <-]. destruct (Hf (cuda_system_info w)).
    split; [|apply same_masks_refl]. cbn. by apply sys_rel_head.
Qed.
Lemma moves_modify_dev f d :
    (forall D, RD r d (dev_head D) (dev_head (f D)) /\ Dev.sm (f D) = Dev.sm D) ->
    moves api r (State.modify_dev (HW := HW) f d).
Proof.
    intros Hf w a w' [= _ <-]. split; [|apply same_masks_refl]. cbn.
    apply sys_rel_update_dev; auto. apply RY_refl, Hr.
Qed.
Lemma moves_modify_sm f d i :
    (forall S, RS r d i (sm_head S) (sm_head (f S)) /\ Sm.wp (f S) = Sm.wp S) ->
    moves api r (State.modify_sm (HW := HW) f d i).
Proof.
    intros Hf w a w' [= _ <-]. split; [|apply same_masks_refl]. cbn.
    apply sys_rel_update_sm; auto.
Qed.
Lemma moves_modify_warp f d i j :
    (forall X, RW r d i j X (f X)) ->
    moves api r (State.modify_warp (HW := HW) f d i j).
Proof.
    intros Hf w a w' [= _ <-]. split; [|apply same_masks_refl]. cbn.
    apply sys_rel_update_warp; auto.
Qed.
Lemma moves_modify_lane f d i j k :
    (forall X, RW r d i j X (Warp.set_ln (alter f k (Warp.ln X)) X)) ->
    moves api r (State.modify_lane (HW := HW) f d i j k).
Proof. intros Hf. by apply moves_modify_warp. Qed.
End Moves.

End DriftFacts.

Ltac moves_step :=
  match goal with
  | |- moves _ _ (ret _) => apply moves_ret
  | |- moves _ _ (throw _) => apply moves_throw
  | |- moves _ _ (error _) => apply moves_error
  | |- moves _ _ (gets _) => apply moves_gets
  | |- moves _ _ (gdb_assert _ _) => apply moves_gdb_assert
  | |- moves _ _ (when _ _) => apply moves_when
  | |- moves _ _ (for_upto _ _) => apply moves_for_upto; [|intros ?]
  | |- moves _ _ (for_each _ _) => apply moves_for_each; [|intros ?]
  | |- moves _ _ (State.api_read _ _) => apply moves_api_read
  | |- moves _ _ (modify (log_api _)) => apply moves_log_api
  | |- moves _ _ (modify (log_host _)) => apply moves_log_host
  | |- moves _ _ (State.read_dev _) => apply moves_read_dev
  | |- moves _ _ (State.read_sm _ _) => apply moves_read_sm
  | |- moves _ _ (State.read_warp _ _ _) => apply moves_read_warp
  | |- moves _ _ (State.read_lane _ _ _ _) => apply moves_read_lane
  | |- moves _ _ (State.read_contexts _) => apply moves_read_contexts
  | |- moves _ _ (bind _ _) => apply moves_bind; [| |intros ?]
  | |- moves _ _ (if ?b then _ else _) => destruct b
  | |- moves _ _ (match ?x with _ => _ end) => destruct x
  end.

(** ** What the environment may do *)

Section EnvFacts.
Local Open Scope nat_scope.
Context {HW : Type} (L : limits) (api : debug_api HW).
Local Abbreviation W := (world HW).
Implicit Type w : W.

Lemma bounded_latch_refl limit p n : bounded_latch limit p p n n.
Proof. split; [done|by left]. Qed.
Lemma bounded_latch_trans limit p1 p2 p3 n1 n2 n3 :
  bounded_latch limit p1 p2 n1 n2 -> bounded_latch limit p2 p3 n2 n3 ->
  bounded_latch limit p1 p3 n1 n3.
Proof.
  intros [H1 H1'] [H2 H2']. split.
  - intros Hp. destruct (H1 Hp) as [Hp' E]. destruct (H2 Hp') as [? ?].
    split; congruence.
  - intros Hp. destruct (H2' Hp) as [Hp'|Hle]; [|by right].
    destruct (H1' Hp') as [?|Hle]; [by left|right].
    destruct (H2 Hp') as [_ ->]. done.
Qed.
Lemma bounded_latch_le limit p p' n n' :
  bounded_latch limit p p' n n' ->
  (p = true -> n <= limit) -> p' = true -> n' <= limit.
Proof.
  intros [H1 H2] Hle Hp'. destruct (H2 Hp') as [Hp|?]; [|done].
  destruct (H1 Hp) as [_ ->]. auto.
Qed.
Lemma bounded_latch_latch limit p p' n n' :
  bounded_latch limit p p' n n' -> latch p p' n n'.
Proof. by intros [H _]. Qed.

Lemma dev_bounds_refl D : dev_bounds L D D.
Proof. repeat split; auto. Qed.
Lemma dev_bounds_trans D1 D2 D3 :
  dev_bounds L D1 D2 -> dev_bounds L D2 D3 -> dev_bounds L D1 D3.
Proof.
  intros (H1 & H2 & H3) (H4 & H5 & H6).
  split; [|split]; eapply bounded_latch_trans; eauto.
Qed.
Lemma dev_bounds_eq D D' : dev_counts D' = dev_counts D -> dev_bounds L D D'.
Proof.
  unfold dev_counts, dev_bounds. intros [= -> -> -> -> -> ->].
  repeat split; auto.
Qed.
Lemma dev_bounds_latch D D' : dev_bounds L D D' -> dev_counts_latch D D'.
Proof.
  intros (H1 & H2 & H3).
  split; [|split]; eapply bounded_latch_latch; eauto.
Qed.

Lemma r_env_preorder : preorder (r_env L).
Proof.
  split; cbn.
  - intros. apply bounded_latch_refl.
  - intros. apply dev_bounds_refl.
  - done.
  - intros. split; [done|]. by apply list_rel_refl.
  - intros x y z. apply bounded_latch_trans.
  - intros d x y z. apply dev_bounds_trans.
  - intros. congruence.
  - intros d i j x y z [E1 H1] [E2 H2]. split; [congruence|].
    eapply list_rel_trans; [|exact H1|exact H2]. cbn. intros. congruence.
Qed.

Lemma r_env_sub_loose : sub (r_env L) r_loose.
Proof.
  split; [|split; [|split]]; cbn; auto.
  - intros x y. apply bounded_latch_latch.
  - intros _. apply dev_bounds_latch.
  - intros _ _ _ X X' [E H]. unfold lane_masks in E.
    injection E as E1 E2 E3 E4. unfold warp_ext, latch.
    rewrite E1, E2, E3, E4. done.
Qed.
Lemma r_env_sub_fade : sub (r_env L) r_fade.
Proof.
  split; [|split; [|split]]; cbn; auto.
  - intros x y. apply bounded_latch_latch.
  - intros _. apply dev_bounds_latch.
  - intros _ _ S S' E. unfold sm_mask in E. injection E as E1 E2.
    unfold fades. rewrite E1, E2. done.
  - intros _ _ _ X X' [E H]. unfold lane_masks in E.
    injection E as E1 E2 E3 E4. unfold fades.
    rewrite E1, E2, E3, E4. done.
Qed.

Lemma fades_refl {A} p (v : A) : fades p p v v.
Proof. done. Qed.
Lemma fades_trans {A} p1 p2 p3 (v1 v2 v3 : A) :
  fades p1 p2 v1 v2 -> fades p2 p3 v2 v3 -> fades p1 p3 v1 v3.
Proof.
  intros H1 H2 Hp. destruct (H2 Hp) as [Hp2 ->]. by apply H1.
Qed.
Lemma r_fade_preorder : preorder r_fade.
Proof.
  split; cbn.
  - intros. apply latch_refl.
  - intros. apply dev_counts_latch_refl.
  - intros. apply fades_refl.
  - intros. split; apply fades_refl.
  - intros. eapply latch_trans; eassumption.
  - intros. eapply dev_counts_latch_trans; eauto.
  - intros d i x y z. apply fades_trans.
  - intros d i j x y z [H1 H2] [H3 H4]. split; eapply fades_trans; eauto.
Qed.
Lemma r_fade_sub_latch : sub r_fade r_latch.
Proof. split; [|split; [|split]]; cbn; auto. Qed.

(** Writes that the environment may make. *)
Lemma env_modify_lane f d i j k :
  (forall l, pc_data (f l) = pc_data l) ->
  moves api (r_env L) (State.modify_lane (HW := HW) f d i j k).
Proof.
  intros Hf. apply moves_modify_lane; [apply r_env_preorder|].
  intros X. cbn. split; [by destruct X|].
  apply list_rel_alter; auto.
Qed.
Lemma env_modify_warp f d i j :
  (forall X, lane_masks (f X) = lane_masks X /\ Warp.ln (f X) = Warp.ln X) ->
  moves api (r_env L) (State.modify_warp (HW := HW) f d i j).
Proof.
  intros Hf. apply moves_modify_warp; [apply r_env_preorder|].
  intros X. cbn. destruct (Hf X) as [-> ->]. split; [done|].
  by apply list_rel_refl.
Qed.
Lemma sm_mask_head Sx : sm_mask (sm_head Sx) = sm_mask Sx.
Proof. by destruct Sx. Qed.
Lemma env_modify_sm f d i :
  (forall Sx, sm_mask (f Sx) = sm_mask Sx /\ Sm.wp (f Sx) = Sm.wp Sx) ->
  moves api (r_env L) (State.modify_sm (HW := HW) f d i).
Proof.
  intros Hf. apply moves_modify_sm; [apply r_env_preorder|].
  intros Sx. destruct (Hf Sx) as [E ->]. split; [|done]. cbn.
  by rewrite !sm_mask_head.
Qed.
Lemma dev_counts_head D : dev_counts (dev_head D) = dev_counts D.
Proof. by destruct D. Qed.
Lemma env_modify_dev f d :
  (forall D, dev_counts (f D) = dev_counts D /\ Dev.sm (f D) = Dev.sm D) ->
  moves api (r_env L) (State.modify_dev (HW := HW) f d).
Proof.
  intros Hf. apply moves_modify_dev; [apply r_env_preorder|].
  intros D. destruct (Hf D) as [E ->]. split; [|done]. cbn.
  apply dev_bounds_eq. by rewrite !dev_counts_head.
Qed.
Lemma env_modify_system f :
  (forall s, Sys.dev (f s) = Sys.dev s /\
             Sys.num_devices_p (f s) = Sys.num_devices_p s /\
             Sys.num_devices (f s) = Sys.num_devices s) ->
  moves api (r_env L) (State.modify_system (HW := HW) f).
Proof.
  intros Hf. apply moves_modify_system; [apply r_env_preorder|].
  intros s. destruct (Hf s) as (Hd & Hp & Hn). split; [done|]. cbn.
  rewrite Hp, Hn. apply bounded_latch_refl.
Qed.

(** Writes within [r_fade]. *)
Lemma fade_modify_lane f d i j k :
  moves api r_fade (State.modify_lane (HW := HW) f d i j k).
Proof.
  apply moves_modify_lane; [apply r_fade_preorder|].
  intros X. cbn. by destruct X.
Qed.
Lemma fade_modify_warp f d i j :
  (forall X,
     fades (Warp.valid_lanes_mask_p X) (Warp.valid_lanes_mask_p (f X))
           (Warp.valid_lanes_mask X) (Warp.valid_lanes_mask (f X)) /\
     fades (Warp.active_lanes_mask_p X) (Warp.active_lanes_mask_p (f X))
           (Warp.active_lanes_mask X) (Warp.active_lanes_mask (f X))) ->
  moves api r_fade (State.modify_warp (HW := HW) f d i j).
Proof. intros Hf. apply moves_modify_warp; [apply r_fade_preorder|done]. Qed.
Lemma fade_modify_sm f d i :
  (forall Sx,
     fades (Sm.valid_warps_mask_p Sx) (Sm.valid_warps_mask_p (f Sx))
           (Sm.valid_warps_mask Sx) (Sm.valid_warps_mask (f Sx)) /\
     Sm.wp (f Sx) = Sm.wp Sx) ->
  moves api r_fade (State.modify_sm (HW := HW) f d i).
Proof.
  intros Hf. apply moves_modify_sm; [apply r_fade_preorder|].
  intros Sx. destruct (Hf Sx) as [E Ew]. split; [|done].
  unfold r_fade. cbn [RS].
  assert (Hh : forall S0,
            Sm.valid_warps_mask_p (sm_head S0) = Sm.valid_warps_mask_p S0 /\
            Sm.valid_warps_mask (sm_head S0) = Sm.valid_warps_mask S0)
    by (by intros []).
  destruct (Hh Sx) as [-> ->], (Hh (f Sx)) as [-> ->]. done.
Qed.
Lemma fade_modify_dev f d :
  (forall D, dev_counts (f D) = dev_counts D /\ Dev.sm (f D) = Dev.sm D) ->
  moves api r_fade (State.modify_dev (HW := HW) f d).
Proof.
  intros Hf. apply moves_modify_dev; [apply r_fade_preorder|].
  intros D. destruct (Hf D) as [E ->]. split; [|done]. cbn.
  apply dev_counts_latch_eq. by rewrite !dev_counts_head.
Qed.
Lemma fade_modify_system f :
  (forall s, Sys.dev (f s) = Sys.dev s /\
             Sys.num_devices_p (f s) = Sys.num_devices_p s /\
             Sys.num_devices (f s) = Sys.num_devices s) ->
  moves api r_fade (State.modify_system (HW := HW) f).
Proof.
  intros Hf. apply moves_modify_system; [apply r_fade_preorder|].
  intros s. destruct (Hf s) as (Hd & Hp & Hn). split; [done|]. cbn.
  unfold sys_latch. cbn. rewrite Hp, Hn. apply latch_refl.
Qed.
Lemma fade_env {A} (m : M W A) : moves api (r_env L) m -> moves api r_fade m.
Proof. apply moves_mono, r_env_sub_fade. Qed.

End EnvFacts.

Ltac env :=
  repeat first
    [ solve [eauto with env]
    | match goal with
      | |- moves _ _ (State.modify_lane _ _ _ _ _) =>
          apply env_modify_lane; by intros []
      | |- moves _ _ (State.modify_warp _ _ _ _) =>
          apply env_modify_warp; by intros []
      | |- moves _ _ (State.modify_sm _ _ _) =>
          apply env_modify_sm; by intros []
      | |- moves _ _ (State.modify_dev _ _) =>
          apply env_modify_dev; by intros []
      | |- moves _ _ (State.modify_system _) =>
          apply env_modify_system; by intros []
      | |- moves _ _ (modify _) => apply moves_off; [|by intros []]
      end
    | moves_step ].

Ltac fade :=
  repeat first
    [ solve [eauto with fade]
    | match goal with
      | |- moves _ _ (State.modify_lane _ _ _ _ _) => apply fade_modify_lane
      | |- moves _ _ (State.modify_warp _ _ _ _) =>
          apply fade_modify_warp; by intros []
      | |- moves _ _ (State.modify_sm _ _ _) =>
          apply fade_modify_sm; by intros []
      | |- moves _ _ (State.modify_dev _ _) =>
          apply fade_modify_dev; by intros []
      | |- moves _ _ (State.modify_system _) =>
          apply fade_modify_system; by intros []
      | |- moves _ _ (modify _) => apply moves_off; [|by intros []]
      end
    | moves_step ].

(** ** Functions that are steps of the environment *)

Section EnvOfFunctions.
Local Open Scope nat_scope.
Context {HW : Type} (L : limits) (api : debug_api HW).
Local Abbreviation W := (world HW).
Implicit Type w : W.

#[local] Hint Resolve r_env_preorder : env core.

(** The one place where the number of devices is written: the
    assertion that follows the fetch keeps it within the limit. *)
Lemma env_cuda_system_get_num_devices :
  moves api (r_env L) (State.cuda_system_get_num_devices L api).
Proof.
  unfold State.cuda_system_get_num_devices.
  intros w a w' H. peel H ini w1 H1. injection H1 as <- <-.
  destruct (negb (cuda_initialized w)).
  { injection H as _ <-. by apply drift_refl. }
  peel H s w1 H1. injection H1 as <- <-.
  destruct (Sys.num_devices_p (cuda_system_info w)) eqn:Hp.
  { injection H as _ <-. by apply drift_refl. }
  peel H n w2 H2. unfold State.cuda_api_get_num_devices, State.api_read in H2.
  msimpl_in H2. injection H2 as <- <-.
  unfold State.modify_system at 1 in H. rewrite bind_modify in H.
  destruct (_ <=? CUDBG_MAX_DEVICES L) eqn:Hle; [|done].
  apply Nat.leb_le in Hle.
  rewrite bind_assert_true in H. unfold State.modify_system in H.
  rewrite bind_modify in H. injection H as _ <-.
  split; [|apply same_masks_refl]. cbn [cuda_system_info set_system log_api].
  set (n := State.count _) in *.
  apply (sys_rel_head (r_env L) (cuda_system_info w)
           (fun s => Sys.set_num_devices_p CACHED (Sys.set_num_devices n s)));
    [done|done|].
  cbn. rewrite Hp. split; [done|]. intros _. by right.
Qed.
#[local] Hint Resolve env_cuda_system_get_num_devices : env.

Lemma env_assert_dev d : moves api (r_env L) (State.assert_dev L api d).
Proof. unfold State.assert_dev. env. Qed.
#[local] Hint Resolve env_assert_dev : env.

(** The three counts of a device are written by one pattern. *)
Lemma env_count_getter d (flag : Dev.t -> bool) (val : Dev.t -> nat)
    (set_val : nat -> Dev.t -> Dev.t) (set_flag : bool -> Dev.t -> Dev.t)
    (c : api_call) (f : HW -> nat) (limit : nat) (what : string) :
  (forall D n, flag D = false ->
     dev_bounds L (dev_head D) (dev_head (set_val n D)) /\
     Dev.sm (set_val n D) = Dev.sm D) ->
  (forall D n, flag D = false -> n <= limit ->
     dev_bounds L (dev_head (set_val n D))
                (dev_head (set_flag CACHED (set_val n D))) /\
     Dev.sm (set_flag CACHED (set_val n D)) = Dev.sm (set_val n D)) ->
  moves api (r_env L)
      (State.assert_dev L api d ;;
       D <- State.read_dev d ;;
       if flag D then ret (val D)
       else
         n <- State.api_read c f ;;
         State.modify_dev (set_val n) d ;;
         gdb_assert what (n <=? limit) ;;
         State.modify_dev (set_flag CACHED) d ;;
         ret n).
Proof.
  intros Hval Hflag.
  apply moves_bind; [done|apply env_assert_dev|]. intros _.
  intros w a w' H. peel H D w1 H1. apply read_dev_inv in H1 as [-> HD].
  destruct (flag D) eqn:Hp.
  { injection H as _ <-. by apply drift_refl. }
  peel H n w2 H2. unfold State.api_read in H2. msimpl_in H2.
  injection H2 as <- <-.
  unfold State.modify_dev at 1, State.modify_system in H.
  rewrite bind_modify in H.
  set (n := f _) in *.
  destruct (n <=? limit) eqn:Hle; [|done].
  apply Nat.leb_le in Hle.
  rewrite bind_assert_true in H. unfold State.modify_dev, State.modify_system in H.
  rewrite bind_modify in H. injection H as _ <-.
  split; [|apply same_masks_refl].
  cbn [cuda_system_info set_system log_api].
  apply (sys_rel_trans _ _ (State.update_dev (set_val n) d
                              (cuda_system_info w))); [done| |].
  - apply sys_rel_update_dev; [done| |apply bounded_latch_refl]. intros D0 HD0.
    assert (D0 = D) as -> by (cbn in HD0; congruence). by apply Hval.
  - apply sys_rel_update_dev; [done| |apply bounded_latch_refl]. intros D3 HD3.
    assert (D3 = set_val n D) as ->.
    { rewrite (dev_at_update_dev_eq _ _ _ D) in HD3; [congruence|exact HD]. }
    by apply Hflag.
Qed.

Lemma env_device_get_num_sms d :
  moves api (r_env L) (State.device_get_num_sms L api d).
Proof.
  apply env_count_getter.
  - intros D n Hp. split; [|by destruct D]. unfold dev_bounds.
    destruct D. cbn in *. subst. repeat split; auto; done.
  - intros D n Hp Hle. split; [|by destruct D]. unfold dev_bounds.
    destruct D. cbn in *. subst. repeat split; auto; done.
Qed.
Lemma env_device_get_num_warps d :
  moves api (r_env L) (State.device_get_num_warps L api d).
Proof.
  apply env_count_getter.
  - intros D n Hp. split; [|by destruct D]. unfold dev_bounds.
    destruct D. cbn in *. subst. repeat split; auto; done.
  - intros D n Hp Hle. split; [|by destruct D]. unfold dev_bounds.
    destruct D. cbn in *. subst. repeat split; auto; done.
Qed.
Lemma env_device_get_num_lanes d :
  moves api (r_env L) (State.device_get_num_lanes L api d).
Proof.
  apply env_count_getter.
  - intros D n Hp. split; [|by destruct D]. unfold dev_bounds.
    destruct D. cbn in *. subst. repeat split; auto; done.
  - intros D n Hp Hle. split; [|by destruct D]. unfold dev_bounds.
    destruct D. cbn in *. subst. repeat split; auto; done.
Qed.
#[local] Hint Resolve env_device_get_num_sms env_device_get_num_warps
  env_device_get_num_lanes : env.

Lemma env_assert_sm d i : moves api (r_env L) (State.assert_sm L api d i).
Proof. unfold State.assert_sm. env. Qed.
Lemma env_assert_wp d j : moves api (r_env L) (State.assert_wp L api d j).
Proof. unfold State.assert_wp. env. Qed.
Lemma env_assert_ln d k : moves api (r_env L) (State.assert_ln L api d k).
Proof. unfold State.assert_ln. env. Qed.
#[local] Hint Resolve env_assert_sm env_assert_wp env_assert_ln : env.

Lemma env_device_get_contexts d :
  moves api (r_env L) (State.device_get_contexts L api d).
Proof. unfold State.device_get_contexts. env. Qed.
#[local] Hint Resolve env_device_get_contexts : env.
Lemma env_device_is_any_context_present d :
  moves api (r_env L) (State.device_is_any_context_present L api d).
Proof.
  unfold State.device_is_any_context_present,
    State.contexts_is_any_context_present. env.
Qed.
#[local] Hint Resolve env_device_is_any_context_present : env.

(** The broken-warps mask of an SM is not among the fields that the
    operations of [mirror_op] read. *)
Lemma env_sm_get_broken_warps_mask d i :
  moves api (r_env L) (State.sm_get_broken_warps_mask L api d i).
Proof.
  unfold State.sm_get_broken_warps_mask, State.cuda_api_read_broken_warps.
  env.
Qed.
#[local] Hint Resolve env_sm_get_broken_warps_mask : env.
Lemma env_warp_is_broken d i j :
  moves api (r_env L) (State.warp_is_broken L api d i j).
Proof. unfold State.warp_is_broken. env. Qed.

(** The registry of contexts of a device. *)
Lemma env_device_initialize d :
  moves api (r_env L) (Context.device_initialize L api d).
Proof. unfold Context.device_initialize. env. Qed.
Lemma env_write_contexts d c :
  moves api (r_env L) (Context.write_contexts (HW := HW) d c).
Proof. unfold Context.write_contexts. env. Qed.
#[local] Hint Resolve env_write_contexts : env.
Lemma env_context_new id d :
  moves api (r_env L) (Context.context_new (HW := HW) id d).
Proof. unfold Context.context_new. env. Qed.
Lemma env_context_delete ctx :
  moves api (r_env L) (Context.context_delete (HW := HW) ctx).
Proof. unfold Context.context_delete. env. Qed.
Lemma env_context_get_id ctx :
  moves api (r_env L) (Context.context_get_id (HW := HW) ctx).
Proof. unfold Context.context_get_id. env. Qed.
Lemma env_contexts_add_context d ctx :
  moves api (r_env L) (Context.contexts_add_context (HW := HW) d ctx).
Proof. unfold Context.contexts_add_context. env. Qed.
Lemma env_contexts_remove_context d ctx :
  moves api (r_env L) (Context.contexts_remove_context (HW := HW) d ctx).
Proof. unfold Context.contexts_remove_context. env. Qed.
Lemma env_contexts_stack_context d ctx tid :
  moves api (r_env L) (Context.contexts_stack_context (HW := HW) d ctx tid).
Proof. unfold Context.contexts_stack_context. env. Qed.
Lemma env_contexts_unstack_context d tid :
  moves api (r_env L) (Context.contexts_unstack_context (HW := HW) d tid).
Proof. unfold Context.contexts_unstack_context. env. Qed.
Lemma env_contexts_get_active_context d tid :
  moves api (r_env L) (Context.contexts_get_active_context (HW := HW) d tid).
Proof. unfold Context.contexts_get_active_context. env. Qed.
Lemma env_contexts_find_context_by_id d id :
  moves api (r_env L) (Context.contexts_find_context_by_id (HW := HW) d id).
Proof. unfold Context.contexts_find_context_by_id. env. Qed.
Lemma env_set_current_context ctx :
  moves api (r_env L) (Context.set_current_context (HW := HW) ctx).
Proof. unfold Context.set_current_context. env. Qed.
#[local] Hint Resolve env_context_new env_context_delete env_context_get_id
  env_contexts_add_context env_contexts_remove_context
  env_contexts_stack_context env_contexts_unstack_context
  env_contexts_get_active_context env_contexts_find_context_by_id
  env_set_current_context : env.
Lemma env_device_find_context_by_id d id :
  moves api (r_env L) (Context.device_find_context_by_id L api d id).
Proof. unfold Context.device_find_context_by_id. env. Qed.
#[local] Hint Resolve env_device_find_context_by_id : env.

(** The handlers of the events. *)
Lemma env_host c : moves api (r_env L) (Events.host (HW := HW) c).
Proof. unfold Events.host. env. Qed.
#[local] Hint Resolve env_host : env.
Lemma env_show_context_event what id d :
  moves api (r_env L) (Events.show_context_event (HW := HW) what id d).
Proof. unfold Events.show_context_event. env. Qed.
#[local] Hint Resolve env_show_context_event : env.

Lemma env_cuda_process_event e :
  moves api (r_env L) (Events.cuda_process_event L api e).
Proof.
  destruct e; cbn [Events.cuda_process_event];
    unfold Events.cuda_event_load_elf_image, Events.cuda_event_kernel_ready,
      Events.cuda_event_kernel_finished, Events.cuda_event_push_context,
      Events.cuda_event_pop_context, Events.cuda_event_create_context,
      Events.cuda_event_destroy_context, Events.cuda_event_internal_error,
      Events.cuda_event_timeout, Events.cuda_api_set_attach_state,
      Events.cuda_api_get_attach_state, Context.get_current_context;
    env.
Qed.

Lemma env_drain q : forall e, moves api (r_env L) (Events.drain L api e q).
Proof.
  induction q as [|e' q IH]; intros e.
  - destruct e; cbn [Events.drain];
      try (apply moves_bind; [done|apply env_cuda_process_event|intros _]);
      by apply moves_ret.
  - destruct e; cbn [Events.drain];
      try (apply moves_bind; [done|apply env_cuda_process_event|intros _]);
      first [by apply moves_ret|apply IH].
Qed.
Lemma env_cuda_process_events e q kind :
  moves api (r_env L) (Events.cuda_process_events L api e q kind).
Proof.
  unfold Events.cuda_process_events, Events.cuda_event_post_process.
  apply moves_bind; [done|apply env_drain|]. intros _. env.
Qed.

End EnvOfFunctions.

(** ** Functions that only drop cached masks *)

Section FadeOfFunctions.
Local Open Scope nat_scope.
Context {HW : Type} (L : limits) (api : debug_api HW).
Local Abbreviation W := (world HW).
Implicit Type w : W.

#[local] Hint Resolve r_fade_preorder : fade core.

Lemma fade_cuda_system_get_num_devices :
  moves api r_fade (State.cuda_system_get_num_devices L api).
Proof. apply (fade_env L), env_cuda_system_get_num_devices. Qed.
Lemma fade_assert_dev d : moves api r_fade (State.assert_dev L api d).
Proof. apply (fade_env L), env_assert_dev. Qed.
Lemma fade_assert_sm d i : moves api r_fade (State.assert_sm L api d i).
Proof. apply (fade_env L), env_assert_sm. Qed.
Lemma fade_assert_wp d j : moves api r_fade (State.assert_wp L api d j).
Proof. apply (fade_env L), env_assert_wp. Qed.
Lemma fade_assert_ln d k : moves api r_fade (State.assert_ln L api d k).
Proof. apply (fade_env L), env_assert_ln. Qed.
Lemma fade_device_get_num_sms d :
  moves api r_fade (State.device_get_num_sms L api d).
Proof. apply (fade_env L), env_device_get_num_sms. Qed.
Lemma fade_device_get_num_warps d :
  moves api r_fade (State.device_get_num_warps L api d).
Proof. apply (fade_env L), env_device_get_num_warps. Qed.
Lemma fade_device_get_num_lanes d :
  moves api r_fade (State.device_get_num_lanes L api d).
Proof. apply (fade_env L), env_device_get_num_lanes. Qed.
Lemma fade_device_is_any_context_present d :
  moves api r_fade (State.device_is_any_context_present L api d).
Proof. apply (fade_env L), env_device_is_any_context_present. Qed.
#[local] Hint Resolve fade_cuda_system_get_num_devices fade_assert_dev
  fade_assert_sm fade_assert_wp fade_assert_ln fade_device_get_num_sms
  fade_device_get_num_warps fade_device_get_num_lanes
  fade_device_is_any_context_present : fade.

Lemma fade_lane_invalidate d i j k :
  moves api r_fade (State.lane_invalidate L api d i j k).
Proof. unfold State.lane_invalidate. fade. Qed.
#[local] Hint Resolve fade_lane_invalidate : fade.
Lemma fade_warp_invalidate d i j :
  moves api r_fade (State.warp_invalidate L api d i j).
Proof. unfold State.warp_invalidate. fade. Qed.
#[local] Hint Resolve fade_warp_invalidate : fade.
Lemma fade_sm_invalidate d i rec :
  moves api r_fade (State.sm_invalidate L api d i rec).
Proof. unfold State.sm_invalidate. fade. Qed.
#[local] Hint Resolve fade_sm_invalidate : fade.
Lemma fade_device_invalidate d :
  moves api r_fade (State.device_invalidate L api d).
Proof.
  unfold State.device_invalidate, State.device_invalidate_kernels. fade.
Qed.

End FadeOfFunctions.
(** ** Reachable worlds *)

Section ReachableFacts.
Local Open Scope nat_scope.

Section Reach.
Context {HW : Type} (L : limits) (api : debug_api HW).
Local Abbreviation W := (world HW).
Implicit Type w : W.

Lemma warp_at_zero d i j X :
    warp_at (zero_system L) d i j = Some X ->
    X = Warp.zero (CUDBG_MAX_LANES L).
Proof.
    unfold warp_at, sm_at, dev_at, zero_system. cbn.
    destruct (replicate _ _ !! d) as [D|] eqn:HD; [|done].
    apply lookup_replicate in HD as [-> _]. cbn.
    destruct (replicate _ _ !! i) as [Sx|] eqn:HS; [|done].
    apply lookup_replicate in HS as [-> _]. cbn.
    intros H. by apply lookup_replicate in H as [-> _].
Qed.

Lemma coherent_zero s w :
    cuda_system_info w = zero_system L -> coherent s w.
Proof.
    intros E d i j X k l HX Hl Hp. rewrite E in HX.
    apply warp_at_zero in HX as ->. cbn in Hl.
    apply lookup_replicate in Hl as [-> _]. by destruct s.
Qed.

Lemma coherent_same s w w' :
    cuda_system_info w' = cuda_system_info w -> coherent s w -> coherent s w'.
Proof.
    intros E Hc d i j X k l HX Hl Hp. rewrite E in HX.
    unfold coherent, lanes_known in *. rewrite E. eauto.
Qed.

Lemma keeps_void (I : W -> Prop) {A} (m : M W A) : keeps I m -> keeps I (void m).
Proof. intros H. apply keeps_bind; [done|]. intros. apply keeps_ret. Qed.

Lemma keeps_spec_ext s {A} (m : M W A) (Q : A -> W -> Prop) :
    spec m (fun w a w' => step_rel r_ext w w' /\ Q a w') ->
    keeps (coherent s) m.
Proof.
    intros H. apply keeps_coherent_ext. intros w a w' Hm.
    by destruct (H _ _ _ Hm).
Qed.

Lemma keeps_asserts3 s d i j {A} (k : M W A) :
    keeps (coherent s) k ->
    keeps (coherent s)
      (State.assert_dev L api d ;; State.assert_sm L api d i ;;
       State.assert_wp L api d j ;; k).
Proof.
    intros Hk.
    apply keeps_bind; [apply keeps_counts, may_assert_dev|]. intros _.
    apply keeps_bind; [apply keeps_counts, may_assert_sm|]. intros _.
    apply keeps_bind; [apply keeps_counts, may_assert_wp|]. intros _. done.
Qed.

Lemma keeps_divergent s d i j :
    keeps (coherent s) (State.warp_get_divergent_lanes_mask L api d i j).
Proof.
    unfold State.warp_get_divergent_lanes_mask. apply keeps_asserts3.
    apply keeps_bind.
    { eapply keeps_spec_ext, warp_get_valid_lanes_mask_spec. } intros v.
    apply keeps_bind; [|intros; apply keeps_ret].
    eapply keeps_spec_ext, warp_get_active_lanes_mask_spec.
Qed.

Lemma keeps_lane_is_divergent s d i j k :
    keeps (coherent s) (State.lane_is_divergent L api d i j k).
Proof.
    unfold State.lane_is_divergent. apply keeps_asserts3.
    apply keeps_bind; [apply keeps_counts, may_assert_ln|]. intros _.
    apply keeps_bind.
    { unfold State.assert_lane_is_valid. apply keeps_bind.
      - eapply keeps_spec_ext, lane_is_valid_spec.
      - intros b. apply keeps_coherent_ext, may_gdb_assert, r_ext_preorder. }
    intros _. apply keeps_bind; [apply keeps_divergent|].
    intros; apply keeps_ret.
Qed.

Lemma keeps_system_initialize s :
    keeps (coherent s) (Context.cuda_system_initialize L api).
Proof.
    unfold Context.cuda_system_initialize. intros w u w' _ H.
    peel H ini w1 H1. injection H1 as <- <-.
    destruct (cuda_initialized w); [|done]. rewrite bind_assert_true in H.
    unfold State.modify_system in H. rewrite bind_modify in H.
    assert (Hk : keeps (coherent s)
                   (n <- State.cuda_system_get_num_devices L api ;;
                    for_upto n (Context.device_initialize L api))).
    { apply keeps_bind.
      - apply keeps_counts. intros wa n wb Hn.
        by apply cuda_system_get_num_devices_spec in Hn as [? _].
      - intros n. apply keeps_for_each. intros d.
        unfold Context.device_initialize.
        apply keeps_bind; [apply keeps_counts, may_assert_dev|]. intros _.
        apply keeps_loose, may_modify_dev; [apply r_loose_preorder|].
        intros D. split; [|by destruct D]. apply dev_counts_latch_eq.
        by destruct D. }
    eapply Hk; [|exact H]. by apply coherent_zero.
Qed.

Lemma keeps_lane_get s d i j k :
    keeps both_coherent (lane_get L api s d i j k).
Proof.
    intros w pc w' [Hp Hv] H.
    destruct s.
    - destruct (lane_get_spec L api Pc d i j k w pc w' Hp Hv H) as (?&?&_).
      by split.
    - destruct (lane_get_spec L api VirtualPc d i j k w pc w' Hv Hp H)
        as (?&?&_). by split.
Qed.

Lemma keeps_both {A} (m : M W A) :
    (forall s, keeps (coherent s) m) -> keeps both_coherent m.
Proof. intros H w a w' [Hp Hv] Hm. split; eapply H; eauto. Qed.

Lemma keeps_run_op o : keeps both_coherent (run_op L api o).
Proof.
    destruct o; cbn [run_op]; try apply keeps_void.
    - apply keeps_both. intros. apply keeps_system_initialize.
    - apply keeps_both. intros. apply keeps_counts, may_device_get_num_sms.
    - apply keeps_both. intros. apply keeps_counts, may_device_get_num_warps.
    - apply keeps_both. intros. apply keeps_counts, may_device_get_num_lanes.
    - apply keeps_both. intros. apply keeps_device_invalidate.
    - apply keeps_both. intros. apply keeps_device_suspend.
    - apply keeps_both. intros. apply keeps_device_resume.
    - apply keeps_both. intros. apply keeps_coherent_ext.
      eapply may_mono; [apply r_smfill_sub_ext|].
      apply smfill_sm_get_valid_warps_mask.
    - apply keeps_both. intros. apply keeps_warp_single_step.
    - apply keeps_both. intros. apply keeps_coherent_ext.
      eapply may_mono; [apply r_smfill_sub_ext|]. apply smfill_warp_is_valid.
    - apply keeps_both. intros.
      eapply keeps_spec_ext, warp_get_valid_lanes_mask_spec.
    - apply keeps_both. intros.
      eapply keeps_spec_ext, warp_get_active_lanes_mask_spec.
    - apply keeps_both. intros. apply keeps_divergent.
    - apply keeps_both. intros. eapply keeps_spec_ext, lane_is_valid_spec.
    - apply keeps_both. intros. eapply keeps_spec_ext, lane_is_active_spec.
    - apply keeps_both. intros. apply keeps_lane_is_divergent.
    - apply (keeps_lane_get Pc).
    - apply (keeps_lane_get VirtualPc).
Qed.

  (** What the environment does leaves the pc slots coherent. *)
Lemma step_of_drift r w w' :
    drift api r w w' -> step_rel r w (set_system (cuda_system_info w') w).
Proof. intros [Hs _]. by destruct w. Qed.
Lemma coherent_drift s w w' :
    drift api r_loose w w' -> coherent s w -> coherent s w'.
Proof.
    intros Hd Hc.
    apply (coherent_same s (set_system (cuda_system_info w') w));
      [by destruct w|].
    eapply coherent_loose; [|exact Hc]. by apply step_of_drift.
Qed.
Lemma coherent_env s w w' : env_step L api w w' -> coherent s w -> coherent s w'.
Proof.
    intros He. apply coherent_drift. eapply drift_mono; [|exact He].
    apply r_env_sub_loose.
Qed.

Lemma reachable_coherent w : reachable L api w -> both_coherent w.
Proof.
    induction 1 as [w E|w o u w' _ IH H|w w' _ IH E].
    - split; by apply coherent_zero.
    - eapply keeps_run_op; eauto.
    - destruct IH. split; by apply (coherent_env _ w).
Qed.

  (** Sequences of operations and of steps of the environment. *)
Lemma closed_ret {A} (a : A) : closed L api (ret a).
Proof. by intros w a' w' Hw [= _ <-]. Qed.
Lemma closed_bind {A B} (m : M W A) (k : A -> M W B) :
    closed L api m -> (forall a, closed L api (k a)) -> closed L api (bind m k).
Proof.
    intros Hm Hk w b w' Hw H. peel H a w1 H1. eapply Hk; [|exact H].
    eapply Hm; eauto.
Qed.
Lemma closed_env {A} (m : M W A) : moves api (r_env L) m -> closed L api m.
Proof. intros Hm w a w' Hw H. eapply reach_env; [exact Hw|]. eapply Hm, H. Qed.
Lemma closed_op o : closed L api (run_op L api o).
Proof. intros w u w' Hw H. eapply reach_call; eauto. Qed.
Lemma closed_unvoid {A} (m : M W A) : closed L api (void m) -> closed L api m.
Proof.
    intros Hm w a w' Hw H. apply (Hm w tt w' Hw). unfold void.
    by rewrite (bind_done _ _ _ _ _ H).
Qed.

  (** The handlers of the events lead from reachable worlds to
      reachable worlds: they write the registries of contexts. *)
Lemma closed_cuda_process_event e :
    closed L api (Events.cuda_process_event L api e).
Proof. apply closed_env, env_cuda_process_event. Qed.
Lemma closed_cuda_process_events e q kind :
    closed L api (Events.cuda_process_events L api e q kind).
Proof. apply closed_env, env_cuda_process_events. Qed.

  (** So do the functions of the mirror that are not among the
      operations of [mirror_op]. *)
Lemma closed_device_is_any_context_present d :
    closed L api (State.device_is_any_context_present L api d).
Proof. apply closed_env, env_device_is_any_context_present. Qed.
Lemma closed_sm_get_broken_warps_mask d i :
    closed L api (State.sm_get_broken_warps_mask L api d i).
Proof. apply closed_env, env_sm_get_broken_warps_mask. Qed.
Lemma closed_warp_is_broken d i j :
    closed L api (State.warp_is_broken L api d i j).
Proof. apply closed_env, env_warp_is_broken. Qed.
Lemma closed_sm_is_valid d i : closed L api (State.sm_is_valid L api d i).
Proof.
    unfold State.sm_is_valid.
    apply closed_bind; [apply closed_env, env_assert_dev|]. intros _.
    apply closed_bind; [apply closed_env, env_assert_sm|]. intros _.
    apply closed_bind; [|intros; apply closed_ret].
    apply closed_unvoid, (closed_op (Op_sm_get_valid_warps_mask d i)).
Qed.
Lemma closed_warp_get_lowest_active_lane d i j :
    closed L api (State.warp_get_lowest_active_lane L api d i j).
Proof.
    unfold State.warp_get_lowest_active_lane.
    apply closed_bind; [apply closed_env, env_assert_dev|]. intros _.
    apply closed_bind; [apply closed_env, env_assert_sm|]. intros _.
    apply closed_bind; [apply closed_env, env_assert_wp|]. intros _.
    apply closed_bind;
      [apply closed_unvoid, (closed_op (Op_warp_get_active_lanes_mask d i j))|].
    intros m. apply closed_bind; [|intros; apply closed_ret].
    apply closed_env, env_device_get_num_lanes.
Qed.
Lemma closed_warp_get_active_pc d i j :
    closed L api (State.warp_get_active_pc L api d i j).
Proof.
    unfold State.warp_get_active_pc.
    apply closed_bind; [apply closed_env, env_assert_dev|]. intros _.
    apply closed_bind; [apply closed_env, env_assert_sm|]. intros _.
    apply closed_bind; [apply closed_env, env_assert_wp|]. intros _.
    apply closed_bind; [apply closed_warp_get_lowest_active_lane|].
    intros k. apply closed_unvoid, (closed_op (Op_lane_get_pc d i j k)).
Qed.
Lemma closed_warp_get_active_virtual_pc d i j :
    closed L api (State.warp_get_active_virtual_pc L api d i j).
Proof.
    unfold State.warp_get_active_virtual_pc.
    apply closed_bind; [apply closed_env, env_assert_dev|]. intros _.
    apply closed_bind; [apply closed_env, env_assert_sm|]. intros _.
    apply closed_bind; [apply closed_env, env_assert_wp|]. intros _.
    apply closed_bind; [apply closed_warp_get_lowest_active_lane|].
    intros k. apply closed_unvoid, (closed_op (Op_lane_get_virtual_pc d i j k)).
Qed.
End Reach.

End ReachableFacts.

(** ** The mirror keeps its shape *)

Create HintDb shape.

Ltac shape_step :=
  first
    [ apply may_ret | apply may_throw | apply may_gets | apply may_gdb_assert
    | apply may_when | apply may_for_upto; [|intros ?]
    | apply may_for_each; [|intros ?]
    | apply may_api_read | apply may_log_api | apply may_log_host
    | apply may_set_hw
    | apply may_read_dev | apply may_read_sm | apply may_read_warp
    | apply may_read_lane
    | apply may_bind; [| |intros ?]
    | match goal with
      | |- may _ (if ?b then _ else _) => destruct b
      | |- may _ (match ?x with _ => _ end) => destruct x
      end ].

Section ShapeFacts.
Local Open Scope nat_scope.
Context {HW : Type} (L : limits) (api : debug_api HW).
Local Abbreviation W := (world HW).
Implicit Type w : W.

Lemma lanes_latch_refl D : lanes_latch L D D.
Proof. split; [done|by left]. Qed.

Lemma r_shape_preorder : preorder (r_shape L).
Proof.
  split; cbn; auto.
  - intros. apply lanes_latch_refl.
  - intros d x y z [H1 H1'] [H2 H2']. split.
    + intros Hp. destruct (H1 Hp) as [Hp' E]. destruct (H2 Hp') as [? ?].
      split; congruence.
    + intros Hp. destruct (H2' Hp) as [Hp'|Hle]; [|by right].
      destruct (H1' Hp') as [?|Hle]; [by left|right].
      destruct (H2 Hp') as [_ ->]. done.
  - intros. congruence.
Qed.
#[local] Hint Resolve r_shape_preorder : shape core.

Lemma well_formed_stable w w' :
  step_rel (r_shape L) w w' -> well_formed L w -> well_formed L w'.
Proof.
  intros [Hs _] [Hlen Hle]. split.
  - intros d i j X' HX'.
    destruct (sys_rel_warp_r _ _ _ _ _ _ _ Hs HX') as (X & HX & E).
    cbn in E. rewrite E. eauto.
  - intros d D' HD' Hp.
    destruct (sys_rel_dev_r _ _ _ _ _ Hs HD') as (D & HD & [H1 H2] & _).
    specialize (Hle d D HD). destruct D, D'. cbn in *.
    destruct (H2 Hp) as [Hp0|?]; [|done].
    destruct (H1 Hp0) as [_ ->]. auto.
Qed.

Lemma well_formed_zero w :
  cuda_system_info w = zero_system L -> well_formed L w.
Proof.
  intros E. split; rewrite E.
  - intros d i j X HX. apply warp_at_zero in HX as ->. cbn.
    apply length_replicate.
  - intros d D HD. unfold dev_at, zero_system in HD. cbn in HD.
    apply lookup_replicate in HD as [-> _]. done.
Qed.

Lemma well_formed_same w w' :
  cuda_system_info w' = cuda_system_info w -> well_formed L w ->
  well_formed L w'.
Proof. unfold well_formed. by intros ->. Qed.

(** Writes that keep the shape. *)
Lemma shape_modify_lane f d i j k :
  may (r_shape L) (State.modify_lane (HW := HW) f d i j k).
Proof.
  apply may_modify_lane; [done|]. intros X. cbn. by rewrite length_alter.
Qed.
Lemma shape_modify_warp f d i j :
  (forall X, Warp.ln (f X) = Warp.ln X) ->
  may (r_shape L) (State.modify_warp (HW := HW) f d i j).
Proof. intros Hf. apply may_modify_warp; [done|]. intros X. cbn. by rewrite Hf. Qed.
Lemma shape_modify_sm f d i :
  (forall Sx, Sm.wp (f Sx) = Sm.wp Sx) ->
  may (r_shape L) (State.modify_sm (HW := HW) f d i).
Proof. intros Hf. apply may_modify_sm; [done|]. intros Sx. by split. Qed.
Lemma shape_modify_dev f d :
  (forall D, Dev.sm (f D) = Dev.sm D /\
             Dev.num_lanes_p (f D) = Dev.num_lanes_p D /\
             Dev.num_lanes (f D) = Dev.num_lanes D) ->
  may (r_shape L) (State.modify_dev (HW := HW) f d).
Proof.
  intros Hf. apply may_modify_dev; [done|]. intros D.
  destruct (Hf D) as (Hsm & Hp & Hn). split; [|done]. cbn.
  assert (Hh : forall D0, Dev.num_lanes_p (dev_head D0) = Dev.num_lanes_p D0 /\
                          Dev.num_lanes (dev_head D0) = Dev.num_lanes D0)
    by (by intros []).
  unfold lanes_latch. destruct (Hh D) as [-> ->], (Hh (f D)) as [-> ->].
  rewrite Hp, Hn. split; [done|by left].
Qed.
Lemma shape_modify_system f :
  (forall s, Sys.dev (f s) = Sys.dev s) ->
  may (r_shape L) (State.modify_system (HW := HW) f).
Proof.
  intros Hf w a w' [= _ <-]. split; [|done]. cbn.
  apply (sys_rel_head (r_shape L) (cuda_system_info w) f); auto. done.
Qed.
End ShapeFacts.

Ltac shape :=
  repeat first
    [ solve [eauto with shape]
    | match goal with
      | |- may _ (State.modify_lane _ _ _ _ _) => apply shape_modify_lane
      | |- may _ (State.modify_warp _ _ _ _) =>
          apply shape_modify_warp; by intros []
      | |- may _ (State.modify_sm _ _ _) =>
          apply shape_modify_sm; by intros []
      | |- may _ (State.modify_dev _ _) =>
          apply shape_modify_dev; by intros []
      | |- may _ (State.modify_system _) =>
          apply shape_modify_system; by intros []
      end
    | shape_step ].

Section ShapeOfOperations.
Local Open Scope nat_scope.
Context {HW : Type} (L : limits) (api : debug_api HW).
Local Abbreviation W := (world HW).
Implicit Type w : W.

#[local] Hint Resolve r_shape_preorder : shape core.

Lemma shape_cuda_system_get_num_devices :
  may (r_shape L) (State.cuda_system_get_num_devices L api).
Proof.
  unfold State.cuda_system_get_num_devices, State.cuda_api_get_num_devices.
  shape.
Qed.
#[local] Hint Resolve shape_cuda_system_get_num_devices : shape.

Lemma shape_assert_dev d : may (r_shape L) (State.assert_dev L api d).
Proof. unfold State.assert_dev. shape. Qed.
#[local] Hint Resolve shape_assert_dev : shape.

Lemma shape_device_get_num_sms d :
  may (r_shape L) (State.device_get_num_sms L api d).
Proof.
  unfold State.device_get_num_sms, State.cuda_api_get_num_sms. shape.
Qed.
Lemma shape_device_get_num_warps d :
  may (r_shape L) (State.device_get_num_warps L api d).
Proof.
  unfold State.device_get_num_warps, State.cuda_api_get_num_warps. shape.
Qed.
#[local] Hint Resolve shape_device_get_num_sms shape_device_get_num_warps : shape.

Lemma dev_head_lanes D :
  Dev.num_lanes_p (dev_head D) = Dev.num_lanes_p D /\
  Dev.num_lanes (dev_head D) = Dev.num_lanes D.
Proof. by destruct D. Qed.

(** The one place where the lane count is written: the assertion that
    follows the fetch keeps it within the limit. *)
Lemma shape_device_get_num_lanes d :
  may (r_shape L) (State.device_get_num_lanes L api d).
Proof.
  unfold State.device_get_num_lanes.
  apply may_bind; [done|apply shape_assert_dev|]. intros _.
  intros w a w' H. peel H D w1 H1. apply read_dev_inv in H1 as [-> HD].
  destruct (Dev.num_lanes_p D) eqn:Hp.
  { injection H as _ <-. by apply step_rel_refl. }
  peel H n w2 H2. unfold State.cuda_api_get_num_lanes, State.api_read in H2.
  msimpl_in H2. injection H2 as <- <-.
  unfold State.modify_dev at 1, State.modify_system in H.
  rewrite bind_modify in H.
  destruct (_ <=? CUDBG_MAX_LANES L) eqn:Hle; [|done].
  apply Nat.leb_le in Hle.
  rewrite bind_assert_true in H. unfold State.modify_dev, State.modify_system in H.
  rewrite bind_modify in H. injection H as _ <-.
  set (n := State.count _) in *. set (w2 := log_api _ w).
  set (w3 := set_system (State.update_dev (Dev.set_num_lanes n) d
                           (cuda_system_info w2)) w2).
  apply (step_rel_trans _ w w2); [done|by split; [apply sys_rel_refl|]|].
  apply (step_rel_trans _ w2 w3); [done| |].
  - apply step_rel_update_dev; [done|]. intros D0 HD0.
    assert (D0 = D) as -> by (cbn in HD0; congruence).
    split; [|by destruct D]. cbn. unfold lanes_latch.
    destruct (dev_head_lanes D) as [-> _].
    destruct (dev_head_lanes (Dev.set_num_lanes n D)) as [-> _].
    assert (Dev.num_lanes_p (Dev.set_num_lanes n D) = false) as ->
      by (by destruct D).
    rewrite Hp. done.
  - apply (step_rel_update_dev _ w3); [done|]. intros D3 HD3.
    assert (D3 = Dev.set_num_lanes n D) as ->.
    { subst w3. cbn [cuda_system_info set_system] in HD3.
      rewrite (dev_at_update_dev_eq _ _ _ D) in HD3; [congruence|exact HD]. }
    split; [|by destruct D]. cbn. unfold lanes_latch.
    destruct (dev_head_lanes (Dev.set_num_lanes n D)) as [-> _].
    destruct (dev_head_lanes (Dev.set_num_lanes_p CACHED
                                (Dev.set_num_lanes n D))) as [-> ->].
    split; [by destruct D; cbn in *; subst|]. intros _. right. by destruct D.
Qed.
#[local] Hint Resolve shape_device_get_num_lanes : shape.

Lemma shape_assert_sm d i : may (r_shape L) (State.assert_sm L api d i).
Proof. unfold State.assert_sm. shape. Qed.
Lemma shape_assert_wp d j : may (r_shape L) (State.assert_wp L api d j).
Proof. unfold State.assert_wp. shape. Qed.
Lemma shape_assert_ln d k : may (r_shape L) (State.assert_ln L api d k).
Proof. unfold State.assert_ln. shape. Qed.
#[local] Hint Resolve shape_assert_sm shape_assert_wp shape_assert_ln : shape.

Lemma shape_lane_invalidate d i j k :
  may (r_shape L) (State.lane_invalidate L api d i j k).
Proof. unfold State.lane_invalidate. shape. Qed.
#[local] Hint Resolve shape_lane_invalidate : shape.
Lemma shape_warp_invalidate d i j :
  may (r_shape L) (State.warp_invalidate L api d i j).
Proof. unfold State.warp_invalidate. shape. Qed.
#[local] Hint Resolve shape_warp_invalidate : shape.
Lemma shape_sm_invalidate d i rec :
  may (r_shape L) (State.sm_invalidate L api d i rec).
Proof. unfold State.sm_invalidate. shape. Qed.
#[local] Hint Resolve shape_sm_invalidate : shape.
Lemma shape_device_invalidate d :
  may (r_shape L) (State.device_invalidate L api d).
Proof.
  unfold State.device_invalidate, State.device_invalidate_kernels. shape.
Qed.
#[local] Hint Resolve shape_device_invalidate : shape.

Lemma shape_device_is_any_context_present d :
  may (r_shape L) (State.device_is_any_context_present L api d).
Proof.
  unfold State.device_is_any_context_present, State.device_get_contexts,
    State.contexts_is_any_context_present, State.read_contexts. shape.
Qed.
#[local] Hint Resolve shape_device_is_any_context_present : shape.

Lemma shape_device_suspend d : may (r_shape L) (State.device_suspend L api d).
Proof.
  unfold State.device_suspend, State.cuda_api_suspend_device. shape.
Qed.
Lemma shape_device_resume d : may (r_shape L) (State.device_resume L api d).
Proof.
  unfold State.device_resume, State.cuda_api_resume_device. shape.
Qed.

Lemma shape_warp_single_step d i j :
  may (r_shape L) (State.warp_single_step L api d i j).
Proof.
  unfold State.warp_single_step, State.cuda_api_single_step_warp,
    State.warning. shape.
Qed.

Lemma shape_sm_get_valid_warps_mask d i :
  may (r_shape L) (State.sm_get_valid_warps_mask L api d i).
Proof.
  unfold State.sm_get_valid_warps_mask, State.cuda_api_read_valid_warps. shape.
Qed.
#[local] Hint Resolve shape_sm_get_valid_warps_mask : shape.
Lemma shape_warp_is_valid d i j :
  may (r_shape L) (State.warp_is_valid L api d i j).
Proof. unfold State.warp_is_valid. shape. Qed.
#[local] Hint Resolve shape_warp_is_valid : shape.
Lemma shape_warp_get_valid_lanes_mask d i j :
  may (r_shape L) (State.warp_get_valid_lanes_mask L api d i j).
Proof.
  unfold State.warp_get_valid_lanes_mask, State.cuda_api_read_valid_lanes.
  shape.
Qed.
Lemma shape_warp_get_active_lanes_mask d i j :
  may (r_shape L) (State.warp_get_active_lanes_mask L api d i j).
Proof.
  unfold State.warp_get_active_lanes_mask, State.cuda_api_read_active_lanes.
  shape.
Qed.
#[local] Hint Resolve shape_warp_get_valid_lanes_mask
  shape_warp_get_active_lanes_mask : shape.
Lemma shape_warp_get_divergent_lanes_mask d i j :
  may (r_shape L) (State.warp_get_divergent_lanes_mask L api d i j).
Proof. unfold State.warp_get_divergent_lanes_mask. shape. Qed.
#[local] Hint Resolve shape_warp_get_divergent_lanes_mask : shape.

Lemma shape_lane_is_valid d i j k :
  may (r_shape L) (State.lane_is_valid L api d i j k).
Proof. unfold State.lane_is_valid. shape. Qed.
#[local] Hint Resolve shape_lane_is_valid : shape.
Lemma shape_assert_lane_is_valid d i j k :
  may (r_shape L) (State.assert_lane_is_valid L api d i j k).
Proof. unfold State.assert_lane_is_valid. shape. Qed.
#[local] Hint Resolve shape_assert_lane_is_valid : shape.
Lemma shape_lane_is_active d i j k :
  may (r_shape L) (State.lane_is_active L api d i j k).
Proof. unfold State.lane_is_active. shape. Qed.
#[local] Hint Resolve shape_lane_is_active : shape.
Lemma shape_lane_is_divergent d i j k :
  may (r_shape L) (State.lane_is_divergent L api d i j k).
Proof. unfold State.lane_is_divergent. shape. Qed.
Lemma shape_lane_is_valid_and_active d i j k :
  may (r_shape L) (State.lane_is_valid_and_active L api d i j k).
Proof. unfold State.lane_is_valid_and_active. shape. Qed.
#[local] Hint Resolve shape_lane_is_valid_and_active : shape.

Lemma shape_lane_get s d i j k : may (r_shape L) (lane_get L api s d i j k).
Proof.
  unfold lane_get, lane_get_body, fetch_slot, State.cuda_api_read_pc,
    State.cuda_api_read_virtual_pc. destruct s; shape.
Qed.

Lemma shape_system_initialize w u w' :
Context.cuda_system_initialize L api w = Done u w' -> well_formed L w'.
Proof.
  unfold Context.cuda_system_initialize. intros H.
  peel H ini w1 H1. injection H1 as <- <-.
  destruct (cuda_initialized w); [|done]. rewrite bind_assert_true in H.
  unfold State.modify_system in H. rewrite bind_modify in H.
  assert (Hm : may (r_shape L)
                 (n <- State.cuda_system_get_num_devices L api ;;
                  for_upto n (Context.device_initialize L api))).
  { unfold Context.device_initialize. shape. }
  eapply well_formed_stable; [eapply Hm, H|]. by apply well_formed_zero.
Qed.

Lemma shape_void {A} (m : M W A) : may (r_shape L) m -> may (r_shape L) (void m).
Proof. intros. unfold void. shape. Qed.

Lemma r_env_sub_shape : sub (r_env L) (r_shape L).
Proof.
  split; [|split; [|split]]; cbn; auto.
  - by intros _ D D' (_ & _ & H).
  - intros _ _ _ X X' [_ H]. symmetry. by apply list_rel_length in H.
Qed.

(** Every reachable world is well formed. *)
Lemma reachable_well_formed w : reachable L api w -> well_formed L w.
Proof.
  induction 1 as [w E|w o u w' _ IH H|w w' _ IH E].
  - by apply well_formed_zero.
  - destruct o; cbn [run_op] in H;
      try (eapply well_formed_stable; [|exact IH]; revert H;
           first [apply shape_void|idtac]; shape; fail).
    eapply shape_system_initialize, H.
  - apply (well_formed_same L (set_system (cuda_system_info w') w));
      [by destruct w|].
    eapply well_formed_stable; [|exact IH].
    eapply step_rel_mono; [apply r_env_sub_shape|].
    apply (step_of_drift api), E.
Qed.
End ShapeOfOperations.
(** ** The pc of the active lanes *)

Section SharedPcFacts.
Local Open Scope nat_scope.

Section Shared.
Context {HW : Type} (L : limits) (api : debug_api HW).
Local Abbreviation W := (world HW).
Implicit Type w : W.

Lemma pc_getter_unfold s d i j k :
    pc_getter L api s d i j k = lane_get L api s d i j k.
Proof. by destruct s. Qed.

End Shared.

End SharedPcFacts.

(** ** The cached masks are those of the port *)

Create HintDb cur.

Section CurrentFacts.
Local Open Scope nat_scope.
Context {HW : Type} (L : limits) (api : debug_api HW).
Local Abbreviation W := (world HW).
Implicit Type w : W.

Lemma sms_known_same w w' d n :
  cuda_system_info w' = cuda_system_info w -> sms_known w d n ->
  sms_known w' d n.
Proof. unfold sms_known. by intros ->. Qed.
Lemma warps_known_same w w' d n :
  cuda_system_info w' = cuda_system_info w -> warps_known w d n ->
  warps_known w' d n.
Proof. unfold warps_known. by intros ->. Qed.

Lemma sm_within_same w w' d i :
  cuda_system_info w' = cuda_system_info w -> sm_within w d i ->
  sm_within w' d i.
Proof.
  intros E (n & Hn & Hi). exists n. split; [|done].
  by apply (sms_known_same w).
Qed.
Lemma warp_within_same w w' d i j :
  cuda_system_info w' = cuda_system_info w -> warp_within w d i j ->
  warp_within w' d i j.
Proof.
  intros E [Hsm (n & Hn & Hj)]. split; [by apply (sm_within_same w)|].
  exists n. split; [|done]. by apply (warps_known_same w).
Qed.

Lemma latch_of_sys r w w' :
  sub r r_latch -> sys_rel r (cuda_system_info w) (cuda_system_info w') ->
  step_rel r_latch w (set_system (cuda_system_info w') w).
Proof.
  intros Hsub Hs. split; [|by destruct w].
  eapply sys_rel_mono; [exact Hsub|]. by destruct w.
Qed.
Lemma sm_within_sys r w w' d i :
  sub r r_latch -> sys_rel r (cuda_system_info w) (cuda_system_info w') ->
  sm_within w d i -> sm_within w' d i.
Proof.
  intros Hsub Hs (n & Hn & Hi). exists n. split; [|done].
  apply (sms_known_same (set_system (cuda_system_info w') w));
    [by destruct w|].
  eapply sms_known_stable; [|exact Hn]. by eapply latch_of_sys.
Qed.
Lemma warp_within_sys r w w' d i j :
  sub r r_latch -> sys_rel r (cuda_system_info w) (cuda_system_info w') ->
  warp_within w d i j -> warp_within w' d i j.
Proof.
  intros Hsub Hs [Hsm (n & Hn & Hj)]. split; [by eapply sm_within_sys|].
  exists n. split; [|done].
  apply (warps_known_same (set_system (cuda_system_info w') w));
    [by destruct w|].
  eapply warps_known_stable; [|exact Hn]. by eapply latch_of_sys.
Qed.

Lemma r_fill_sub_latch w' : sub (r_fill api w') r_latch.
Proof. split; [|split; [|split]]; cbn; auto. Qed.
Lemma r_fill_preorder w' : preorder (r_fill api w').
Proof.
  split; cbn.
  - intros. apply latch_refl.
  - intros. apply dev_counts_latch_refl.
  - intros. by left.
  - intros. split; intros; by left.
  - intros. eapply latch_trans; eassumption.
  - intros. eapply dev_counts_latch_trans; eauto.
  - intros d i x y z H1 H2 Hp. destruct (H2 Hp) as [[Hp' ->]|?]; [|by right].
    by apply H1.
  - intros d i j x y z [H1 H2] [H3 H4]. split; intros Hp.
    + destruct (H3 Hp) as [[Hp' ->]|?]; [|by right]. by apply H1.
    + destruct (H4 Hp) as [[Hp' ->]|?]; [|by right]. by apply H2.
Qed.
Lemma r_fade_sub_fill w' : sub r_fade (r_fill api w').
Proof.
  split; [|split; [|split]]; cbn.
  - auto.
  - auto.
  - intros d i x y H Hp. left. by apply H.
  - intros d i j x y [H1 H2]. split; intros Hp; left; auto.
Qed.

Lemma sm_head_mask Sx :
  Sm.valid_warps_mask_p (sm_head Sx) = Sm.valid_warps_mask_p Sx /\
  Sm.valid_warps_mask (sm_head Sx) = Sm.valid_warps_mask Sx.
Proof. by destruct Sx. Qed.

(** Masks that were current stay so when the mirror changes within
    [r_fill] and the port reports what it did. *)
Lemma current_fill Gs Gw w w' :
  sys_rel (r_fill api w') (cuda_system_info w) (cuda_system_info w') ->
  same_masks api (hw w) (hw w') ->
  current_in api Gs Gw w -> current_in api Gs Gw w'.
Proof.
  intros Hs Hm [HS HX]. split.
  - intros d i Sx' HSx' Hp'.
    destruct (sys_rel_sm_r _ _ _ _ _ _ Hs HSx') as (Sx & HSx & [Hf _]).
    cbn in Hf.
    destruct (Hf Hp') as [[Hp ->]|[Hin ->]]; [|done].
    destruct (HS d i Sx HSx Hp) as [Hin Hv].
    split; [eapply sm_within_sys; [apply r_fill_sub_latch|exact Hs|done]|].
    intros G. rewrite (Hv G). destruct (Hm d i) as [E _]. by rewrite E.
  - intros d i j X' HX'.
    destruct (sys_rel_warp_r _ _ _ _ _ _ _ Hs HX') as (X & HX0 & [Hv Ha]).
    destruct (HX d i j X HX0) as [Hv0 Ha0].
    destruct (Hm d i) as [_ Hr]. specialize (Hr j). unfold warp_reads in Hr.
    injection Hr as Eb Ev Ea.
    split; intros Hp.
    + destruct (Hv Hp) as [[Hp0 ->]|[Hin ->]]; [|done].
      destruct (Hv0 Hp0) as [Hin Hval].
      split; [eapply warp_within_sys; [apply r_fill_sub_latch|exact Hs|done]|].
      intros G. rewrite (Hval G), Eb, Ev. done.
    + destruct (Ha Hp) as [[Hp0 ->]|[Hin ->]]; [|done].
      destruct (Ha0 Hp0) as [Hin Hval].
      split; [eapply warp_within_sys; [apply r_fill_sub_latch|exact Hs|done]|].
      intros G. rewrite (Hval G), Ea. done.
Qed.

Lemma current_drift Gs Gw w w' :
  drift api r_fade w w' -> current_in api Gs Gw w -> current_in api Gs Gw w'.
Proof.
  intros [Hs Hm]. apply current_fill; [|done].
  eapply sys_rel_mono; [apply r_fade_sub_fill|done].
Qed.

Lemma keeps_current_fade Gs Gw {A} (m : M W A) :
  moves api r_fade m -> keeps (current_in api Gs Gw) m.
Proof. intros Hm w a w' Hw H. eapply current_drift; [eapply Hm, H|done]. Qed.

Lemma masks_current_drift w w' :
  drift api r_fade w w' -> masks_current api w -> masks_current api w'.
Proof. apply current_drift. Qed.
Lemma keeps_masks_fade {A} (m : M W A) :
  moves api r_fade m -> keeps (masks_current api) m.
Proof. apply keeps_current_fade. Qed.

(** After a call of the port that changes the device. *)
Lemma current_port (Gs : nat -> nat -> Prop) (Gw : nat -> nat -> nat -> Prop)
    w w' :
  cuda_system_info w' = cuda_system_info w ->
  (forall d i, Gs d i ->
     port_valid_warps api (hw w') d i = port_valid_warps api (hw w) d i) ->
  (forall d i j, Gw d i j ->
     warp_reads api (hw w') d i j = warp_reads api (hw w) d i j) ->
  masks_current api w -> current_in api Gs Gw w'.
Proof.
  intros Es HGs HGw [HS HX]. split; rewrite Es.
  - intros d i Sx HSx Hp. destruct (HS d i Sx HSx Hp) as [Hin Hv].
    split; [by apply (sm_within_same w)|]. intros G. rewrite (Hv I).
    symmetry. by apply HGs.
  - intros d i j X HX0. destruct (HX d i j X HX0) as [Hv Ha].
    split; intros Hp.
    + destruct (Hv Hp) as [Hin Hval].
      split; [by apply (warp_within_same w)|]. intros G.
      rewrite (Hval I). pose proof (HGw d i j G) as Hr.
      unfold warp_reads in Hr. injection Hr as -> -> _. done.
    + destruct (Ha Hp) as [Hin Hval].
      split; [by apply (warp_within_same w)|]. intros G.
      rewrite (Hval I). pose proof (HGw d i j G) as Hr.
      unfold warp_reads in Hr. injection Hr as _ _ ->. done.
Qed.

(** Once what lies outside [Gs] and [Gw] has been dropped. *)
Lemma current_close (Gs : nat -> nat -> Prop) (Gw : nat -> nat -> nat -> Prop)
    w :
  current_in api Gs Gw w ->
  (forall d i Sx, sm_at (cuda_system_info w) d i = Some Sx ->
     Sm.valid_warps_mask_p Sx = true -> sm_within w d i -> Gs d i) ->
  (forall d i j X, warp_at (cuda_system_info w) d i j = Some X ->
     Warp.valid_lanes_mask_p X = true \/ Warp.active_lanes_mask_p X = true ->
     warp_within w d i j -> Gw d i j) ->
  masks_current api w.
Proof.
  intros [HS HX] HGs HGw. split.
  - intros d i Sx HSx Hp. destruct (HS d i Sx HSx Hp) as [Hin Hv].
    split; [done|]. intros _. apply Hv. eauto.
  - intros d i j X HX0. destruct (HX d i j X HX0) as [Hv Ha].
    split; intros Hp.
    + destruct (Hv Hp) as [Hin Hval]. split; [done|]. intros _.
      apply Hval. eauto.
    + destruct (Ha Hp) as [Hin Hval]. split; [done|]. intros _.
      apply Hval. eauto.
Qed.

Lemma sm_at_zero d i Sx :
  sm_at (zero_system L) d i = Some Sx ->
  Sx = Sm.zero (CUDBG_MAX_WARPS L) (CUDBG_MAX_LANES L).
Proof.
  unfold sm_at, dev_at, zero_system. cbn.
  destruct (replicate _ _ !! d) as [D|] eqn:HD; [|done].
  apply lookup_replicate in HD as [-> _]. cbn.
  intros H. by apply lookup_replicate in H as [-> _].
Qed.
Lemma current_zero w :
  cuda_system_info w = zero_system L -> masks_current api w.
Proof.
  intros E. split; rewrite E.
  - intros d i Sx HSx. apply sm_at_zero in HSx as ->. done.
  - intros d i j X HX. apply warp_at_zero in HX as ->. done.
Qed.

(** A device that has been invalidated holds no mask. *)
Lemma dev_done_sm w d i Sx :
  dev_done w d -> sm_within w d i ->
  sm_at (cuda_system_info w) d i = Some Sx ->
  Sm.valid_warps_mask_p Sx = false.
Proof.
  intros (_ & n & Hn & Hall) (n' & Hn' & Hi) HSx.
  assert (n' = n) as -> by (eapply sms_known_fun; eauto).
  destruct (Hall i Hi) as [Hoff _]. specialize (Hoff Sx HSx).
  by apply sm_invalidate_fix in Hoff as [? _].
Qed.
Lemma warp_done_masks w d i j X :
  warp_done w d i j -> warp_at (cuda_system_info w) d i j = Some X ->
  Warp.valid_lanes_mask_p X = false /\ Warp.active_lanes_mask_p X = false.
Proof.
  intros [Hoff _] HX. specialize (Hoff X HX).
  by apply warp_invalidate_fix in Hoff as (_&_&_&_&_&?&?&_).
Qed.
Lemma dev_done_warp w d i j X :
  dev_done w d -> warp_within w d i j ->
  warp_at (cuda_system_info w) d i j = Some X ->
  Warp.valid_lanes_mask_p X = false /\ Warp.active_lanes_mask_p X = false.
Proof.
  intros (_ & n & Hn & Hall) [(n' & Hn' & Hi) (nw & Hnw & Hj)] HX.
  assert (n' = n) as -> by (eapply sms_known_fun; eauto).
  destruct (Hall i Hi) as [_ (nw' & Hnw' & Hw)].
  assert (nw' = nw) as -> by (eapply warps_known_fun; eauto).
  eapply warp_done_masks; eauto.
Qed.

Lemma current_whole_device (Gs : nat -> nat -> Prop)
    (Gw : nat -> nat -> nat -> Prop) w d :
  (forall d' i', d' <> d -> Gs d' i') ->
  (forall d' i' j', d' <> d -> Gw d' i' j') ->
  current_in api Gs Gw w -> dev_done w d -> masks_current api w.
Proof.
  intros HGs HGw Hc Hdone. apply (current_close Gs Gw); [done| |].
  - intros d' i' Sx HSx Hp Hin. apply HGs. intros ->.
    rewrite (dev_done_sm w d i' Sx) in Hp; done.
  - intros d' i' j' X HX Hp Hin. apply HGw. intros ->.
    destruct (dev_done_warp w d i' j' X) as [E1 E2]; [done|done|done|].
    rewrite E1, E2 in Hp. by destruct Hp.
Qed.

End CurrentFacts.

Ltac cur :=
  repeat first
    [ solve [eauto with cur]
    | match goal with
      | |- keeps _ (ret _) => apply keeps_ret
      | |- keeps _ (when _ _) => apply keeps_when
      | |- keeps _ (for_upto _ _) => apply keeps_for_each; intros ?
      | |- keeps _ (for_each _ _) => apply keeps_for_each; intros ?
      | |- keeps _ (bind _ _) => apply keeps_bind; [|intros ?]
      | |- keeps _ (if ?b then _ else _) => destruct b
      end
    | apply keeps_masks_fade; solve [fade]
    | apply keeps_current_fade; solve [fade] ].

(** ** Every operation leaves the cached masks current *)

Section CurrentOfOperations.
Local Open Scope nat_scope.
Context {HW : Type} (L : limits) (api : debug_api HW).
Local Abbreviation W := (world HW).
Implicit Type w : W.

#[local] Hint Resolve r_fade_preorder : fade core.
#[local] Hint Resolve fade_cuda_system_get_num_devices fade_assert_dev
  fade_assert_sm fade_assert_wp fade_assert_ln fade_device_get_num_sms
  fade_device_get_num_warps fade_device_get_num_lanes
  fade_device_is_any_context_present fade_lane_invalidate
  fade_warp_invalidate fade_sm_invalidate fade_device_invalidate : fade.

Local Abbreviation current := (masks_current api).

Lemma sm_within_of_ok w d i : sm_ok w d i -> sm_within w d i.
Proof. by intros [_ ?]. Qed.
Lemma warp_within_of_ok w d i j :
  sm_ok w d i -> wp_ok w d j -> warp_within w d i j.
Proof. intros [_ ?] [_ ?]. by split. Qed.

Lemma within_update_sm w w' f d i d' i' :
  cuda_system_info w' = State.update_sm f d i (cuda_system_info w) ->
  sm_within w d' i' -> sm_within w' d' i'.
Proof.
  intros E (n & (D & HD & Hp & Hn) & Hi). exists n. split; [|done].
  unfold sms_known. rewrite E.
  pose proof (dev_at_update_sm (cuda_system_info w) d i f d') as Eh.
  rewrite HD in Eh. destruct (dev_at (State.update_sm _ _ _ _) d') as [D'|];
    [|done].
  exists D'. split; [done|].
  assert (Eh' : dev_head D' = dev_head D) by (cbn in Eh; congruence).
  assert (Ec : dev_counts D' = dev_counts D).
  { transitivity (dev_counts (dev_head D'));
      [symmetry; apply dev_counts_head|].
    rewrite Eh'. apply dev_counts_head. }
  unfold dev_counts in Ec. injection Ec as -> -> _ _ _ _. done.
Qed.

Lemma warp_within_update_sm w w' f d i d' i' j' :
  cuda_system_info w' = State.update_sm f d i (cuda_system_info w) ->
  warp_within w d' i' j' -> warp_within w' d' i' j'.
Proof.
  intros E [Hsm (n & (D & HD & Hp & Hn) & Hj)].
  split; [by eapply within_update_sm|]. exists n. split; [|done].
  unfold warps_known. rewrite E.
  pose proof (dev_at_update_sm (cuda_system_info w) d i f d') as Eh.
  rewrite HD in Eh. destruct (dev_at (State.update_sm _ _ _ _) d') as [D'|];
    [|done].
  exists D'. split; [done|].
  assert (Eh' : dev_head D' = dev_head D) by (cbn in Eh; congruence).
  assert (Ec : dev_counts D' = dev_counts D).
  { transitivity (dev_counts (dev_head D'));
      [symmetry; apply dev_counts_head|].
    rewrite Eh'. apply dev_counts_head. }
  unfold dev_counts in Ec. injection Ec as _ _ -> -> _ _. done.
Qed.

Lemma fade_run {A} (m : M W A) w a w' :
  moves api r_fade m -> current w -> m w = Done a w' ->
  current w' /\ same_masks api (hw w) (hw w').
Proof.
  intros Hm Hc H. pose proof (Hm _ _ _ H) as Hd. cbn in Hd.
  split; [by apply masks_current_drift with (w:=w)|by destruct Hd].
Qed.

Lemma fade_run_in Gs Gw {A} (m : M W A) w a w' :
  moves api r_fade m -> current_in api Gs Gw w -> m w = Done a w' ->
  current_in api Gs Gw w'.
Proof.
  intros Hm Hc H. pose proof (Hm _ _ _ H) as Hd. cbn in Hd.
  by apply current_drift with (w:=w).
Qed.

(** The valid-warps mask of an SM is fetched from the port. *)
Lemma current_sm_get_valid_warps_mask d i w a w' :
  current w -> State.sm_get_valid_warps_mask L api d i w = Done a w' ->
  current w' /\ same_masks api (hw w) (hw w') /\
  a = port_valid_warps api (hw w') d i.
Proof.
  intros Hc H. unfold State.sm_get_valid_warps_mask in H.
  peel H u1 w1 H1.
  destruct (fade_run _ _ _ _ (fade_assert_dev L api d) Hc H1) as [Hc1 Hm1].
  peel H u2 w2 H2.
  destruct (fade_run _ _ _ _ (fade_assert_sm L api d i) Hc1 H2) as [Hc2 Hm2].
  apply assert_sm_spec in H2 as [_ Hsm].
  peel H Sx w3 H3. apply read_sm_inv in H3 as [-> HSx].
  assert (Hm : same_masks api (hw w) (hw w2))
    by (eapply same_masks_trans; eauto).
  destruct (Sm.valid_warps_mask_p Sx) eqn:Hp.
  - injection H as <- <-. split; [done|]. split; [done|].
    destruct Hc2 as [HS _]. destruct (HS d i Sx HSx Hp) as [_ Hv].
    by apply Hv.
  - unfold State.cuda_api_read_valid_warps, State.api_read, State.modify_sm,
      State.modify_system in H. msimpl_in H. injection H as <- <-.
    split; [|by split].
    eapply current_fill with (w:=w2); [|apply same_masks_refl|done].
    cbn [cuda_system_info set_system log_api].
    apply sys_rel_update_sm; [apply r_fill_preorder|].
    intros S0 HS0. split; [|by destruct S0]. cbn. intros _. right.
    split; [|done].
    eapply within_update_sm; [|apply sm_within_of_ok, Hsm]. reflexivity.
Qed.

Lemma current_warp_is_valid d i j w v w' :
  current w -> State.warp_is_valid L api d i j w = Done v w' ->
  current w' /\ same_masks api (hw w) (hw w') /\
  v = bit (port_valid_warps api (hw w') d i) j.
Proof.
  intros Hc H. unfold State.warp_is_valid in H.
  peel H u1 w1 H1.
  destruct (fade_run _ _ _ _ (fade_assert_dev L api d) Hc H1) as [Hc1 Hm1].
  peel H u2 w2 H2.
  destruct (fade_run _ _ _ _ (fade_assert_sm L api d i) Hc1 H2) as [Hc2 Hm2].
  peel H u3 w3 H3.
  destruct (fade_run _ _ _ _ (fade_assert_wp L api d j) Hc2 H3) as [Hc3 Hm3].
  peel H m w4 H4. injection H as <- <-.
  destruct (current_sm_get_valid_warps_mask d i _ _ _ Hc3 H4)
    as (Hc4 & Hm4 & ->).
  split; [done|]. split; [|done].
  eauto using same_masks_trans.
Qed.

Lemma keeps_sm_get_valid_warps_mask d i :
  keeps current (State.sm_get_valid_warps_mask L api d i).
Proof.
  intros w a w' Hc H.
  by destruct (current_sm_get_valid_warps_mask d i _ _ _ Hc H).
Qed.
Lemma keeps_warp_is_valid d i j :
  keeps current (State.warp_is_valid L api d i j).
Proof.
  intros w a w' Hc H. by destruct (current_warp_is_valid d i j _ _ _ Hc H).
Qed.

(** The valid mask of a warp is fetched from the port if the warp is
    valid, and is zero otherwise. *)
Lemma keeps_warp_get_valid_lanes_mask d i j :
  keeps current (State.warp_get_valid_lanes_mask L api d i j).
Proof.
  intros w a w' Hc H. unfold State.warp_get_valid_lanes_mask in H.
  peel H u1 w1 H1.
  destruct (fade_run _ _ _ _ (fade_assert_dev L api d) Hc H1) as [Hc1 _].
  peel H u2 w2 H2.
  destruct (fade_run _ _ _ _ (fade_assert_sm L api d i) Hc1 H2) as [Hc2 _].
  pose proof (assert_sm_spec L api d i _ _ _ H2) as [_ Hsm2].
  peel H u3 w3 H3.
  destruct (fade_run _ _ _ _ (fade_assert_wp L api d j) Hc2 H3) as [Hc3 _].
  pose proof (assert_wp_spec L api d j _ _ _ H3) as [R3 Hwp3].
  assert (Hsm3 : sm_ok w3 d i).
  { eapply sm_ok_stable; [|exact Hsm2].
    eapply step_rel_mono; [apply r_inv_sub_latch|exact R3]. }
  peel H X w4 H4. apply read_warp_inv in H4 as [-> HX].
  destruct (Warp.valid_lanes_mask_p X) eqn:Hp.
  { by injection H as _ <-. }
  peel H v w5 H5.
  destruct (current_warp_is_valid d i j _ _ _ Hc3 H5) as (Hc5 & _ & ->).
  pose proof (smfill_warp_is_valid L api d i j _ _ _ H5) as R5.
  assert (Hsm5 : sm_ok w5 d i).
  { eapply sm_ok_stable; [|exact Hsm3].
    eapply step_rel_mono; [apply r_ext_sub_latch|].
    eapply step_rel_mono; [apply r_smfill_sub_ext|exact R5]. }
  assert (Hwp5 : wp_ok w5 d j).
  { eapply wp_ok_stable; [|exact Hwp3].
    eapply step_rel_mono; [apply r_ext_sub_latch|].
    eapply step_rel_mono; [apply r_smfill_sub_ext|exact R5]. }
  peel H m w6 H6.
  assert (Hm6 : cuda_system_info w6 = cuda_system_info w5 /\ hw w6 = hw w5 /\
                m = if bit (port_valid_warps api (hw w5) d i) j
                    then port_valid_lanes api (hw w5) d i j else 0%Z).
  { destruct (bit _ j).
    - unfold State.cuda_api_read_valid_lanes, State.api_read in H6.
      msimpl_in H6. by injection H6 as <- <-.
    - by injection H6 as <- <-. }
  destruct Hm6 as (Es6 & Eh6 & ->).
  peel H u7 w7 H7. unfold State.modify_warp, State.modify_system in H7.
  injection H7 as _ <-.
  assert (Hc7 : current (set_system
            (State.update_warp
               (Warp.set_valid_lanes_mask
                  (if bit (port_valid_warps api (hw w5) d i) j
                   then port_valid_lanes api (hw w5) d i j else 0%Z))
               d i j (cuda_system_info w6)) w6)).
  { eapply current_fill with (w:=w5); [| |exact Hc5].
    - cbn [cuda_system_info set_system]. rewrite Es6.
      apply sys_rel_update_warp; [apply r_fill_preorder|].
      intros X0 HX0. unfold r_fill. cbn [RW hw set_system]. rewrite Eh6.
      split.
      + intros _. right. split; [|by destruct X0].
        eapply warp_within_update_sm;
          [|apply (warp_within_of_ok w5); [exact Hsm5|exact Hwp5]].
        cbn [cuda_system_info set_system]. reflexivity.
      + intros Ha. left. by destruct X0.
    - cbn [hw set_system]. rewrite Eh6. apply same_masks_refl. }
  eapply fade_run; [|exact Hc7|exact H]. fade.
Qed.

Lemma keeps_warp_get_active_lanes_mask d i j :
  keeps current (State.warp_get_active_lanes_mask L api d i j).
Proof.
  intros w a w' Hc H. unfold State.warp_get_active_lanes_mask in H.
  peel H u1 w1 H1.
  destruct (fade_run _ _ _ _ (fade_assert_dev L api d) Hc H1) as [Hc1 _].
  peel H u2 w2 H2.
  destruct (fade_run _ _ _ _ (fade_assert_sm L api d i) Hc1 H2) as [Hc2 _].
  pose proof (assert_sm_spec L api d i _ _ _ H2) as [_ Hsm2].
  peel H u3 w3 H3.
  destruct (fade_run _ _ _ _ (fade_assert_wp L api d j) Hc2 H3) as [Hc3 _].
  pose proof (assert_wp_spec L api d j _ _ _ H3) as [R3 Hwp3].
  assert (Hsm3 : sm_ok w3 d i).
  { eapply sm_ok_stable; [|exact Hsm2].
    eapply step_rel_mono; [apply r_inv_sub_latch|exact R3]. }
  peel H X w4 H4. apply read_warp_inv in H4 as [-> HX].
  destruct (Warp.active_lanes_mask_p X) eqn:Hp.
  { by injection H as _ <-. }
  unfold State.cuda_api_read_active_lanes, State.api_read, State.modify_warp,
    State.modify_system in H. msimpl_in H. injection H as _ <-.
  eapply current_fill with (w:=w3); [|apply same_masks_refl|exact Hc3].
  cbn [cuda_system_info set_system log_api].
  apply sys_rel_update_warp; [apply r_fill_preorder|].
  intros X0 HX0. unfold r_fill. cbn [RW hw set_system log_api]. split.
  - intros Hv. left. by destruct X0.
  - intros _. right. split; [|by destruct X0].
    eapply warp_within_update_sm;
      [|apply (warp_within_of_ok w3); [exact Hsm3|exact Hwp3]].
    reflexivity.
Qed.

#[local] Hint Resolve keeps_sm_get_valid_warps_mask keeps_warp_is_valid
  keeps_warp_get_valid_lanes_mask keeps_warp_get_active_lanes_mask : cur.

Lemma keeps_warp_get_divergent_lanes_mask d i j :
  keeps current (State.warp_get_divergent_lanes_mask L api d i j).
Proof. unfold State.warp_get_divergent_lanes_mask. cur. Qed.
#[local] Hint Resolve keeps_warp_get_divergent_lanes_mask : cur.
Lemma keeps_current_lane_is_valid d i j k :
  keeps current (State.lane_is_valid L api d i j k).
Proof. unfold State.lane_is_valid. cur. Qed.
#[local] Hint Resolve keeps_current_lane_is_valid : cur.
Lemma keeps_current_assert_lane_is_valid d i j k :
  keeps current (State.assert_lane_is_valid L api d i j k).
Proof. unfold State.assert_lane_is_valid. cur. Qed.
#[local] Hint Resolve keeps_current_assert_lane_is_valid : cur.
Lemma keeps_current_lane_is_active d i j k :
  keeps current (State.lane_is_active L api d i j k).
Proof. unfold State.lane_is_active. cur. Qed.
#[local] Hint Resolve keeps_current_lane_is_active : cur.
Lemma keeps_current_lane_is_divergent d i j k :
  keeps current (State.lane_is_divergent L api d i j k).
Proof. unfold State.lane_is_divergent. cur. Qed.
Lemma keeps_current_lane_is_valid_and_active d i j k :
  keeps current (State.lane_is_valid_and_active L api d i j k).
Proof. unfold State.lane_is_valid_and_active. cur. Qed.
#[local] Hint Resolve keeps_current_lane_is_valid_and_active : cur.
Lemma keeps_current_lane_get s d i j k :
  keeps current (lane_get L api s d i j k).
Proof.
  unfold lane_get, lane_get_body, fetch_slot, State.cuda_api_read_pc,
    State.cuda_api_read_virtual_pc. destruct s; cur.
Qed.

Lemma keeps_current_system_initialize :
  keeps current (Context.cuda_system_initialize L api).
Proof.
  unfold Context.cuda_system_initialize. intros w u w' _ H.
  peel H ini w1 H1. injection H1 as <- <-.
  destruct (cuda_initialized w); [|done]. rewrite bind_assert_true in H.
  unfold State.modify_system in H. rewrite bind_modify in H.
  eapply fade_run; [| |exact H].
  - apply moves_bind; [done|apply fade_cuda_system_get_num_devices|].
    intros n. apply moves_for_upto; [done|]. intros d.
    apply (fade_env L), env_device_initialize.
  - by apply (current_zero L).
Qed.

(** Suspending a device changes no mask. *)
Lemma fade_device_suspend d :
  suspend_frame api -> moves api r_fade (State.device_suspend L api d).
Proof.
  intros Hf. unfold State.device_suspend, State.cuda_api_suspend_device.
  apply moves_bind; [done|apply fade_assert_dev|]. intros _.
  apply moves_bind; [done|apply fade_device_is_any_context_present|].
  intros present. destruct (negb present); [by apply moves_ret|].
  apply moves_bind; [done| |intros _; fade].
  apply moves_bind; [done|by apply moves_log_api|]. intros _.
  apply moves_modify. intros w. split; [by apply sys_rel_refl|].
  apply Hf.
Qed.

(** Resuming a device changes its masks, after they were dropped. *)
Lemma keeps_current_device_resume d :
  resume_frame api -> keeps current (State.device_resume L api d).
Proof.
  intros Hf w u w' Hc H. unfold State.device_resume in H.
  peel H u1 w1 H1.
  destruct (fade_run _ _ _ _ (fade_assert_dev L api d) Hc H1) as [Hc1 _].
  peel H u2 w2 H2.
  destruct (fade_run _ _ _ _ (fade_device_invalidate L api d) Hc1 H2)
    as [Hc2 _].
  apply device_invalidate_spec in H2 as (_ & Hdone & _).
  peel H D w3 H3. apply read_dev_inv in H3 as [-> HD].
  destruct (negb (Dev.suspended D)); [by injection H as _ <-|].
  peel H u4 w4 H4. unfold State.cuda_api_resume_device in H4.
  msimpl_in H4. injection H4 as _ <-.
  eapply fade_run; [| |exact H]; [fade|].
  apply current_whole_device with (Gs:=fun d' _ => d' <> d)
           (Gw:=fun d' _ _ => d' <> d) (d:=d); [done|done| |].
  - apply current_port with (w:=w2); [done| | |done].
    + intros d' i' G. by apply (Hf (hw w2) d d' i').
    + intros d' i' j' G. by apply (Hf (hw w2) d d' i').
  - destruct Hdone as [Hoff (n & Hn & Hall)]. split; [exact Hoff|].
    exists n. split; [exact Hn|]. exact Hall.
Qed.

(** A single step changes the masks of the warps that the port reports
    as stepped; they are dropped. *)
Lemma keeps_current_warp_single_step d i j :
  step_frame api -> keeps current (State.warp_single_step L api d i j).
Proof.
  intros Hf w a w' Hc H. unfold State.warp_single_step in H.
  peel H u1 w1 H1.
  destruct (fade_run _ _ _ _ (fade_assert_dev L api d) Hc H1) as [Hc1 _].
  peel H u2 w2 H2.
  destruct (fade_run _ _ _ _ (fade_assert_sm L api d i) Hc1 H2) as [Hc2 _].
  peel H u3 w3 H3.
  destruct (fade_run _ _ _ _ (fade_assert_wp L api d j) Hc2 H3) as [Hc3 _].
  peel H msk w4 H4. unfold State.cuda_api_single_step_warp in H4.
  msimpl_in H4. injection H4 as <- <-.
  set (msk := u64 _) in *. set (w4 := set_hw _ _) in *.
  assert (Hc4 : current_in api (beside_sm msk d i j)
                  (beside_warp msk d i j) w4).
  { apply current_port with (w:=w3); [done| | |done].
    - intros d' i' G. by apply (Hf (hw w3) d i j d' i').
    - intros d' i' j' G. by apply (Hf (hw w3) d i j d' i'). }
  peel H o w5 H5. injection H5 as <- <-.
  peel H u6 w6 H6. injection H as _ <-. destruct u6.
  assert (Hwhole : forall wa wb,
    current_in api (beside_sm msk d i j) (beside_warp msk d i j) wa ->
    State.device_invalidate L api d wa = Done tt wb -> current wb).
  { intros wa wb Ha Hb.
    apply current_whole_device with (Gs:=beside_sm msk d i j)
             (Gw:=beside_warp msk d i j) (d:=d).
    - intros. by left.
    - intros. by left.
    - eapply fade_run_in; [apply fade_device_invalidate|exact Ha|exact Hb].
    - by apply device_invalidate_spec in Hb as (_ & ? & _). }
  destruct (cuda_options_software_preemption _);
    [eapply Hwhole; [exact Hc4|exact H6]|].
  peel H6 u7 w7 H7. destruct u7.
  change (negb (Z.land msk (not64 (Z.shiftl 1 (Z.of_nat j))) =? 0)%Z)
    with (others_stepped msk j) in H7.
  destruct (others_stepped msk j) eqn:Ho.
  { cbn [when] in H7. peel H7 u8 w8 H8. unfold State.warning in H8.
    injection H8 as _ <-.
    assert (Hc7 : current w7).
    { eapply Hwhole; [|exact H7]. eapply current_drift; [|exact Hc4].
      by apply drift_off. }
    eapply fade_run; [|exact Hc7|exact H6]. fade. }
  injection H7 as <-.
  peel H6 n w8 H8.
  assert (Hc8 : current_in api (beside_sm msk d i j)
                  (beside_warp msk d i j) w8).
  { eapply fade_run_in; [apply fade_device_get_num_warps|exact Hc4|exact H8]. }
  apply device_get_num_warps_spec in H8 as (_ & _ & Hn8).
  peel H6 u9 w9 H9.
  assert (Hc9 : current_in api (beside_sm msk d i j)
                  (beside_warp msk d i j) w9).
  { eapply fade_run_in; [|exact Hc8|exact H9]. fade. }
  set (r := r_inv nowhere1 (only_sm d i) (warps_in msk d i)).
  apply (for_each_spec (step_rel r)
           (fun j' w => bit msk j' = true -> warp_done w d i j')) in H9
    as [R9 P9].
  2:{ intros. apply step_rel_refl, r_inv_preorder. }
  2:{ intros ???. apply step_rel_trans, r_inv_preorder. }
  2:{ intros j' wa wb HR HP Hb. eapply warp_done_stable; eauto. }
  2:{ intros j' wa u wb. rewrite land_shiftl_test, negb_involutive.
      destruct (bit msk j') eqn:Eb; cbn.
      - intros Hb. apply warp_invalidate_spec in Hb as (Hb & _ & Hdone & _).
        split; [|done]. eapply step_rel_mono; [|exact Hb].
        apply r_inv_sub; [done|done|]. intros d' i' j'' (-> & -> & ->). done.
      - intros [= _ <-]. split; [apply step_rel_refl, r_inv_preorder|done]. }
  assert (Hc6 : current_in api (beside_sm msk d i j)
                  (beside_warp msk d i j) w6).
  { eapply fade_run_in; [apply fade_sm_invalidate|exact Hc9|exact H6]. }
  apply sm_invalidate_non_recursive_spec in H6 as [R6 Hoff].
  eapply current_close; [exact Hc6| |].
  - intros d' i' Sx HSx Hp Hin.
    destruct (decide (d' = d)) as [->|Hd]; [|by left]. right.
    split; [done|]. intros ->. specialize (Hoff Sx HSx).
    apply sm_invalidate_fix in Hoff as [E _]. congruence.
  - intros d' i' j' X HX Hp [_ (n' & Hn' & Hj')].
    destruct (decide (d' = d)) as [->|Hd]; [|by left]. right.
    split; [done|].
    destruct (decide (i' = i)) as [->|Hi]; [|by left]. right.
    destruct (bit msk j') eqn:Eb; [exfalso|done].
    assert (n' = n) as ->.
    { eapply warps_known_fun; [exact Hn'|].
      eapply warps_known_stable; [eapply inv_latch, R6|].
      eapply warps_known_stable; [eapply inv_latch, R9|done]. }
    assert (Hdone : warp_done w6 d i j').
    { eapply warp_done_stable; [exact R6|]. apply P9; [|done].
      apply elem_of_seq. lia. }
    destruct (warp_done_masks _ _ _ _ _ Hdone HX) as [E1 E2].
    rewrite E1, E2 in Hp. by destruct Hp.
Qed.

Lemma keeps_current_run_op o :
  port_contract api -> keeps current (run_op L api o).
Proof.
  intros (_ & Hstep & Hsuspend & Hresume).
  destruct o; cbn [run_op]; try apply keeps_void.
  - apply keeps_current_system_initialize.
  - apply keeps_masks_fade, fade_device_get_num_sms.
  - apply keeps_masks_fade, fade_device_get_num_warps.
  - apply keeps_masks_fade, fade_device_get_num_lanes.
  - apply keeps_masks_fade, fade_device_invalidate.
  - by apply keeps_masks_fade, fade_device_suspend.
  - by apply keeps_current_device_resume.
  - apply keeps_sm_get_valid_warps_mask.
  - by apply keeps_current_warp_single_step.
  - apply keeps_warp_is_valid.
  - apply keeps_warp_get_valid_lanes_mask.
  - apply keeps_warp_get_active_lanes_mask.
  - apply keeps_warp_get_divergent_lanes_mask.
  - apply keeps_current_lane_is_valid.
  - apply keeps_current_lane_is_active.
  - apply keeps_current_lane_is_divergent.
  - apply (keeps_current_lane_get Pc).
  - apply (keeps_current_lane_get VirtualPc).
Qed.

(** In every reachable world the cached masks are those that the port
    reports. *)
Lemma reachable_current w :
  port_contract api -> reachable L api w -> current w.
Proof.
  intros Hport. induction 1 as [w E|w o u w' _ IH H|w w' _ IH E].
  - by apply (current_zero L).
  - eapply keeps_current_run_op; eauto.
  - eapply current_drift; [|exact IH].
    eapply drift_mono; [apply r_env_sub_fade|exact E].
Qed.

(** Current masks are nested if the port's are. *)
Lemma current_nested w :
  port_nested api -> current w -> lanes_nested_as_stated L api w.
Proof.
  intros Hn Hc d i j X w1 Hv HX Hvp Hap.
  destruct (current_warp_is_valid d i j _ _ _ Hc Hv) as (_ & Hm & Hb).
  destruct Hc as [_ Hc]. destruct (Hc d i j X HX) as [H1 H2].
  destruct (H1 Hvp) as [_ E1]. destruct (H2 Hap) as [_ E2].
  rewrite (E1 I), (E2 I).
  destruct (Hm d i) as [E _]. rewrite E in Hb. rewrite <- Hb. apply Hn.
Qed.


End CurrentOfOperations.
(** ** The event handlers and the "info cuda" dispatcher *)

Section InvalidThreadId.
Context {HW : Type} (L : limits) (api : debug_api HW).
Import Events.
Local Abbreviation W := (world HW).
Implicit Type w : W.

  (** C4, amended.  An event that carries the thread id [~0U] makes its
      handler give up with the error "A CUDA event reported an invalid
      thread id.", before the mirror, the contexts or the breakpoints are
      touched, in every attach state, for CTX_CREATE, CTX_DESTROY and
      KERNEL_READY; for CTX_PUSH and CTX_POP only when no attach has
      started: while attaching, and after, the two handlers return at
      once without looking at the thread id. *)
Theorem invalid_thread_id_is_fatal (event : CUDBGEvent) (w : W) :
    event_tid event = Some UINT32_MAX ->
    if is_push_or_pop event && negb (not_started (attach_state w))
    then cuda_process_event L api event w
         = Done tt (log_api Api_get_attach_state w)
    else exists w',
      cuda_process_event L api event w = Throw (Error invalid_thread_id) w' /\
      cuda_system_info w' = cuda_system_info w /\
      heap w' = heap w /\
      current_context w' = current_context w /\
      host_calls w' = host_calls w.
Proof.
    destruct event; try discriminate; cbn [event_tid]; intros [= ->];
      cbn [is_push_or_pop andb].
    - eexists. split; [reflexivity|]. done.
    - destruct (attach_state w) eqn:E; cbn [not_started negb];
        unfold cuda_process_event, cuda_event_push_context,
          cuda_api_get_attach_state, bind, modify, gets; cbn; rewrite E; cbn;
        first [reflexivity | eexists; split; [reflexivity|done]].
    - destruct (attach_state w) eqn:E; cbn [not_started negb];
        unfold cuda_process_event, cuda_event_pop_context,
          cuda_api_get_attach_state, bind, modify, gets; cbn; rewrite E; cbn;
        first [reflexivity | eexists; split; [reflexivity|done]].
    - eexists. split; [reflexivity|]. done.
    - eexists. split; [reflexivity|]. done.
Qed.
End InvalidThreadId.

Section DestroyContext.
Context {HW : Type} (L : limits) (api : debug_api HW).
Import Events.
Local Abbreviation W := (world HW).
Implicit Type w : W.

Lemma assert_dev_ready w dev_id D reg :
    registry_at w dev_id D reg ->
    State.assert_dev L api dev_id w = Done tt w.
Proof.
    intros (Hi & Hp & Hlt & _).
    unfold State.assert_dev, State.cuda_system_get_num_devices.
    msimpl. rewrite Hi. cbn [negb]. msimpl. rewrite Hp. msimpl.
    apply Nat.ltb_lt in Hlt. by rewrite Hlt.
Qed.

Lemma read_dev_ready w dev_id D reg :
    registry_at w dev_id D reg -> State.read_dev dev_id w = Done D w.
Proof.
    intros (_ & _ & _ & Hd & _). unfold State.read_dev. msimpl. by rewrite Hd.
Qed.

Lemma device_get_contexts_ready w dev_id D reg :
    registry_at w dev_id D reg ->
    State.device_get_contexts L api dev_id w = Done dev_id w.
Proof.
    intros H. unfold State.device_get_contexts.
    rewrite (bind_done _ _ _ _ _ (assert_dev_ready _ _ _ _ H)).
    rewrite (bind_done _ _ _ _ _ (read_dev_ready _ _ _ _ H)).
    destruct H as (_ & _ & _ & _ & ->). done.
Qed.

Lemma read_contexts_ready w dev_id D reg :
    registry_at w dev_id D reg ->
    State.read_contexts dev_id w = Done reg w.
Proof.
    intros H. unfold State.read_contexts.
    rewrite (bind_done _ _ _ _ _ (read_dev_ready _ _ _ _ H)).
    destruct H as (_ & _ & _ & _ & ->). done.
Qed.

Lemma registry_at_frame w w' dev_id D reg :
    cuda_initialized w' = cuda_initialized w ->
    cuda_system_info w' = cuda_system_info w ->
    registry_at w dev_id D reg -> registry_at w' dev_id D reg.
Proof. unfold registry_at. by intros -> ->. Qed.

Lemma write_contexts_ready w dev_id D reg c :
    registry_at w dev_id D reg ->
    registry_at
      (set_system (State.update_dev (Dev.set_contexts (Some c)) dev_id
                                    (cuda_system_info w)) w)
      dev_id (Dev.set_contexts (Some c) D) c.
Proof.
    intros (Hi & Hp & Hlt & Hd & Hc). unfold registry_at. cbn.
    rewrite list_lookup_alter_eq, Hd. done.
Qed.

Lemma destroy_tail_spec w dev_id D reg a context_id :
    registry_at w dev_id D reg ->
    Some a ∈ ctx_list reg ->
    exists w',
      destroy_tail dev_id context_id (Some a) w = Done tt w' /\
      host_calls w'
        = host_calls w
          ++ [Cuda_cleanup_auto_breakpoints context_id;
              Cuda_unresolve_breakpoints context_id;
              Contexts_remove_context (Some a); Context_delete (Some a)]
          ++ (if cuda_options_show_context_events (opts w)
              then [Printf_unfiltered "Context Destroy" context_id dev_id]
              else []) /\
      current_context w' = current_context w /\
      State.read_contexts dev_id w'
        = Done (mkContexts (Context.remove_first (Some a) (ctx_list reg))
                           (ctx_stacks reg)) w' /\
      heap w' = delete a (heap w).
Proof.
    intros Hreg Hin.
    unfold destroy_tail, host, Context.contexts_remove_context,
Context.context_delete, show_context_event, Context.write_contexts,
      State.modify_dev, State.modify_system.
    msimpl.
    set (w2 := log_host _ (log_host _ (log_host _ w))).
    assert (Hreg2 : registry_at w2 dev_id D reg)
      by (by eapply registry_at_frame; [| |exact Hreg]).
    rewrite (bind_done _ _ _ _ _ (read_contexts_ready _ _ _ _ Hreg2)).
    rewrite bool_decide_eq_true_2 by exact Hin. msimpl.
    pose proof (write_contexts_ready _ _ _ _
      (mkContexts (Context.remove_first (Some a) (ctx_list reg))
                  (ctx_stacks reg)) Hreg2) as Hreg3.
    set (w3 := set_system _ w2) in *.
    change (opts (set_heap _ _ _)) with (opts w).
    destruct (cuda_options_show_context_events (opts w)) eqn:Eo;
      (eexists; split; [reflexivity|];
       split; [cbn; rewrite <- ?app_assoc; reflexivity|];
       split; [reflexivity|]; split; [|reflexivity];
       eapply read_contexts_ready, registry_at_frame; [| |exact Hreg3];
       reflexivity).
Qed.

  (** C6.  On CTX_DESTROY (dev, ctx, tid) for a context of the device's
      registry, with a thread id other than [~0U]: the context is popped
      from the stack of [tid] if it is on top of it; the current-context
      pointer is set to null if it points to the context; then the
      auto-breakpoints of the context are removed and its breakpoints
      unresolved; and only then is the context taken out of the registry
      and deleted.  The order is that of [destroy_calls]. *)
Theorem destroy_context_order (w : W) (dev_id : nat) (context_id tid : Z)
      (D : Dev.t) (reg : contexts_st) (a : nat) :
    tid <> UINT32_MAX ->
    registry_at w dev_id D reg ->
    List.find (Context.has_id (heap w) context_id) (ctx_list reg) = Some (Some a) ->
    exists w',
      cuda_event_destroy_context L api dev_id context_id tid w = Done tt w' /\
      host_calls w' = host_calls w ++ destroy_calls w reg dev_id context_id tid (Some a) /\
      current_context w'
        = (if bool_decide (Some a = current_context w) then None else current_context w) /\
      State.read_contexts dev_id w'
        = Done (registry_after_destroy reg tid (Some a)) w' /\
      heap w' = delete a (heap w).
Proof.
    intros Htid Hreg Hfind.
    assert (Hin : Some a ∈ ctx_list reg).
    { apply list_elem_of_In. eapply find_some, Hfind. }
    unfold cuda_event_destroy_context.
    apply Z.eqb_neq in Htid. rewrite Htid. msimpl.
    rewrite (bind_done _ _ _ _ _ (device_get_contexts_ready _ _ _ _ Hreg)).
    unfold Context.contexts_find_context_by_id. msimpl.
    rewrite (bind_done _ _ _ _ _ (read_contexts_ready _ _ _ _ Hreg)). msimpl.
    rewrite Hfind. unfold default, from_option, id.
    unfold Context.contexts_get_active_context. msimpl.
    rewrite (bind_done _ _ _ _ _ (read_contexts_ready _ _ _ _ Hreg)). msimpl.
    fold (top_of reg tid).
    fold (destroy_tail (HW := HW) dev_id context_id).
    unfold destroy_calls, registry_after_destroy.
    destruct (decide (top_of reg tid = Some a)) as [Et|Et];
      [rewrite !(bool_decide_eq_true_2 _ Et)
      |rewrite !(bool_decide_eq_false_2 _ Et)].
    - (* the context is on top of the thread's stack: pop *)
      unfold Context.contexts_unstack_context, Context.write_contexts,
        State.modify_dev, State.modify_system. msimpl.
      assert (Hreg' : registry_at (log_host (Contexts_unstack_context tid) w)
                                  dev_id D reg)
        by (by eapply registry_at_frame).
      rewrite (bind_done _ _ _ _ _ (read_contexts_ready _ _ _ _ Hreg')).
      unfold top_of in Et.
      destruct (Context.stack_of reg tid) as [|top rest]; [done|]. subst top.
      msimpl. cbn [tail].
      pose proof (write_contexts_ready _ _ _ _
        (mkContexts (ctx_list reg) (<[tid:=rest]> (ctx_stacks reg))) Hreg') as Hreg1.
      set (w1 := set_system _ _) in *.
      unfold Context.get_current_context, Context.set_current_context. msimpl.
      change (current_context w1) with (current_context w).
      destruct (decide (Some a = current_context w)) as [Ec|Ec];
        [rewrite !(bool_decide_eq_true_2 _ Ec)
        |rewrite !(bool_decide_eq_false_2 _ Ec)]; msimpl.
      + set (w2 := set_context_focus _ _ _).
        assert (Hreg2 : registry_at w2 dev_id _ _)
          by (by eapply registry_at_frame; [| |exact Hreg1]).
        destruct (destroy_tail_spec w2 dev_id _ _ a context_id Hreg2 Hin)
          as (w' & Hrun & Hcalls & Hcur & Hregs & Hheap).
        exists w'. split; [exact Hrun|]. rewrite Hcalls, Hcur, Hregs, Hheap.
        split; [cbn; rewrite <- ?app_assoc; reflexivity|]. done.
      + assert (Hreg2 : registry_at w1 dev_id _ _) by exact Hreg1.
        destruct (destroy_tail_spec w1 dev_id _ _ a context_id Hreg2 Hin)
          as (w' & Hrun & Hcalls & Hcur & Hregs & Hheap).
        exists w'. split; [exact Hrun|]. rewrite Hcalls, Hcur, Hregs, Hheap.
        split; [cbn; rewrite <- ?app_assoc; reflexivity|]. done.
    - (* another context, or none, is active for the thread *)
      unfold Context.get_current_context, Context.set_current_context. msimpl.
      destruct (decide (Some a = current_context w)) as [Ec|Ec];
        [rewrite !(bool_decide_eq_true_2 _ Ec)
        |rewrite !(bool_decide_eq_false_2 _ Ec)]; msimpl.
      + set (w2 := set_context_focus _ _ _).
        assert (Hreg2 : registry_at w2 dev_id _ _)
          by (by eapply registry_at_frame; [| |exact Hreg]).
        destruct (destroy_tail_spec w2 dev_id _ _ a context_id Hreg2 Hin)
          as (w' & Hrun & Hcalls & Hcur & Hregs & Hheap).
        exists w'. split; [exact Hrun|]. rewrite Hcalls, Hcur, Hregs, Hheap.
        split; [cbn; rewrite <- ?app_assoc; reflexivity|]. by destruct reg.
      + destruct (destroy_tail_spec w dev_id _ _ a context_id Hreg Hin)
          as (w' & Hrun & Hcalls & Hcur & Hregs & Hheap).
        exists w'. split; [exact Hrun|]. rewrite Hcalls, Hcur, Hregs, Hheap.
        split; [cbn; rewrite <- ?app_assoc; reflexivity|]. by destruct reg.
Qed.
End DestroyContext.

Section InfoCuda.
Context {HW : Type}.
Import Commands.
Local Abbreviation W := (world HW).
Implicit Type w : W.

Lemma run_info_cuda_command_restores command arg w :
    keeps_saved command ->
    same_focus w (world_of (run_info_cuda_command command arg w)).
Proof.
    intros Hk. unfold run_info_cuda_command, Context.save_current_context,
      cuda_save_focus. msimpl.
    set (w1 := set_focus _ _ _).
    destruct (Hk arg w1) as [Hf Hc].
    unfold with_cleanup, cleanup_info_cuda_command,
Context.restore_current_context, cuda_restore_focus.
    destruct (command arg w1) as [[] w2|e w2]; cbn [world_of] in Hf, Hc;
      msimpl; rewrite Hc; cbn; msimpl;
      change (saved_focus (set_context_focus _ _ w2)) with (saved_focus w2);
      rewrite Hf; cbn; done.
Qed.

Lemma map_arg_to_command_elem t arg command argument :
    map_arg_to_command (HW := HW) t arg = Some (command, argument) ->
    exists name, (name, command) ∈ t.
Proof.
    induction t as [|[name cmd] rest IH]; cbn; [done|].
    destruct (strip_prefix name arg).
    - intros [= <- <-]. exists name. left.
    - intros H. destruct (IH H) as [n Hn]. exists n. by right.
Qed.

  (** C10.  Whatever sub-command "info cuda" dispatches to, returning or
      raising, the focus and the current context are afterwards what
      they were before, and so are the two save stacks; of the
      sub-commands it is only assumed that they leave the save stacks as
      they found them. *)
Theorem info_cuda_keeps_focus (cmds : info_commands) (arg : option string) (w : W) :
    all_keep_saved cmds ->
    same_focus w (world_of (info_cuda_command cmds arg w)).
Proof.
    intros (H1 & H2 & H3 & H4 & H5 & H6 & H7).
    unfold info_cuda_command.
    destruct arg as [a|]; [|done].
    destruct (map_arg_to_command (table cmds) a) as [[command argument]|] eqn:E;
      [|done].
    apply run_info_cuda_command_restores.
    destruct (map_arg_to_command_elem _ _ _ _ E) as [name Hn].
    unfold table in Hn.
    apply list_elem_of_In in Hn. cbn in Hn.
    repeat (destruct Hn as [[= _ <-]|Hn]; [assumption|]).
    destruct Hn.
Qed.
End InfoCuda.

(** ** The theorems at sample inputs *)

Lemma sample_descriptors : descriptors w_counted 0 1 2 3.
Proof.
  split; [by vm_compute|].
  split; [|split]; exists (dev_of w_counted); by vm_compute.
Defined.

(** The sample session is reachable: the mirror is initialised, an
    event creates a context, the counts of device 0 are fetched and the
    device is suspended. *)
Lemma w_session_reachable : reachable L0 api0 w_session.
Proof.
  apply (closed_cuda_process_event L0 api0
           (Events.CUDBG_EVENT_CTX_CREATE 0 5 7)
           (world_of (Context.cuda_system_initialize L0 api0 w_boot)) tt);
    [|vm_compute; reflexivity].
  apply (reach_call L0 api0 w_boot Op_system_initialize tt);
    [by apply reach_boot|vm_compute; reflexivity].
Qed.
Lemma w_suspended_reachable : reachable L0 api0 w_suspended.
Proof.
  apply (reach_call L0 api0
           (world_of (State.warp_invalidate L0 api0 0 0 0 w_session))
           (Op_device_suspend 0) tt); [|vm_compute; reflexivity].
  apply (reach_call L0 api0
           (world_of (run_op L0 api0 (Op_device_get_num_warps 0)
              (world_of (run_op L0 api0 (Op_device_get_num_sms 0) w_session))))
           (Op_device_get_num_lanes 0) tt); [|vm_compute; reflexivity].
  apply (reach_call L0 api0
           (world_of (run_op L0 api0 (Op_device_get_num_sms 0) w_session))
           (Op_device_get_num_warps 0) tt); [|vm_compute; reflexivity].
  apply (reach_call L0 api0 w_session (Op_device_get_num_sms 0) tt);
    [|vm_compute; reflexivity].
  apply w_session_reachable.
Qed.



Lemma invalid_thread_id_is_fatal_witness :
  exists w',
    Events.cuda_process_event L0 api0
      (Events.CUDBG_EVENT_CTX_CREATE 0 5 UINT32_MAX) w_boot
    = Throw (Error Events.invalid_thread_id) w' /\
    cuda_system_info w' = cuda_system_info w_boot /\
    heap w' = heap w_boot /\
    current_context w' = current_context w_boot /\
    host_calls w' = host_calls w_boot.
Proof.
  exact (invalid_thread_id_is_fatal L0 api0
           (Events.CUDBG_EVENT_CTX_CREATE 0 5 UINT32_MAX) w_boot eq_refl).
Defined.

(** C4 as the document words it fails for CTX_PUSH while an attach is in
    progress: the event is dropped and the handler returns. *)
Lemma invalid_thread_id_is_fatal_counterexample :
  Events.cuda_process_event L0 api0
    (Events.CUDBG_EVENT_CTX_PUSH 0 5 UINT32_MAX) w_attaching
  = Done tt (log_api Api_get_attach_state w_attaching) /\
  ~ invalid_tid_fatal_as_stated L0 api0
      (Events.CUDBG_EVENT_CTX_PUSH 0 5 UINT32_MAX) w_attaching.
Proof.
  split; [reflexivity|]. intros H. destruct (H eq_refl) as [w' E].
  vm_compute in E. discriminate.
Qed.



Lemma destroy_context_order_witness :
  registry_at w_session 0 (dev_of w_session) (registry_of w_session) /\
  exists w',
    Events.cuda_event_destroy_context L0 api0 0 5 7 w_session = Done tt w' /\
    host_calls w'
    = host_calls w_session
      ++ destroy_calls w_session (registry_of w_session) 0 5 7 (Some 0%nat) /\
    current_context w'
    = (if bool_decide (Some 0%nat = current_context w_session)
       then None else current_context w_session) /\
    State.read_contexts 0%nat w'
    = Done (registry_after_destroy (registry_of w_session) 7 (Some 0%nat)) w' /\
    heap w' = delete 0%nat (heap w_session).
Proof.
  assert (H : registry_at w_session 0 (dev_of w_session) (registry_of w_session)).
  { repeat split; by vm_compute. }
  split; [exact H|].
  apply (destroy_context_order L0 api0 w_session 0 5 7 (dev_of w_session)
           (registry_of w_session) 0%nat); [by vm_compute|exact H|by vm_compute].
Defined.

(** The sample port keeps the contract. *)
Lemma stepped_in_cons h x d i j :
  (d, i, j) <> x -> stepped_in (x :: h) d i j = stepped_in h d i j.
Proof.
  intros Hne. unfold stepped_in. apply bool_decide_ext. split.
  - intros [E|Hin]%elem_of_cons; [by destruct Hne|done].
  - intros Hin. apply elem_of_cons. by right.
Qed.
Lemma stepped_in_resume h d d' i j :
  d' <> d ->
  stepped_in (filter (fun x => x.1.1 <> d) h) d' i j = stepped_in h d' i j.
Proof.
  intros Hne. unfold stepped_in. apply bool_decide_ext. split.
  - by intros [_ Hin]%list_elem_of_filter.
  - intros Hin. by apply list_elem_of_filter.
Qed.
Lemma api_steps_contract : port_contract api_steps.
Proof.
  split; [|split; [|split]].
  - intros h d i j. unfold port_active_lanes, port_valid_lanes, mask_subset.
    cbn [api_read_active_lanes api_read_valid_lanes api_steps].
    destruct (stepped_in h d i j); reflexivity.
  - intros h d i j d' i'. cbn [api_single_step_warp api_steps].
    destruct (j <? 2)%nat eqn:Hj; cbn [fst snd];
      (split; [done|]); intros j' Hb; [|done].
    unfold warp_reads, port_valid_warps, port_valid_lanes, port_active_lanes.
    cbn [api_read_valid_warps api_read_valid_lanes api_read_active_lanes
         api_steps].
    rewrite stepped_in_cons; [done|]. intros [= -> -> ->].
    destruct Hb as [?|[_ [?|Hb]]]; [done|done|].
    apply Nat.ltb_lt in Hj.
    destruct j as [|[|j]]; [by vm_compute in Hb|by vm_compute in Hb|lia].
  - intros h d. apply same_masks_refl.
  - intros h d d' i' Hne. split; [done|]. intros j'.
    unfold warp_reads, port_valid_warps, port_valid_lanes, port_active_lanes.
    cbn [api_read_valid_warps api_read_valid_lanes api_read_active_lanes
         api_resume_device api_steps].
    by rewrite stepped_in_resume.
Qed.
Lemma v_both_read_reachable : reachable L0 api_steps v_both_read.
Proof.
  apply (reach_call L0 api_steps v_stepped
           (Op_warp_get_active_lanes_mask 0 0 0) tt);
    [|vm_compute; reflexivity].
  apply (reach_call L0 api_steps v_valid_read (Op_warp_single_step 0 0 1) tt);
    [|vm_compute; reflexivity].
  apply (reach_call L0 api_steps v_boot (Op_warp_get_valid_lanes_mask 0 0 0) tt);
    [|vm_compute; reflexivity].
  by apply reach_boot.
Qed.


(** The frame cannot be left out of the contract.  The port [api0]
    never reports an active lane that is not valid, but its single-step
    of warp 1 changes the lanes of warp 0 without reporting it: the
    valid mask of warp 0, cached before the step, then misses a lane of
    the active mask fetched after it. *)
Lemma nested_port_is_not_enough :
  port_nested api0 /\ ~ step_frame api0 /\ reachable L0 api0 w_stale /\
  Warp.valid_lanes_mask (warp_of w_stale) = 3 /\
  Warp.active_lanes_mask (warp_of w_stale) = 7 /\
  ~ lanes_nested_as_stated L0 api0 w_stale.
Proof.
  split.
  { intros h d i j. unfold port_active_lanes, port_valid_lanes, mask_subset.
    cbn [api_read_active_lanes api_read_valid_lanes api0].
    destruct (h =? 0)%nat; reflexivity. }
  split.
  { intros Hf. destruct (Hf 0%nat 0%nat 0%nat 1%nat 0%nat 0%nat) as [_ H].
    specialize (H 0%nat). cbn in H.
    assert (E : warp_reads api0 1%nat 0 0 0 = warp_reads api0 0%nat 0 0 0).
    { apply H. right. split; [by vm_compute|]. right. by vm_compute. }
    vm_compute in E. discriminate. }
  split.
  { apply (reach_call L0 api0 w_stepped (Op_warp_get_active_lanes_mask 0 0 0) tt);
      [|vm_compute; reflexivity].
    apply (reach_call L0 api0 w_valid_read (Op_warp_single_step 0 0 1) tt);
      [|vm_compute; reflexivity].
    apply (reach_call L0 api0 w_boot (Op_warp_get_valid_lanes_mask 0 0 0) tt);
      [|vm_compute; reflexivity].
    by apply reach_boot. }
  split; [by vm_compute|]. split; [by vm_compute|].
  intros H.
  assert (E := H 0%nat 0%nat 0%nat (warp_of w_stale)
                 (world_of (State.warp_is_valid L0 api0 0 0 0 w_stale))).
  assert (E' : mask_subset 7 3).
  { apply E; by vm_compute. }
  vm_compute in E'. discriminate.
Qed.

Lemma info_cuda_keeps_focus_witness :
  all_keep_saved sample_commands /\
  current_coords (world_of (Commands.info_cuda_kernels_command sample_commands
                              "" w_boot)) = coords1 /\
  same_focus w_boot
    (world_of (Commands.info_cuda_command sample_commands (Some "kernels")
                 w_boot)).
Proof.
  assert (H : all_keep_saved sample_commands).
  { repeat split. }
  split; [exact H|]. split; [reflexivity|].
  apply (info_cuda_keeps_focus sample_commands (Some "kernels") w_boot H).
Defined.
